(** * Tree-sequence tables: the table sorter and the simplifier

    A shallow embedding of [lib/table.c]: the column tables, [sort_tables]
    and the simplifier ([simplifier_alloc], [simplifier_run] and the helpers
    they call), followed by the properties proved about them.

    Conventions of the embedding.
    - [double] values (coordinates and times) are only compared and copied by
      this code, never computed with.  They are modelled by [Z], to which the
      non-NaN doubles embed in an order-preserving way.
    - [node_id_t], [site_id_t] and [population_id_t] are signed 32-bit
      integers, modelled by [Z]; the casts from [size_t] are written out
      ([cast_node_id]).  [uint32_t] arithmetic is written with its
      wrap-around ([wrap_uint32]).
    - A column of a table is a list whose length is the allocated capacity;
      [realloc] keeps the old cells and adds fresh ones.  A column pointer is
      [NULL] exactly when its capacity is still zero ([memset] at [*_alloc]).
    - A chain of [simplify_segment_t] linked through [next] is a list of
      segments; no two chains share a cell in the code, so lists model them.
    - [malloc] and [realloc] never fail: [MSP_ERR_NO_MEMORY] is not produced.
    - A violated [assert] and an out-of-range array access are the outcome
      [Crash]; a loop that would not end is [OutOfFuel]. *)

From stdpp Require Import base tactics option list sorting numbers sets gmap.
From Stdlib Require Import ZArith Lia.
From Stdlib.Strings Require Import Byte.

Local Open Scope Z_scope.

(** ** Error codes and outcomes *)

Inductive error : Type :=
  | MSP_ERR_GENERIC
  | MSP_ERR_NO_MEMORY
  | MSP_ERR_BAD_PARAM_VALUE
  | MSP_ERR_OUT_OF_BOUNDS
  | MSP_ERR_BAD_SAMPLES
  | MSP_ERR_DUPLICATE_SAMPLE
  | MSP_ERR_RECORDS_NOT_TIME_SORTED.

Inductive outcome (A : Type) : Type :=
  | Ok (a : A)          (* the function returned 0 *)
  | Err (e : error)     (* the function returned the error code [e] *)
  | Crash               (* assertion violated or undefined access *)
  | OutOfFuel.          (* the loop bound of the model was reached *)

Arguments Ok {A} a.
Arguments Err {A} e.
Arguments Crash {A}.
Arguments OutOfFuel {A}.

Definition outcome_bind {A B} (f : A -> outcome B) (m : outcome A) : outcome B :=
  match m with
  | Ok a => f a
  | Err e => Err e
  | Crash => Crash
  | OutOfFuel => OutOfFuel
  end.

#[global] Instance outcome_mbind : MBind outcome := @outcome_bind.
#[global] Instance outcome_mret : MRet outcome := @Ok.

(** Reading a cell of an array: outside the allocation the behaviour is
    undefined. *)
Definition read {A} (l : list A) (i : nat) : outcome A :=
  match l !! i with
  | Some a => Ok a
  | None => Crash
  end.

Definition readz {A} (l : list A) (i : Z) : outcome A :=
  if i <? 0 then Crash else read l (Z.to_nat i).

Definition assert (b : bool) : outcome unit :=
  if b then Ok tt else Crash.

(** ** Machine integers and doubles *)

Definition double : Type := Z.
Definition node_id_t : Type := Z.
Definition site_id_t : Type := Z.
Definition population_id_t : Type := Z.

Definition wrap_uint32 (z : Z) : Z := z mod 2 ^ 32.

Definition wrap_int32 (z : Z) : Z := (z + 2 ^ 31) mod 2 ^ 32 - 2 ^ 31.

(** [(node_id_t) n] for [n : size_t]. *)
Definition cast_node_id (n : nat) : node_id_t := wrap_int32 (Z.of_nat n).

(** [(site_id_t) n] for [n : size_t]. *)
Definition cast_site_id (n : nat) : site_id_t := wrap_int32 (Z.of_nat n).

(** [(a > b) - (a < b)], the body of every comparator. *)
Definition cmp3 (a b : Z) : Z :=
  (if b <? a then 1 else 0) - (if a <? b then 1 else 0).

Definition MSP_NODE_IS_SAMPLE : Z := 1.

(** ** Columns *)

(** [realloc(column, new_max_rows * element_size)]. *)
Definition expand_column {A} (fresh : A) (new_max_rows : nat) (column : list A)
  : list A :=
  resize new_max_rows fresh column.

(** [memcpy(dst + off, src, n * sizeof)]. *)
Definition memcpy {A} (dst : list A) (off : nat) (src : list A) (n : nat)
  : list A :=
  list_inserts off (take n src) dst.

(** The cells [off .. off+n-1] of an array, as a pointer [mem + off] of
    length [n] denotes them. *)
Definition slice {A} (mem : list A) (off n : nat) : list A :=
  take n (drop off mem).

(** A column pointer as an argument: [NULL] while nothing was allocated. *)
Definition column_ptr {A} (capacity : nat) (column : list A) : option (list A) :=
  if Nat.eqb capacity 0 then None else Some column.

(** ** Node table *)

Record node_table_t : Type := mk_node_table {
  nt_max_rows_increment : nat;
  nt_max_total_name_length_increment : nat;
  nt_max_rows : nat;
  nt_num_rows : nat;
  nt_max_total_name_length : nat;
  nt_total_name_length : nat;
  nt_flags : list Z;
  nt_time : list double;
  nt_population : list population_id_t;
  nt_name : list byte;
  nt_name_length : list nat
}.

Definition node_table_alloc (max_rows_increment
    max_total_name_length_increment : nat) : outcome node_table_t :=
  if Nat.eqb max_rows_increment 0 || Nat.eqb max_total_name_length_increment 0
  then Err MSP_ERR_BAD_PARAM_VALUE
  else Ok (mk_node_table max_rows_increment max_total_name_length_increment
             0 0 0 0 [] [] [] [] []).

Definition node_table_expand_fixed_columns (self : node_table_t)
    (new_size : nat) : node_table_t :=
  if Nat.ltb (nt_max_rows self) new_size then
    mk_node_table (nt_max_rows_increment self)
      (nt_max_total_name_length_increment self)
      new_size (nt_num_rows self)
      (nt_max_total_name_length self) (nt_total_name_length self)
      (expand_column 0 new_size (nt_flags self))
      (expand_column 0 new_size (nt_time self))
      (expand_column 0 new_size (nt_population self))
      (nt_name self)
      (expand_column 0%nat new_size (nt_name_length self))
  else self.

Definition node_table_expand_name (self : node_table_t) (new_size : nat)
  : node_table_t :=
  if Nat.ltb (nt_max_total_name_length self) new_size then
    mk_node_table (nt_max_rows_increment self)
      (nt_max_total_name_length_increment self)
      (nt_max_rows self) (nt_num_rows self)
      new_size (nt_total_name_length self)
      (nt_flags self) (nt_time self) (nt_population self)
      (expand_column x00 new_size (nt_name self))
      (nt_name_length self)
  else self.

Definition node_table_set_columns (self : node_table_t) (num_rows : nat)
    (flags : option (list Z)) (time : option (list double))
    (population : option (list population_id_t))
    (name : option (list byte)) (name_length : option (list nat))
  : outcome node_table_t :=
  match flags, time with
  | Some flags, Some time =>
    if negb (Bool.eqb (bool_decide (name = None)) (bool_decide (name_length = None)))
    then Err MSP_ERR_BAD_PARAM_VALUE
    else
      let self := node_table_expand_fixed_columns self num_rows in
      let flags' := memcpy (nt_flags self) 0 flags num_rows in
      let time' := memcpy (nt_time self) 0 time num_rows in
      let self :=
        match name, name_length with
        | Some name, Some name_length =>
          let name_length' := memcpy (nt_name_length self) 0 name_length num_rows in
          let total_name_length := sum_list (take num_rows name_length) in
          let self := node_table_expand_name self total_name_length in
          mk_node_table (nt_max_rows_increment self)
            (nt_max_total_name_length_increment self)
            (nt_max_rows self) (nt_num_rows self)
            (nt_max_total_name_length self) total_name_length
            flags' time' (nt_population self)
            (memcpy (nt_name self) 0 name total_name_length)
            name_length'
        | _, _ =>
          mk_node_table (nt_max_rows_increment self)
            (nt_max_total_name_length_increment self)
            (nt_max_rows self) (nt_num_rows self)
            (nt_max_total_name_length self) 0%nat
            flags' time' (nt_population self) (nt_name self)
            (memcpy (nt_name_length self) 0 (replicate num_rows 0%nat) num_rows)
        end in
      let population' :=
        match population with
        | None => memcpy (nt_population self) 0 (replicate num_rows (-1)) num_rows
        | Some population => memcpy (nt_population self) 0 population num_rows
        end in
      Ok (mk_node_table (nt_max_rows_increment self)
            (nt_max_total_name_length_increment self)
            (nt_max_rows self) num_rows
            (nt_max_total_name_length self) (nt_total_name_length self)
            (nt_flags self) (nt_time self) population' (nt_name self)
            (nt_name_length self))
  | _, _ => Err MSP_ERR_BAD_PARAM_VALUE
  end.

Definition node_table_add_row_internal (self : node_table_t) (flags : Z)
    (time : double) (population : population_id_t) (name_length : nat)
    (name : list byte) : outcome node_table_t :=
  _ ← assert (Nat.ltb (nt_num_rows self) (nt_max_rows self));
  _ ← assert (Nat.ltb (nt_total_name_length self + name_length)
                      (nt_max_total_name_length self));
  Ok (mk_node_table (nt_max_rows_increment self)
        (nt_max_total_name_length_increment self)
        (nt_max_rows self) (S (nt_num_rows self))
        (nt_max_total_name_length self)
        (nt_total_name_length self + name_length)
        (<[nt_num_rows self := flags]> (nt_flags self))
        (<[nt_num_rows self := time]> (nt_time self))
        (<[nt_num_rows self := population]> (nt_population self))
        (memcpy (nt_name self) (nt_total_name_length self) name name_length)
        (<[nt_num_rows self := name_length]> (nt_name_length self))).

Definition node_table_reset (self : node_table_t) : node_table_t :=
  mk_node_table (nt_max_rows_increment self)
    (nt_max_total_name_length_increment self)
    (nt_max_rows self) 0
    (nt_max_total_name_length self) 0
    (nt_flags self) (nt_time self) (nt_population self) (nt_name self)
    (nt_name_length self).

(** ** Edgeset table *)

Record edgeset_table_t : Type := mk_edgeset_table {
  et_max_rows_increment : nat;
  et_max_total_children_length_increment : nat;
  et_max_rows : nat;
  et_num_rows : nat;
  et_max_total_children_length : nat;
  et_total_children_length : nat;
  et_left : list double;
  et_right : list double;
  et_parent : list node_id_t;
  et_children : list node_id_t;
  et_children_length : list nat
}.

Definition edgeset_table_expand_main_columns (self : edgeset_table_t)
    (new_size : nat) : edgeset_table_t :=
  if Nat.ltb (et_max_rows self) new_size then
    mk_edgeset_table (et_max_rows_increment self)
      (et_max_total_children_length_increment self)
      new_size (et_num_rows self)
      (et_max_total_children_length self) (et_total_children_length self)
      (expand_column 0 new_size (et_left self))
      (expand_column 0 new_size (et_right self))
      (expand_column 0 new_size (et_parent self))
      (et_children self)
      (expand_column 0%nat new_size (et_children_length self))
  else self.

Definition edgeset_table_expand_children (self : edgeset_table_t)
    (new_size : nat) : edgeset_table_t :=
  if Nat.ltb (et_max_total_children_length self) new_size then
    mk_edgeset_table (et_max_rows_increment self)
      (et_max_total_children_length_increment self)
      (et_max_rows self) (et_num_rows self)
      new_size (et_total_children_length self)
      (et_left self) (et_right self) (et_parent self)
      (expand_column 0 new_size (et_children self))
      (et_children_length self)
  else self.

(** The [while] of [edgeset_table_add_row] that grows the children column
    until the new row fits. *)
Fixpoint edgeset_table_grow_children (fuel : nat) (self : edgeset_table_t)
    (children_length : nat) : outcome edgeset_table_t :=
  if Nat.leb (et_max_total_children_length self)
             (et_total_children_length self + children_length) then
    match fuel with
    | O => OutOfFuel
    | S fuel =>
      edgeset_table_grow_children fuel
        (edgeset_table_expand_children self
           (et_max_total_children_length self
            + et_max_total_children_length_increment self))
        children_length
    end
  else Ok self.

Definition edgeset_table_add_row (self : edgeset_table_t) (left right : double)
    (parent : node_id_t) (children : list node_id_t) (children_length : nat)
  : outcome edgeset_table_t :=
  if Nat.eqb children_length 0 then Err MSP_ERR_BAD_PARAM_VALUE
  else
    let self :=
      if Nat.eqb (et_num_rows self) (et_max_rows self) then
        edgeset_table_expand_main_columns self
          (et_max_rows self + et_max_rows_increment self)
      else self in
    self ← edgeset_table_grow_children
             (S (et_total_children_length self + children_length))
             self children_length;
    Ok (mk_edgeset_table (et_max_rows_increment self)
          (et_max_total_children_length_increment self)
          (et_max_rows self) (S (et_num_rows self))
          (et_max_total_children_length self)
          (et_total_children_length self + children_length)
          (<[et_num_rows self := left]> (et_left self))
          (<[et_num_rows self := right]> (et_right self))
          (<[et_num_rows self := parent]> (et_parent self))
          (memcpy (et_children self) (et_total_children_length self)
                  children children_length)
          (<[et_num_rows self := children_length]> (et_children_length self))).

Definition edgeset_table_reset (self : edgeset_table_t) : edgeset_table_t :=
  mk_edgeset_table (et_max_rows_increment self)
    (et_max_total_children_length_increment self)
    (et_max_rows self) 0
    (et_max_total_children_length self) 0
    (et_left self) (et_right self) (et_parent self) (et_children self)
    (et_children_length self).

(** ** Site table *)

Record site_table_t : Type := mk_site_table {
  st_max_rows_increment : nat;
  st_max_total_ancestral_state_length_increment : nat;
  st_max_rows : nat;
  st_num_rows : nat;
  st_max_total_ancestral_state_length : nat;
  st_total_ancestral_state_length : nat;
  st_position : list double;
  st_ancestral_state : list byte;
  st_ancestral_state_length : list nat
}.

Definition site_table_reset (self : site_table_t) : site_table_t :=
  mk_site_table (st_max_rows_increment self)
    (st_max_total_ancestral_state_length_increment self)
    (st_max_rows self) 0
    (st_max_total_ancestral_state_length self) 0
    (st_position self) (st_ancestral_state self)
    (st_ancestral_state_length self).

(** ** Mutation table *)

Record mutation_table_t : Type := mk_mutation_table {
  mt_max_rows_increment : nat;
  mt_max_total_derived_state_length_increment : nat;
  mt_max_rows : nat;
  mt_num_rows : nat;
  mt_max_total_derived_state_length : nat;
  mt_total_derived_state_length : nat;
  mt_site : list site_id_t;
  mt_node : list node_id_t;
  mt_derived_state : list byte;
  mt_derived_state_length : list nat
}.

Definition mutation_table_reset (self : mutation_table_t) : mutation_table_t :=
  mk_mutation_table (mt_max_rows_increment self)
    (mt_max_total_derived_state_length_increment self)
    (mt_max_rows self) 0
    (mt_max_total_derived_state_length self) 0
    (mt_site self) (mt_node self) (mt_derived_state self)
    (mt_derived_state_length self).


(** ** sort_tables *)

Record edgeset_sort_t : Type := mk_edgeset_sort {
  es_left : double;
  es_right : double;
  es_parent : node_id_t;
  es_children_length : nat;
  es_children : list node_id_t;   (* the cells [children] points to *)
  es_time : double
}.

Record site_t : Type := mk_site {
  site_id : site_id_t;
  site_position : double;
  site_ancestral_state_length : nat;
  site_ancestral_state : list byte
}.

Record mutation_t : Type := mk_mutation {
  mutation_site : site_id_t;
  mutation_node : node_id_t;
  mutation_derived_state_length : nat;
  mutation_derived_state : list byte
}.

Definition cmp_node_id (a b : node_id_t) : Z := cmp3 a b.

Definition cmp_site (a b : site_t) : Z :=
  cmp3 (site_position a) (site_position b).

Definition cmp_mutation (a b : mutation_t) : Z :=
  cmp3 (mutation_site a) (mutation_site b).

Definition cmp_edgeset (a b : edgeset_sort_t) : Z :=
  let ret := cmp3 (es_time a) (es_time b) in
  if ret =? 0 then
    let ret := cmp3 (es_parent a) (es_parent b) in
    if ret =? 0 then cmp3 (es_left a) (es_left b) else ret
  else ret.

(** The tables a [table_sorter_t] points to.  [nodes] and [edgesets] are
    checked against [NULL] by [table_sorter_alloc]; the scratch arrays are
    local to the functions below. *)
Record table_sorter_t : Type := mk_table_sorter {
  ts_nodes : node_table_t;
  ts_edgesets : edgeset_table_t;
  ts_sites : option site_table_t;
  ts_mutations : option mutation_table_t
}.

Definition table_sorter_alloc (nodes : option node_table_t)
    (edgesets : option edgeset_table_t) (sites : option site_table_t)
    (mutations : option mutation_table_t) : outcome table_sorter_t :=
  match nodes, edgesets with
  | Some nodes, Some edgesets =>
    match sites, mutations with
    | Some _, None => Err MSP_ERR_BAD_PARAM_VALUE
    | _, _ => Ok (mk_table_sorter nodes edgesets sites mutations)
    end
  | _, _ => Err MSP_ERR_BAD_PARAM_VALUE
  end.

(** First loop of [table_sorter_sort_edgesets]: rows [j .. j+n-1] are
    loaded into the sort keys. *)
Fixpoint sort_edgesets_load (nodes : node_table_t) (edgesets : edgeset_table_t)
    (children_mem : list node_id_t) (n j children_offset : nat)
  : outcome (list edgeset_sort_t) :=
  match n with
  | O => Ok []
  | S n =>
    left ← read (et_left edgesets) j;
    right ← read (et_right edgesets) j;
    parent ← read (et_parent edgesets) j;
    children_length ← read (et_children_length edgesets) j;
    if cast_node_id (nt_num_rows nodes) <=? parent then Err MSP_ERR_OUT_OF_BOUNDS
    else
      time ← readz (nt_time nodes) parent;
      rest ← sort_edgesets_load nodes edgesets children_mem n (S j)
               (children_offset + children_length);
      Ok (mk_edgeset_sort left right parent children_length
            (slice children_mem children_offset children_length) time :: rest)
  end.

Section Sorter.

(** [qsort] of the C library, with the comparator returning an [int]. *)
Variable qsort : forall A : Type, (A -> A -> Z) -> list A -> list A.

(** Second loop of [table_sorter_sort_edgesets]: the sorted keys are
    written back from row [j] on. *)
Fixpoint sort_edgesets_store (sorted : list edgeset_sort_t)
    (edgesets : edgeset_table_t) (j children_offset : nat)
  : outcome edgeset_table_t :=
  match sorted with
  | [] => Ok edgesets
  | e :: sorted =>
    (* [e->children] must lie inside [children_mem] to be sorted *)
    _ ← assert (Nat.eqb (length (es_children e)) (es_children_length e));
    let children := qsort _ cmp_node_id (es_children e) in
    sort_edgesets_store sorted
      (mk_edgeset_table (et_max_rows_increment edgesets)
         (et_max_total_children_length_increment edgesets)
         (et_max_rows edgesets) (et_num_rows edgesets)
         (et_max_total_children_length edgesets)
         (et_total_children_length edgesets)
         (<[j := es_left e]> (et_left edgesets))
         (<[j := es_right e]> (et_right edgesets))
         (<[j := es_parent e]> (et_parent edgesets))
         (memcpy (et_children edgesets) children_offset children
                 (es_children_length e))
         (<[j := es_children_length e]> (et_children_length edgesets)))
      (S j) (children_offset + es_children_length e)
  end.

Definition table_sorter_sort_edgesets (self : table_sorter_t)
  : table_sorter_t * outcome unit :=
  let edgesets := ts_edgesets self in
  let children_mem :=
    take (et_total_children_length edgesets) (et_children edgesets) in
  match sort_edgesets_load (ts_nodes self) edgesets children_mem
          (et_num_rows edgesets) 0 0 with
  | Ok keys =>
    match sort_edgesets_store (qsort _ cmp_edgeset keys) edgesets 0 0 with
    | Ok edgesets' =>
      (mk_table_sorter (ts_nodes self) edgesets' (ts_sites self)
         (ts_mutations self), Ok tt)
    | Err e => (self, Err e)
    | Crash => (self, Crash)
    | OutOfFuel => (self, OutOfFuel)
    end
  | Err e => (self, Err e)
  | Crash => (self, Crash)
  | OutOfFuel => (self, OutOfFuel)
  end.

(** First loop of [table_sorter_sort_sites]. *)
Fixpoint sort_sites_load (sites : site_table_t) (ancestral_state_mem : list byte)
    (n j ancestral_state_offset : nat) : outcome (list site_t) :=
  match n with
  | O => Ok []
  | S n =>
    position ← read (st_position sites) j;
    len ← read (st_ancestral_state_length sites) j;
    rest ← sort_sites_load sites ancestral_state_mem n (S j)
             (ancestral_state_offset + len);
    Ok (mk_site (Z.of_nat j) position len
          (slice ancestral_state_mem ancestral_state_offset len) :: rest)
  end.

(** Second loop of [table_sorter_sort_sites]; [site_id_map] is threaded. *)
Fixpoint sort_sites_store (sorted : list site_t) (sites : site_table_t)
    (site_id_map : list site_id_t) (j ancestral_state_offset : nat)
  : outcome (site_table_t * list site_id_t) :=
  match sorted with
  | [] => Ok (sites, site_id_map)
  | s :: sorted =>
    _ ← assert (Nat.eqb (length (site_ancestral_state s))
                        (site_ancestral_state_length s));
    sort_sites_store sorted
      (mk_site_table (st_max_rows_increment sites)
         (st_max_total_ancestral_state_length_increment sites)
         (st_max_rows sites) (st_num_rows sites)
         (st_max_total_ancestral_state_length sites)
         (st_total_ancestral_state_length sites)
         (<[j := site_position s]> (st_position sites))
         (memcpy (st_ancestral_state sites) ancestral_state_offset
                 (site_ancestral_state s) (site_ancestral_state_length s))
         (<[j := site_ancestral_state_length s]>
            (st_ancestral_state_length sites)))
      (<[Z.to_nat (site_id s) := Z.of_nat j]> site_id_map)
      (S j) (ancestral_state_offset + site_ancestral_state_length s)
  end.

Definition table_sorter_sort_sites (sites : site_table_t)
  : outcome (site_table_t * list site_id_t) :=
  let ancestral_state_mem :=
    take (st_total_ancestral_state_length sites) (st_ancestral_state sites) in
  sorted_sites ← sort_sites_load sites ancestral_state_mem
                   (st_num_rows sites) 0 0;
  sort_sites_store (qsort _ cmp_site sorted_sites) sites
    (replicate (st_num_rows sites) 0) 0 0.

(** First loop of [table_sorter_sort_mutations]. *)
Fixpoint sort_mutations_load (nodes : node_table_t) (sites : site_table_t)
    (site_id_map : list site_id_t) (mutations : mutation_table_t)
    (derived_state_mem : list byte) (n j derived_state_offset : nat)
  : outcome (list mutation_t) :=
  match n with
  | O => Ok []
  | S n =>
    site ← read (mt_site mutations) j;
    if cast_site_id (st_num_rows sites) <=? site then Err MSP_ERR_OUT_OF_BOUNDS
    else
      node ← read (mt_node mutations) j;
      if cast_node_id (nt_num_rows nodes) <=? node then Err MSP_ERR_OUT_OF_BOUNDS
      else
        new_site ← readz site_id_map site;
        len ← read (mt_derived_state_length mutations) j;
        rest ← sort_mutations_load nodes sites site_id_map mutations
                 derived_state_mem n (S j) (derived_state_offset + len);
        Ok (mk_mutation new_site node len
              (slice derived_state_mem derived_state_offset len) :: rest)
  end.

(** Second loop of [table_sorter_sort_mutations]. *)
Fixpoint sort_mutations_store (sorted : list mutation_t)
    (mutations : mutation_table_t) (j derived_state_offset : nat)
  : outcome mutation_table_t :=
  match sorted with
  | [] => Ok mutations
  | m :: sorted =>
    _ ← assert (Nat.eqb (length (mutation_derived_state m))
                        (mutation_derived_state_length m));
    sort_mutations_store sorted
      (mk_mutation_table (mt_max_rows_increment mutations)
         (mt_max_total_derived_state_length_increment mutations)
         (mt_max_rows mutations) (mt_num_rows mutations)
         (mt_max_total_derived_state_length mutations)
         (mt_total_derived_state_length mutations)
         (<[j := mutation_site m]> (mt_site mutations))
         (<[j := mutation_node m]> (mt_node mutations))
         (memcpy (mt_derived_state mutations) derived_state_offset
                 (mutation_derived_state m) (mutation_derived_state_length m))
         (<[j := mutation_derived_state_length m]>
            (mt_derived_state_length mutations)))
      (S j) (derived_state_offset + mutation_derived_state_length m)
  end.

Definition table_sorter_sort_mutations (nodes : node_table_t)
    (sites : site_table_t) (site_id_map : list site_id_t)
    (mutations : mutation_table_t) : outcome mutation_table_t :=
  let derived_state_mem :=
    take (mt_total_derived_state_length mutations) (mt_derived_state mutations) in
  sorted_mutations ← sort_mutations_load nodes sites site_id_map mutations
                       derived_state_mem (mt_num_rows mutations) 0 0;
  sort_mutations_store (qsort _ cmp_mutation sorted_mutations) mutations 0 0.

(** [table_sorter_run]: the tables as they are left, and the return code. *)
Definition table_sorter_run (self : table_sorter_t)
  : table_sorter_t * outcome unit :=
  match table_sorter_sort_edgesets self with
  | (self, Ok _) =>
    match ts_sites self, ts_mutations self with
    | Some sites, Some mutations =>
      match table_sorter_sort_sites sites with
      | Ok (sites', site_id_map) =>
        let self' := mk_table_sorter (ts_nodes self) (ts_edgesets self)
                       (Some sites') (Some mutations) in
        match table_sorter_sort_mutations (ts_nodes self) sites' site_id_map
                mutations with
        | Ok mutations' =>
          (mk_table_sorter (ts_nodes self) (ts_edgesets self) (Some sites')
             (Some mutations'), Ok tt)
        | Err e => (self', Err e)
        | Crash => (self', Crash)
        | OutOfFuel => (self', OutOfFuel)
        end
      | Err e => (self, Err e)
      | Crash => (self, Crash)
      | OutOfFuel => (self, OutOfFuel)
      end
    | Some _, None => (self, Crash)
    | None, _ => (self, Ok tt)
    end
  | (self, r) => (self, r)
  end.

Definition sort_tables (nodes : option node_table_t)
    (edgesets : option edgeset_table_t) (sites : option site_table_t)
    (mutations : option mutation_table_t)
  : (option edgeset_table_t * option site_table_t * option mutation_table_t)
    * outcome unit :=
  match table_sorter_alloc nodes edgesets sites mutations with
  | Ok sorter =>
    let '(sorter', ret) := table_sorter_run sorter in
    ((Some (ts_edgesets sorter'), ts_sites sorter', ts_mutations sorter'), ret)
  | Err e => ((edgesets, sites, mutations), Err e)
  | Crash => ((edgesets, sites, mutations), Crash)
  | OutOfFuel => ((edgesets, sites, mutations), OutOfFuel)
  end.

End Sorter.

(** ** Simplifier: data *)

(** A [simplify_segment_t] without its [next] field: a chain is the list of
    its segments, [NULL] the empty list. *)
Record simplify_segment_t : Type := mk_segment {
  seg_left : double;
  seg_right : double;
  seg_node : node_id_t
}.

Definition with_left (x : simplify_segment_t) (left : double) :=
  mk_segment left (seg_right x) (seg_node x).

Definition with_right (x : simplify_segment_t) (right : double) :=
  mk_segment (seg_left x) right (seg_node x).

(** An item of the merge queue: a non-[NULL] segment and the chain that its
    [next] field starts. *)
Definition queue_item : Type := (simplify_segment_t * list simplify_segment_t)%type.

Definition item_chain (x : queue_item) : list simplify_segment_t :=
  fst x :: snd x.

Record overlap_count_t : Type := mk_overlap_count {
  oc_start : double;
  oc_count : Z            (* uint32_t *)
}.

(** The one-row squash buffer [self->last_edgeset]. *)
Record last_edgeset_t : Type := mk_last_edgeset {
  le_left : double;
  le_right : double;
  le_parent : node_id_t;
  le_children : list node_id_t;
  le_children_length : nat
}.

Record simplifier_t : Type := mk_simplifier {
  s_samples : list node_id_t;
  s_num_samples : nat;
  s_flags : Z;
  s_sequence_length : double;
  s_nodes : node_table_t;
  s_edgesets : edgeset_table_t;
  s_sites : site_table_t;
  s_mutations : mutation_table_t;
  s_input_nodes : node_table_t;
  s_node_name_offset : list nat;
  s_ancestor_map : list (list simplify_segment_t);
  s_merge_queue : list queue_item;
  s_overlap_counts : list overlap_count_t;
  s_segment_heap : nat;          (* objects handed out by the pool *)
  s_avl_node_heap : nat;
  s_overlap_count_heap : nat;
  s_last_edgeset : last_edgeset_t
}.

Definition set_nodes (self : simplifier_t) (v : node_table_t) : simplifier_t :=
  mk_simplifier (s_samples self) (s_num_samples self) (s_flags self)
    (s_sequence_length self) v (s_edgesets self) (s_sites self)
    (s_mutations self) (s_input_nodes self) (s_node_name_offset self)
    (s_ancestor_map self) (s_merge_queue self) (s_overlap_counts self)
    (s_segment_heap self) (s_avl_node_heap self) (s_overlap_count_heap self)
    (s_last_edgeset self).

Definition set_edgesets (self : simplifier_t) (v : edgeset_table_t) : simplifier_t :=
  mk_simplifier (s_samples self) (s_num_samples self) (s_flags self)
    (s_sequence_length self) (s_nodes self) v (s_sites self)
    (s_mutations self) (s_input_nodes self) (s_node_name_offset self)
    (s_ancestor_map self) (s_merge_queue self) (s_overlap_counts self)
    (s_segment_heap self) (s_avl_node_heap self) (s_overlap_count_heap self)
    (s_last_edgeset self).

Definition set_ancestor_map (self : simplifier_t)
    (v : list (list simplify_segment_t)) : simplifier_t :=
  mk_simplifier (s_samples self) (s_num_samples self) (s_flags self)
    (s_sequence_length self) (s_nodes self) (s_edgesets self) (s_sites self)
    (s_mutations self) (s_input_nodes self) (s_node_name_offset self)
    v (s_merge_queue self) (s_overlap_counts self)
    (s_segment_heap self) (s_avl_node_heap self) (s_overlap_count_heap self)
    (s_last_edgeset self).

Definition set_merge_queue (self : simplifier_t) (v : list queue_item)
  : simplifier_t :=
  mk_simplifier (s_samples self) (s_num_samples self) (s_flags self)
    (s_sequence_length self) (s_nodes self) (s_edgesets self) (s_sites self)
    (s_mutations self) (s_input_nodes self) (s_node_name_offset self)
    (s_ancestor_map self) v (s_overlap_counts self)
    (s_segment_heap self) (s_avl_node_heap self) (s_overlap_count_heap self)
    (s_last_edgeset self).

Definition set_overlap_counts (self : simplifier_t)
    (v : list overlap_count_t) : simplifier_t :=
  mk_simplifier (s_samples self) (s_num_samples self) (s_flags self)
    (s_sequence_length self) (s_nodes self) (s_edgesets self) (s_sites self)
    (s_mutations self) (s_input_nodes self) (s_node_name_offset self)
    (s_ancestor_map self) (s_merge_queue self) v
    (s_segment_heap self) (s_avl_node_heap self) (s_overlap_count_heap self)
    (s_last_edgeset self).

Definition set_segment_heap (self : simplifier_t) (v : nat) : simplifier_t :=
  mk_simplifier (s_samples self) (s_num_samples self) (s_flags self)
    (s_sequence_length self) (s_nodes self) (s_edgesets self) (s_sites self)
    (s_mutations self) (s_input_nodes self) (s_node_name_offset self)
    (s_ancestor_map self) (s_merge_queue self) (s_overlap_counts self)
    v (s_avl_node_heap self) (s_overlap_count_heap self)
    (s_last_edgeset self).

Definition set_avl_node_heap (self : simplifier_t) (v : nat) : simplifier_t :=
  mk_simplifier (s_samples self) (s_num_samples self) (s_flags self)
    (s_sequence_length self) (s_nodes self) (s_edgesets self) (s_sites self)
    (s_mutations self) (s_input_nodes self) (s_node_name_offset self)
    (s_ancestor_map self) (s_merge_queue self) (s_overlap_counts self)
    (s_segment_heap self) v (s_overlap_count_heap self)
    (s_last_edgeset self).

Definition set_overlap_count_heap (self : simplifier_t) (v : nat) : simplifier_t :=
  mk_simplifier (s_samples self) (s_num_samples self) (s_flags self)
    (s_sequence_length self) (s_nodes self) (s_edgesets self) (s_sites self)
    (s_mutations self) (s_input_nodes self) (s_node_name_offset self)
    (s_ancestor_map self) (s_merge_queue self) (s_overlap_counts self)
    (s_segment_heap self) (s_avl_node_heap self) v
    (s_last_edgeset self).

Definition set_last_edgeset (self : simplifier_t) (v : last_edgeset_t)
  : simplifier_t :=
  mk_simplifier (s_samples self) (s_num_samples self) (s_flags self)
    (s_sequence_length self) (s_nodes self) (s_edgesets self) (s_sites self)
    (s_mutations self) (s_input_nodes self) (s_node_name_offset self)
    (s_ancestor_map self) (s_merge_queue self) (s_overlap_counts self)
    (s_segment_heap self) (s_avl_node_heap self) (s_overlap_count_heap self)
    v.

(** ** The ordered containers

    Modelled from the spec: [avl.c] is not part of the sources under study.
    The merge queue is "an ordered-by-(left, node) multiset of
    segment-chains" and the overlap counts are "stored in an ordered map
    keyed by start"; both are kept as lists in comparator order, a new
    element going behind the elements it does not precede. *)

Definition cmp_overlap_count (a b : overlap_count_t) : Z :=
  cmp3 (oc_start a) (oc_start b).

Definition cmp_segment_queue (a b : simplify_segment_t) : Z :=
  let ret := cmp3 (seg_left a) (seg_left b) in
  if ret =? 0 then cmp3 (seg_node a) (seg_node b) else ret.

Fixpoint avl_insert_node {A} (cmp : A -> A -> Z) (x : A) (tree : list A)
  : list A :=
  match tree with
  | [] => [x]
  | y :: tree' =>
    if cmp x y <? 0 then x :: tree else y :: avl_insert_node cmp x tree'
  end.

Definition queue_insert (x : queue_item) (Q : list queue_item) : list queue_item :=
  avl_insert_node (fun a b => cmp_segment_queue (fst a) (fst b)) x Q.

(** [avl_search]: the element that compares equal to the key, with the
    elements before and after it. *)
Fixpoint overlap_search (x : double) (tree : list overlap_count_t)
  : option (list overlap_count_t * overlap_count_t * list overlap_count_t) :=
  match tree with
  | [] => None
  | m :: tree' =>
    if oc_start m =? x then Some ([], m, tree')
    else
      match overlap_search x tree' with
      | Some (before, m', after) => Some (m :: before, m', after)
      | None => None
      end
  end.

(** [avl_search_closest] followed by the step to [node->prev] when the
    closest element lies to the right: the last element whose start is not
    above [x]. *)
Fixpoint overlap_floor (x : double) (tree : list overlap_count_t)
  : option overlap_count_t :=
  match tree with
  | [] => None
  | m :: tree' =>
    if oc_start m <=? x then
      match overlap_floor x tree' with
      | Some m' => Some m'
      | None => Some m
      end
    else None
  end.

(** ** Object pools

    Modelled from the spec: [object_heap.c] is not part of the sources under
    study.  A pool "offers acquire() (growing its backing storage when
    empty) and release(obj)"; the model keeps the number of objects handed
    out, which is what [object_heap_get_num_allocated] reports. *)

Definition simplifier_alloc_segment (self : simplifier_t) : simplifier_t :=
  set_segment_heap self (S (s_segment_heap self)).

Definition simplifier_free_segment (self : simplifier_t) : simplifier_t :=
  set_segment_heap self (pred (s_segment_heap self)).

Definition simplifier_alloc_avl_node (self : simplifier_t) : simplifier_t :=
  set_avl_node_heap self (S (s_avl_node_heap self)).

Definition simplifier_free_avl_node (self : simplifier_t) : simplifier_t :=
  set_avl_node_heap self (pred (s_avl_node_heap self)).

Definition simplifier_alloc_overlap_count (self : simplifier_t) : simplifier_t :=
  set_overlap_count_heap self (S (s_overlap_count_heap self)).

(** ** Simplifier: helpers *)

Fixpoint chain_ordered (u : list simplify_segment_t) : bool :=
  match u with
  | [] => true
  | x :: next =>
    (seg_left x <? seg_right x)
    && match next with
       | [] => true
       | y :: _ => seg_right x <=? seg_left y
       end
    && chain_ordered next
  end.

Definition simplifier_check_state (self : simplifier_t) : outcome unit :=
  _ ← assert (forallb chain_ordered (s_ancestor_map self));
  _ ← assert (forallb (fun x => chain_ordered (item_chain x)) (s_merge_queue self));
  let total_segments :=
    (sum_list (map length (s_ancestor_map self))
     + sum_list (map (fun x => length (item_chain x)) (s_merge_queue self)))%nat in
  let total_avl_nodes :=
    (length (s_merge_queue self) + length (s_overlap_counts self))%nat in
  _ ← assert (Nat.eqb total_segments (s_segment_heap self));
  assert (Nat.eqb total_avl_nodes (s_avl_node_heap self)).

Definition simplifier_insert_overlap_count (self : simplifier_t) (x : double)
    (v : Z) : simplifier_t :=
  let self := simplifier_alloc_avl_node self in
  let self := simplifier_alloc_overlap_count self in
  set_overlap_counts self
    (avl_insert_node cmp_overlap_count (mk_overlap_count x v)
       (s_overlap_counts self)).

Definition simplifier_copy_overlap_count (self : simplifier_t) (x : double)
  : outcome simplifier_t :=
  match overlap_floor x (s_overlap_counts self) with
  | Some nm => Ok (simplifier_insert_overlap_count self x (oc_count nm))
  | None => Crash
  end.

Definition simplifier_record_node (self : simplifier_t) (input_id : node_id_t)
  : outcome simplifier_t :=
  offset ← readz (s_node_name_offset self) input_id;
  flags ← readz (nt_flags (s_input_nodes self)) input_id;
  time ← readz (nt_time (s_input_nodes self)) input_id;
  population ← readz (nt_population (s_input_nodes self)) input_id;
  name_length ← readz (nt_name_length (s_input_nodes self)) input_id;
  nodes ← node_table_add_row_internal (s_nodes self) flags time population
            name_length (drop offset (nt_name (s_input_nodes self)));
  Ok (set_nodes self nodes).

Definition simplifier_priority_queue_insert (self : simplifier_t)
    (u : queue_item) : simplifier_t :=
  let self := simplifier_alloc_avl_node self in
  set_merge_queue self (queue_insert u (s_merge_queue self)).

(** [node_name_offset]: the running sums of the name lengths. *)
Fixpoint name_offsets (offset : nat) (name_length : list nat) : list nat :=
  match name_length with
  | [] => []
  | n :: name_length => offset :: name_offsets (offset + n) name_length
  end.

(** ** simplifier_alloc *)

(** The loop of [simplifier_alloc] over the samples. *)
Fixpoint alloc_samples (self : simplifier_t) (samples : list node_id_t)
  : outcome simplifier_t :=
  match samples with
  | [] => Ok self
  | input_node :: samples =>
    if (input_node <? 0)
       || (cast_node_id (nt_num_rows (s_input_nodes self)) <=? input_node)
    then Err MSP_ERR_OUT_OF_BOUNDS
    else
      flags ← readz (nt_flags (s_input_nodes self)) input_node;
      if Z.land flags MSP_NODE_IS_SAMPLE =? 0 then Err MSP_ERR_BAD_SAMPLES
      else
        chain ← readz (s_ancestor_map self) input_node;
        match chain with
        | _ :: _ => Err MSP_ERR_DUPLICATE_SAMPLE
        | [] =>
          let self := simplifier_alloc_segment self in
          let self :=
            set_ancestor_map self
              (<[Z.to_nat input_node :=
                   [mk_segment 0 (s_sequence_length self)
                      (cast_node_id (nt_num_rows (s_nodes self)))]]>
                 (s_ancestor_map self)) in
          (* the return value of [simplifier_record_node] is dropped; it is
             never an error code *)
          self ← simplifier_record_node self input_node;
          alloc_samples self samples
        end
  end.

(** [samples] is the array with its length [num_samples]. *)
Definition simplifier_alloc (nodes : node_table_t) (edgesets : edgeset_table_t)
    (sites : site_table_t) (mutations : mutation_table_t)
    (samples : list node_id_t) (sequence_length : double) (flags : Z)
  : outcome simplifier_t :=
  let num_samples := length samples in
  if Nat.ltb num_samples 2 || Nat.eqb (nt_num_rows nodes) 0
     || Nat.eqb (et_num_rows edgesets) 0
  then Err MSP_ERR_BAD_PARAM_VALUE
  else
    input_nodes ← node_table_alloc (nt_num_rows nodes)
                    (nt_total_name_length nodes + 1);
    input_nodes ← node_table_set_columns input_nodes (nt_num_rows nodes)
                    (column_ptr (nt_max_rows nodes) (nt_flags nodes))
                    (column_ptr (nt_max_rows nodes) (nt_time nodes))
                    (column_ptr (nt_max_rows nodes) (nt_population nodes))
                    (column_ptr (nt_max_total_name_length nodes) (nt_name nodes))
                    (column_ptr (nt_max_rows nodes) (nt_name_length nodes));
    let nodes := node_table_reset nodes in
    let node_name_offset :=
      name_offsets 0 (take (nt_num_rows input_nodes) (nt_name_length input_nodes)) in
    let self :=
      mk_simplifier samples num_samples flags sequence_length nodes edgesets
        sites mutations input_nodes node_name_offset
        (replicate (nt_num_rows input_nodes) [])
        [] [] 0 0 0 (mk_last_edgeset 0 0 0 [] 0) in
    self ← alloc_samples self samples;
    let self :=
      simplifier_insert_overlap_count self 0
        (wrap_uint32 (Z.of_nat num_samples)) in
    let self :=
      simplifier_insert_overlap_count self (s_sequence_length self)
        (wrap_uint32 (wrap_uint32 (Z.of_nat num_samples) + 1)) in
    Ok (mk_simplifier (s_samples self) (s_num_samples self) (s_flags self)
          (s_sequence_length self) (s_nodes self) (s_edgesets self)
          (site_table_reset (s_sites self))
          (mutation_table_reset (s_mutations self))
          (s_input_nodes self) (s_node_name_offset self)
          (s_ancestor_map self) (s_merge_queue self) (s_overlap_counts self)
          (s_segment_heap self) (s_avl_node_heap self)
          (s_overlap_count_heap self) (s_last_edgeset self)).

(** ** simplifier_remove_ancestry *)

(** [while (x != NULL && x->right <= bound)]: the segments passed over and
    the chain that [x] is left on. *)
Fixpoint skip_segments (bound : double) (x : list simplify_segment_t)
  : list simplify_segment_t * list simplify_segment_t :=
  match x with
  | [] => ([], [])
  | s :: next =>
    if seg_right s <=? bound then
      let '(passed, rest) := skip_segments bound next in (s :: passed, rest)
    else ([], x)
  end.

(** The chain of [input_id] is cut around [[left, right)]: the result is the
    chain that stays in the ancestor map and the chain that was queued, if
    any; [simplifier_remove_ancestry] books the allocations. *)
Definition remove_ancestry_chain (left right : double)
    (head : list simplify_segment_t)
  : list simplify_segment_t * option queue_item * nat :=
  (* skip the leading segments before left *)
  let '(before, x) := skip_segments left head in
  (* the left edge of x overhangs *)
  let '(before, x, allocated) :=
    match x with
    | s :: next =>
      if seg_left s <? left then
        (before ++ [mk_segment (seg_left s) left (seg_node s)],
         with_left s left :: next, 1%nat)
      else (before, x, 0%nat)
    | [] => (before, x, 0%nat)
    end in
  match x with
  | s :: next =>
    if seg_left s <? right then
      (* x is queued; skip over the segments within the interval *)
      let '(inside, x') := skip_segments right x in
      match x' with
      | s' :: next' =>
        if seg_left s' <? right then
          (* overhang on the right hand side *)
          let y := mk_segment right (seg_right s') (seg_node s') in
          match inside ++ [with_right s' right] with
          | q :: qnext =>
            (before ++ y :: next', Some (q, qnext), S allocated)
          | [] => (before ++ y :: next', None, S allocated)
          end
        else
          match inside with
          | q :: qnext => (before ++ x', Some (q, qnext), allocated)
          | [] => (before ++ x', Some (s, next), allocated)
          end
      | [] =>
        match inside with
        | q :: qnext => (before, Some (q, qnext), allocated)
        | [] => (before, Some (s, next), allocated)
        end
      end
    else (before ++ x, None, allocated)
  | [] => (before, None, allocated)
  end.

Definition simplifier_remove_ancestry (self : simplifier_t) (left right : double)
    (input_id : node_id_t) : outcome simplifier_t :=
  head ← readz (s_ancestor_map self) input_id;
  let '(head', queued, allocated) := remove_ancestry_chain left right head in
  let self := set_segment_heap self (s_segment_heap self + allocated) in
  let self :=
    match queued with
    | Some x => simplifier_priority_queue_insert self x
    | None => self
    end in
  Ok (set_ancestor_map self
        (<[Z.to_nat input_id := head']> (s_ancestor_map self))).

Section Simplifier.

Variable qsort : forall A : Type, (A -> A -> Z) -> list A -> list A.

(** ** simplifier_record_edgeset *)

Definition simplifier_record_edgeset (self : simplifier_t) (left right : double)
    (parent : node_id_t) (children : list node_id_t) (children_length : nat)
  : outcome simplifier_t :=
  let children := qsort _ cmp_node_id children in
  let last := s_last_edgeset self in
  if Nat.eqb (le_children_length last) 0 then
    Ok (set_last_edgeset self
          (mk_last_edgeset left right parent children children_length))
  else
    let squash :=
      if Nat.eqb (le_children_length last) children_length then
        (left =? le_right last) && (parent =? le_parent last)
        && bool_decide (children = le_children last)
      else false in
    if squash then
      Ok (set_last_edgeset self
            (mk_last_edgeset (le_left last) right (le_parent last)
               (le_children last) (le_children_length last)))
    else
      edgesets ← edgeset_table_add_row (s_edgesets self) (le_left last)
                   (le_right last) (le_parent last) (le_children last)
                   (le_children_length last);
      Ok (set_last_edgeset (set_edgesets self edgesets)
            (mk_last_edgeset left right parent children children_length)).

(** ** simplifier_merge_ancestors *)

Definition GSL_MIN (a b : double) : double := if a <? b then a else b.

(** The inner [while] that moves the queue elements starting at [l] into
    [H]: the batch and the rest of the queue. *)
Fixpoint merge_gather (l : double) (Q : list queue_item)
  : list queue_item * list queue_item :=
  match Q with
  | [] => ([], [])
  | x :: Q' =>
    if seg_left (fst x) =? l then
      let '(H, rest) := merge_gather l Q' in (x :: H, rest)
    else ([], Q)
  end.

(** [if (x != NULL) simplifier_priority_queue_insert(self, Q, x)]. *)
Definition merge_requeue (self : simplifier_t) (x : list simplify_segment_t)
  : simplifier_t :=
  match x with
  | [] => self
  | s :: next => simplifier_priority_queue_insert self (s, next)
  end.

(** The [for] loop over [H] of the coalescence case: the children and the
    queue with the rests of the batch. *)
Fixpoint merge_update_heads (self : simplifier_t) (r : double)
    (H : list queue_item) : simplifier_t * list node_id_t :=
  match H with
  | [] => (self, [])
  | (x, next) :: H' =>
    let self :=
      if seg_right x =? r then merge_requeue (simplifier_free_segment self) next
      else if r <? seg_right x then
        simplifier_priority_queue_insert self (with_left x r, next)
      else simplifier_priority_queue_insert self (x, next) in
    let '(self, children) := merge_update_heads self r H' in
    (self, seg_node x :: children)
  end.

(** The [while (nm->count != h && r < r_max)] walk over the overlap counts,
    from the element [nm] on. *)
Fixpoint overlap_walk (h : Z) (r_max r : double) (nm : overlap_count_t)
    (next : list overlap_count_t) : outcome (list overlap_count_t * double) :=
  if negb (oc_count nm =? h) && (r <? r_max) then
    match next with
    | [] => Crash
    | nm' :: next' =>
      '(tree, r) ← overlap_walk h r_max (oc_start nm') nm' next';
      Ok (mk_overlap_count (oc_start nm)
            (wrap_uint32 (oc_count nm - wrap_uint32 (h - 1))) :: tree, r)
    end
  else Ok (nm :: next, r).

(** Insert an overlap count for the bound [x], if necessary. *)
Definition merge_ensure_overlap_count (self : simplifier_t) (x : double)
  : outcome simplifier_t :=
  match overlap_search x (s_overlap_counts self) with
  | Some _ => Ok self
  | None => simplifier_copy_overlap_count self x
  end.

(** Loop tail: integrate alpha into the global state. *)
Definition merge_integrate (self : simplifier_t) (input_id : node_id_t)
    (z alpha : option simplify_segment_t)
  : outcome (simplifier_t * option simplify_segment_t) :=
  match alpha with
  | None => Ok (self, z)
  | Some a =>
    chain ← readz (s_ancestor_map self) input_id;
    let chain' := match z with None => [a] | Some _ => chain ++ [a] end in
    Ok (set_ancestor_map self
          (<[Z.to_nat input_id := chain']> (s_ancestor_map self)), Some a)
  end.

(** [next_l]: the left end of the first element left in the queue. *)
Definition merge_next_l (rest : list queue_item) : double :=
  match rest with
  | [] => 0
  | node :: _ => seg_left (fst node)
  end.

(** [r_max]: the least of the sequence length, the right ends of the batch
    and, when the queue is not empty, [next_l]. *)
Definition merge_r_max (sequence_length : double) (H rest : list queue_item)
  : double :=
  let r_max :=
    foldl (fun r_max x => GSL_MIN r_max (seg_right (fst x))) sequence_length H in
  match rest with
  | [] => r_max
  | _ :: _ => GSL_MIN r_max (merge_next_l rest)
  end.

(** The case [h == 1]: [x], whose chain goes on with [next], is alone at
    its left end. *)
Definition merge_single (self : simplifier_t) (input_id : node_id_t)
    (z : option simplify_segment_t) (x : simplify_segment_t)
    (next : list simplify_segment_t) (rest : list queue_item)
  : outcome (simplifier_t * option simplify_segment_t) :=
  let next_l := merge_next_l rest in
  let '(self, alpha) :=
    if bool_decide (rest <> []) && (next_l <? seg_right x) then
      let self := simplifier_alloc_segment self in
      (simplifier_priority_queue_insert self (with_left x next_l, next),
       mk_segment (seg_left x) next_l (seg_node x))
    else (merge_requeue self next, x) in
  merge_integrate self input_id z (Some alpha).

(** "Update the extant segments and allocate alpha if the interval has not
    coalesced": the overlap counts from [l] on, the right end [r] and alpha. *)
Definition merge_overlap_update (self : simplifier_t) (h : nat)
    (l r_max : double) (v : node_id_t)
  : outcome (simplifier_t * double * option simplify_segment_t) :=
  match overlap_search l (s_overlap_counts self) with
  | None => Crash
  | Some (before, nm, after) =>
    if oc_count nm =? wrap_uint32 (Z.of_nat h) then
      match after with
      | [] => Crash
      | nm' :: _ =>
        Ok (set_overlap_counts self
              (before ++ mk_overlap_count (oc_start nm) 0 :: after),
            oc_start nm', None)
      end
    else
      '(tree, r) ← overlap_walk (wrap_uint32 (Z.of_nat h)) r_max l nm after;
      Ok (simplifier_alloc_segment (set_overlap_counts self (before ++ tree)),
          r, Some (mk_segment l r v))
  end.

(** The case of a coalescence: the batch [H] of [h >= 2] chains starts
    at [l]. *)
Definition merge_coalesce (self : simplifier_t) (input_id : node_id_t)
    (coalescence : bool) (z : option simplify_segment_t) (l r_max : double)
    (H : list queue_item)
  : outcome (simplifier_t * option simplify_segment_t) :=
  let h := length H in
  self ← (if coalescence then Ok self
          else simplifier_record_node self input_id);
  let v := wrap_int32 (cast_node_id (nt_num_rows (s_nodes self)) - 1) in
  (* insert overlap counts for bounds, if necessary *)
  self ← merge_ensure_overlap_count self l;
  self ← merge_ensure_overlap_count self r_max;
  '(self, r, alpha) ← merge_overlap_update self h l r_max v;
  (* create the record and update the priority queue *)
  let '(self, children) := merge_update_heads self r H in
  self ← simplifier_record_edgeset self l r v children h;
  merge_integrate self input_id z alpha.

(** One turn of [while (avl_count(Q) > 0)]. *)
Definition merge_step (self : simplifier_t) (input_id : node_id_t)
    (coalescence : bool) (z : option simplify_segment_t)
  : outcome (simplifier_t * bool * option simplify_segment_t) :=
  match s_merge_queue self with
  | [] => Crash
  | first :: _ =>
    let l := seg_left (fst first) in
    let '(H, rest) := merge_gather l (s_merge_queue self) in
    let r_max := merge_r_max (s_sequence_length self) H rest in
    let self :=
      set_merge_queue
        (set_avl_node_heap self (s_avl_node_heap self - length H)%nat) rest in
    match H with
    | [(x, next)] =>
      '(self, z) ← merge_single self input_id z x next rest;
      Ok (self, coalescence, z)
    | _ =>
      '(self, z) ← merge_coalesce self input_id coalescence z l r_max H;
      Ok (self, true, z)
    end
  end.

Fixpoint merge_loop (fuel : nat) (self : simplifier_t) (input_id : node_id_t)
    (coalescence : bool) (z : option simplify_segment_t)
  : outcome simplifier_t :=
  match s_merge_queue self with
  | [] => Ok self
  | _ :: _ =>
    match fuel with
    | O => OutOfFuel
    | S fuel =>
      '(self, coalescence, z) ← merge_step self input_id coalescence z;
      merge_loop fuel self input_id coalescence z
    end
  end.

(** A bound on the turns of the loop: every turn starts at a left end that
    is larger than the one before, and all of them are ends of queued
    segments, starts of overlap counts or the sequence length. *)
Definition merge_fuel (self : simplifier_t) : nat :=
  (2 * sum_list (map (fun x => length (item_chain x)) (s_merge_queue self))
   + length (s_overlap_counts self) + 2)%nat.

Definition simplifier_merge_ancestors (self : simplifier_t)
    (input_id : node_id_t) : outcome simplifier_t :=
  merge_loop (merge_fuel self) self input_id false None.

(** ** simplifier_run *)

(** The [for] loop over the children of row [j]; the children are read
    from the table as the loop goes. *)
Fixpoint run_children (self : simplifier_t) (left right : double)
    (children_offset n k : nat) : outcome simplifier_t :=
  match n with
  | O => Ok self
  | S n =>
    child ← read (et_children (s_edgesets self)) (children_offset + k);
    chain ← readz (s_ancestor_map self) child;
    self ←
      match chain with
      | [] => Ok self
      | _ :: _ =>
        _ ← simplifier_check_state self;
        self ← simplifier_remove_ancestry self left right child;
        _ ← simplifier_check_state self;
        Ok self
      end;
    run_children self left right children_offset n (S k)
  end.

(** The [for] loop over the input rows [j .. j+n-1]. *)
Fixpoint run_rows (self : simplifier_t) (n j : nat) (current_parent : node_id_t)
    (children_offset : nat) : outcome (simplifier_t * node_id_t) :=
  match n with
  | O => Ok (self, current_parent)
  | S n =>
    _ ← assert (Nat.leb (et_num_rows (s_edgesets self)) j);
    parent ← read (et_parent (s_edgesets self)) j;
    left ← read (et_left (s_edgesets self)) j;
    right ← read (et_right (s_edgesets self)) j;
    children_length ← read (et_children_length (s_edgesets self)) j;
    '(self, current_parent) ←
      (if negb (parent =? current_parent) then
         _ ← simplifier_check_state self;
         self ← simplifier_merge_ancestors self current_parent;
         _ ← assert (bool_decide (s_merge_queue self = []));
         t_current ← readz (nt_time (s_input_nodes self)) current_parent;
         t_parent ← readz (nt_time (s_input_nodes self)) parent;
         if t_parent <? t_current then Err MSP_ERR_RECORDS_NOT_TIME_SORTED
         else Ok (self, parent)
       else Ok (self, current_parent));
    self ← run_children self left right children_offset children_length 0;
    run_rows self n (S j) current_parent (children_offset + children_length)
  end.

(** The part of [simplifier_run] before the last edgeset is flushed. *)
Definition simplifier_run_sweep (self : simplifier_t) : outcome simplifier_t :=
  let num_input_edgesets := et_num_rows (s_edgesets self) in
  let self := set_edgesets self (edgeset_table_reset (s_edgesets self)) in
  if Nat.ltb 0 num_input_edgesets then
    current_parent ← read (et_parent (s_edgesets self)) 0;
    '(self, current_parent) ←
      run_rows self num_input_edgesets 0 current_parent 0;
    self ← simplifier_merge_ancestors self current_parent;
    _ ← assert (bool_decide (s_merge_queue self = []));
    _ ← simplifier_check_state self;
    Ok self
  else Ok self.

Definition simplifier_run (self : simplifier_t) : outcome simplifier_t :=
  self ← simplifier_run_sweep self;
  (* flush the last edgeset *)
  let last := s_last_edgeset self in
  edgesets ← edgeset_table_add_row (s_edgesets self) (le_left last)
               (le_right last) (le_parent last) (le_children last)
               (le_children_length last);
  Ok (set_edgesets self edgesets).

End Simplifier.

(** * Specification *)

(** ** Rows of the tables *)

(** Row [j] of a variable-width column: the cells from the sum of the
    lengths of the rows before it. *)
Definition payload_row {A} (payload : list A) (len : list nat) (j : nat)
  : list A :=
  slice payload (sum_list (take j len)) (len !!! j).

Record node_t : Type := mk_node {
  node_flags : Z;
  node_time : double;
  node_population : population_id_t;
  node_name : list byte
}.

Definition node_row_at (t : node_table_t) (j : nat) : node_t :=
  mk_node (nt_flags t !!! j) (nt_time t !!! j) (nt_population t !!! j)
    (payload_row (nt_name t) (nt_name_length t) j).

(** The rows that a node table holds. *)
Definition node_table_rows (t : node_table_t) : list node_t :=
  node_row_at t <$> seq 0 (nt_num_rows t).

Record edgeset_t : Type := mk_edgeset {
  edgeset_left : double;
  edgeset_right : double;
  edgeset_parent : node_id_t;
  edgeset_children : list node_id_t
}.

Definition edgeset_row_at (t : edgeset_table_t) (j : nat) : edgeset_t :=
  mk_edgeset (et_left t !!! j) (et_right t !!! j) (et_parent t !!! j)
    (payload_row (et_children t) (et_children_length t) j).

(** The rows that an edgeset table holds. *)
Definition edgeset_table_rows (t : edgeset_table_t) : list edgeset_t :=
  edgeset_row_at t <$> seq 0 (et_num_rows t).

(** ** Well-formed tables

    What the table functions maintain: the fixed-width columns have
    [max_rows] cells, the payload column has its capacity, and the rows in
    use and their payload fit. *)

Record node_table_wf (t : node_table_t) : Prop := mk_node_table_wf {
  ntwf_rows : (nt_num_rows t <= nt_max_rows t)%nat;
  ntwf_flags : length (nt_flags t) = nt_max_rows t;
  ntwf_time : length (nt_time t) = nt_max_rows t;
  ntwf_population : length (nt_population t) = nt_max_rows t;
  ntwf_name_length : length (nt_name_length t) = nt_max_rows t;
  ntwf_name : length (nt_name t) = nt_max_total_name_length t;
  ntwf_total :
    nt_total_name_length t = sum_list (take (nt_num_rows t) (nt_name_length t));
  ntwf_total_max : (nt_total_name_length t <= nt_max_total_name_length t)%nat
}.

Record edgeset_table_wf (t : edgeset_table_t) : Prop := mk_edgeset_table_wf {
  etwf_rows : (et_num_rows t <= et_max_rows t)%nat;
  etwf_left : length (et_left t) = et_max_rows t;
  etwf_right : length (et_right t) = et_max_rows t;
  etwf_parent : length (et_parent t) = et_max_rows t;
  etwf_children_length : length (et_children_length t) = et_max_rows t;
  etwf_children : length (et_children t) = et_max_total_children_length t;
  etwf_total :
    et_total_children_length t
    = sum_list (take (et_num_rows t) (et_children_length t));
  etwf_total_max :
    (et_total_children_length t <= et_max_total_children_length t)%nat
}.

(** ** The contract of [qsort]

    The C standard asks for a comparator that orders consistently, and
    promises the elements in ascending order; the order of elements that
    compare equal is unspecified. *)

Definition cmp_consistent {A} (cmp : A -> A -> Z) : Prop :=
  (forall a b, cmp a b <= 0 \/ cmp b a <= 0)
  /\ (forall a b c, cmp a b <= 0 -> cmp b c <= 0 -> cmp a c <= 0).

Definition qsort_contract
    (qsort : forall A : Type, (A -> A -> Z) -> list A -> list A) : Prop :=
  (forall A cmp (l : list A), qsort A cmp l ≡ₚ l)
  /\ (forall A cmp (l : list A), cmp_consistent cmp ->
        StronglySorted (fun a b => cmp a b <= 0) (qsort A cmp l)).

(** A stable sort that meets the contract: merge sort by the comparator. *)
Definition qsort_merge : forall A : Type, (A -> A -> Z) -> list A -> list A :=
  fun A cmp l =>
    @merge_sort A (fun a b => cmp a b <= 0)
      (fun x y => Z_le_dec (cmp x y) 0) l.

(** Another sort that meets the contract and treats equal elements the
    other way round. *)
Definition qsort_merge_rev : forall A : Type, (A -> A -> Z) -> list A -> list A :=
  fun A cmp l => qsort_merge A cmp (reverse l).

(** ** simplifier_alloc *)

Definition sample_in_range (nodes : node_table_t) (s : node_id_t) : Prop :=
  0 <= s < Z.of_nat (nt_num_rows nodes).

Definition sample_flagged (nodes : node_table_t) (s : node_id_t) : Prop :=
  Z.land (nt_flags nodes !!! Z.to_nat s) MSP_NODE_IS_SAMPLE <> 0.

Definition alloc_bad_param (nodes : node_table_t) (edgesets : edgeset_table_t)
    (samples : list node_id_t) : Prop :=
  (length samples < 2)%nat \/ nt_num_rows nodes = 0%nat
  \/ et_num_rows edgesets = 0%nat.

(** Samples that pass every check: valid, flagged and pairwise distinct. *)
Definition good_samples (nodes : node_table_t) (samples : list node_id_t)
  : Prop :=
  NoDup samples
  /\ forall s, s ∈ samples -> sample_in_range nodes s /\ sample_flagged nodes s.

(** The error that the sample [s] raises after the samples [seen]. *)
Inductive sample_error (nodes : node_table_t) (seen : list node_id_t)
    (s : node_id_t) : error -> Prop :=
  | sample_error_bounds :
      ~ sample_in_range nodes s ->
      sample_error nodes seen s MSP_ERR_OUT_OF_BOUNDS
  | sample_error_flag :
      sample_in_range nodes s -> ~ sample_flagged nodes s ->
      sample_error nodes seen s MSP_ERR_BAD_SAMPLES
  | sample_error_duplicate :
      sample_in_range nodes s -> sample_flagged nodes s -> s ∈ seen ->
      sample_error nodes seen s MSP_ERR_DUPLICATE_SAMPLE.

(** The four failure clauses and the success clause, each read on its own,
    as the interface description lists them. *)
Definition alloc_clauses_independent (nodes : node_table_t)
    (edgesets : edgeset_table_t) (sites : site_table_t)
    (mutations : mutation_table_t) (samples : list node_id_t)
    (sequence_length : double) (flags : Z) : Prop :=
  let r := simplifier_alloc nodes edgesets sites mutations samples
             sequence_length flags in
  (alloc_bad_param nodes edgesets samples -> r = Err MSP_ERR_BAD_PARAM_VALUE)
  /\ ((exists s, s ∈ samples /\ sample_in_range nodes s
                 /\ ~ sample_flagged nodes s) -> r = Err MSP_ERR_BAD_SAMPLES)
  /\ (~ NoDup samples -> r = Err MSP_ERR_DUPLICATE_SAMPLE)
  /\ ((exists s, s ∈ samples /\ ~ sample_in_range nodes s) ->
      r = Err MSP_ERR_OUT_OF_BOUNDS)
  /\ (~ alloc_bad_param nodes edgesets samples ->
      good_samples nodes samples -> exists self, r = Ok self).

(** The copy of the node table that [simplifier_alloc] takes. *)
Definition node_table_snapshot (t : node_table_t) : node_table_t :=
  mk_node_table (nt_num_rows t) (nt_total_name_length t + 1)
    (nt_num_rows t) (nt_num_rows t)
    (nt_total_name_length t) (nt_total_name_length t)
    (take (nt_num_rows t) (nt_flags t))
    (take (nt_num_rows t) (nt_time t))
    (take (nt_num_rows t) (nt_population t))
    (take (nt_total_name_length t) (nt_name t))
    (take (nt_num_rows t) (nt_name_length t)).

(** The state that [simplifier_alloc] builds from the samples [processed]
    so far. *)
Record alloc_inv (nodes : node_table_t) (edgesets : edgeset_table_t)
    (sequence_length : double) (processed : list node_id_t)
    (self : simplifier_t) : Prop := mk_alloc_inv {
  ai_input : s_input_nodes self = node_table_snapshot nodes;
  ai_offsets :
    s_node_name_offset self
    = name_offsets 0 (take (nt_num_rows nodes) (nt_name_length nodes));
  ai_length : s_sequence_length self = sequence_length;
  ai_edgesets : s_edgesets self = edgesets;
  ai_map_length : length (s_ancestor_map self) = nt_num_rows nodes;
  ai_map_sample : forall k s, processed !! k = Some s ->
    s_ancestor_map self !! Z.to_nat s
    = Some [mk_segment 0 sequence_length (Z.of_nat k)];
  ai_map_other : forall i, (i < nt_num_rows nodes)%nat ->
    Z.of_nat i ∉ processed -> s_ancestor_map self !! i = Some [];
  ai_nodes_wf : node_table_wf (s_nodes self);
  ai_nodes_rows :
    node_table_rows (s_nodes self)
    = (fun s => node_row_at nodes (Z.to_nat s)) <$> processed;
  ai_nodes_total :
    nt_total_name_length (s_nodes self)
    = sum_list_with (fun s => nt_name_length nodes !!! Z.to_nat s) processed;
  ai_nodes_max_rows : nt_max_rows (s_nodes self) = nt_max_rows nodes;
  ai_nodes_max_name :
    nt_max_total_name_length (s_nodes self) = nt_max_total_name_length nodes;
  ai_segment_heap : s_segment_heap self = length processed;
  ai_queue : s_merge_queue self = [];
  ai_last : le_children_length (s_last_edgeset self) = 0%nat
}.

(** The snapshot of the input nodes is a full table with its offsets. *)
Record snapshot_ok (self : simplifier_t) : Prop := mk_snapshot_ok {
  so_wf : node_table_wf (s_input_nodes self);
  so_full : nt_max_rows (s_input_nodes self) = nt_num_rows (s_input_nodes self);
  so_offsets :
    s_node_name_offset self
    = name_offsets 0 (take (nt_num_rows (s_input_nodes self))
                           (nt_name_length (s_input_nodes self)))
}.

(** The simplifier before the loop over the samples, and what
    [simplifier_alloc] does to it after the loop. *)
Definition alloc_initial (nodes : node_table_t) (edgesets : edgeset_table_t)
    (sites : site_table_t) (mutations : mutation_table_t)
    (samples : list node_id_t) (sequence_length : double) (flags : Z)
  : simplifier_t :=
  mk_simplifier samples (length samples) flags sequence_length
    (node_table_reset nodes) edgesets sites mutations
    (node_table_snapshot nodes)
    (name_offsets 0 (take (nt_num_rows nodes)
                          (nt_name_length (node_table_snapshot nodes))))
    (replicate (nt_num_rows nodes) [])
    [] [] 0 0 0 (mk_last_edgeset 0 0 0 [] 0).

Definition alloc_finish (self : simplifier_t) : simplifier_t :=
  let self1 :=
    simplifier_insert_overlap_count self 0
      (wrap_uint32 (Z.of_nat (s_num_samples self))) in
  let self2 :=
    simplifier_insert_overlap_count self1 (s_sequence_length self1)
      (wrap_uint32 (wrap_uint32 (Z.of_nat (s_num_samples self)) + 1)) in
  mk_simplifier (s_samples self2) (s_num_samples self2) (s_flags self2)
    (s_sequence_length self2) (s_nodes self2) (s_edgesets self2)
    (site_table_reset (s_sites self2))
    (mutation_table_reset (s_mutations self2))
    (s_input_nodes self2) (s_node_name_offset self2)
    (s_ancestor_map self2) (s_merge_queue self2) (s_overlap_counts self2)
    (s_segment_heap self2) (s_avl_node_heap self2)
    (s_overlap_count_heap self2) (s_last_edgeset self2).

(** ** What simplifier_run leaves alone *)

(** The parts of the simplifier that only [simplifier_alloc] writes. *)
Definition static_part (self : simplifier_t) :=
  (s_samples self, s_num_samples self, s_flags self, s_sequence_length self,
   s_sites self, s_mutations self, s_input_nodes self,
   s_node_name_offset self).

(** [t'] holds the rows of [t] followed by further rows, in the same
    allocation. *)
Record node_table_extends (t t' : node_table_t) : Prop := mk_node_table_extends {
  nte_wf : node_table_wf t';
  nte_rows : exists extra, node_table_rows t' = node_table_rows t ++ extra;
  nte_max_rows : nt_max_rows t' = nt_max_rows t;
  nte_max_name : nt_max_total_name_length t' = nt_max_total_name_length t
}.

(** A step of the run: the static part stays and the node table grows. *)
Definition run_step (self self' : simplifier_t) : Prop :=
  static_part self' = static_part self
  /\ length (s_ancestor_map self') = length (s_ancestor_map self)
  /\ (node_table_wf (s_nodes self) ->
      node_table_extends (s_nodes self) (s_nodes self')).

(** ** Sites and mutations after the run *)

(** The output node that a chain gives to the position [x]. *)
Definition chain_node_at (chain : list simplify_segment_t) (x : double)
  : option node_id_t :=
  seg_node <$> list_find (fun u => seg_left u <= x < seg_right u) chain
               ≫= (fun p => Some (snd p)).

(** Every mutation row of the output comes from a mutation row of the
    input, with its node replaced by the output node that the final chain
    of the original node gives to the position of the site. *)
Definition output_mutations_remapped (sites : site_table_t)
    (mutations : mutation_table_t) (self : simplifier_t) : Prop :=
  forall j site node, (j < mt_num_rows (s_mutations self))%nat ->
    mt_site (s_mutations self) !! j = Some site ->
    mt_node (s_mutations self) !! j = Some node ->
    exists i site_in node_in position chain,
      (i < mt_num_rows mutations)%nat
      /\ mt_site mutations !! i = Some site_in
      /\ mt_node mutations !! i = Some node_in
      /\ st_position sites !! Z.to_nat site_in = Some position
      /\ st_position (s_sites self) !! Z.to_nat site = Some position
      /\ s_ancestor_map self !! Z.to_nat node_in = Some chain
      /\ chain_node_at chain position = Some node.

(** No output site is left without a mutation, and the mutations refer to
    the output sites by their row numbers. *)
Definition output_sites_compacted (self : simplifier_t) : Prop :=
  (forall k, (k < st_num_rows (s_sites self))%nat ->
     exists j, (j < mt_num_rows (s_mutations self))%nat
       /\ mt_site (s_mutations self) !! j = Some (Z.of_nat k))
  /\ (forall j site, (j < mt_num_rows (s_mutations self))%nat ->
        mt_site (s_mutations self) !! j = Some site ->
        0 <= site < Z.of_nat (st_num_rows (s_sites self))).

(** ** The invariant of the simplifier state *)

(** A segment lies inside the sequence and is not empty. *)
Definition seg_ok (L : double) (x : simplify_segment_t) : Prop :=
  0 <= seg_left x /\ seg_left x < seg_right x /\ seg_right x <= L.

(** A chain: every segment has [left < right], and a segment ends before
    its successor begins. *)
Fixpoint chain_ok (L : double) (u : list simplify_segment_t) : Prop :=
  match u with
  | [] => True
  | x :: next =>
    seg_ok L x
    /\ match next with
       | [] => True
       | y :: _ => seg_right x <= seg_left y
       end
    /\ chain_ok L next
  end.

Definition queue_le (a b : queue_item) : Prop :=
  cmp_segment_queue (fst a) (fst b) <= 0.

Definition overlap_lt (a b : overlap_count_t) : Prop :=
  oc_start a < oc_start b.

(** The chains of the ancestor map and of the merge queue are chains inside
    the sequence; the two containers are in their order. *)
Record simplifier_inv (self : simplifier_t) : Prop := mk_simplifier_inv {
  inv_map : Forall (chain_ok (s_sequence_length self)) (s_ancestor_map self);
  inv_queue :
    Forall (fun x => chain_ok (s_sequence_length self) (item_chain x))
      (s_merge_queue self);
  inv_queue_sorted : StronglySorted queue_le (s_merge_queue self);
  inv_overlap_sorted : StronglySorted overlap_lt (s_overlap_counts self)
}.

(** What the assertions of [simplifier_check_state] say of the chains. *)
Definition chains_ordered (self : simplifier_t) : Prop :=
  (forall u, u ∈ s_ancestor_map self -> chain_ordered u = true)
  /\ (forall x, x ∈ s_merge_queue self -> chain_ordered (item_chain x) = true).

(** Inside [simplifier_merge_ancestors]: [z] is the last segment of the
    chain that is being built for [input_id], and it ends before the queued
    chains begin. *)
Definition z_inv (self : simplifier_t) (input_id : node_id_t)
    (z : option simplify_segment_t) : Prop :=
  match z with
  | None => True
  | Some zs =>
    (exists chain,
       s_ancestor_map self !! Z.to_nat input_id = Some (chain ++ [zs]))
    /\ Forall (fun q => seg_right zs <= seg_left (fst q)) (s_merge_queue self)
  end.

(** ** Sorted tables *)

(** The row that a sort key stands for. *)
Definition key_row (e : edgeset_sort_t) : edgeset_t :=
  mk_edgeset (es_left e) (es_right e) (es_parent e) (es_children e).

Definition node_time_of (nodes : node_table_t) (u : node_id_t) : double :=
  nt_time nodes !!! Z.to_nat u.

(** The order (parent time, parent, left), each ascending. *)
Definition edgeset_le (time : node_id_t -> double) (a b : edgeset_t) : Prop :=
  time (edgeset_parent a) < time (edgeset_parent b)
  \/ (time (edgeset_parent a) = time (edgeset_parent b)
      /\ (edgeset_parent a < edgeset_parent b
          \/ (edgeset_parent a = edgeset_parent b
              /\ edgeset_left a <= edgeset_left b))).

Definition edgesets_sorted (time : node_id_t -> double)
    (rows : list edgeset_t) : Prop :=
  StronglySorted (edgeset_le time) rows.

Definition children_sorted (e : edgeset_t) : Prop :=
  StronglySorted Z.le (edgeset_children e).

(** The same row, with the children taken as a multiset. *)
Definition edgeset_equiv (a b : edgeset_t) : Prop :=
  edgeset_left a = edgeset_left b
  /\ edgeset_right a = edgeset_right b
  /\ edgeset_parent a = edgeset_parent b
  /\ edgeset_children a ≡ₚ edgeset_children b.

(** The same multiset of rows. *)
Definition same_edgesets (rows' rows : list edgeset_t) : Prop :=
  exists rows'', rows'' ≡ₚ rows /\ Forall2 edgeset_equiv rows' rows''.

(** The row that the second loop of [table_sorter_sort_edgesets] writes for
    a key. *)
Definition sorted_row
    (qsort : forall A : Type, (A -> A -> Z) -> list A -> list A)
    (e : edgeset_sort_t) : edgeset_t :=
  mk_edgeset (es_left e) (es_right e) (es_parent e)
    (qsort _ cmp_node_id (es_children e)).

(** The strict order (parent time, parent, left): no two rows compare
    equal. *)
Definition edgeset_lt (time : node_id_t -> double) (a b : edgeset_t) : Prop :=
  time (edgeset_parent a) < time (edgeset_parent b)
  \/ (time (edgeset_parent a) = time (edgeset_parent b)
      /\ (edgeset_parent a < edgeset_parent b
          \/ (edgeset_parent a = edgeset_parent b
              /\ edgeset_left a < edgeset_left b))).

(** "Already in sorted order": edgesets by (parent time, parent, left) with
    children ascending, sites by position, mutations by site. *)
Definition tables_sorted (nodes : node_table_t) (edgesets : edgeset_table_t)
    (sites : option site_table_t) (mutations : option mutation_table_t)
  : Prop :=
  edgesets_sorted (node_time_of nodes) (edgeset_table_rows edgesets)
  /\ Forall children_sorted (edgeset_table_rows edgesets)
  /\ (forall s, sites = Some s ->
        StronglySorted Z.le (take (st_num_rows s) (st_position s)))
  /\ (forall m, mutations = Some m ->
        StronglySorted Z.le (take (mt_num_rows m) (mt_site m))).

(** Sorted order without ties. *)
Definition tables_strictly_sorted (nodes : node_table_t)
    (edgesets : edgeset_table_t) (sites : option site_table_t)
    (mutations : option mutation_table_t) : Prop :=
  StronglySorted (edgeset_lt (node_time_of nodes)) (edgeset_table_rows edgesets)
  /\ Forall children_sorted (edgeset_table_rows edgesets)
  /\ (forall s, sites = Some s ->
        StronglySorted Z.lt (take (st_num_rows s) (st_position s)))
  /\ (forall m, mutations = Some m ->
        StronglySorted Z.lt (take (mt_num_rows m) (mt_site m))).

(** Sorter idempotence as the specification states it, for a given
    [qsort]. *)
Definition sorter_idempotent
    (qsort : forall A : Type, (A -> A -> Z) -> list A -> list A) : Prop :=
  forall nodes edgesets sites mutations out,
    edgeset_table_wf edgesets ->
    tables_sorted nodes edgesets sites mutations ->
    sort_tables qsort (Some nodes) (Some edgesets) sites mutations
    = (out, Ok tt) ->
    out = (Some edgesets, sites, mutations).

(** ** Edgeset tables that can grow *)

(** A table as [edgeset_table_alloc] and the functions after it leave it:
    well formed, with increments that are not zero. *)
Definition edgeset_table_ok (t : edgeset_table_t) : Prop :=
  edgeset_table_wf t
  /\ (0 < et_max_rows_increment t)%nat
  /\ (0 < et_max_total_children_length_increment t)%nat.

(** ** What a turn of the merge loop works on *)

(** The tables that the run writes. *)
Definition emit_part (self : simplifier_t) :=
  (s_edgesets self, s_last_edgeset self, s_nodes self).

(** The ends of the segments of a chain, and the positions that a merge
    can stop at: the ends of the queued segments, the starts of the overlap
    counts and the sequence length. *)
Definition chain_points (u : list simplify_segment_t) : list double :=
  flat_map (fun s => [seg_left s; seg_right s]) u.

Definition queue_points (Q : list queue_item) : list double :=
  flat_map (fun x => chain_points (item_chain x)) Q.

Definition state_points (self : simplifier_t) : list double :=
  s_sequence_length self
  :: (oc_start <$> s_overlap_counts self) ++ queue_points (s_merge_queue self).

(** The run writes its output into the table it reads: [t'] has the rows
    of [t] and further rows, and behind its rows the parent column is as
    it was. *)
Definition edgesets_advance (t t' : edgeset_table_t) : Prop :=
  edgeset_table_ok t'
  /\ (et_num_rows t <= et_num_rows t')%nat
  /\ forall i x, (et_num_rows t' <= i)%nat ->
       et_parent t !! i = Some x -> et_parent t' !! i = Some x.

(** ** The time check of the sweep *)

(** The times of the parents, row after row, do not go down; [current] is
    the parent of the row before. *)
Fixpoint parents_sorted (time : node_id_t -> double) (current : node_id_t)
    (parents : list node_id_t) : Prop :=
  match parents with
  | [] => True
  | parent :: parents =>
    time current <= time parent /\ parents_sorted time parent parents
  end.

(** The rows in use of the input are sorted by non-decreasing parent
    time. *)
Definition edgesets_time_sorted (nodes : node_table_t)
    (edgesets : edgeset_table_t) : Prop :=
  forall j, (S j < et_num_rows edgesets)%nat ->
    node_time_of nodes (et_parent edgesets !!! j)
    <= node_time_of nodes (et_parent edgesets !!! S j).

(** Some row is followed by a row whose parent has a strictly smaller
    time. *)
Definition edgesets_time_unsorted (nodes : node_table_t)
    (edgesets : edgeset_table_t) : Prop :=
  exists j, (S j < et_num_rows edgesets)%nat
    /\ node_time_of nodes (et_parent edgesets !!! S j)
       < node_time_of nodes (et_parent edgesets !!! j).

(** What holds while [simplifier_run] sweeps the table [input]. *)
Record run_inv (input : edgeset_table_t) (self : simplifier_t) : Prop :=
  mk_run_inv {
  ri_inv : simplifier_inv self;
  ri_advance : edgesets_advance input (s_edgesets self)
}.

(** ** The rows that simplifier_run writes *)

(** The squash buffer holds no row before the first record, and one row
    afterwards. *)
Definition buffer_rows (last : last_edgeset_t) : list edgeset_t :=
  if Nat.eqb (le_children_length last) 0 then []
  else [mk_edgeset (le_left last) (le_right last) (le_parent last)
          (take (le_children_length last) (le_children last))].

(** The rows recorded so far: the rows of the output table and the row in
    the squash buffer. *)
Definition emitted (self : simplifier_t) : list edgeset_t :=
  edgeset_table_rows (s_edgesets self) ++ buffer_rows (s_last_edgeset self).

Definition sorted_children (e : edgeset_t) : list node_id_t :=
  merge_sort Z.le (edgeset_children e).

(** Two rows that could be one: the same parent, the same sorted children
    and meeting intervals. *)
Definition squashable (a b : edgeset_t) : Prop :=
  edgeset_parent a = edgeset_parent b
  /\ sorted_children a = sorted_children b
  /\ edgeset_right a = edgeset_left b.

Definition no_adjacent_squashable (rows : list edgeset_t) : Prop :=
  forall i a b, rows !! i = Some a -> rows !! S i = Some b -> ~ squashable a b.

(** The row [a] comes before a row of [parent] that starts at [left]. *)
Definition key_before (parent : node_id_t) (left : double) (a : edgeset_t)
  : Prop :=
  edgeset_parent a < parent
  \/ (edgeset_parent a = parent /\ edgeset_left a < left).

Definition row_before (a b : edgeset_t) : Prop :=
  key_before (edgeset_parent b) (edgeset_left b) a.

(** The recorded rows: in the order of their parents and, for one parent,
    of their left ends; the parents are output nodes [lo <= parent < hi];
    the children are in order; no row could be squashed into the one
    before. *)
Record rows_ok (lo hi : Z) (rows : list edgeset_t) : Prop := mk_rows_ok {
  ro_sorted : StronglySorted row_before rows;
  ro_parents : Forall (fun a => lo <= edgeset_parent a < hi) rows;
  ro_children : Forall children_sorted rows;
  ro_squash : no_adjacent_squashable rows
}.

(** The output nodes after the samples are in the order of their times,
    none later than [T]. *)
Record nodes_time_sorted (num_samples : nat) (T : double)
    (nodes : node_table_t) : Prop := mk_nodes_time_sorted {
  nts_sorted : forall u v, (num_samples <= u)%nat -> (u <= v)%nat ->
    (v < nt_num_rows nodes)%nat ->
    nt_time nodes !!! u <= nt_time nodes !!! v;
  nts_bound : forall u, (num_samples <= u)%nat -> (u < nt_num_rows nodes)%nat ->
    nt_time nodes !!! u <= T
}.

(** What the run keeps of the tables that it writes. *)
Record emit_inv (num_samples : nat) (T : double) (self : simplifier_t)
  : Prop := mk_emit_inv {
  ei_edgesets : edgeset_table_ok (s_edgesets self);
  ei_nodes : node_table_wf (s_nodes self);
  ei_node_ids : Z.of_nat (nt_max_rows (s_nodes self)) < 2 ^ 31;
  ei_samples : (num_samples <= nt_num_rows (s_nodes self))%nat;
  ei_buffer :
    le_children_length (s_last_edgeset self) <> 0%nat ->
    le_children_length (s_last_edgeset self)
    = length (le_children (s_last_edgeset self));
  ei_first :
    le_children_length (s_last_edgeset self) = 0%nat ->
    et_num_rows (s_edgesets self) = 0%nat;
  ei_rows :
    rows_ok (Z.of_nat num_samples) (Z.of_nat (nt_num_rows (s_nodes self)))
      (emitted self);
  ei_times : nodes_time_sorted num_samples T (s_nodes self)
}.

(** What a merge keeps: before the first coalescence the node table has
    its [n0] rows; afterwards it has one more, the output node [n0] of the
    parent, and the rows recorded for it start before every queued
    segment. *)
Definition merge_emit_inv (num_samples : nat) (T : double) (n0 : nat)
    (self : simplifier_t) (coalescence : bool) : Prop :=
  emit_inv num_samples T self
  /\ snapshot_ok self
  /\ (num_samples <= n0)%nat
  /\ (if coalescence then
        nt_num_rows (s_nodes self) = S n0
        /\ Forall (fun q =>
             Forall (key_before (Z.of_nat n0) (seg_left (fst q)))
               (emitted self)) (s_merge_queue self)
      else nt_num_rows (s_nodes self) = n0).

(** ** The genealogy that a table of edgesets stands for *)

(** The row gives a parent to [u] at the position [x]. *)
Definition row_covers (x : double) (u : node_id_t) (e : edgeset_t) : bool :=
  (edgeset_left e <=? x) && (x <? edgeset_right e)
  && bool_decide (u ∈ edgeset_children e).

Definition parent_at (rows : list edgeset_t) (x : double) (u : node_id_t)
  : option node_id_t :=
  edgeset_parent <$> find (row_covers x u) rows.

(** [u] and its ancestors at [x], the nearest first; a path has no more
    than [fuel] steps. *)
Fixpoint ancestors_at (rows : list edgeset_t) (x : double) (fuel : nat)
    (u : node_id_t) : list node_id_t :=
  u :: match fuel with
       | O => []
       | S fuel =>
         match parent_at rows x u with
         | Some p => ancestors_at rows x fuel p
         | None => []
         end
       end.

(** The most recent common ancestor of [a] and [b] at [x], if they have
    one. *)
Definition mrca_at (rows : list edgeset_t) (num_nodes : nat) (x : double)
    (a b : node_id_t) : option node_id_t :=
  find (fun w => bool_decide (w ∈ ancestors_at rows x num_nodes b))
    (ancestors_at rows x num_nodes a).

(** The input tables are a genealogy in the order that the simplifier
    reads: every row has an interval inside the sequence, nodes of the
    table, and children younger than the parent; the rows are in the order
    (parent time, parent, left); no node has two parents at a position. *)
Definition row_valid (nodes : node_table_t) (L : double) (e : edgeset_t)
  : Prop :=
  0 <= edgeset_left e /\ edgeset_left e < edgeset_right e
  /\ edgeset_right e <= L
  /\ 0 <= edgeset_parent e < Z.of_nat (nt_num_rows nodes)
  /\ Forall (fun c => 0 <= c < Z.of_nat (nt_num_rows nodes)
                      /\ node_time_of nodes c
                         < node_time_of nodes (edgeset_parent e))
       (edgeset_children e).

Definition one_parent (rows : list edgeset_t) : Prop :=
  forall i j a b u x, rows !! i = Some a -> rows !! j = Some b ->
    row_covers x u a = true -> row_covers x u b = true -> i = j.

Definition genealogy_valid (nodes : node_table_t) (edgesets : edgeset_table_t)
    (L : double) : Prop :=
  Forall (row_valid nodes L) (edgeset_table_rows edgesets)
  /\ edgesets_sorted (node_time_of nodes) (edgeset_table_rows edgesets)
  /\ one_parent (edgeset_table_rows edgesets).

(** The output has the genealogy of the samples: with the input node [s] of
    the [k]-th sample renamed to [k], every pair of samples has at every
    position the renamed most recent common ancestor, or none as in the
    input. *)
Definition mrca_preserved (nodes : node_table_t) (edgesets : edgeset_table_t)
    (samples : list node_id_t) (L : double) (self' : simplifier_t) : Prop :=
  exists out_id : node_id_t -> node_id_t,
    (forall k s, samples !! k = Some s -> out_id s = Z.of_nat k)
    /\ forall a b x, a ∈ samples -> b ∈ samples -> 0 <= x < L ->
         mrca_at (edgeset_table_rows (s_edgesets self'))
           (nt_num_rows (s_nodes self')) x (out_id a) (out_id b)
         = out_id <$> mrca_at (edgeset_table_rows edgesets)
                        (nt_num_rows nodes) x a b.

(** ** Example tables *)

(** A node table with the given (flags, time) rows, empty names, and the
    spare cell in the name column that [node_table_add_row] leaves. *)
Definition example_nodes (rows : list (Z * double)) : node_table_t :=
  let n := length rows in
  mk_node_table 1 1 n n 1 0 (rows.*1) (rows.*2) (replicate n (-1)) [x00]
    (replicate n 0%nat).

(** An edgeset table with the given (left, right, parent, children) rows. *)
Definition example_edgesets (rows : list (double * double * node_id_t * list node_id_t))
  : edgeset_table_t :=
  let n := length rows in
  let children := concat (rows.*2) in
  mk_edgeset_table 1 1 n n (S (length children)) (length children)
    (rows.*1.*1.*1) (rows.*1.*1.*2) (rows.*1.*2)
    (children ++ [0]) (length <$> rows.*2).

Definition example_no_sites : site_table_t :=
  mk_site_table 1 1 0 0 0 0 [] [] [].

Definition example_no_mutations : mutation_table_t :=
  mk_mutation_table 1 1 0 0 0 0 [] [] [] [].

(** Two samples and their parent on [[0, 10)]. *)
Definition nodes_cherry : node_table_t :=
  example_nodes [(1, 0); (1, 0); (0, 1)].

Definition edgesets_cherry : edgeset_table_t :=
  example_edgesets [(0, 10, 2, [0; 1])].

(** As [nodes_cherry], but node 0 does not carry the sample flag. *)
Definition nodes_unflagged : node_table_t :=
  example_nodes [(0, 0); (1, 0); (0, 1)].

(** One site at position 3 with one mutation above node 0. *)
Definition sites_one : site_table_t :=
  mk_site_table 1 1 1 1 2 1 [3] ["065"%byte; x00] [1%nat].

Definition mutations_one : mutation_table_t :=
  mk_mutation_table 1 1 1 1 2 1 [0] [0] ["084"%byte; x00] [1%nat].

(** Node 2 is the parent of sample 0 alone: the two samples never meet. *)
Definition edgesets_unary : edgeset_table_t :=
  example_edgesets [(0, 10, 2, [0])].

(** Two samples, their parent 2 and its parent 3, at times 0, 0, 1, 2. *)
Definition nodes_chain : node_table_t :=
  example_nodes [(1, 0); (1, 0); (0, 1); (0, 2)].

(** The rows of the older parent first, children in descending order. *)
Definition edgesets_unsorted : edgeset_table_t :=
  example_edgesets [(0, 10, 3, [2; 1]); (0, 10, 2, [1; 0])].

Definition edgesets_sorted_two : edgeset_table_t :=
  example_edgesets [(0, 10, 2, [0; 1]); (0, 10, 3, [1; 2])].

(** Sites at positions 3 and 7. *)
Definition sites_two : site_table_t :=
  mk_site_table 1 1 2 2 3 2 [3; 7] ["065"%byte; "067"%byte; x00]
    [1%nat; 1%nat].

(** One mutation at each of the two sites. *)
Definition mutations_two : mutation_table_t :=
  mk_mutation_table 1 1 2 2 3 2 [0; 1] [0; 1] ["084"%byte; "071"%byte; x00]
    [1%nat; 1%nat].

(** Two mutations at the one site, above node 0 and above node 1. *)
Definition mutations_same_site : mutation_table_t :=
  mk_mutation_table 1 1 2 2 3 2 [0; 0] [0; 1] ["084"%byte; "071"%byte; x00]
    [1%nat; 1%nat].

(** The parent 2 of the first row is older than the parent 3 of the
    second. *)
Definition nodes_older_first : node_table_t :=
  example_nodes [(1, 0); (1, 0); (0, 2); (0, 1)].

(** The two samples meet in node 2 on [[0, 5)] and in node 3 on
    [[5, 10)]. *)
Definition edgesets_split : edgeset_table_t :=
  example_edgesets [(0, 5, 2, [0; 1]); (5, 10, 3, [0; 1])].

(** Seven samples; node 7 is the parent of the samples 0 to 4 in turn along
    the sequence, node 8 the parent of node 7 and sample 5, and the root 9
    the parent of node 8 and sample 6. *)
Definition nodes_fragments : node_table_t :=
  example_nodes [(1, 0); (1, 0); (1, 0); (1, 0); (1, 0); (1, 0); (1, 0);
                 (0, 1); (0, 2); (0, 3)].

Definition edgesets_fragments : edgeset_table_t :=
  example_edgesets
    [(0, 2, 7, [0]); (2, 4, 7, [1]); (4, 6, 7, [2]); (6, 8, 7, [3]);
     (8, 10, 7, [4]); (0, 10, 8, [7; 5]); (0, 10, 9, [8; 6])].

Definition samples_fragments : list node_id_t := [0; 1; 2; 3; 4; 5; 6].

(** * Proofs *)

(** ** Outcomes *)

Lemma bind_Ok {A B} (m : outcome A) (f : A -> outcome B) (b : B) :
  mbind f m = Ok b <-> exists a, m = Ok a /\ f a = Ok b.
Proof.
  destruct m; simpl; split; intros H; try discriminate.
  - eauto.
  - destruct H as (a' & Ha & Hf). congruence.
  - destruct H as (? & ? & _); discriminate.
  - destruct H as (? & ? & _); discriminate.
  - destruct H as (? & ? & _); discriminate.
Qed.

Lemma bind_Err {A B} (m : outcome A) (f : A -> outcome B) (e : error) :
  mbind f m = Err e <-> m = Err e \/ exists a, m = Ok a /\ f a = Err e.
Proof.
  destruct m; simpl; split; intros H; try discriminate; eauto.
  - destruct H as [H | (a' & Ha & Hf)]; [discriminate | congruence].
  - left. congruence.
  - destruct H as [H | (a' & Ha & Hf)]; [congruence | discriminate].
  - destruct H as [H | (a' & Ha & Hf)]; discriminate.
  - destruct H as [H | (a' & Ha & Hf)]; discriminate.
Qed.

Lemma bind_ext_Ok {A B} (m : outcome A) (f g : A -> outcome B) :
  (forall a, m = Ok a -> f a = g a) -> mbind f m = mbind g m.
Proof. intros H. destruct m; simpl; auto. Qed.

Lemma read_Ok {A} (l : list A) (i : nat) (a : A) :
  read l i = Ok a <-> l !! i = Some a.
Proof. unfold read. destruct (l !! i); split; congruence. Qed.

Lemma read_not_Err {A} (l : list A) (i : nat) (e : error) : read l i <> Err e.
Proof. unfold read. destruct (l !! i); congruence. Qed.

Lemma readz_Ok {A} (l : list A) (i : Z) (a : A) :
  readz l i = Ok a <-> 0 <= i /\ l !! Z.to_nat i = Some a.
Proof.
  unfold readz. destruct (Z.ltb_spec i 0).
  - split; [discriminate | lia].
  - rewrite read_Ok. intuition.
Qed.

Lemma readz_not_Err {A} (l : list A) (i : Z) (e : error) : readz l i <> Err e.
Proof. unfold readz. destruct (i <? 0); [congruence | apply read_not_Err]. Qed.

Lemma assert_Ok (b : bool) (u : unit) : assert b = Ok u <-> b = true.
Proof. unfold assert. destruct b, u; split; congruence. Qed.

Lemma assert_not_Err (b : bool) (e : error) : assert b <> Err e.
Proof. unfold assert. destruct b; congruence. Qed.

(** Inversion of a computation that returned 0. *)
Ltac inv_Ok H :=
  lazymatch type of H with
  | mbind _ _ = Ok _ =>
    let a := fresh "a" in
    let H1 := fresh "Hok" in
    apply bind_Ok in H; destruct H as (a & H1 & H);
    inv_Ok H1
  | read _ _ = Ok _ => apply read_Ok in H
  | readz _ _ = Ok _ => apply readz_Ok in H
  | assert _ = Ok _ => apply assert_Ok in H
  | Ok _ = Ok _ => injection H as H
  | _ => idtac
  end.

(** ** Arrays *)

Lemma length_memcpy {A} (dst src : list A) (off n : nat) :
  length (memcpy dst off src n) = length dst.
Proof. apply length_inserts. Qed.

Lemma lookup_memcpy_lt {A} (dst src : list A) (off n i : nat) :
  (i < off)%nat -> memcpy dst off src n !! i = dst !! i.
Proof. intros. unfold memcpy. by rewrite list_lookup_inserts_lt. Qed.

Lemma lookup_memcpy_ge {A} (dst src : list A) (off n i : nat) :
  (off + n <= i)%nat -> memcpy dst off src n !! i = dst !! i.
Proof.
  intros. unfold memcpy. rewrite list_lookup_inserts_ge; [done|].
  rewrite length_take. lia.
Qed.

Lemma lookup_memcpy_in {A} (dst src : list A) (off n i : nat) :
  (n <= length src)%nat -> (off + n <= length dst)%nat ->
  (off <= i < off + n)%nat ->
  memcpy dst off src n !! i = src !! (i - off)%nat.
Proof.
  intros. unfold memcpy. rewrite list_lookup_inserts.
  - rewrite lookup_take. case_decide; [done | lia].
  - rewrite length_take. lia.
  - lia.
Qed.

Lemma slice_length {A} (mem : list A) (off n : nat) :
  (off + n <= length mem)%nat -> length (slice mem off n) = n.
Proof. intros. unfold slice. rewrite length_take, length_drop. lia. Qed.

Lemma lookup_slice {A} (mem : list A) (off n i : nat) :
  (i < n)%nat -> slice mem off n !! i = mem !! (off + i)%nat.
Proof.
  intros. unfold slice. rewrite lookup_take. case_decide; [|lia].
  by rewrite lookup_drop.
Qed.

Lemma slice_ext {A} (m1 m2 : list A) (off n : nat) :
  (forall i, (off <= i < off + n)%nat -> m1 !! i = m2 !! i) ->
  slice m1 off n = slice m2 off n.
Proof.
  intros Hext. apply list_eq. intros i. unfold slice.
  rewrite !lookup_take. case_decide; [|done].
  rewrite !lookup_drop. apply Hext. lia.
Qed.

Lemma slice_memcpy_before {A} (dst src : list A) (off n o m : nat) :
  (o + m <= off)%nat -> slice (memcpy dst off src n) o m = slice dst o m.
Proof. intros. apply slice_ext. intros. apply lookup_memcpy_lt. lia. Qed.

Lemma slice_memcpy_eq {A} (dst src : list A) (off n : nat) :
  (n <= length src)%nat -> (off + n <= length dst)%nat ->
  slice (memcpy dst off src n) off n = take n src.
Proof.
  intros. apply list_eq. intros i. unfold slice.
  rewrite !lookup_take. case_decide; [|done].
  rewrite lookup_drop, lookup_memcpy_in by lia. f_equal. lia.
Qed.

Lemma slice_0 {A} (mem : list A) (n : nat) : slice mem 0 n = take n mem.
Proof. done. Qed.

Lemma sum_list_take_S (len : list nat) (j : nat) :
  (j < length len)%nat ->
  sum_list (take (S j) len) = (sum_list (take j len) + len !!! j)%nat.
Proof.
  intros Hj. destruct (lookup_lt_is_Some_2 len j Hj) as [x Hx].
  rewrite (take_S_r _ _ _ Hx), sum_list_with_app.
  rewrite (list_lookup_total_correct _ _ _ Hx). simpl. lia.
Qed.

Lemma sum_list_take_le (len : list nat) (j n : nat) :
  (j <= n)%nat -> (sum_list (take j len) <= sum_list (take n len))%nat.
Proof.
  intros Hjn. replace n with (j + (n - j))%nat by lia.
  rewrite <- take_take_drop, sum_list_with_app. lia.
Qed.

Lemma sum_list_take_lt_end (len : list nat) (j n : nat) :
  (j < n)%nat -> (n <= length len)%nat ->
  (sum_list (take j len) + len !!! j <= sum_list (take n len))%nat.
Proof.
  intros Hjn Hn. rewrite <- sum_list_take_S by lia.
  apply sum_list_take_le. lia.
Qed.

(** Writing row [n] of a table leaves the rows before it as they were. *)
Lemma payload_row_write_before {A} (payload src : list A) (len : list nat)
    (n k j : nat) :
  (j < n)%nat -> (n <= length len)%nat ->
  payload_row (memcpy payload (sum_list (take n len)) src k) (<[n := k]> len) j
  = payload_row payload len j.
Proof.
  intros Hj Hn. unfold payload_row.
  rewrite take_insert_ge by lia.
  rewrite list_lookup_total_insert_ne by lia.
  apply slice_memcpy_before. by apply sum_list_take_lt_end.
Qed.

Lemma payload_row_write_eq {A} (payload src : list A) (len : list nat)
    (n k : nat) :
  (n < length len)%nat -> (k <= length src)%nat ->
  (sum_list (take n len) + k <= length payload)%nat ->
  payload_row (memcpy payload (sum_list (take n len)) src k) (<[n := k]> len) n
  = take k src.
Proof.
  intros Hn Hk Hfit. unfold payload_row.
  rewrite take_insert_ge by lia.
  rewrite list_lookup_total_insert_eq by lia.
  by apply slice_memcpy_eq.
Qed.

(** ** Node table *)

Lemma node_table_rows_length (t : node_table_t) :
  length (node_table_rows t) = nt_num_rows t.
Proof. unfold node_table_rows. by rewrite length_fmap, length_seq. Qed.

Lemma node_table_rows_lookup (t : node_table_t) (j : nat) :
  (j < nt_num_rows t)%nat -> node_table_rows t !! j = Some (node_row_at t j).
Proof.
  intros Hj. unfold node_table_rows.
  rewrite list_lookup_fmap, lookup_seq_lt by done. done.
Qed.

(** [node_table_add_row_internal] appends one row. *)
Lemma node_table_add_row_internal_Ok (t t' : node_table_t) (flags : Z)
    (time : double) (population : population_id_t) (len : nat)
    (name : list byte) :
  node_table_wf t -> (len <= length name)%nat ->
  node_table_add_row_internal t flags time population len name = Ok t' ->
  node_table_wf t'
  /\ node_table_rows t'
     = node_table_rows t ++ [mk_node flags time population (take len name)]
  /\ nt_num_rows t' = S (nt_num_rows t)
  /\ nt_total_name_length t' = (nt_total_name_length t + len)%nat
  /\ nt_max_rows t' = nt_max_rows t
  /\ nt_max_total_name_length t' = nt_max_total_name_length t.
Proof.
  intros Hwf Hlen H. unfold node_table_add_row_internal in H.
  inv_Ok H. inv_Ok H. inv_Ok H. subst t'.
  apply Nat.ltb_lt in Hok, Hok0.
  destruct Hwf as [Hr Hf Ht Hp Hnl Hn Htot Hmax]. simpl.
  split; [|split; [|done]].
  - constructor; simpl; rewrite ?length_insert, ?length_memcpy; try lia.
    rewrite sum_list_take_S by (rewrite length_insert; lia).
    rewrite take_insert_ge by lia.
    rewrite list_lookup_total_insert_eq by lia. lia.
  - unfold node_table_rows. cbn [nt_num_rows]. rewrite seq_S, fmap_app.
    simpl. f_equal.
    + apply list_fmap_ext. intros i j Hj. apply lookup_seq in Hj as [-> Hj].
      unfold node_row_at. simpl.
      rewrite !list_lookup_total_insert_ne by lia. f_equal.
      rewrite Htot. apply payload_row_write_before; lia.
    + unfold node_row_at. simpl.
      rewrite !list_lookup_total_insert_eq by lia. do 2 f_equal.
      rewrite Htot. apply payload_row_write_eq; lia.
Qed.

Lemma node_table_add_row_internal_total (t : node_table_t) (flags : Z)
    (time : double) (population : population_id_t) (len : nat)
    (name : list byte) :
  (nt_num_rows t < nt_max_rows t)%nat ->
  (nt_total_name_length t + len < nt_max_total_name_length t)%nat ->
  exists t', node_table_add_row_internal t flags time population len name = Ok t'.
Proof.
  intros H1 H2. unfold node_table_add_row_internal.
  apply Nat.ltb_lt in H1, H2. rewrite H1, H2. simpl. eauto.
Qed.

Lemma node_table_add_row_internal_not_Err (t : node_table_t) (flags : Z)
    (time : double) (population : population_id_t) (len : nat)
    (name : list byte) (e : error) :
  node_table_add_row_internal t flags time population len name <> Err e.
Proof.
  unfold node_table_add_row_internal, assert.
  destruct (nt_num_rows t <? _)%nat, (_ + _ <? _)%nat; simpl; congruence.
Qed.

Lemma node_table_reset_wf (t : node_table_t) :
  node_table_wf t -> node_table_wf (node_table_reset t).
Proof. intros []. constructor; simpl; try done; lia. Qed.

Lemma node_table_reset_rows (t : node_table_t) :
  node_table_rows (node_table_reset t) = [].
Proof. done. Qed.

Lemma memcpy_fresh {A} (d : A) (src : list A) (n : nat) :
  (n <= length src)%nat -> memcpy (resize n d []) 0 src n = take n src.
Proof.
  intros Hn. unfold memcpy.
  rewrite <- (app_nil_r (take n src)) at 1.
  apply list_inserts_0_l. rewrite length_resize, length_take. lia.
Qed.

Lemma node_table_set_columns_snapshot (t : node_table_t) :
  node_table_wf t -> (0 < nt_num_rows t)%nat ->
  (0 < nt_max_total_name_length t)%nat ->
  node_table_set_columns
    (mk_node_table (nt_num_rows t) (nt_total_name_length t + 1)
       0 0 0 0 [] [] [] [] [])
    (nt_num_rows t)
    (column_ptr (nt_max_rows t) (nt_flags t))
    (column_ptr (nt_max_rows t) (nt_time t))
    (column_ptr (nt_max_rows t) (nt_population t))
    (column_ptr (nt_max_total_name_length t) (nt_name t))
    (column_ptr (nt_max_rows t) (nt_name_length t))
  = Ok (node_table_snapshot t).
Proof.
  intros [Hr Hf Ht Hp Hnl Hn Htot Hmax] Hrows Hname. unfold column_ptr.
  destruct (Nat.eqb_spec (nt_max_rows t) 0) as [|_]; [lia|].
  destruct (Nat.eqb_spec (nt_max_total_name_length t) 0) as [|_]; [lia|].
  unfold node_table_set_columns. simpl.
  unfold node_table_expand_fixed_columns. simpl.
  destruct (Nat.ltb_spec 0 (nt_num_rows t)) as [_|]; [|lia]. simpl.
  unfold node_table_expand_name, expand_column. simpl.
  rewrite <- Htot.
  destruct (Nat.ltb_spec 0 (nt_total_name_length t)); simpl;
    unfold node_table_snapshot; rewrite ?memcpy_fresh by lia; try done.
  replace (nt_total_name_length t) with 0%nat by lia. simpl.
  do 2 f_equal.
Qed.

Lemma node_table_snapshot_wf (t : node_table_t) :
  node_table_wf t -> node_table_wf (node_table_snapshot t).
Proof.
  intros [Hr Hf Ht Hp Hnl Hn Htot Hmax].
  constructor; simpl; rewrite ?length_take; try lia.
  rewrite take_take, Nat.min_id. done.
Qed.

Lemma node_table_snapshot_row (t : node_table_t) (j : nat) :
  node_table_wf t -> (j < nt_num_rows t)%nat ->
  node_row_at (node_table_snapshot t) j = node_row_at t j.
Proof.
  intros [Hr Hf Ht Hp Hnl Hn Htot Hmax] Hj.
  unfold node_row_at, payload_row. simpl.
  rewrite !lookup_total_take_lt by lia. f_equal.
  rewrite take_take. replace (j `min` nt_num_rows t)%nat with j by lia.
  apply slice_ext. intros i Hi. rewrite lookup_take. case_decide; [done|].
  pose proof (sum_list_take_lt_end (nt_name_length t) j (nt_num_rows t)).
  lia.
Qed.

(** ** simplifier_record_node *)

Lemma name_offsets_length (lens : list nat) (off : nat) :
  length (name_offsets off lens) = length lens.
Proof. revert off. induction lens; intros; simpl; auto. Qed.

Lemma name_offsets_lookup (lens : list nat) (off j : nat) :
  (j < length lens)%nat ->
  name_offsets off lens !! j = Some (off + sum_list (take j lens))%nat.
Proof.
  revert off j. induction lens as [|n lens IH]; intros off j Hj; simpl in *.
  - lia.
  - destruct j as [|j]; simpl.
    + f_equal. lia.
    + rewrite IH by lia. f_equal. lia.
Qed.

Lemma wrap_int32_small (z : Z) : - 2 ^ 31 <= z < 2 ^ 31 -> wrap_int32 z = z.
Proof.
  intros Hz. unfold wrap_int32.
  rewrite Z.mod_small; lia.
Qed.

Lemma cast_node_id_small (n : nat) :
  Z.of_nat n < 2 ^ 31 -> cast_node_id n = Z.of_nat n.
Proof. intros. unfold cast_node_id. apply wrap_int32_small. lia. Qed.

Lemma simplifier_record_node_Ok (self self' : simplifier_t)
    (input_id : node_id_t) :
  snapshot_ok self -> node_table_wf (s_nodes self) ->
  simplifier_record_node self input_id = Ok self' ->
  0 <= input_id < Z.of_nat (nt_num_rows (s_input_nodes self))
  /\ exists nodes',
      self' = set_nodes self nodes'
      /\ node_table_wf nodes'
      /\ node_table_rows nodes'
         = node_table_rows (s_nodes self)
           ++ [node_row_at (s_input_nodes self) (Z.to_nat input_id)]
      /\ nt_num_rows nodes' = S (nt_num_rows (s_nodes self))
      /\ nt_total_name_length nodes'
         = (nt_total_name_length (s_nodes self)
            + nt_name_length (s_input_nodes self) !!! Z.to_nat input_id)%nat
      /\ nt_max_rows nodes' = nt_max_rows (s_nodes self)
      /\ nt_max_total_name_length nodes'
         = nt_max_total_name_length (s_nodes self).
Proof.
  intros [Hwf Hfull Hoff] Hnodes H. unfold simplifier_record_node in H.
  inv_Ok H. destruct Hok as [Hid Hoffset].
  inv_Ok H. destruct Hok as [_ Hflags].
  inv_Ok H. destruct Hok as [_ Htime].
  inv_Ok H. destruct Hok as [_ Hpop].
  inv_Ok H. destruct Hok as [_ Hlen].
  inv_Ok H. inv_Ok H. subst self'.
  destruct Hwf as [Hr Hf Ht Hp Hnl Hn Htot Hmax].
  set (j := Z.to_nat input_id) in *.
  assert (Hj : (j < nt_num_rows (s_input_nodes self))%nat).
  { apply lookup_lt_Some in Hflags. lia. }
  rewrite Hoff in Hoffset.
  rewrite name_offsets_lookup in Hoffset by (rewrite length_take; lia).
  injection Hoffset as <-. simpl in Hok.
  rewrite take_take in Hok.
  replace (j `min` nt_num_rows (s_input_nodes self))%nat with j in Hok by lia.
  pose proof (sum_list_take_lt_end (nt_name_length (s_input_nodes self)) j
                (nt_num_rows (s_input_nodes self)) Hj ltac:(lia)) as Hend.
  rewrite (list_lookup_total_correct _ _ _ Hlen) in Hend.
  apply node_table_add_row_internal_Ok in Hok; [|done|].
  2:{ rewrite length_drop. lia. }
  destruct Hok as (Hwf' & Hrows & Hnum & Htotal & Hmr & Hmn).
  split; [lia|]. eexists. split; [reflexivity|].
  split; [done|]. split.
  { rewrite Hrows. do 2 f_equal. unfold node_row_at, payload_row, slice.
    rewrite (list_lookup_total_correct _ _ _ Hflags).
    rewrite (list_lookup_total_correct _ _ _ Htime).
    rewrite (list_lookup_total_correct _ _ _ Hpop).
    rewrite (list_lookup_total_correct _ _ _ Hlen). done. }
  rewrite (list_lookup_total_correct _ _ _ Hlen). done.
Qed.

Lemma simplifier_record_node_total (self : simplifier_t) (input_id : node_id_t) :
  snapshot_ok self ->
  0 <= input_id < Z.of_nat (nt_num_rows (s_input_nodes self)) ->
  (nt_num_rows (s_nodes self) < nt_max_rows (s_nodes self))%nat ->
  (nt_total_name_length (s_nodes self)
   + nt_name_length (s_input_nodes self) !!! Z.to_nat input_id
   < nt_max_total_name_length (s_nodes self))%nat ->
  exists self', simplifier_record_node self input_id = Ok self'.
Proof.
  intros [Hwf Hfull Hoff] Hid Hrows Hname.
  destruct Hwf as [Hr Hf Ht Hp Hnl Hn Htot Hmax].
  unfold simplifier_record_node, readz.
  destruct (Z.ltb_spec input_id 0) as [|_]; [lia|].
  set (j := Z.to_nat input_id) in *.
  assert (Hj : (j < nt_num_rows (s_input_nodes self))%nat) by lia.
  unfold read. rewrite Hoff.
  rewrite name_offsets_lookup by (rewrite length_take; lia). simpl.
  destruct (lookup_lt_is_Some_2 (nt_flags (s_input_nodes self)) j ltac:(lia))
    as [f ->].
  destruct (lookup_lt_is_Some_2 (nt_time (s_input_nodes self)) j ltac:(lia))
    as [t ->].
  destruct (lookup_lt_is_Some_2 (nt_population (s_input_nodes self)) j
              ltac:(lia)) as [p ->].
  destruct (lookup_lt_is_Some_2 (nt_name_length (s_input_nodes self)) j
              ltac:(lia)) as [n Hn'].
  rewrite Hn'. simpl.
  rewrite (list_lookup_total_correct _ _ _ Hn') in Hname.
  edestruct node_table_add_row_internal_total as [t' ->]; [done..|].
  simpl. eauto.
Qed.

Lemma simplifier_record_node_not_Err (self : simplifier_t)
    (input_id : node_id_t) (e : error) :
  simplifier_record_node self input_id <> Err e.
Proof.
  unfold simplifier_record_node. intros H.
  repeat (apply bind_Err in H as [H | (? & _ & H)];
          [by apply readz_not_Err in H |]).
  apply bind_Err in H as [H | (? & _ & H)]; [|discriminate].
  by apply node_table_add_row_internal_not_Err in H.
Qed.

(** ** simplifier_alloc *)

Lemma NoDup_bounded_submseteq (l : list Z) (n : nat) :
  NoDup l -> (forall x, x ∈ l -> 0 <= x < Z.of_nat n) ->
  l ⊆+ seqZ 0 (Z.of_nat n).
Proof.
  intros Hnd Hb. apply NoDup_submseteq; [done|].
  intros x Hx. apply elem_of_seqZ. specialize (Hb x Hx). lia.
Qed.

Lemma NoDup_bounded_length (l : list Z) (n : nat) :
  NoDup l -> (forall x, x ∈ l -> 0 <= x < Z.of_nat n) ->
  (length l <= n)%nat.
Proof.
  intros Hnd Hb. pose proof (NoDup_bounded_submseteq l n Hnd Hb) as H.
  apply submseteq_length in H. rewrite length_seqZ in H. lia.
Qed.

Lemma sum_list_with_seqZ (lens : list nat) (n : nat) :
  (n <= length lens)%nat ->
  sum_list_with (fun s => lens !!! Z.to_nat s) (seqZ 0 (Z.of_nat n))
  = sum_list (take n lens).
Proof.
  induction n as [|n IH]; intros Hn; [done|].
  rewrite seqZ_S, sum_list_with_app, IH by lia. simpl.
  rewrite sum_list_take_S by lia.
  replace (Z.to_nat (0 + Z.of_nat n)) with n by lia. lia.
Qed.

Lemma NoDup_bounded_sum (lens : list nat) (l : list Z) (n : nat) :
  NoDup l -> (forall x, x ∈ l -> 0 <= x < Z.of_nat n) ->
  (n <= length lens)%nat ->
  (sum_list_with (fun s => lens !!! Z.to_nat s) l <= sum_list (take n lens))%nat.
Proof.
  intros Hnd Hb Hn. pose proof (NoDup_bounded_submseteq l n Hnd Hb) as H.
  apply submseteq_Permutation in H as [k Hk].
  rewrite <- sum_list_with_seqZ by done.
  rewrite Hk, sum_list_with_app. lia.
Qed.

Lemma snapshot_ok_alloc (nodes : node_table_t) (edgesets : edgeset_table_t)
    (L : double) (processed : list node_id_t) (self : simplifier_t) :
  node_table_wf nodes ->
  alloc_inv nodes edgesets L processed self -> snapshot_ok self.
Proof.
  intros Hwf Hinv.
  destruct Hinv as [Hinput Hoffsets HL Hedgesets Hmaplen Hmapsample Hmapother Hnwf Hnrows Hntotal Hnmaxrows Hnmaxname Hheap Hqueue Hlast].
  constructor.
  - rewrite Hinput. by apply node_table_snapshot_wf.
  - by rewrite Hinput.
  - rewrite Hoffsets, Hinput. simpl.
    rewrite take_take, Nat.min_id. done.
Qed.

Section Alloc.

Variables (nodes : node_table_t) (edgesets : edgeset_table_t) (L : double).
Hypothesis nodes_wf : node_table_wf nodes.
Hypothesis nodes_small : Z.of_nat (nt_num_rows nodes) < 2 ^ 31.
Hypothesis nodes_room :
  (nt_total_name_length nodes < nt_max_total_name_length nodes)%nat.

Lemma snapshot_flags (j : nat) :
  (j < nt_num_rows nodes)%nat ->
  nt_flags (node_table_snapshot nodes) !! j = Some (nt_flags nodes !!! j).
Proof.
  intros Hj. simpl. rewrite lookup_take. case_decide; [|lia].
  apply list_lookup_lookup_total_lt. destruct nodes_wf. lia.
Qed.

(** One sample that passes the checks. *)
Lemma alloc_samples_good (processed samples : list node_id_t)
    (s : node_id_t) (self : simplifier_t) :
  alloc_inv nodes edgesets L processed self ->
  good_samples nodes (processed ++ [s]) ->
  exists self1,
    alloc_samples self (s :: samples) = alloc_samples self1 samples
    /\ alloc_inv nodes edgesets L (processed ++ [s]) self1.
Proof.
  intros Hinv [Hnd Hgood].
  assert (Hs : sample_in_range nodes s /\ sample_flagged nodes s).
  { apply Hgood. apply elem_of_app. right. by apply list_elem_of_singleton. }
  destruct Hs as [Hrange Hflag]. unfold sample_in_range in Hrange.
  pose proof Hnd as Hnd0.
  apply NoDup_app in Hnd as (Hnd & Hfresh & _).
  assert (Hnew : s ∉ processed).
  { intros Hin. eapply Hfresh; [done|]. by apply list_elem_of_singleton. }
  assert (Hbound : forall x, x ∈ processed ++ [s] ->
                     0 <= x < Z.of_nat (nt_num_rows nodes)).
  { intros x Hx. by apply Hgood. }
  pose proof (snapshot_ok_alloc _ _ _ _ _ nodes_wf Hinv) as Hsnap.
  destruct Hinv as [Hinput Hoffsets HL Hedgesets Hmaplen Hmapsample Hmapother Hnwf Hnrows Hntotal Hnmaxrows Hnmaxname Hheap Hqueue Hlast].
  destruct nodes_wf as [Hr Hf Ht Hp Hnl Hn Htot Hmax].
  simpl. rewrite Hinput. cbn [nt_num_rows node_table_snapshot].
  rewrite cast_node_id_small by done.
  destruct (Z.ltb_spec s 0) as [|_]; [lia|].
  destruct (Z.leb_spec (Z.of_nat (nt_num_rows nodes)) s) as [|_]; [lia|].
  simpl. unfold readz. destruct (Z.ltb_spec s 0) as [|_]; [lia|].
  unfold read. rewrite lookup_take_lt by lia.
  rewrite (list_lookup_lookup_total_lt (nt_flags nodes) (Z.to_nat s)) by lia.
  simpl.
  destruct (Z.eqb_spec (Z.land (nt_flags nodes !!! Z.to_nat s)
                          MSP_NODE_IS_SAMPLE) 0) as [Hz|_]; [done|].
  rewrite Hmapother; [|lia|by rewrite Z2Nat.id by lia].
  simpl.
  set (self2 := set_ancestor_map _ _).
  assert (Hlen : (length (processed ++ [s]) <= nt_num_rows nodes)%nat).
  { by apply NoDup_bounded_length. }
  assert (Hsum :
    (sum_list_with (fun s => nt_name_length nodes !!! Z.to_nat s)
       (processed ++ [s]) <= nt_total_name_length nodes)%nat).
  { rewrite Htot. apply NoDup_bounded_sum; [done|done|lia]. }
  rewrite length_app in Hlen. simpl in Hlen.
  rewrite sum_list_with_app in Hsum. simpl in Hsum.
  assert (Hrows : nt_num_rows (s_nodes self) = length processed).
  { rewrite <- node_table_rows_length, Hnrows. by rewrite length_fmap. }
  assert (Hsnap2 : snapshot_ok self2).
  { destruct Hsnap. by constructor. }
  destruct (simplifier_record_node_total self2 s) as [self1 Hrec].
  - done.
  - simpl. rewrite Hinput. simpl. lia.
  - simpl. lia.
  - simpl. rewrite Hntotal, Hnmaxname, Hinput. simpl.
    rewrite lookup_total_take_lt by lia. lia.
  - exists self1. rewrite Hrec. simpl. split; [done|].
    apply simplifier_record_node_Ok in Hrec; [|done|done].
    destruct Hrec as (_ & nodes' & -> & Hwf' & Hrows' & Hnum' & Htot' & Hmr' & Hmn').
    simpl in *. constructor; simpl; try done.
    + by rewrite length_insert.
    + intros k s' Hk. apply lookup_app_Some in Hk as [Hk | [Hge Hk]].
      * rewrite list_lookup_insert_ne.
        { by apply Hmapsample. }
        intros Heq. apply Hnew.
        assert (0 <= s').
        { apply (Hbound s'). apply elem_of_app. left.
          by eapply list_elem_of_lookup_2. }
        replace s with s' by lia. by eapply list_elem_of_lookup_2.
      * apply list_lookup_singleton_Some in Hk as [Hk <-].
        rewrite list_lookup_insert_eq by lia.
        rewrite HL. do 3 f_equal. unfold node_id_t in *.
        rewrite cast_node_id_small by lia. lia.
    + intros i Hi Hnot. rewrite list_lookup_insert_ne.
      * apply Hmapother; [done|]. intros Hin. apply Hnot.
        apply elem_of_app. by left.
      * intros Heq. apply Hnot. apply elem_of_app. right.
        rewrite <- Heq, Z2Nat.id by lia. by apply list_elem_of_singleton.
    + rewrite Hrows', Hnrows, fmap_app, Hinput. simpl. do 2 f_equal.
      apply node_table_snapshot_row; [by constructor | lia].
    + rewrite Htot', Hntotal, sum_list_with_app, Hinput. simpl.
      rewrite lookup_total_take_lt by lia. lia.
    + lia.
    + lia.
    + rewrite length_app. simpl. lia.
Qed.

Lemma alloc_samples_Ok (samples processed : list node_id_t)
    (self : simplifier_t) :
  alloc_inv nodes edgesets L processed self ->
  good_samples nodes (processed ++ samples) ->
  exists self',
    alloc_samples self samples = Ok self'
    /\ alloc_inv nodes edgesets L (processed ++ samples) self'.
Proof.
  revert processed self.
  induction samples as [|s samples IH]; intros processed self Hinv Hgood.
  - exists self. rewrite app_nil_r. done.
  - destruct (alloc_samples_good processed samples s self Hinv)
      as (self1 & -> & Hinv1).
    { destruct Hgood as [Hnd Hall]. split.
      - rewrite (assoc_L _ processed [s] samples : processed ++ s :: samples = _) in Hnd.
        by apply NoDup_app in Hnd as (? & _ & _).
      - intros x Hx. apply Hall. apply elem_of_app in Hx as [Hx|Hx].
        + apply elem_of_app. by left.
        + apply list_elem_of_singleton in Hx as ->. apply elem_of_app. right.
          apply elem_of_cons. by left. }
    replace (processed ++ s :: samples) with ((processed ++ [s]) ++ samples)
      in * by (by rewrite <- app_assoc).
    by apply IH.
Qed.

(** The first sample that fails a check decides the error. *)
Lemma alloc_samples_Err (samples processed : list node_id_t)
    (self : simplifier_t) (k : nat) (s : node_id_t) (e : error) :
  alloc_inv nodes edgesets L processed self ->
  samples !! k = Some s ->
  good_samples nodes (processed ++ take k samples) ->
  sample_error nodes (processed ++ take k samples) s e ->
  alloc_samples self samples = Err e.
Proof.
  revert processed self k.
  induction samples as [|s' samples IH]; intros processed self k Hinv Hk Hgood He;
    [done|].
  destruct k as [|k]; simpl in Hk.
  - injection Hk as ->. simpl in He. rewrite app_nil_r in He, Hgood.
    destruct Hinv as [Hinput Hoffsets HL Hedgesets Hmaplen Hmapsample Hmapother
      Hnwf Hnrows Hntotal Hnmaxrows Hnmaxname Hheap Hqueue Hlast].
    destruct nodes_wf as [Hr Hf Ht Hp Hnl Hn Htot Hmax].
    simpl. rewrite Hinput. cbn [nt_num_rows node_table_snapshot].
    rewrite cast_node_id_small by done.
    destruct He as [Hout | Hin Hflag | Hin Hflag Hdup];
      unfold sample_in_range in *.
    + destruct (Z.ltb_spec s 0); [done|].
      destruct (Z.leb_spec (Z.of_nat (nt_num_rows nodes)) s); [done|lia].
    + destruct (Z.ltb_spec s 0) as [|_]; [lia|].
      destruct (Z.leb_spec (Z.of_nat (nt_num_rows nodes)) s) as [|_]; [lia|].
      simpl. unfold readz. destruct (Z.ltb_spec s 0) as [|_]; [lia|].
      unfold read. rewrite lookup_take_lt by lia.
      rewrite (list_lookup_lookup_total_lt (nt_flags nodes) (Z.to_nat s)) by lia.
      simpl. unfold sample_flagged in Hflag.
      destruct (Z.eqb_spec (Z.land (nt_flags nodes !!! Z.to_nat s)
                              MSP_NODE_IS_SAMPLE) 0) as [_|Hz]; done.
    + destruct (Z.ltb_spec s 0) as [|_]; [lia|].
      destruct (Z.leb_spec (Z.of_nat (nt_num_rows nodes)) s) as [|_]; [lia|].
      simpl. unfold readz. destruct (Z.ltb_spec s 0) as [|_]; [lia|].
      unfold read. rewrite lookup_take_lt by lia.
      rewrite (list_lookup_lookup_total_lt (nt_flags nodes) (Z.to_nat s)) by lia.
      simpl.
      destruct (Z.eqb_spec (Z.land (nt_flags nodes !!! Z.to_nat s)
                              MSP_NODE_IS_SAMPLE) 0) as [Hz|_]; [done|].
      apply list_elem_of_lookup in Hdup as [j Hj].
      rewrite (Hmapsample _ _ Hj). done.
  - simpl in He, Hgood.
    destruct (alloc_samples_good processed samples s' self Hinv)
      as (self1 & -> & Hinv1).
    { destruct Hgood as [Hnd Hall]. split.
      - rewrite (assoc_L _ processed [s'] (take k samples)
                 : processed ++ s' :: take k samples = _) in Hnd.
        by apply NoDup_app in Hnd as (? & _ & _).
      - intros x Hx. apply Hall. apply elem_of_app in Hx as [Hx|Hx].
        + apply elem_of_app. by left.
        + apply list_elem_of_singleton in Hx as ->. apply elem_of_app. right.
          apply elem_of_cons. by left. }
    replace (processed ++ s' :: take k samples)
      with ((processed ++ [s']) ++ take k samples)
      in * by (by rewrite <- app_assoc).
    by eapply IH.
Qed.

End Alloc.

Lemma alloc_samples_frame (samples : list node_id_t) (self self' : simplifier_t) :
  alloc_samples self samples = Ok self' ->
  s_samples self' = s_samples self /\ s_num_samples self' = s_num_samples self
  /\ s_flags self' = s_flags self
  /\ s_sites self' = s_sites self /\ s_mutations self' = s_mutations self
  /\ s_overlap_counts self' = s_overlap_counts self
  /\ s_avl_node_heap self' = s_avl_node_heap self
  /\ s_overlap_count_heap self' = s_overlap_count_heap self
  /\ s_last_edgeset self' = s_last_edgeset self.
Proof.
  revert self. induction samples as [|s samples IH]; intros self H; simpl in H.
  - by injection H as ->.
  - destruct (_ || _); [done|].
    inv_Ok H. destruct (Z.land a MSP_NODE_IS_SAMPLE =? 0); [done|].
    inv_Ok H. destruct a0; [|done].
    inv_Ok H. unfold simplifier_record_node in Hok1.
    do 5 inv_Ok Hok1. inv_Ok Hok1. inv_Ok Hok1. subst a0.
    apply IH in H. simpl in H. done.
Qed.

Section AllocTop.

Variables (nodes : node_table_t) (edgesets : edgeset_table_t)
  (sites : site_table_t) (mutations : mutation_table_t)
  (samples : list node_id_t) (L : double) (flags : Z).
Hypothesis nodes_wf : node_table_wf nodes.
Hypothesis nodes_small : Z.of_nat (nt_num_rows nodes) < 2 ^ 31.
Hypothesis nodes_room :
  (nt_total_name_length nodes < nt_max_total_name_length nodes)%nat.

Lemma simplifier_alloc_bad_param :
  alloc_bad_param nodes edgesets samples ->
  simplifier_alloc nodes edgesets sites mutations samples L flags
  = Err MSP_ERR_BAD_PARAM_VALUE.
Proof.
  intros Hbad. unfold simplifier_alloc.
  destruct (Nat.ltb_spec (length samples) 2); [done|].
  destruct (Nat.eqb_spec (nt_num_rows nodes) 0); [done|].
  destruct (Nat.eqb_spec (et_num_rows edgesets) 0); [done|].
  destruct Hbad as [|[|]]; lia.
Qed.

Lemma simplifier_alloc_unfold :
  ~ alloc_bad_param nodes edgesets samples ->
  simplifier_alloc nodes edgesets sites mutations samples L flags
  = self ← alloc_samples
             (alloc_initial nodes edgesets sites mutations samples L flags)
             samples;
    Ok (alloc_finish self).
Proof.
  intros Hbad. unfold simplifier_alloc, alloc_bad_param in *.
  destruct (Nat.ltb_spec (length samples) 2); [lia|].
  destruct (Nat.eqb_spec (nt_num_rows nodes) 0); [lia|].
  destruct (Nat.eqb_spec (et_num_rows edgesets) 0); [lia|].
  simpl. unfold node_table_alloc.
  destruct (Nat.eqb_spec (nt_num_rows nodes) 0); [lia|].
  destruct (Nat.eqb_spec (nt_total_name_length nodes + 1) 0); [lia|].
  simpl. rewrite node_table_set_columns_snapshot by (done || lia).
  cbn [mbind outcome_mbind outcome_bind].
  apply bind_ext_Ok. intros self Hloop.
  apply alloc_samples_frame in Hloop.
  destruct Hloop as (Hs & Hn & _). simpl in Hn.
  unfold alloc_finish. simpl. rewrite Hn. reflexivity.
Qed.

Lemma alloc_initial_inv :
  alloc_inv nodes edgesets L []
    (alloc_initial nodes edgesets sites mutations samples L flags).
Proof.
  constructor; simpl; try done.
  - by rewrite take_take, Nat.min_id.
  - by rewrite length_replicate.
  - intros i Hi _. by rewrite lookup_replicate_2.
  - by apply node_table_reset_wf.
Qed.

Lemma alloc_finish_inv (processed : list node_id_t) (self : simplifier_t) :
  alloc_inv nodes edgesets L processed self ->
  alloc_inv nodes edgesets L processed (alloc_finish self).
Proof. intros []. by constructor. Qed.

(** Every list of samples is good, or has a first sample that fails. *)
Lemma samples_good_or_error :
  good_samples nodes samples
  \/ exists k s e, samples !! k = Some s
       /\ good_samples nodes (take k samples)
       /\ sample_error nodes (take k samples) s e.
Proof.
  clear nodes_wf nodes_small nodes_room.
  induction samples as [|s l IH] using rev_ind.
  - left. split; [constructor |]. intros s Hs. by apply elem_of_nil in Hs.
  - destruct IH as [[Hnd Hall] | (k & s' & e & Hk & Hgood & He)].
    + assert (Hcase :
        (sample_in_range nodes s /\ sample_flagged nodes s /\ s ∉ l)
        \/ exists e, sample_error nodes l s e).
      { destruct (decide (0 <= s < Z.of_nat (nt_num_rows nodes))) as [Hr|Hr];
          [|right; eexists; by apply sample_error_bounds].
        destruct (decide (Z.land (nt_flags nodes !!! Z.to_nat s)
                            MSP_NODE_IS_SAMPLE = 0)) as [Hf|Hf].
        { right; eexists; apply sample_error_flag; [done|].
          unfold sample_flagged. tauto. }
        destruct (decide (s ∈ l)) as [Hin|Hin].
        { right; eexists; by apply sample_error_duplicate. }
        left. done. }
      destruct Hcase as [(Hr & Hf & Hnew) | [e He]].
      * left. split.
        { apply NoDup_app. split_and!; [done| |apply NoDup_singleton].
          intros x Hx Hx'. apply list_elem_of_singleton in Hx'. by subst. }
        intros x Hx. apply elem_of_app in Hx as [Hx | Hx]; [by apply Hall|].
        apply list_elem_of_singleton in Hx. by subst.
      * right. exists (length l), s, e.
        rewrite take_app_length. split_and!; [|done|done].
        by rewrite lookup_app_r, Nat.sub_diag by lia.
    + right. exists k, s', e.
      assert (k < length l)%nat by (by eapply lookup_lt_Some).
      rewrite take_app_le by lia. split_and!; [|done|done].
      by rewrite lookup_app_l by lia.
Qed.

Lemma simplifier_alloc_good :
  ~ alloc_bad_param nodes edgesets samples ->
  good_samples nodes samples ->
  exists self,
    alloc_samples (alloc_initial nodes edgesets sites mutations samples L flags)
      samples = Ok self
    /\ simplifier_alloc nodes edgesets sites mutations samples L flags
       = Ok (alloc_finish self)
    /\ alloc_inv nodes edgesets L samples self.
Proof.
  intros Hbad Hgood. rewrite simplifier_alloc_unfold by done.
  destruct (alloc_samples_Ok nodes edgesets L nodes_wf nodes_small nodes_room
              samples [] _ alloc_initial_inv Hgood) as (self & Hloop & Hinv).
  exists self. rewrite Hloop. done.
Qed.

Lemma simplifier_alloc_sample_error (k : nat) (s : node_id_t) (e : error) :
  ~ alloc_bad_param nodes edgesets samples ->
  samples !! k = Some s ->
  good_samples nodes (take k samples) ->
  sample_error nodes (take k samples) s e ->
  simplifier_alloc nodes edgesets sites mutations samples L flags = Err e.
Proof.
  intros Hbad Hk Hgood He. rewrite simplifier_alloc_unfold by done.
  rewrite (alloc_samples_Err nodes edgesets L nodes_wf nodes_small nodes_room
             samples [] _ k s e alloc_initial_inv Hk Hgood He).
  done.
Qed.

(** What a successful [simplifier_alloc] has established. *)
Lemma simplifier_alloc_Ok (self : simplifier_t) :
  simplifier_alloc nodes edgesets sites mutations samples L flags = Ok self ->
  ~ alloc_bad_param nodes edgesets samples
  /\ good_samples nodes samples
  /\ exists self0,
       alloc_samples
         (alloc_initial nodes edgesets sites mutations samples L flags) samples
       = Ok self0
       /\ self = alloc_finish self0
       /\ alloc_inv nodes edgesets L samples self0.
Proof.
  intros H.
  assert (Hbad : ~ alloc_bad_param nodes edgesets samples).
  { intros Hbad. by rewrite simplifier_alloc_bad_param in H. }
  split; [done|].
  destruct samples_good_or_error as [Hgood | (k & s & e & Hk & Hgood & He)].
  - split; [done|].
    destruct (simplifier_alloc_good Hbad Hgood) as (self0 & Hloop & Halloc & Hinv).
    exists self0. split_and!; [done| |done]. congruence.
  - rewrite (simplifier_alloc_sample_error k s e Hbad Hk Hgood He) in H. done.
Qed.

End AllocTop.

(** ** What a successful [simplifier_alloc] has established

    This direction needs no room in the tables: that nothing failed is
    what the result says. *)

Lemma wrap_int32_range (z : Z) : - 2 ^ 31 <= wrap_int32 z < 2 ^ 31.
Proof.
  unfold wrap_int32.
  pose proof (Z.mod_pos_bound (z + 2 ^ 31) (2 ^ 32) ltac:(lia)). lia.
Qed.

Lemma cast_node_id_le (n : nat) : cast_node_id n <= Z.of_nat n.
Proof.
  unfold cast_node_id, wrap_int32.
  pose proof (Z.mod_le (Z.of_nat n + 2 ^ 31) (2 ^ 32) ltac:(lia) ltac:(lia)).
  lia.
Qed.

Section AllocOk.

Variables (nodes : node_table_t) (edgesets : edgeset_table_t) (L : double).
Hypothesis nodes_wf : node_table_wf nodes.

Lemma alloc_samples_Ok_inv (samples processed : list node_id_t)
    (self self' : simplifier_t) :
  alloc_inv nodes edgesets L processed self ->
  NoDup processed ->
  (forall s, s ∈ processed ->
     0 <= s < cast_node_id (nt_num_rows nodes) /\ sample_flagged nodes s) ->
  alloc_samples self samples = Ok self' ->
  alloc_inv nodes edgesets L (processed ++ samples) self'
  /\ NoDup (processed ++ samples)
  /\ (forall s, s ∈ processed ++ samples ->
        0 <= s < cast_node_id (nt_num_rows nodes) /\ sample_flagged nodes s).
Proof.
  revert processed self.
  induction samples as [|s samples IH]; intros processed self Hinv Hnd Hall H.
  { simpl in H. injection H as <-. by rewrite app_nil_r. }
  simpl in H.
  pose proof (snapshot_ok_alloc _ _ _ _ _ nodes_wf Hinv) as Hsnap.
  destruct Hinv as [Hinput Hoffsets HL Hedgesets Hmaplen Hmapsample Hmapother
    Hnwf Hnrows Hntotal Hnmaxrows Hnmaxname Hheap Hqueue Hlast].
  rewrite Hinput in H. cbn [nt_num_rows node_table_snapshot] in H.
  destruct (Z.ltb_spec s 0) as [|Hs0]; [done|].
  destruct (Z.leb_spec (cast_node_id (nt_num_rows nodes)) s) as [|Hs1]; [done|].
  simpl in H.
  apply bind_Ok in H as (f & Hf & H). apply readz_Ok in Hf as [_ Hf].
  destruct (Z.eqb_spec (Z.land f MSP_NODE_IS_SAMPLE) 0) as [|Hflag]; [done|].
  apply bind_Ok in H as (chain & Hchain & H).
  apply readz_Ok in Hchain as [_ Hchain].
  destruct chain; [|done].
  apply bind_Ok in H as (self1 & Hrec & H).
  pose proof (cast_node_id_le (nt_num_rows nodes)) as Hcast.
  pose proof (wrap_int32_range (Z.of_nat (nt_num_rows nodes))) as Hcast2.
  fold (cast_node_id (nt_num_rows nodes)) in Hcast2.
  destruct nodes_wf as [Hr Hfl Ht Hp Hnl Hn Htot Hmax].
  assert (Hflagged : sample_flagged nodes s).
  { unfold sample_flagged. rewrite lookup_take_lt in Hf by lia.
    by rewrite (list_lookup_total_correct _ _ _ Hf). }
  assert (Hnew : s ∉ processed).
  { intros Hin. apply list_elem_of_lookup in Hin as [k Hk].
    rewrite (Hmapsample _ _ Hk) in Hchain. done. }
  assert (Hnd' : NoDup (processed ++ [s])).
  { apply NoDup_app. split_and!; [done| |apply NoDup_singleton].
    intros x Hx Hx'. apply list_elem_of_singleton in Hx'. by subst. }
  assert (Hall' : forall x, x ∈ processed ++ [s] ->
            0 <= x < cast_node_id (nt_num_rows nodes) /\ sample_flagged nodes x).
  { intros x Hx. apply elem_of_app in Hx as [Hx|Hx]; [by apply Hall|].
    apply list_elem_of_singleton in Hx as ->. done. }
  assert (Hlen : (length (processed ++ [s])
                  <= Z.to_nat (cast_node_id (nt_num_rows nodes)))%nat).
  { apply NoDup_bounded_length; [done|]. intros x Hx.
    destruct (Hall' x Hx) as [? _]. lia. }
  rewrite length_app in Hlen. simpl in Hlen.
  assert (Hrows : nt_num_rows (s_nodes self) = length processed).
  { rewrite <- node_table_rows_length, Hnrows. by rewrite length_fmap. }
  set (self2 := set_ancestor_map _ _) in Hrec.
  assert (Hsnap2 : snapshot_ok self2).
  { destruct Hsnap. by constructor. }
  apply simplifier_record_node_Ok in Hrec; [|done|done].
  destruct Hrec as (_ & nodes' & -> & Hwf' & Hrows' & Hnum' & Htot' & Hmr' & Hmn').
  replace (processed ++ s :: samples) with ((processed ++ [s]) ++ samples)
    by (by rewrite <- app_assoc).
  eapply IH; [|done|done|exact H].
  simpl in *. constructor; simpl; try done.
  - by rewrite length_insert.
  - intros k s' Hk. apply lookup_app_Some in Hk as [Hk | [Hge Hk]].
    + rewrite list_lookup_insert_ne.
      { by apply Hmapsample. }
      intros Heq. apply Hnew.
      assert (0 <= s').
      { apply (Hall s'). by eapply list_elem_of_lookup_2. }
      replace s with s' by lia. by eapply list_elem_of_lookup_2.
    + apply list_lookup_singleton_Some in Hk as [Hk <-].
      rewrite list_lookup_insert_eq by lia.
      rewrite HL. do 3 f_equal. unfold node_id_t in *.
      rewrite cast_node_id_small by lia. lia.
  - intros i Hi Hnot. rewrite list_lookup_insert_ne.
    + apply Hmapother; [done|]. intros Hin. apply Hnot.
      apply elem_of_app. by left.
    + intros Heq. apply Hnot. apply elem_of_app. right.
      rewrite <- Heq, Z2Nat.id by lia. by apply list_elem_of_singleton.
  - rewrite Hrows', Hnrows, fmap_app, Hinput. simpl. do 2 f_equal.
    apply node_table_snapshot_row; [by constructor | lia].
  - rewrite Htot', Hntotal, sum_list_with_app, Hinput. simpl.
    rewrite lookup_total_take_lt by lia. lia.
  - lia.
  - lia.
  - rewrite length_app. simpl. lia.
Qed.

End AllocOk.

Lemma simplifier_alloc_Ok_inv (nodes : node_table_t)
    (edgesets : edgeset_table_t) (sites : site_table_t)
    (mutations : mutation_table_t) (samples : list node_id_t) (L : double)
    (flags : Z) (self : simplifier_t) :
  node_table_wf nodes ->
  simplifier_alloc nodes edgesets sites mutations samples L flags = Ok self ->
  exists self0,
    self = alloc_finish self0
    /\ alloc_inv nodes edgesets L samples self0
    /\ s_sites self0 = sites /\ s_mutations self0 = mutations
    /\ s_num_samples self0 = length samples
    /\ s_overlap_counts self0 = [] /\ s_avl_node_heap self0 = 0%nat
    /\ NoDup samples
    /\ (forall s, s ∈ samples -> sample_in_range nodes s)
    /\ (2 <= length samples)%nat /\ (0 < et_num_rows edgesets)%nat.
Proof.
  intros Hwf H. unfold simplifier_alloc in H.
  destruct (Nat.ltb_spec (length samples) 2); [done|].
  destruct (Nat.eqb_spec (nt_num_rows nodes) 0); [done|].
  destruct (Nat.eqb_spec (et_num_rows edgesets) 0); [done|].
  simpl in H. unfold node_table_alloc in H.
  destruct (Nat.eqb_spec (nt_num_rows nodes) 0); [lia|].
  destruct (Nat.eqb_spec (nt_total_name_length nodes + 1) 0); [lia|].
  cbn [mbind outcome_mbind outcome_bind orb] in H.
  destruct (Nat.eq_dec (nt_max_total_name_length nodes) 0) as [Hz|Hnz].
  { exfalso. pose proof (ntwf_rows _ Hwf).
    unfold column_ptr in H. rewrite Hz in H.
    destruct (Nat.eqb_spec (nt_max_rows nodes) 0); [lia|]. simpl in H. done. }
  rewrite node_table_set_columns_snapshot in H by (done || lia).
  cbn [mbind outcome_mbind outcome_bind] in H.
  apply bind_Ok in H as (self0 & Hloop & H). injection H as <-.
  pose proof (alloc_samples_frame _ _ _ Hloop) as
    (Hs & Hn & Hf & Hsi & Hmu & Hoc & Havl & _).
  simpl in *.
  pose proof (alloc_initial_inv nodes edgesets sites mutations samples L flags
                Hwf) as Hinit.
  eapply (alloc_samples_Ok_inv nodes edgesets L Hwf samples []) in Hloop.
  2:{ exact Hinit. }
  2:{ constructor. }
  2:{ intros s Hs'. by apply elem_of_nil in Hs'. }
  destruct Hloop as (Hinv & Hnd & Hall). simpl in Hinv, Hnd, Hall.
  exists self0. split_and!; try done; try lia.
  - unfold alloc_finish. simpl. rewrite Hn. reflexivity.
  - intros s Hs'. destruct (Hall s Hs') as [Hr _].
    pose proof (cast_node_id_le (nt_num_rows nodes)).
    unfold sample_in_range. lia.
Qed.

(** ** Steps of the run *)

Lemma node_table_extends_refl (t : node_table_t) :
  node_table_wf t -> node_table_extends t t.
Proof. intros. constructor; try done. exists []. by rewrite app_nil_r. Qed.

Lemma node_table_extends_trans (t1 t2 t3 : node_table_t) :
  node_table_extends t1 t2 -> node_table_extends t2 t3 ->
  node_table_extends t1 t3.
Proof.
  intros [Hw1 [e1 Hr1] Hm1 Hn1] [Hw2 [e2 Hr2] Hm2 Hn2].
  constructor; try congruence.
  exists (e1 ++ e2). by rewrite Hr2, Hr1, app_assoc.
Qed.

Lemma run_step_refl (self : simplifier_t) : run_step self self.
Proof. split_and!; try done. apply node_table_extends_refl. Qed.

Lemma run_step_trans (s1 s2 s3 : simplifier_t) :
  run_step s1 s2 -> run_step s2 s3 -> run_step s1 s3.
Proof.
  intros (Hs1 & Hl1 & Hn1) (Hs2 & Hl2 & Hn2). split_and!; try congruence.
  intros Hwf. specialize (Hn1 Hwf).
  eapply node_table_extends_trans; [done|]. apply Hn2. by destruct Hn1.
Qed.

(** A step that does not touch the node table. *)
Lemma run_step_same_nodes (self self' : simplifier_t) :
  static_part self' = static_part self ->
  length (s_ancestor_map self') = length (s_ancestor_map self) ->
  s_nodes self' = s_nodes self -> run_step self self'.
Proof.
  intros Hs Hl Hn. split_and!; try done. rewrite Hn.
  apply node_table_extends_refl.
Qed.

Lemma snapshot_ok_static (self self' : simplifier_t) :
  static_part self' = static_part self -> snapshot_ok self -> snapshot_ok self'.
Proof.
  unfold static_part. intros Hs [Hwf Hfull Hoff].
  injection Hs as _ _ _ _ _ _ Hin Ho.
  constructor; rewrite ?Hin, ?Ho; done.
Qed.

Lemma run_step_snapshot (self self' : simplifier_t) :
  run_step self self' -> snapshot_ok self -> snapshot_ok self'.
Proof. intros (Hs & _). by apply snapshot_ok_static. Qed.

Lemma simplifier_record_node_step (self self' : simplifier_t)
    (input_id : node_id_t) :
  snapshot_ok self ->
  simplifier_record_node self input_id = Ok self' -> run_step self self'.
Proof.
  intros Hsnap H. split_and!.
  - unfold simplifier_record_node in H. do 5 inv_Ok H. inv_Ok H. inv_Ok H.
    by subst self'.
  - unfold simplifier_record_node in H. do 5 inv_Ok H. inv_Ok H. inv_Ok H.
    by subst self'.
  - intros Hwf.
    apply simplifier_record_node_Ok in H; [|done|done].
    destruct H as (_ & nodes' & -> & Hwf' & Hrows & _ & _ & Hmr & Hmn).
    constructor; simpl; eauto.
Qed.

Lemma merge_requeue_step (self : simplifier_t) (x : list simplify_segment_t) :
  run_step self (merge_requeue self x).
Proof. destruct x; by apply run_step_same_nodes. Qed.

Lemma merge_update_heads_step (H : list queue_item) (self self' : simplifier_t)
    (r : double) (children : list node_id_t) :
  merge_update_heads self r H = (self', children) -> run_step self self'.
Proof.
  revert self self' children.
  induction H as [|[x next] H IH]; intros self self' children Heq; simpl in Heq.
  - injection Heq as <- _. apply run_step_refl.
  - destruct (merge_update_heads _ r H) as [self1 ch] eqn:Hrec.
    injection Heq as <- _. apply IH in Hrec.
    eapply run_step_trans; [|done].
    destruct (seg_right x =? r); [|destruct (r <? seg_right x)].
    + eapply run_step_trans; [|apply merge_requeue_step].
      by apply run_step_same_nodes.
    + by apply run_step_same_nodes.
    + by apply run_step_same_nodes.
Qed.

Lemma merge_ensure_overlap_count_step (self self' : simplifier_t) (x : double) :
  merge_ensure_overlap_count self x = Ok self' -> run_step self self'.
Proof.
  unfold merge_ensure_overlap_count, simplifier_copy_overlap_count.
  intros H. destruct (overlap_search x _).
  - injection H as <-. apply run_step_refl.
  - destruct (overlap_floor x _); [|done]. injection H as <-.
    by apply run_step_same_nodes.
Qed.

Lemma merge_integrate_step (self self' : simplifier_t) (input_id : node_id_t)
    (z z' alpha : option simplify_segment_t) :
  merge_integrate self input_id z alpha = Ok (self', z') -> run_step self self'.
Proof.
  unfold merge_integrate. intros H. destruct alpha.
  - inv_Ok H. injection H as <- _. apply run_step_same_nodes; try done.
    simpl. by rewrite length_insert.
  - injection H as <- _. apply run_step_refl.
Qed.

Lemma simplifier_remove_ancestry_step (self self' : simplifier_t)
    (left right : double) (input_id : node_id_t) :
  simplifier_remove_ancestry self left right input_id = Ok self' ->
  run_step self self'.
Proof.
  unfold simplifier_remove_ancestry. intros H. inv_Ok H.
  destruct (remove_ancestry_chain left right a) as [[head' queued] allocated].
  injection H as <-. apply run_step_same_nodes; try done.
  - by destruct queued.
  - simpl. rewrite length_insert. by destruct queued.
  - by destruct queued.
Qed.

Lemma merge_single_step (self self' : simplifier_t) (input_id : node_id_t)
    (z z' : option simplify_segment_t) (x : simplify_segment_t)
    (next : list simplify_segment_t) (rest : list queue_item) :
  merge_single self input_id z x next rest = Ok (self', z') ->
  run_step self self'.
Proof.
  unfold merge_single. intros H.
  destruct (_ && _).
  - apply merge_integrate_step in H.
    eapply run_step_trans; [|done]. by apply run_step_same_nodes.
  - apply merge_integrate_step in H.
    eapply run_step_trans; [|done]. apply merge_requeue_step.
Qed.

Lemma merge_overlap_update_step (self self' : simplifier_t) (h : nat)
    (l r_max r : double) (v : node_id_t) (alpha : option simplify_segment_t) :
  merge_overlap_update self h l r_max v = Ok (self', r, alpha) ->
  run_step self self'.
Proof.
  unfold merge_overlap_update. intros H.
  destruct (overlap_search l _) as [[[before nm] after]|]; [|done].
  destruct (oc_count nm =? _).
  - destruct after; [done|]. injection H as <- _ _.
    by apply run_step_same_nodes.
  - inv_Ok H. destruct a as [tree r']. injection H as <- _ _.
    by apply run_step_same_nodes.
Qed.

Section Frame.

Variable qsort : forall A : Type, (A -> A -> Z) -> list A -> list A.

Lemma simplifier_record_edgeset_step (self self' : simplifier_t)
    (left right : double) (parent : node_id_t) (children : list node_id_t)
    (children_length : nat) :
  simplifier_record_edgeset qsort self left right parent children
    children_length = Ok self' ->
  run_step self self'.
Proof.
  unfold simplifier_record_edgeset. intros H.
  destruct (Nat.eqb _ 0).
  { injection H as <-. by apply run_step_same_nodes. }
  destruct (if Nat.eqb _ _ then _ else _).
  { injection H as <-. by apply run_step_same_nodes. }
  inv_Ok H. injection H as <-. by apply run_step_same_nodes.
Qed.

Lemma merge_coalesce_step (self self' : simplifier_t) (input_id : node_id_t)
    (coalescence : bool) (z z' : option simplify_segment_t) (l r_max : double)
    (H : list queue_item) :
  snapshot_ok self ->
  merge_coalesce qsort self input_id coalescence z l r_max H = Ok (self', z') ->
  run_step self self'.
Proof.
  intros Hsnap Hm. unfold merge_coalesce in Hm.
  apply bind_Ok in Hm as (self1 & H1 & Hm).
  assert (Hs1 : run_step self self1).
  { destruct coalescence.
    - injection H1 as <-. apply run_step_refl.
    - by eapply simplifier_record_node_step. }
  apply bind_Ok in Hm as (self2 & H2 & Hm).
  apply merge_ensure_overlap_count_step in H2.
  apply bind_Ok in Hm as (self3 & H3 & Hm).
  apply merge_ensure_overlap_count_step in H3.
  apply bind_Ok in Hm as ([[self4 r] alpha] & H4 & Hm).
  apply merge_overlap_update_step in H4.
  destruct (merge_update_heads self4 r H) as [self5 children] eqn:H5.
  apply merge_update_heads_step in H5.
  apply bind_Ok in Hm as (self6 & H6 & Hm).
  apply simplifier_record_edgeset_step in H6.
  apply merge_integrate_step in Hm.
  repeat (eapply run_step_trans; [eassumption|]). apply run_step_refl.
Qed.

Lemma merge_step_step (self self' : simplifier_t) (input_id : node_id_t)
    (coalescence coalescence' : bool) (z z' : option simplify_segment_t) :
  snapshot_ok self ->
  merge_step qsort self input_id coalescence z = Ok (self', coalescence', z') ->
  run_step self self'.
Proof.
  intros Hsnap H. unfold merge_step in H.
  destruct (s_merge_queue self) as [|first Q] eqn:HQ; [done|].
  destruct (merge_gather _ _) as [H0 rest] eqn:Hgather.
  set (self1 := set_merge_queue _ rest) in H.
  assert (Hstep1 : run_step self self1) by (by apply run_step_same_nodes).
  assert (Hsnap1 : snapshot_ok self1) by (by eapply run_step_snapshot).
  eapply run_step_trans; [exact Hstep1|].
  destruct H0 as [|[x next] [|y H0]].
  - apply bind_Ok in H as ([self2 z2] & Hm & H). injection H as <- _ _.
    by eapply merge_coalesce_step.
  - apply bind_Ok in H as ([self2 z2] & Hm & H). injection H as <- _ _.
    by eapply merge_single_step.
  - apply bind_Ok in H as ([self2 z2] & Hm & H). injection H as <- _ _.
    by eapply merge_coalesce_step.
Qed.

Lemma merge_loop_step (fuel : nat) (self self' : simplifier_t)
    (input_id : node_id_t) (coalescence : bool)
    (z : option simplify_segment_t) :
  snapshot_ok self ->
  merge_loop qsort fuel self input_id coalescence z = Ok self' ->
  run_step self self'.
Proof.
  revert self coalescence z.
  induction fuel as [|fuel IH]; intros self coalescence z Hsnap H; simpl in H.
  - destruct (s_merge_queue self); [|done]. injection H as <-.
    apply run_step_refl.
  - destruct (s_merge_queue self) eqn:HQ.
    { injection H as <-. apply run_step_refl. }
    apply bind_Ok in H as ([[self1 c1] z1] & Hstep & H).
    apply merge_step_step in Hstep; [|done].
    eapply run_step_trans; [done|].
    eapply IH; [|done]. by eapply run_step_snapshot.
Qed.

Lemma simplifier_merge_ancestors_step (self self' : simplifier_t)
    (input_id : node_id_t) :
  snapshot_ok self ->
  simplifier_merge_ancestors qsort self input_id = Ok self' ->
  run_step self self'.
Proof. intros Hsnap H. by eapply merge_loop_step. Qed.

Lemma run_children_step (n : nat) (self self' : simplifier_t)
    (left right : double) (children_offset k : nat) :
  run_children self left right children_offset n k = Ok self' ->
  run_step self self'.
Proof.
  revert self k. induction n as [|n IH]; intros self k H; simpl in H.
  - injection H as <-. apply run_step_refl.
  - apply bind_Ok in H as (child & _ & H).
    apply bind_Ok in H as (chain & _ & H).
    apply bind_Ok in H as (self1 & H1 & H).
    apply IH in H. eapply run_step_trans; [|done].
    destruct chain.
    + injection H1 as <-. apply run_step_refl.
    + apply bind_Ok in H1 as (_ & _ & H1).
      apply bind_Ok in H1 as (self2 & H2 & H1).
      apply bind_Ok in H1 as (_ & _ & H1). injection H1 as <-.
      by eapply simplifier_remove_ancestry_step.
Qed.

Lemma run_rows_step (n : nat) (self self' : simplifier_t) (j : nat)
    (current_parent parent' : node_id_t) (children_offset : nat) :
  snapshot_ok self ->
  run_rows qsort self n j current_parent children_offset = Ok (self', parent') ->
  run_step self self'.
Proof.
  revert self j current_parent children_offset.
  induction n as [|n IH]; intros self j cp off Hsnap H; simpl in H.
  - injection H as <- _. apply run_step_refl.
  - apply bind_Ok in H as (_ & _ & H).
    apply bind_Ok in H as (parent & _ & H).
    apply bind_Ok in H as (left & _ & H).
    apply bind_Ok in H as (right & _ & H).
    apply bind_Ok in H as (len & _ & H).
    apply bind_Ok in H as ([self1 cp1] & H1 & H).
    apply bind_Ok in H as (self2 & H2 & H).
    assert (Hs1 : run_step self self1).
    { destruct (negb _).
      - apply bind_Ok in H1 as (_ & _ & H1).
        apply bind_Ok in H1 as (self3 & H3 & H1).
        apply bind_Ok in H1 as (_ & _ & H1).
        apply bind_Ok in H1 as (t1 & _ & H1).
        apply bind_Ok in H1 as (t2 & _ & H1).
        destruct (t2 <? t1); [done|]. injection H1 as <- _.
        by eapply simplifier_merge_ancestors_step.
      - injection H1 as <- _. apply run_step_refl. }
    apply run_children_step in H2.
    eapply run_step_trans; [exact Hs1|].
    eapply run_step_trans; [exact H2|].
    eapply IH; [|done].
    eapply run_step_snapshot; [|done]. by eapply run_step_trans.
Qed.

Lemma simplifier_run_sweep_step (self self' : simplifier_t) :
  snapshot_ok self ->
  simplifier_run_sweep qsort self = Ok self' -> run_step self self'.
Proof.
  intros Hsnap H1. unfold simplifier_run_sweep in H1.
  set (self0 := set_edgesets self _) in H1.
  assert (Hs0 : run_step self self0) by (by apply run_step_same_nodes).
  eapply run_step_trans; [exact Hs0|].
  destruct (Nat.ltb _ _).
  - apply bind_Ok in H1 as (cp & _ & H1).
    apply bind_Ok in H1 as ([self2 cp2] & H2 & H1).
    apply bind_Ok in H1 as (self3 & H3 & H1).
    apply bind_Ok in H1 as (_ & _ & H1).
    apply bind_Ok in H1 as (_ & _ & H1). injection H1 as <-.
    assert (Hsnap0 : snapshot_ok self0) by (by eapply run_step_snapshot).
    apply run_rows_step in H2; [|done].
    eapply run_step_trans; [exact H2|].
    eapply simplifier_merge_ancestors_step; [|done].
    by eapply run_step_snapshot.
  - injection H1 as <-. apply run_step_refl.
Qed.

Lemma simplifier_run_step (self self' : simplifier_t) :
  snapshot_ok self ->
  simplifier_run qsort self = Ok self' -> run_step self self'.
Proof.
  intros Hsnap H. unfold simplifier_run in H.
  apply bind_Ok in H as (self1 & H1 & H).
  apply bind_Ok in H as (edgesets & _ & H). injection H as <-.
  apply simplifier_run_sweep_step in H1; [|done].
  eapply run_step_trans; [exact H1|]. by apply run_step_same_nodes.
Qed.

End Frame.

(** ** Chains *)

Lemma chain_ok_ordered (L : double) (u : list simplify_segment_t) :
  chain_ok L u -> chain_ordered u = true.
Proof.
  induction u as [|x next IH]; [done|]. intros (Hx & Hn & Hrest). simpl.
  destruct Hx as (_ & Hlt & _).
  apply andb_true_intro. split; [apply andb_true_intro; split|by apply IH].
  - by apply Z.ltb_lt.
  - destruct next; [done|]. by apply Z.leb_le.
Qed.

Lemma chain_ok_Forall (L : double) (u : list simplify_segment_t) :
  chain_ok L u -> Forall (seg_ok L) u.
Proof.
  induction u as [|x next IH]; [constructor|].
  intros (Hx & _ & Hrest). constructor; auto.
Qed.

(** Every later segment of a chain begins after the first one ends. *)
Lemma chain_ok_head_before (L : double) (x : simplify_segment_t)
    (next : list simplify_segment_t) :
  chain_ok L (x :: next) ->
  Forall (fun y => seg_right x <= seg_left y) next.
Proof.
  revert x. induction next as [|y next IH]; intros x (Hx & Hxy & Hrest);
    [constructor|].
  constructor; [done|].
  destruct Hrest as (Hy & Hyn & Hrest').
  eapply Forall_impl; [apply (IH y); done|].
  intros w Hw. simpl in Hw. destruct Hy as (_ & ? & _). lia.
Qed.

Lemma chain_ok_tail (L : double) (x : simplify_segment_t)
    (next : list simplify_segment_t) :
  chain_ok L (x :: next) -> chain_ok L next.
Proof. by intros (_ & _ & ?). Qed.

Lemma chain_ok_app (L : double) (u v : list simplify_segment_t) :
  chain_ok L u -> chain_ok L v ->
  (forall x y, last u = Some x -> head v = Some y -> seg_right x <= seg_left y) ->
  chain_ok L (u ++ v).
Proof.
  induction u as [|x next IH]; intros Hu Hv Hlink; [done|].
  destruct Hu as (Hx & Hxn & Hnext). simpl. split_and!; [done| |].
  - destruct next as [|y next]; simpl.
    + destruct v as [|y v]; [done|]. by apply Hlink.
    + done.
  - apply IH; [done|done|]. intros a b Ha Hb. apply Hlink; [|done].
    destruct next; [done|]. done.
Qed.

Lemma chain_ok_app_inv (L : double) (u v : list simplify_segment_t) :
  chain_ok L (u ++ v) ->
  chain_ok L u /\ chain_ok L v
  /\ (forall x y, last u = Some x -> head v = Some y ->
        seg_right x <= seg_left y).
Proof.
  induction u as [|x next IH]; intros H.
  - split_and!; [done|done|]. intros x y Hx. done.
  - destruct H as (Hx & Hxn & Hrest). apply IH in Hrest as (Hn & Hv & Hlink).
    split_and!; [|done|].
    + simpl. split_and!; [done| |done].
      destruct next; [done|]. done.
    + intros a b Ha Hb. destruct next as [|y next].
      * simpl in Ha. injection Ha as <-. destruct v; [done|].
        simpl in Hb. injection Hb as <-. done.
      * apply Hlink; [|done]. done.
Qed.

Lemma chain_ok_with_left (L left : double) (x : simplify_segment_t)
    (next : list simplify_segment_t) :
  chain_ok L (x :: next) -> seg_left x <= left < seg_right x ->
  chain_ok L (with_left x left :: next).
Proof.
  intros ((H0 & Hlt & HL) & Hn & Hrest) Hleft.
  split_and!; [|done|done]. unfold seg_ok. simpl. lia.
Qed.

(** ** skip_segments *)

Lemma skip_segments_spec (bound : double) (x passed rest : list simplify_segment_t) :
  skip_segments bound x = (passed, rest) ->
  x = passed ++ rest
  /\ Forall (fun s => seg_right s <= bound) passed
  /\ match rest with
     | [] => True
     | s :: _ => bound < seg_right s
     end.
Proof.
  revert passed rest. induction x as [|s next IH]; intros passed rest H;
    simpl in H.
  - injection H as <- <-. split_and!; done.
  - destruct (Z.leb_spec (seg_right s) bound).
    + destruct (skip_segments bound next) as [p r] eqn:Hrec.
      injection H as <- <-. destruct (IH _ _ eq_refl) as (-> & Hp & Hr).
      split_and!; [done| |done]. by constructor.
    + injection H as <- <-. split_and!; [done|constructor|done].
Qed.

(** The chain [u] ends before the chain [v] begins. *)
Definition chain_link (u v : list simplify_segment_t) : Prop :=
  match last u, head v with
  | Some x, Some y => seg_right x <= seg_left y
  | _, _ => True
  end.

Lemma chain_ok_app_iff (L : double) (u v : list simplify_segment_t) :
  chain_ok L (u ++ v) <-> chain_ok L u /\ chain_ok L v /\ chain_link u v.
Proof.
  split.
  - intros H. apply chain_ok_app_inv in H as (Hu & Hv & Hl).
    split_and!; [done|done|]. unfold chain_link.
    destruct (last u) eqn:Hlast, (head v) eqn:Hhead; try done. by apply Hl.
  - intros (Hu & Hv & Hl). apply chain_ok_app; [done|done|].
    intros x y Hx Hy. unfold chain_link in Hl. by rewrite Hx, Hy in Hl.
Qed.

Lemma chain_ok_singleton (L : double) (x : simplify_segment_t) :
  chain_ok L [x] <-> seg_ok L x.
Proof. simpl. tauto. Qed.

(** A chain ends after it begins. *)
Lemma chain_ok_span (L : double) (u : list simplify_segment_t)
    (x y : simplify_segment_t) :
  chain_ok L u -> head u = Some x -> last u = Some y ->
  seg_left x < seg_right y.
Proof.
  intros Hu Hx Hy. destruct u as [|x' next]; [done|].
  simpl in Hx. injection Hx as ->.
  pose proof (chain_ok_head_before _ _ _ Hu) as Hb.
  destruct Hu as ((_ & Hlt & _) & _ & Hnext).
  destruct next as [|w next]; simpl in Hy.
  - injection Hy as <-. done.
  - assert (Hin : y ∈ w :: next).
    { change (last (w :: next) = Some y) in Hy.
      apply last_Some in Hy as [l' ->]. apply elem_of_app. right.
      apply list_elem_of_singleton. done. }
    rewrite Forall_forall in Hb. specialize (Hb _ Hin).
    apply chain_ok_Forall in Hnext. rewrite Forall_forall in Hnext.
    destruct (Hnext _ Hin) as (_ & ? & _). lia.
Qed.

Lemma chain_link_nil_l (v : list simplify_segment_t) : chain_link [] v.
Proof. done. Qed.

Lemma chain_link_nil_r (u : list simplify_segment_t) : chain_link u [].
Proof. unfold chain_link. by destruct (last u). Qed.

(** Taking a piece out of the middle of a chain leaves a chain. *)
Lemma chain_ok_remove_middle (L : double) (a b c : list simplify_segment_t) :
  chain_ok L (a ++ b ++ c) -> chain_ok L (a ++ c) /\ chain_ok L b.
Proof.
  rewrite !chain_ok_app_iff. intros (Ha & (Hb & Hc & Hbc) & Hab).
  split_and!; try done.
  destruct b as [|x b]; [done|].
  unfold chain_link in *. destruct (last a) as [p|] eqn:Hp; [|done].
  destruct (head c) as [q|] eqn:Hq; [|done].
  simpl in Hab. destruct (last (x :: b)) as [y|] eqn:Hy.
  - pose proof (chain_ok_span L (x :: b) x y Hb eq_refl Hy). lia.
  - by apply last_None in Hy.
Qed.

Lemma chain_ok_split (L c : double) (u v : list simplify_segment_t)
    (s : simplify_segment_t) :
  chain_ok L (u ++ s :: v) -> seg_left s < c < seg_right s ->
  chain_ok L
    ((u ++ [mk_segment (seg_left s) c (seg_node s)]) ++ with_left s c :: v).
Proof.
  intros H Hc. rewrite chain_ok_app_iff in H. destruct H as (Hu & Hsv & Hl).
  destruct Hsv as ((H0 & Hlt & HL) & Hn & Hv).
  rewrite !chain_ok_app_iff. split_and!.
  - done.
  - apply chain_ok_singleton. unfold seg_ok. simpl. lia.
  - unfold chain_link in *. simpl in *. by destruct (last u).
  - simpl. split_and!; [unfold seg_ok; simpl; lia|done|done].
  - unfold chain_link. rewrite last_snoc. simpl. lia.
Qed.

Lemma chain_ok_split_right (L c : double) (u v : list simplify_segment_t)
    (s : simplify_segment_t) :
  chain_ok L (u ++ s :: v) -> seg_left s < c < seg_right s ->
  chain_ok L
    ((u ++ [with_right s c]) ++ mk_segment c (seg_right s) (seg_node s) :: v).
Proof.
  intros H Hc. rewrite chain_ok_app_iff in H. destruct H as (Hu & Hsv & Hl).
  destruct Hsv as ((H0 & Hlt & HL) & Hn & Hv).
  rewrite !chain_ok_app_iff. split_and!.
  - done.
  - apply chain_ok_singleton. unfold seg_ok. simpl. lia.
  - unfold chain_link in *. simpl in *. by destruct (last u).
  - simpl. split_and!; [unfold seg_ok; simpl; lia|done|done].
  - unfold chain_link. rewrite last_snoc. simpl. lia.
Qed.

(** ** simplifier_remove_ancestry *)

(** The chain is refined at [left] and [right] and cut in three: the middle
    piece is what was queued. *)
Lemma remove_ancestry_chain_spec (L left right : double)
    (head head' : list simplify_segment_t) (queued : option queue_item)
    (allocated : nat) :
  chain_ok L head ->
  remove_ancestry_chain left right head = (head', queued, allocated) ->
  exists before mid after,
    chain_ok L (before ++ mid ++ after)
    /\ head' = before ++ after
    /\ queued = match mid with [] => None | q :: qnext => Some (q, qnext) end.
Proof.
  intros Hok. unfold remove_ancestry_chain.
  destruct (skip_segments left head) as [before x] eqn:Hskip.
  apply skip_segments_spec in Hskip as (-> & _ & Hx).
  assert (Hphase1 : exists before1 x1 allocated1,
    match x with
    | s :: next =>
      if seg_left s <? left then
        (before ++ [mk_segment (seg_left s) left (seg_node s)],
         with_left s left :: next, 1%nat)
      else (before, x, 0%nat)
    | [] => (before, x, 0%nat)
    end = (before1, x1, allocated1) /\ chain_ok L (before1 ++ x1)).
  { destruct x as [|s next]; [by eexists _, _, _|].
    destruct (Z.ltb_spec (seg_left s) left); [|by eexists _, _, _].
    eexists _, _, _. split; [done|]. apply chain_ok_split; [done|lia]. }
  destruct Hphase1 as (before1 & x1 & allocated1 & -> & Hok1).
  clear Hok Hx before x. rename before1 into before, x1 into x.
  destruct x as [|s next].
  { intros [= <- <- <-]. exists before, [], []. simpl.
    rewrite !app_nil_r in *. done. }
  destruct (Z.ltb_spec (seg_left s) right) as [Hlt|Hge].
  2:{ intros [= <- <- <-]. exists before, [], (s :: next). done. }
  destruct (skip_segments right (s :: next)) as [inside x'] eqn:Hskip.
  apply skip_segments_spec in Hskip as (Heq & _ & Hx').
  rewrite Heq in Hok1.
  destruct x' as [|s' next'].
  - rewrite app_nil_r in Heq. subst inside.
    intros [= <- <- <-]. exists before, (s :: next), [].
    rewrite !app_nil_r in *. done.
  - destruct (Z.ltb_spec (seg_left s') right) as [Hlt'|Hge'].
    + assert (Hsplit : chain_ok L
        (before ++ (inside ++ [with_right s' right])
           ++ mk_segment right (seg_right s') (seg_node s') :: next')).
      { rewrite app_assoc in Hok1.
        apply (chain_ok_split_right L right) in Hok1; [|lia].
        rewrite <- !app_assoc in Hok1. rewrite <- !app_assoc. exact Hok1. }
      destruct (inside ++ [with_right s' right]) as [|q qnext] eqn:Hq.
      { by destruct inside. }
      intros [= <- <- <-]. by eexists before, (q :: qnext), _.
    + destruct inside as [|q qnext].
      * simpl in Heq. injection Heq as <- <-. lia.
      * intros [= <- <- <-]. by eexists before, (q :: qnext), _.
Qed.

(** ** The ordered containers *)

Lemma avl_insert_node_Permutation {A} (cmp : A -> A -> Z) (x : A) (tree : list A) :
  avl_insert_node cmp x tree ≡ₚ x :: tree.
Proof.
  induction tree as [|y tree IH]; simpl; [done|].
  destruct (cmp x y <? 0); [done|]. rewrite IH. apply Permutation_swap.
Qed.

Lemma avl_insert_node_sorted {A} (cmp : A -> A -> Z) (x : A) (tree : list A) :
  (forall a b, 0 <= cmp a b -> cmp b a <= 0) ->
  (forall a b c, cmp a b <= 0 -> cmp b c <= 0 -> cmp a c <= 0) ->
  StronglySorted (fun a b => cmp a b <= 0) tree ->
  StronglySorted (fun a b => cmp a b <= 0) (avl_insert_node cmp x tree).
Proof.
  intros Htotal Htrans. induction 1 as [|y tree Hsorted IH Hy]; simpl.
  - repeat constructor.
  - destruct (Z.ltb_spec (cmp x y) 0) as [Hlt|Hge].
    + constructor; [by constructor|]. constructor; [lia|].
      eapply Forall_impl; [exact Hy|]. intros z Hz. simpl in Hz.
      apply (Htrans x y z); [lia|done].
    + constructor; [done|]. rewrite avl_insert_node_Permutation.
      constructor; [|done]. by apply Htotal.
Qed.

Lemma cmp3_cases (a b : Z) :
  (a < b /\ cmp3 a b = -1) \/ (a = b /\ cmp3 a b = 0) \/ (b < a /\ cmp3 a b = 1).
Proof.
  unfold cmp3. destruct (Z.ltb_spec b a), (Z.ltb_spec a b); lia.
Qed.

Lemma cmp_segment_queue_consistent :
  cmp_consistent (fun a b : queue_item => cmp_segment_queue (fst a) (fst b)).
Proof.
  unfold cmp_segment_queue. split.
  - intros [a ?] [b ?]. simpl.
    destruct (cmp3_cases (seg_left a) (seg_left b)) as [[? ->]|[[? ->]|[? ->]]],
      (cmp3_cases (seg_left b) (seg_left a)) as [[? ->]|[[? ->]|[? ->]]],
      (cmp3_cases (seg_node a) (seg_node b)) as [[? ->]|[[? ->]|[? ->]]],
      (cmp3_cases (seg_node b) (seg_node a)) as [[? ->]|[[? ->]|[? ->]]];
      simpl; lia.
  - intros [a ?] [b ?] [c ?]. simpl.
    destruct (cmp3_cases (seg_left a) (seg_left b)) as [[? ->]|[[? ->]|[? ->]]],
      (cmp3_cases (seg_left b) (seg_left c)) as [[? ->]|[[? ->]|[? ->]]],
      (cmp3_cases (seg_left a) (seg_left c)) as [[? ->]|[[? ->]|[? ->]]],
      (cmp3_cases (seg_node a) (seg_node b)) as [[? ->]|[[? ->]|[? ->]]],
      (cmp3_cases (seg_node b) (seg_node c)) as [[? ->]|[[? ->]|[? ->]]],
      (cmp3_cases (seg_node a) (seg_node c)) as [[? ->]|[[? ->]|[? ->]]];
      simpl; lia.
Qed.

Lemma queue_le_left (a b : queue_item) :
  queue_le a b -> seg_left (fst a) <= seg_left (fst b).
Proof.
  unfold queue_le, cmp_segment_queue.
  destruct (cmp3_cases (seg_left (fst a)) (seg_left (fst b)))
    as [[? ->]|[[? ->]|[? ->]]]; simpl; lia.
Qed.

Lemma queue_insert_sorted (x : queue_item) (Q : list queue_item) :
  StronglySorted queue_le Q -> StronglySorted queue_le (queue_insert x Q).
Proof.
  apply (avl_insert_node_sorted
           (fun a b : queue_item => cmp_segment_queue (fst a) (fst b))).
  - intros [a ?] [b ?]. unfold cmp_segment_queue. simpl.
    destruct (cmp3_cases (seg_left a) (seg_left b)) as [[? ->]|[[? ->]|[? ->]]],
      (cmp3_cases (seg_left b) (seg_left a)) as [[? ->]|[[? ->]|[? ->]]],
      (cmp3_cases (seg_node a) (seg_node b)) as [[? ->]|[[? ->]|[? ->]]],
      (cmp3_cases (seg_node b) (seg_node a)) as [[? ->]|[[? ->]|[? ->]]];
      simpl; lia.
  - apply cmp_segment_queue_consistent.
Qed.

Lemma queue_insert_Permutation (x : queue_item) (Q : list queue_item) :
  queue_insert x Q ≡ₚ x :: Q.
Proof. apply avl_insert_node_Permutation. Qed.

Lemma overlap_insert_sorted (x : overlap_count_t) (tree : list overlap_count_t) :
  StronglySorted overlap_lt tree ->
  Forall (fun m => oc_start m <> oc_start x) tree ->
  StronglySorted overlap_lt (avl_insert_node cmp_overlap_count x tree).
Proof.
  induction 1 as [|y tree Hsorted IH Hy]; simpl; intros Hne.
  - repeat constructor.
  - apply Forall_cons in Hne as [Hyx Hne]. unfold cmp_overlap_count at 1.
    destruct (cmp3_cases (oc_start x) (oc_start y)) as [[? ->]|[[? ->]|[? ->]]];
      simpl.
    + constructor; [by constructor|]. constructor; [done|].
      eapply Forall_impl; [exact Hy|]. unfold overlap_lt. intros; lia.
    + done.
    + constructor; [by apply IH|]. rewrite avl_insert_node_Permutation.
      by constructor.
Qed.

Lemma overlap_search_Some (x : double) (tree before after : list overlap_count_t)
    (m : overlap_count_t) :
  overlap_search x tree = Some (before, m, after) ->
  tree = before ++ m :: after /\ oc_start m = x.
Proof.
  revert before. induction tree as [|y tree IH]; intros before; simpl; [done|].
  destruct (Z.eqb_spec (oc_start y) x).
  - by intros [= <- <- <-].
  - destruct (overlap_search x tree) as [[[b m'] a]|]; [|done].
    intros [= <- <- <-]. destruct (IH _ eq_refl) as [-> ?]. done.
Qed.

Lemma overlap_search_None (x : double) (tree : list overlap_count_t) :
  overlap_search x tree = None ->
  Forall (fun m => oc_start m <> x) tree.
Proof.
  induction tree as [|y tree IH]; simpl; [constructor|].
  destruct (Z.eqb_spec (oc_start y) x); [done|].
  destruct (overlap_search x tree) as [[[b m'] a]|]; [done|].
  intros _. constructor; auto.
Qed.

(** ** The invariant: simplifier_remove_ancestry *)

Lemma Forall_insert_list {A} (P : A -> Prop) (l : list A) (i : nat) (x : A) :
  Forall P l -> P x -> Forall P (<[i := x]> l).
Proof. intros. by apply Forall_insert. Qed.

Lemma simplifier_remove_ancestry_inv (self self' : simplifier_t)
    (left right : double) (input_id : node_id_t) :
  simplifier_inv self ->
  simplifier_remove_ancestry self left right input_id = Ok self' ->
  simplifier_inv self'.
Proof.
  intros [Hmap Hqueue Hsorted Hoverlap]. unfold simplifier_remove_ancestry.
  intros H. apply bind_Ok in H as (head & Hread & H).
  destruct (remove_ancestry_chain left right head)
    as [[head' queued] allocated] eqn:Hchain.
  injection H as <-.
  assert (Hhead : chain_ok (s_sequence_length self) head).
  { apply readz_Ok in Hread as [_ Hlookup].
    rewrite Forall_forall in Hmap. apply Hmap.
    by eapply list_elem_of_lookup_2. }
  destruct (remove_ancestry_chain_spec _ _ _ _ _ _ _ Hhead Hchain)
    as (before & mid & after & Hfull & -> & ->).
  apply chain_ok_remove_middle in Hfull as [Hrest Hmid].
  destruct mid as [|q qnext]; constructor; simpl;
    try (by apply Forall_insert); try done.
  - rewrite queue_insert_Permutation. by constructor.
  - by apply queue_insert_sorted.
Qed.

(** ** The invariant: simplifier_merge_ancestors *)

(** The invariant speaks of the chains, the queue, the overlap counts and
    the sequence length only. *)
Lemma simplifier_inv_ext (self self' : simplifier_t) :
  s_sequence_length self' = s_sequence_length self ->
  s_ancestor_map self' = s_ancestor_map self ->
  s_merge_queue self' = s_merge_queue self ->
  s_overlap_counts self' = s_overlap_counts self ->
  simplifier_inv self -> simplifier_inv self'.
Proof.
  intros HL Hmap Hqueue Hoverlap [? ? ? ?].
  constructor; rewrite ?HL, ?Hmap, ?Hqueue, ?Hoverlap; done.
Qed.

Lemma merge_gather_spec (l : double) (Q H rest : list queue_item) :
  merge_gather l Q = (H, rest) ->
  Q = H ++ rest
  /\ Forall (fun x => seg_left (fst x) = l) H
  /\ match rest with
     | [] => True
     | y :: _ => seg_left (fst y) <> l
     end.
Proof.
  revert H rest. induction Q as [|x Q IH]; intros H rest; simpl.
  - by intros [= <- <-].
  - destruct (Z.eqb_spec (seg_left (fst x)) l).
    + destruct (merge_gather l Q) as [H' rest'].
      intros [= <- <-]. destruct (IH _ _ eq_refl) as (-> & ? & ?).
      split_and!; [done| |done]. by constructor.
    + by intros [= <- <-].
Qed.

(** In a sorted queue the batch at the least left end is followed by
    chains that begin later. *)
Lemma merge_gather_sorted (first : queue_item) (Q H rest : list queue_item) :
  StronglySorted queue_le (first :: Q) ->
  merge_gather (seg_left (fst first)) (first :: Q) = (H, rest) ->
  first :: Q = H ++ rest
  /\ (exists H', H = first :: H')
  /\ Forall (fun x => seg_left (fst x) = seg_left (fst first)) H
  /\ Forall (fun y => seg_left (fst first) < seg_left (fst y)) rest
  /\ StronglySorted queue_le rest.
Proof.
  intros Hsorted Hgather.
  assert (Hfirst : exists H', H = first :: H').
  { simpl in Hgather. rewrite Z.eqb_refl in Hgather.
    destruct (merge_gather _ Q) as [H' rest']. injection Hgather as <- <-.
    by eexists. }
  apply merge_gather_spec in Hgather as (Heq & HH & Hrest).
  split_and!; try done.
  - assert (Hall : Forall (fun y => seg_left (fst first) <= seg_left (fst y)) rest).
    { apply StronglySorted_inv in Hsorted as [_ Hle].
      destruct Hfirst as [H' ->]. simpl in Heq. injection Heq as ->.
      apply Forall_app in Hle as [_ Hle].
      eapply Forall_impl; [exact Hle|]. intros y. apply queue_le_left. }
    rewrite Heq in Hsorted. apply StronglySorted_app_1_r in Hsorted.
    destruct rest as [|y rest]; [constructor|].
    apply StronglySorted_inv in Hsorted as [_ Hy].
    apply Forall_cons in Hall as [Hy0 _].
    constructor; [lia|]. eapply Forall_impl; [exact Hy|].
    intros w Hw. apply queue_le_left in Hw. lia.
  - rewrite Heq in Hsorted. by apply StronglySorted_app_1_r in Hsorted.
Qed.

Lemma GSL_MIN_spec (a b : double) :
  GSL_MIN a b <= a /\ GSL_MIN a b <= b /\ (GSL_MIN a b = a \/ GSL_MIN a b = b).
Proof. unfold GSL_MIN. destruct (Z.ltb_spec a b); lia. Qed.

Lemma foldl_min_le (init : double) (H : list queue_item) :
  foldl (fun r_max x => GSL_MIN r_max (seg_right (fst x))) init H <= init
  /\ Forall (fun x =>
       foldl (fun r_max x => GSL_MIN r_max (seg_right (fst x))) init H
       <= seg_right (fst x)) H.
Proof.
  revert init. induction H as [|x H IH]; intros init; simpl; [by split|].
  destruct (IH (GSL_MIN init (seg_right (fst x)))) as [Hle Hall].
  pose proof (GSL_MIN_spec init (seg_right (fst x))).
  split; [lia|]. constructor; [lia|done].
Qed.

Lemma foldl_min_gt (b init : double) (H : list queue_item) :
  b < init -> Forall (fun x => b < seg_right (fst x)) H ->
  b < foldl (fun r_max x => GSL_MIN r_max (seg_right (fst x))) init H.
Proof.
  revert init. induction H as [|x H IH]; intros init Hb HH; simpl; [done|].
  apply Forall_cons in HH as [Hx HH]. apply IH; [|done].
  pose proof (GSL_MIN_spec init (seg_right (fst x))). lia.
Qed.

Lemma merge_r_max_le (L : double) (H rest : list queue_item) :
  merge_r_max L H rest <= L
  /\ Forall (fun x => merge_r_max L H rest <= seg_right (fst x)) H
  /\ Forall (fun y => merge_r_max L H rest <= seg_left (fst y))
       (match rest with [] => [] | y :: _ => [y] end).
Proof.
  unfold merge_r_max. destruct (foldl_min_le L H) as [HL HH].
  destruct rest as [|y rest]; simpl.
  - split_and!; [done|done|constructor].
  - pose proof (GSL_MIN_spec
      (foldl (fun r_max x => GSL_MIN r_max (seg_right (fst x))) L H)
      (seg_left (fst y))).
    split_and!; [lia| |repeat constructor; lia].
    eapply Forall_impl; [exact HH|]. intros; simpl in *; lia.
Qed.

Lemma merge_r_max_gt (b L : double) (H rest : list queue_item) :
  b < L -> Forall (fun x => b < seg_right (fst x)) H ->
  Forall (fun y => b < seg_left (fst y)) rest ->
  b < merge_r_max L H rest.
Proof.
  intros HL HH Hrest. unfold merge_r_max.
  pose proof (foldl_min_gt b L H HL HH).
  destruct rest as [|y rest]; [done|].
  apply Forall_cons in Hrest as [Hy _]. simpl.
  pose proof (GSL_MIN_spec
    (foldl (fun r_max x => GSL_MIN r_max (seg_right (fst x))) L H)
    (seg_left (fst y))). lia.
Qed.

(** *** The overlap counts *)

Lemma merge_ensure_overlap_count_spec (self self' : simplifier_t) (x : double) :
  StronglySorted overlap_lt (s_overlap_counts self) ->
  merge_ensure_overlap_count self x = Ok self' ->
  s_sequence_length self' = s_sequence_length self
  /\ s_ancestor_map self' = s_ancestor_map self
  /\ s_merge_queue self' = s_merge_queue self
  /\ StronglySorted overlap_lt (s_overlap_counts self')
  /\ (forall y, y ∈ map oc_start (s_overlap_counts self) ->
        y ∈ map oc_start (s_overlap_counts self'))
  /\ x ∈ map oc_start (s_overlap_counts self').
Proof.
  intros Hsorted. unfold merge_ensure_overlap_count.
  destruct (overlap_search x (s_overlap_counts self))
    as [[[before m] after]|] eqn:Hsearch.
  - intros [= <-]. apply overlap_search_Some in Hsearch as [Heq Hm].
    split_and!; try done. rewrite Heq, map_app. apply elem_of_app. right.
    simpl. rewrite Hm. apply elem_of_cons. by left.
  - unfold simplifier_copy_overlap_count.
    destruct (overlap_floor x (s_overlap_counts self)) as [nm|]; [|done].
    intros [= <-]. simpl. apply overlap_search_None in Hsearch.
    split_and!; try done.
    + apply overlap_insert_sorted; [done|]. done.
    + intros y Hy. rewrite avl_insert_node_Permutation. simpl.
      apply elem_of_cons. by right.
    + rewrite avl_insert_node_Permutation. simpl. apply elem_of_cons. by left.
Qed.

Lemma overlap_walk_spec (h : Z) (r_max : double) (next : list overlap_count_t) :
  forall (nm : overlap_count_t) (tree : list overlap_count_t) (r' : double),
  StronglySorted overlap_lt (nm :: next) ->
  oc_start nm <= r_max ->
  (oc_start nm = r_max \/ r_max ∈ map oc_start next) ->
  overlap_walk h r_max (oc_start nm) nm next = Ok (tree, r') ->
  map oc_start tree = map oc_start (nm :: next)
  /\ oc_start nm <= r' <= r_max
  /\ (oc_count nm <> h -> oc_start nm < r_max -> oc_start nm < r').
Proof.
  induction next as [|nm' next IH]; intros nm tree r' Hsorted Hle Hin; simpl.
  - destruct (negb (oc_count nm =? h) && (oc_start nm <? r_max)) eqn:Hcond;
      [done|].
    intros [= <- <-]. split_and!; [done|lia|lia|].
    intros Hne Hlt. apply andb_false_iff in Hcond as [Hc|Hc].
    + apply negb_false_iff, Z.eqb_eq in Hc. done.
    + apply Z.ltb_ge in Hc. lia.
  - destruct (negb (oc_count nm =? h) && (oc_start nm <? r_max)) eqn:Hcond.
    + apply andb_true_iff in Hcond as [_ Hlt]. apply Z.ltb_lt in Hlt.
      intros H. apply bind_Ok in H as ([tree1 r1] & Hrec & H).
      injection H as <- <-.
      apply StronglySorted_inv in Hsorted as [Hsorted Hnm].
      apply Forall_cons in Hnm as [Hnm' Hnm].
      assert (Hin' : oc_start nm' = r_max \/ r_max ∈ map oc_start next).
      { destruct Hin as [?|Hin]; [lia|]. simpl in Hin.
        apply elem_of_cons in Hin as [?|?]; [by left|by right]. }
      assert (Hle' : oc_start nm' <= r_max).
      { destruct Hin' as [?|Hin']; [lia|].
        apply StronglySorted_inv in Hsorted as [_ Hall].
        apply list_elem_of_fmap in Hin' as (m & -> & Hm).
        rewrite Forall_forall in Hall. specialize (Hall _ Hm).
        unfold overlap_lt in Hall. lia. }
      destruct (IH nm' tree1 r1 Hsorted Hle' Hin' Hrec) as (Hmap & Hr & _).
      unfold overlap_lt in Hnm'.
      split_and!; [simpl; by rewrite Hmap|lia|lia|intros; lia].
    + intros [= <- <-]. split_and!; [done|lia|lia|].
      intros Hne Hlt. apply andb_false_iff in Hcond as [Hc|Hc].
      * apply negb_false_iff, Z.eqb_eq in Hc. done.
      * apply Z.ltb_ge in Hc. lia.
Qed.

Lemma StronglySorted_overlap_starts (tree tree' : list overlap_count_t) :
  map oc_start tree' = map oc_start tree ->
  StronglySorted overlap_lt tree -> StronglySorted overlap_lt tree'.
Proof.
  revert tree'. induction tree as [|m tree IH]; intros tree' Hmap Hsorted.
  - destruct tree'; [constructor|done].
  - destruct tree' as [|m' tree']; [done|]. simpl in Hmap.
    injection Hmap as Hm Hmap.
    apply StronglySorted_inv in Hsorted as [Hsorted Hall].
    constructor; [by apply IH|].
    apply Forall_forall. intros y Hy.
    assert (Hin : oc_start y ∈ map oc_start tree).
    { rewrite <- Hmap. apply list_elem_of_fmap. by exists y. }
    apply list_elem_of_fmap in Hin as (w & Hw & Hwin).
    rewrite Forall_forall in Hall. specialize (Hall _ Hwin).
    unfold overlap_lt in *. lia.
Qed.

Lemma merge_overlap_update_spec (self self' : simplifier_t) (h : nat)
    (l r_max r : double) (v : node_id_t) (alpha : option simplify_segment_t) :
  StronglySorted overlap_lt (s_overlap_counts self) ->
  l < r_max ->
  r_max ∈ map oc_start (s_overlap_counts self) ->
  merge_overlap_update self h l r_max v = Ok (self', r, alpha) ->
  s_sequence_length self' = s_sequence_length self
  /\ s_ancestor_map self' = s_ancestor_map self
  /\ s_merge_queue self' = s_merge_queue self
  /\ map oc_start (s_overlap_counts self') = map oc_start (s_overlap_counts self)
  /\ l < r <= r_max
  /\ (alpha = None \/ alpha = Some (mk_segment l r v)).
Proof.
  intros Hsorted Hlt Hin. unfold merge_overlap_update.
  destruct (overlap_search l (s_overlap_counts self))
    as [[[before nm] after]|] eqn:Hsearch; [|done].
  apply overlap_search_Some in Hsearch as [Heq Hnm].
  rewrite Heq in Hsorted, Hin.
  pose proof (StronglySorted_app_1_r _ _ _ Hsorted) as Htail.
  assert (Hafter : r_max ∈ map oc_start after).
  { rewrite map_app in Hin. apply elem_of_app in Hin as [Hin|Hin].
    - apply list_elem_of_fmap in Hin as (m & -> & Hm).
      assert (overlap_lt m nm).
      { eapply StronglySorted_app_1_elem_of; [exact Hsorted|done|].
        apply elem_of_cons. by left. }
      unfold overlap_lt in *. lia.
    - simpl in Hin. apply elem_of_cons in Hin as [?|?]; [lia|done]. }
  destruct (oc_count nm =? wrap_uint32 (Z.of_nat h)) eqn:Hcount.
  - destruct after as [|nm' after]; [done|].
    intros [= <- <- <-]. simpl. rewrite Heq.
    refine (conj eq_refl (conj eq_refl (conj eq_refl (conj _ (conj _ _))))).
    + by rewrite !map_app.
    + apply StronglySorted_inv in Htail as [Hafter_sorted Hall].
      apply Forall_cons in Hall as [Hnm' Hall].
      unfold overlap_lt in Hnm'. split; [lia|].
      simpl in Hafter. apply elem_of_cons in Hafter as [->|Hafter]; [done|].
      apply list_elem_of_fmap in Hafter as (m & -> & Hm).
      apply StronglySorted_inv in Hafter_sorted as [_ Hless].
      rewrite Forall_forall in Hless. specialize (Hless _ Hm).
      unfold overlap_lt in Hless. lia.
    + by left.
  - intros H. apply bind_Ok in H as ([tree r1] & Hwalk & H).
    injection H as <- <- <-. simpl. rewrite <- Hnm in Hwalk.
    apply overlap_walk_spec in Hwalk as (Hmap & Hr & Hstrict);
      [|done|lia|by right].
    refine (conj eq_refl (conj eq_refl (conj eq_refl (conj _ (conj _ _))))).
    + rewrite Heq, !map_app. by rewrite Hmap.
    + assert (oc_start nm < r1); [|lia].
      apply Hstrict; [|lia]. by apply Z.eqb_neq.
    + by right.
Qed.

Lemma merge_overlap_update_sorted (self self' : simplifier_t) (h : nat)
    (l r_max r : double) (v : node_id_t) (alpha : option simplify_segment_t) :
  StronglySorted overlap_lt (s_overlap_counts self) ->
  l < r_max ->
  r_max ∈ map oc_start (s_overlap_counts self) ->
  merge_overlap_update self h l r_max v = Ok (self', r, alpha) ->
  StronglySorted overlap_lt (s_overlap_counts self').
Proof.
  intros Hsorted Hlt Hin H.
  apply merge_overlap_update_spec in H as (_ & _ & _ & Hmap & _); try done.
  by eapply StronglySorted_overlap_starts.
Qed.

(** *** The batch goes back to the queue *)

(** What the [for] loop over [H] puts back into the queue. *)
Definition heads_requeued (r : double) (H : list queue_item) : list queue_item :=
  flat_map (fun '(x, next) =>
    if seg_right x =? r then
      match next with
      | [] => []
      | y :: next' => [(y, next')]
      end
    else if r <? seg_right x then [(with_left x r, next)]
    else [(x, next)]) H.

Lemma merge_requeue_queue (self : simplifier_t) (x : list simplify_segment_t) :
  s_sequence_length (merge_requeue self x) = s_sequence_length self
  /\ s_ancestor_map (merge_requeue self x) = s_ancestor_map self
  /\ s_overlap_counts (merge_requeue self x) = s_overlap_counts self
  /\ s_merge_queue (merge_requeue self x)
     = match x with
       | [] => s_merge_queue self
       | s :: next => queue_insert (s, next) (s_merge_queue self)
       end.
Proof. by destruct x. Qed.

Lemma merge_update_heads_spec (r : double) (H : list queue_item) :
  forall (self self' : simplifier_t) (children : list node_id_t),
  merge_update_heads self r H = (self', children) ->
  s_sequence_length self' = s_sequence_length self
  /\ s_ancestor_map self' = s_ancestor_map self
  /\ s_overlap_counts self' = s_overlap_counts self
  /\ children = map (fun x => seg_node (fst x)) H
  /\ s_merge_queue self' ≡ₚ heads_requeued r H ++ s_merge_queue self
  /\ (StronglySorted queue_le (s_merge_queue self) ->
      StronglySorted queue_le (s_merge_queue self')).
Proof.
  induction H as [|[x next] H IH]; intros self self' children; simpl.
  - intros [= <- <-]. done.
  - match goal with |- context [merge_update_heads ?s r H] =>
      set (self1 := s) end.
    destruct (merge_update_heads self1 r H) as [self2 children2] eqn:Hrec.
    intros [= <- <-].
    destruct (IH _ _ _ Hrec) as (HL & Hmap & Hoverlap & -> & Hperm & Hsorted).
    assert (H1 : s_sequence_length self1 = s_sequence_length self
      /\ s_ancestor_map self1 = s_ancestor_map self
      /\ s_overlap_counts self1 = s_overlap_counts self
      /\ s_merge_queue self1
         ≡ₚ (if seg_right x =? r then
               match next with
               | [] => []
               | y :: next' => [(y, next')]
               end
             else if r <? seg_right x then [(with_left x r, next)]
             else [(x, next)]) ++ s_merge_queue self
      /\ (StronglySorted queue_le (s_merge_queue self) ->
          StronglySorted queue_le (s_merge_queue self1))).
    { subst self1. destruct (seg_right x =? r).
      - destruct next as [|y next']; [done|]. simpl.
        split_and!; try done.
        + apply queue_insert_Permutation.
        + apply queue_insert_sorted.
      - destruct (r <? seg_right x); simpl; split_and!; try done;
          try apply queue_insert_Permutation; apply queue_insert_sorted. }
    destruct H1 as (HL1 & Hmap1 & Hoverlap1 & Hperm1 & Hsorted1).
    split_and!; try congruence; [|auto].
    rewrite Hperm, Hperm1.
    rewrite <- !app_assoc. apply Permutation_app_swap_app.
Qed.

Lemma heads_requeued_Forall (P : queue_item -> Prop) (r : double)
    (H : list queue_item) :
  Forall (fun '(x, next) =>
    (seg_right x = r ->
       match next with [] => True | y :: next' => P (y, next') end)
    /\ (r < seg_right x -> P (with_left x r, next))
    /\ (seg_right x < r -> P (x, next))) H ->
  Forall P (heads_requeued r H).
Proof.
  induction 1 as [|[x next] H (Heq & Hlt & Hgt) _ IH]; simpl; [constructor|].
  apply Forall_app. split; [|done].
  destruct (Z.eqb_spec (seg_right x) r).
  - destruct next; [constructor|]. repeat constructor. by apply Heq.
  - destruct (Z.ltb_spec r (seg_right x)); repeat constructor.
    + by apply Hlt.
    + apply Hgt. lia.
Qed.

(** The chains of a batch at [l], cut back to [r]. *)
Lemma heads_requeued_chain_ok (L l r : double) (H : list queue_item) :
  l < r ->
  Forall (fun x => chain_ok L (item_chain x)) H ->
  Forall (fun x => seg_left (fst x) = l) H ->
  Forall (fun x => r <= seg_right (fst x)) H ->
  Forall (fun x => chain_ok L (item_chain x) /\ r <= seg_left (fst x))
    (heads_requeued r H).
Proof.
  intros Hlr Hok Hl Hr. apply heads_requeued_Forall.
  apply Forall_forall. intros [x next] Hin.
  rewrite Forall_forall in Hok, Hl, Hr.
  specialize (Hok _ Hin). specialize (Hl _ Hin). specialize (Hr _ Hin).
  simpl in *. split_and!.
  - intros Heq. destruct next as [|y next']; [done|].
    destruct Hok as (_ & Hxy & Hnext). split; [done|]. simpl. lia.
  - intros Hlt. split; [|simpl; lia].
    apply (chain_ok_with_left L r x next Hok). lia.
  - lia.
Qed.

(** *** One turn of the loop *)

Lemma simplifier_record_node_fields (self self' : simplifier_t)
    (input_id : node_id_t) :
  simplifier_record_node self input_id = Ok self' ->
  exists nodes', self' = set_nodes self nodes'.
Proof.
  unfold simplifier_record_node. intros H.
  repeat (apply bind_Ok in H as (? & _ & H)).
  injection H as <-. by eexists.
Qed.

Section Chains.

Variable qsort : forall A : Type, (A -> A -> Z) -> list A -> list A.

Lemma simplifier_record_edgeset_fields (self self' : simplifier_t)
    (left right : double) (parent : node_id_t) (children : list node_id_t)
    (children_length : nat) :
  simplifier_record_edgeset qsort self left right parent children
    children_length = Ok self' ->
  s_sequence_length self' = s_sequence_length self
  /\ s_ancestor_map self' = s_ancestor_map self
  /\ s_merge_queue self' = s_merge_queue self
  /\ s_overlap_counts self' = s_overlap_counts self.
Proof.
  unfold simplifier_record_edgeset.
  destruct (Nat.eqb _ 0); [by intros [= <-]|].
  match goal with |- context [if ?c then _ else _] => destruct c end.
  - by intros [= <-].
  - intros H. apply bind_Ok in H as (edgesets & _ & H). by injection H as <-.
Qed.

Lemma merge_integrate_inv (self self' : simplifier_t) (input_id : node_id_t)
    (z z' alpha : option simplify_segment_t) :
  simplifier_inv self ->
  match z with
  | None => True
  | Some zs =>
    exists chain,
      s_ancestor_map self !! Z.to_nat input_id = Some (chain ++ [zs])
  end ->
  (forall a, alpha = Some a ->
     seg_ok (s_sequence_length self) a
     /\ forall zs, z = Some zs -> seg_right zs <= seg_left a) ->
  (forall zs, alpha = Some zs \/ (alpha = None /\ z = Some zs) ->
     Forall (fun q => seg_right zs <= seg_left (fst q)) (s_merge_queue self)) ->
  merge_integrate self input_id z alpha = Ok (self', z') ->
  simplifier_inv self' /\ z_inv self' input_id z'.
Proof.
  intros Hinv Hz Halpha Hqueue. unfold merge_integrate.
  destruct alpha as [a|].
  - intros H. apply bind_Ok in H as (chain & Hread & H).
    injection H as <- <-. apply readz_Ok in Hread as [Hid Hlookup].
    destruct (Halpha a eq_refl) as [Ha Hza].
    destruct Hinv as [Hmap Hq Hsorted Hoverlap].
    assert (Hlen : (Z.to_nat input_id < length (s_ancestor_map self))%nat).
    { by eapply lookup_lt_Some. }
    split.
    + constructor; simpl; try done.
      apply Forall_insert; [done|].
      destruct z as [zs|]; [|by apply chain_ok_singleton].
      apply chain_ok_app_iff. split_and!.
      * rewrite Forall_forall in Hmap. apply Hmap.
        by eapply list_elem_of_lookup_2.
      * by apply chain_ok_singleton.
      * destruct Hz as [chain0 Hz]. rewrite Hlookup in Hz.
        injection Hz as ->. unfold chain_link. rewrite last_snoc. simpl.
        by apply Hza.
    + simpl. split.
      * destruct z as [zs|].
        -- exists chain. by rewrite list_lookup_insert_eq.
        -- exists []. by rewrite list_lookup_insert_eq.
      * apply Hqueue. by left.
  - intros [= <- <-]. split; [done|].
    destruct z as [zs|]; [|done]. split; [done|]. apply Hqueue. by right.
Qed.

Lemma merge_single_inv (self self' : simplifier_t) (input_id : node_id_t)
    (z z' : option simplify_segment_t) (x : simplify_segment_t)
    (next : list simplify_segment_t) :
  simplifier_inv self ->
  chain_ok (s_sequence_length self) (x :: next) ->
  Forall (fun y => seg_left x < seg_left (fst y)) (s_merge_queue self) ->
  match z with
  | None => True
  | Some zs =>
    (exists chain,
       s_ancestor_map self !! Z.to_nat input_id = Some (chain ++ [zs]))
    /\ seg_right zs <= seg_left x
  end ->
  merge_single self input_id z x next (s_merge_queue self) = Ok (self', z') ->
  simplifier_inv self' /\ z_inv self' input_id z'.
Proof.
  intros Hinv Hx Hrest Hz. unfold merge_single.
  pose proof Hinv as [Hmap Hq Hsorted Hoverlap].
  pose proof (chain_ok_head_before _ _ _ Hx) as Hbefore.
  pose proof Hx as (Hseg & Hlink & Hnext).
  destruct Hseg as (H0 & Hlt & HL).
  assert (Hnext_l : Forall (fun y =>
    merge_next_l (s_merge_queue self) <= seg_left (fst y)) (s_merge_queue self)).
  { destruct (s_merge_queue self) as [|y rest]; [constructor|]. simpl.
    apply StronglySorted_inv in Hsorted as [_ Hy].
    constructor; [lia|]. eapply Forall_impl; [exact Hy|].
    intros w. apply queue_le_left. }
  destruct (bool_decide (s_merge_queue self <> []) &&
            (merge_next_l (s_merge_queue self) <? seg_right x)) eqn:Hcond.
  - apply andb_true_iff in Hcond as [Hne Hcut].
    apply bool_decide_eq_true in Hne. apply Z.ltb_lt in Hcut.
    assert (Hfirst : seg_left x < merge_next_l (s_merge_queue self)).
    { destruct (s_merge_queue self) as [|y rest]; [done|].
      by apply Forall_cons in Hrest as [? _]. }
    apply merge_integrate_inv.
    + constructor; simpl; try done.
      * rewrite queue_insert_Permutation. constructor; [|done].
        apply chain_ok_with_left; [done|lia].
      * by apply queue_insert_sorted.
    + destruct z as [zs|]; [|done]. by destruct Hz.
    + intros a [= <-]. split; [unfold seg_ok; simpl; lia|].
      intros zs ->. simpl. by destruct Hz.
    + intros zs [[= <-]|[? _]]; [|done]. simpl.
      rewrite queue_insert_Permutation. constructor; [simpl; lia|done].
  - assert (Hend : Forall (fun y => seg_right x <= seg_left (fst y))
                     (s_merge_queue self)).
    { apply andb_false_iff in Hcond as [Hc|Hc].
      - apply bool_decide_eq_false in Hc.
        destruct (s_merge_queue self); [constructor|]. by destruct Hc.
      - apply Z.ltb_ge in Hc. eapply Forall_impl; [exact Hnext_l|].
        intros; simpl in *; lia. }
    destruct (merge_requeue_queue self next) as (HL' & Hmap' & Hov' & Hq').
    apply merge_integrate_inv.
    + constructor; rewrite ?HL', ?Hmap', ?Hov', ?Hq'; try done.
      * destruct next as [|y next']; [done|].
        rewrite queue_insert_Permutation. by constructor.
      * destruct next as [|y next']; [done|]. by apply queue_insert_sorted.
    + rewrite Hmap'. destruct z as [zs|]; [|done]. by destruct Hz.
    + intros a [= <-]. rewrite HL'. split; [done|].
      intros zs ->. by destruct Hz.
    + intros zs [[= <-]|[? _]]; [|done]. rewrite Hq'.
      destruct next as [|y next']; [done|].
      rewrite queue_insert_Permutation. constructor; [|done].
      by apply Forall_cons in Hbefore as [? _].
Qed.

Lemma merge_coalesce_inv (self self' : simplifier_t) (input_id : node_id_t)
    (coalescence : bool) (z z' : option simplify_segment_t) (l r_max : double)
    (H : list queue_item) :
  simplifier_inv self ->
  Forall (fun x => chain_ok (s_sequence_length self) (item_chain x)) H ->
  Forall (fun x => seg_left (fst x) = l) H ->
  Forall (fun x => r_max <= seg_right (fst x)) H ->
  Forall (fun y => r_max <= seg_left (fst y)) (s_merge_queue self) ->
  0 <= l < r_max -> r_max <= s_sequence_length self ->
  match z with
  | None => True
  | Some zs =>
    (exists chain,
       s_ancestor_map self !! Z.to_nat input_id = Some (chain ++ [zs]))
    /\ seg_right zs <= l
  end ->
  merge_coalesce qsort self input_id coalescence z l r_max H = Ok (self', z') ->
  simplifier_inv self' /\ z_inv self' input_id z'.
Proof.
  intros Hinv HHok HHl HHr Hrest Hl HL Hz. unfold merge_coalesce.
  intros Hrun. apply bind_Ok in Hrun as (self1 & Hnode & Hrun).
  apply bind_Ok in Hrun as (self2 & Hens1 & Hrun).
  apply bind_Ok in Hrun as (self3 & Hens2 & Hrun).
  apply bind_Ok in Hrun as ([[self4 r] alpha] & Hupd & Hrun).
  destruct (merge_update_heads self4 r H) as [self5 children] eqn:Hheads.
  apply bind_Ok in Hrun as (self6 & Hrec & Hrun).
  assert (Hinv1 : simplifier_inv self1
    /\ s_sequence_length self1 = s_sequence_length self
    /\ s_ancestor_map self1 = s_ancestor_map self
    /\ s_merge_queue self1 = s_merge_queue self).
  { destruct coalescence.
    - by injection Hnode as <-.
    - apply simplifier_record_node_fields in Hnode as [nodes' ->].
      split_and!; try done. by apply (simplifier_inv_ext self). }
  destruct Hinv1 as (Hinv1 & HL1 & Hmap1 & Hq1).
  destruct Hinv1 as [Hm1 Hqok1 Hs1 Ho1].
  destruct (merge_ensure_overlap_count_spec _ _ _ Ho1 Hens1)
    as (HL2 & Hmap2 & Hq2 & Ho2 & _ & _).
  destruct (merge_ensure_overlap_count_spec _ _ _ Ho2 Hens2)
    as (HL3 & Hmap3 & Hq3 & Ho3 & _ & Hin3).
  assert (Hlt : l < r_max) by lia.
  pose proof (merge_overlap_update_sorted _ _ _ _ _ _ _ _ Ho3 Hlt Hin3 Hupd)
    as Ho4.
  destruct (merge_overlap_update_spec _ _ _ _ _ _ _ _ Ho3 Hlt Hin3 Hupd)
    as (HL4 & Hmap4 & Hq4 & _ & Hr & Halpha).
  destruct (merge_update_heads_spec _ _ _ _ _ Hheads)
    as (HL5 & Hmap5 & Ho5 & _ & Hperm5 & Hs5).
  destruct (simplifier_record_edgeset_fields _ _ _ _ _ _ _ Hrec)
    as (HL6 & Hmap6 & Hq6 & Ho6).
  assert (HLall : s_sequence_length self6 = s_sequence_length self)
    by congruence.
  assert (Hmapall : s_ancestor_map self6 = s_ancestor_map self) by congruence.
  assert (Hq4all : s_merge_queue self4 = s_merge_queue self) by congruence.
  assert (Hheads_ok :
    Forall (fun x => chain_ok (s_sequence_length self) (item_chain x)
                     /\ r <= seg_left (fst x)) (heads_requeued r H)).
  { apply (heads_requeued_chain_ok _ l); try done; [lia|].
    eapply Forall_impl; [exact HHr|]. intros; simpl in *; lia. }
  assert (Hqall : Forall (fun x =>
      chain_ok (s_sequence_length self) (item_chain x)
      /\ r <= seg_left (fst x)) (s_merge_queue self6)).
  { rewrite Hq6, Hperm5, Hq4all. apply Forall_app. split; [done|].
    destruct Hinv as [_ Hqok _ _].
    apply Forall_forall. intros y Hy.
    rewrite Forall_forall in Hqok, Hrest. split; [by apply Hqok|].
    specialize (Hrest _ Hy). simpl in Hrest. lia. }
  assert (Hinv6 : simplifier_inv self6).
  { constructor.
    - rewrite HLall, Hmapall. by destruct Hinv.
    - rewrite HLall. eapply Forall_impl; [exact Hqall|]. by intros ? [? _].
    - rewrite Hq6. apply Hs5. rewrite Hq4all. by destruct Hinv.
    - rewrite Ho6, Ho5. done. }
  apply (merge_integrate_inv _ _ _ _ _ _ Hinv6) in Hrun; [done| | |].
  - rewrite Hmapall. destruct z as [zs|]; [|done]. by destruct Hz.
  - intros a Ha. destruct Halpha as [-> | ->]; [done|]. injection Ha as <-.
    rewrite HLall. split; [unfold seg_ok; simpl; lia|].
    intros zs ->. simpl. by destruct Hz.
  - intros zs [Ha|[-> ->]].
    + destruct Halpha as [-> | ->]; [done|]. injection Ha as <-. simpl.
      eapply Forall_impl; [exact Hqall|]. by intros ? [_ ?].
    + destruct Hz as [_ Hz].
      eapply Forall_impl; [exact Hqall|]. intros ? [_ ?]. simpl. lia.
Qed.

Lemma merge_step_inv (self self' : simplifier_t) (input_id : node_id_t)
    (coalescence coalescence' : bool) (z z' : option simplify_segment_t) :
  simplifier_inv self -> z_inv self input_id z ->
  merge_step qsort self input_id coalescence z = Ok (self', coalescence', z') ->
  simplifier_inv self' /\ z_inv self' input_id z'.
Proof.
  intros Hinv Hz. unfold merge_step.
  destruct (s_merge_queue self) as [|first Q] eqn:HQ; [done|].
  destruct (merge_gather (seg_left (fst first)) (first :: Q)) as [H rest]
    eqn:Hgather.
  pose proof Hinv as [Hmap Hqok Hsorted Hoverlap].
  rewrite HQ in Hqok, Hsorted.
  destruct (merge_gather_sorted _ _ _ _ Hsorted Hgather)
    as (Heq & [H' HH'] & HHl & Hrest & Hrest_sorted).
  rewrite Heq in Hqok. apply Forall_app in Hqok as [HHok Hrest_ok].
  set (self1 := set_merge_queue
     (set_avl_node_heap self (s_avl_node_heap self - length H)%nat) rest).
  assert (Hinv1 : simplifier_inv self1) by (by constructor).
  assert (Hfirst : seg_ok (s_sequence_length self) (fst first)).
  { rewrite HH' in HHok. apply Forall_cons in HHok as [Hf _].
    by destruct Hf as [? _]. }
  assert (Hzl : forall zs, z = Some zs ->
    (exists chain,
       s_ancestor_map self1 !! Z.to_nat input_id = Some (chain ++ [zs]))
    /\ seg_right zs <= seg_left (fst first)).
  { intros zs ->. destruct Hz as [Hchain Hall]. split; [done|].
    rewrite HQ in Hall. by apply Forall_cons in Hall as [? _]. }
  assert (Hcoalesce : forall self2 z2,
    merge_coalesce qsort self1 input_id coalescence z (seg_left (fst first))
      (merge_r_max (s_sequence_length self) H rest) H = Ok (self2, z2) ->
    simplifier_inv self2 /\ z_inv self2 input_id z2).
  { intros self2 z2.
    destruct (merge_r_max_le (s_sequence_length self) H rest)
      as (HrL & HrH & Hrrest).
    destruct Hfirst as (H0 & Hlt & HL).
    apply merge_coalesce_inv; try done.
    - simpl. destruct rest as [|y rest']; [constructor|].
      apply Forall_cons in Hrrest as [Hy _]. constructor; [done|].
      apply StronglySorted_inv in Hrest_sorted as [_ Hall].
      eapply Forall_impl; [exact Hall|]. intros w Hw.
      apply queue_le_left in Hw. cbn beta. lia.
    - split; [done|]. apply merge_r_max_gt; [lia| |done].
      apply Forall_forall. intros q Hq.
      rewrite Forall_forall in HHok, HHl.
      specialize (HHok _ Hq). specialize (HHl _ Hq).
      destruct HHok as ((_ & ? & _) & _). lia.
    - destruct z as [zs|]; [|done]. by apply Hzl. }
  destruct H as [|[x next] [|y H'']].
  - done.
  - intros Hrun. apply bind_Ok in Hrun as ([self2 z2] & Hsingle & Hrun).
    injection Hrun as <- _ <-. injection HH' as <- _.
    apply (merge_single_inv self1) in Hsingle; try done.
    + by apply Forall_cons in HHok as [? _].
    + destruct z as [zs|]; [|done]. by apply Hzl.
  - intros Hrun. apply bind_Ok in Hrun as ([self2 z2] & Hco & Hrun).
    injection Hrun as <- _ <-. by apply Hcoalesce.
Qed.

Lemma merge_loop_inv (fuel : nat) :
  forall (self self' : simplifier_t) (input_id : node_id_t)
    (coalescence : bool) (z : option simplify_segment_t),
  simplifier_inv self -> z_inv self input_id z ->
  merge_loop qsort fuel self input_id coalescence z = Ok self' ->
  simplifier_inv self'.
Proof.
  induction fuel as [|fuel IH]; intros self self' input_id coalescence z
    Hinv Hz; simpl.
  - destruct (s_merge_queue self); [by intros [= <-]|done].
  - destruct (s_merge_queue self) eqn:HQ; [by intros [= <-]|].
    intros Hrun. apply bind_Ok in Hrun as ([[self1 c1] z1] & Hstep & Hrun).
    apply merge_step_inv in Hstep as [Hinv1 Hz1]; [|done|done].
    by eapply IH.
Qed.

Lemma simplifier_merge_ancestors_inv (self self' : simplifier_t)
    (input_id : node_id_t) :
  simplifier_inv self ->
  simplifier_merge_ancestors qsort self input_id = Ok self' ->
  simplifier_inv self'.
Proof.
  intros Hinv. unfold simplifier_merge_ancestors.
  by apply merge_loop_inv.
Qed.

End Chains.

(** ** The invariant: simplifier_alloc *)

Lemma simplifier_inv_chains_ordered (self : simplifier_t) :
  simplifier_inv self -> chains_ordered self.
Proof.
  intros [Hmap Hqueue _ _].
  rewrite Forall_forall in Hmap. rewrite Forall_forall in Hqueue.
  split; intros u Hu; eapply chain_ok_ordered; eauto.
Qed.

Lemma simplifier_alloc_inv (nodes : node_table_t) (edgesets : edgeset_table_t)
    (sites : site_table_t) (mutations : mutation_table_t)
    (samples : list node_id_t) (L : double) (flags : Z) (self : simplifier_t) :
  node_table_wf nodes -> 0 < L ->
  simplifier_alloc nodes edgesets sites mutations samples L flags = Ok self ->
  simplifier_inv self.
Proof.
  intros Hwf HL H. apply simplifier_alloc_Ok_inv in H; [|done].
  destruct H as (self0 & -> & Hinv & _ & _ & _ & Hoverlap & _).
  destruct Hinv as [Hinput Hoffsets HL0 Hedgesets Hmaplen Hmapsample Hmapother
    Hnwf Hnrows Hntotal Hnmaxrows Hnmaxname Hheap Hqueue Hlast].
  constructor; simpl; rewrite ?Hqueue, ?Hoverlap, ?HL0.
  - apply Forall_forall. intros chain Hchain.
    apply list_elem_of_lookup in Hchain as [i Hi].
    assert (Hlt : (i < nt_num_rows nodes)%nat).
    { rewrite <- Hmaplen. by eapply lookup_lt_Some. }
    destruct (decide (Z.of_nat i ∈ samples)) as [Hin|Hout].
    + apply list_elem_of_lookup in Hin as [k Hk].
      specialize (Hmapsample _ _ Hk). rewrite Nat2Z.id in Hmapsample.
      rewrite Hi in Hmapsample. injection Hmapsample as ->.
      apply chain_ok_singleton. unfold seg_ok. simpl. lia.
    + rewrite (Hmapother _ Hlt Hout) in Hi. by injection Hi as <-.
  - constructor.
  - constructor.
  - unfold cmp_overlap_count, cmp3. simpl.
    destruct (Z.ltb_spec 0 L); [|lia]. destruct (Z.ltb_spec L 0); [lia|].
    simpl. repeat constructor. unfold overlap_lt. simpl. lia.
Qed.

(** ** qsort *)

Lemma qsort_merge_contract : qsort_contract qsort_merge.
Proof.
  split.
  - intros A cmp l. unfold qsort_merge. apply merge_sort_Permutation.
  - intros A cmp l [Htotal Htrans]. unfold qsort_merge.
    apply (@StronglySorted_merge_sort A (fun a b : A => cmp a b <= 0)
             (fun x y => Z_le_dec (cmp x y) 0)
             (fun a b c => Htrans a b c) (fun a b => Htotal a b)).
Qed.

Lemma qsort_merge_rev_contract : qsort_contract qsort_merge_rev.
Proof.
  destruct qsort_merge_contract as [Hperm Hsorted]. split.
  - intros A cmp l. unfold qsort_merge_rev. rewrite Hperm.
    apply reverse_Permutation.
  - intros A cmp l Hcmp. unfold qsort_merge_rev. by apply Hsorted.
Qed.

Lemma qsort_length
    (qsort : forall A : Type, (A -> A -> Z) -> list A -> list A)
    {A} (cmp : A -> A -> Z) (l : list A) :
  qsort_contract qsort -> length (qsort A cmp l) = length l.
Proof. intros [Hperm _]. by rewrite Hperm. Qed.

(** The comparators order consistently. *)

Lemma cmp3_consistent : cmp_consistent cmp3.
Proof.
  split.
  - intros a b.
    destruct (cmp3_cases a b) as [[? ->]|[[? ->]|[? ->]]],
      (cmp3_cases b a) as [[? ->]|[[? ->]|[? ->]]]; lia.
  - intros a b c.
    destruct (cmp3_cases a b) as [[? ->]|[[? ->]|[? ->]]],
      (cmp3_cases b c) as [[? ->]|[[? ->]|[? ->]]],
      (cmp3_cases a c) as [[? ->]|[[? ->]|[? ->]]]; lia.
Qed.

Lemma cmp3_le (a b : Z) : cmp3 a b <= 0 <-> a <= b.
Proof. destruct (cmp3_cases a b) as [[? ->]|[[? ->]|[? ->]]]; lia. Qed.

Lemma cmp_node_id_consistent : cmp_consistent cmp_node_id.
Proof. apply cmp3_consistent. Qed.

Lemma cmp_consistent_on {A B} (f : A -> B) (cmp : B -> B -> Z) :
  cmp_consistent cmp -> cmp_consistent (fun a b => cmp (f a) (f b)).
Proof. intros [Htotal Htrans]. split; eauto. Qed.

Lemma cmp_site_consistent : cmp_consistent cmp_site.
Proof. apply (cmp_consistent_on site_position), cmp3_consistent. Qed.

Lemma cmp_mutation_consistent : cmp_consistent cmp_mutation.
Proof. apply (cmp_consistent_on mutation_site), cmp3_consistent. Qed.

(** [cmp_edgeset] is the order (time, parent, left). *)
Lemma cmp_edgeset_le (a b : edgeset_sort_t) :
  cmp_edgeset a b <= 0 <->
  es_time a < es_time b
  \/ (es_time a = es_time b
      /\ (es_parent a < es_parent b
          \/ (es_parent a = es_parent b /\ es_left a <= es_left b))).
Proof.
  unfold cmp_edgeset.
  destruct (cmp3_cases (es_time a) (es_time b)) as [[? ->]|[[? ->]|[? ->]]],
    (cmp3_cases (es_parent a) (es_parent b)) as [[? ->]|[[? ->]|[? ->]]],
    (cmp3_cases (es_left a) (es_left b)) as [[? ->]|[[? ->]|[? ->]]];
    simpl; lia.
Qed.

Lemma cmp_edgeset_consistent : cmp_consistent cmp_edgeset.
Proof.
  split.
  - intros a b. rewrite !cmp_edgeset_le. lia.
  - intros a b c. rewrite !cmp_edgeset_le. lia.
Qed.

Lemma StronglySorted_fmap_on {A B} (P : A -> Prop) (f : A -> B)
    (R1 : relation A) (R2 : relation B) (l : list A) :
  (forall x y, P x -> P y -> R1 x y -> R2 (f x) (f y)) ->
  Forall P l -> StronglySorted R1 l -> StronglySorted R2 (f <$> l).
Proof.
  intros Hf HP. induction 1 as [|x l Hsorted IH Hx]; simpl; [constructor|].
  apply Forall_cons in HP as [HPx HP].
  constructor; [by apply IH|].
  apply Forall_fmap. rewrite Forall_forall in HP, Hx |- *.
  intros y Hy. simpl. apply Hf; auto.
Qed.

(** ** table_sorter_sort_edgesets *)

Lemma slice_take {A} (mem : list A) (m off n : nat) :
  (off + n <= m)%nat -> slice (take m mem) off n = slice mem off n.
Proof.
  intros. apply slice_ext. intros i Hi. rewrite lookup_take.
  case_decide; [done|lia].
Qed.

Lemma sort_edgesets_load_spec (nodes : node_table_t) (edgesets : edgeset_table_t)
    (children_mem : list node_id_t) (n : nat) :
  forall (j off : nat) (keys : list edgeset_sort_t),
  sort_edgesets_load nodes edgesets children_mem n j off = Ok keys ->
  length keys = n
  /\ forall i e, keys !! i = Some e ->
       et_left edgesets !! (j + i)%nat = Some (es_left e)
       /\ et_right edgesets !! (j + i)%nat = Some (es_right e)
       /\ et_parent edgesets !! (j + i)%nat = Some (es_parent e)
       /\ et_children_length edgesets !! (j + i)%nat
          = Some (es_children_length e)
       /\ es_children e
          = slice children_mem
              (off + sum_list (take i (drop j (et_children_length edgesets))))
              (es_children_length e)
       /\ 0 <= es_parent e
       /\ nt_time nodes !! Z.to_nat (es_parent e) = Some (es_time e).
Proof.
  induction n as [|n IH]; intros j off keys; simpl.
  - intros [= <-]. split; [done|]. intros i e Hi. done.
  - intros H. apply bind_Ok in H as (left & Hleft & H).
    apply bind_Ok in H as (right & Hright & H).
    apply bind_Ok in H as (parent & Hparent & H).
    apply bind_Ok in H as (len & Hlen & H).
    destruct (cast_node_id (nt_num_rows nodes) <=? parent); [done|].
    apply bind_Ok in H as (time & Htime & H).
    apply bind_Ok in H as (rest & Hrest & H). injection H as <-.
    apply read_Ok in Hleft, Hright, Hparent, Hlen.
    apply readz_Ok in Htime as [Hpos Htime].
    destruct (IH _ _ _ Hrest) as [Hlength Hkeys].
    split; [simpl; by rewrite Hlength|].
    intros [|i] e Hi; simpl in Hi.
    + injection Hi as <-. simpl. rewrite !Nat.add_0_r. done.
    + destruct (Hkeys i e Hi) as (H1 & H2 & H3 & H4 & H5 & H6 & H7).
      rewrite <- !Nat.add_succ_comm. split_and!; try done.
      rewrite H5. f_equal.
      rewrite (drop_S _ _ _ Hlen). simpl. lia.
Qed.

(** The keys that the first loop loads are the rows of the table. *)
Lemma sort_edgesets_load_rows (nodes : node_table_t) (edgesets : edgeset_table_t)
    (keys : list edgeset_sort_t) :
  edgeset_table_wf edgesets ->
  sort_edgesets_load nodes edgesets
    (take (et_total_children_length edgesets) (et_children edgesets))
    (et_num_rows edgesets) 0 0 = Ok keys ->
  key_row <$> keys = edgeset_table_rows edgesets
  /\ es_children_length <$> keys
     = take (et_num_rows edgesets) (et_children_length edgesets)
  /\ Forall (fun e =>
       length (es_children e) = es_children_length e
       /\ 0 <= es_parent e
       /\ es_time e = node_time_of nodes (es_parent e)) keys.
Proof.
  intros [Hrows Hl Hr Hp Hcl Hc Htotal Hmax] Hload.
  apply sort_edgesets_load_spec in Hload as [Hlength Hkeys].
  assert (Hkey : forall i e, keys !! i = Some e ->
    key_row e = edgeset_row_at edgesets i
    /\ es_children_length e = et_children_length edgesets !!! i
    /\ length (es_children e) = es_children_length e
    /\ 0 <= es_parent e
    /\ es_time e = node_time_of nodes (es_parent e)).
  { intros i e Hi. destruct (Hkeys i e Hi) as (H1 & H2 & H3 & H4 & H5 & H6 & H7).
    simpl in *. rewrite drop_0 in H5.
    assert (Hi_lt : (i < et_num_rows edgesets)%nat).
    { rewrite <- Hlength. by eapply lookup_lt_Some. }
    assert (Hfit : (sum_list (take i (et_children_length edgesets))
                    + es_children_length e
                    <= et_total_children_length edgesets)%nat).
    { rewrite Htotal.
      rewrite <- (list_lookup_total_correct _ _ _ H4).
      apply sum_list_take_lt_end; lia. }
    rewrite slice_take in H5 by done.
    split_and!; try done.
    - unfold key_row, edgeset_row_at, payload_row.
      rewrite (list_lookup_total_correct _ _ _ H1),
        (list_lookup_total_correct _ _ _ H2),
        (list_lookup_total_correct _ _ _ H3),
        (list_lookup_total_correct _ _ _ H4). by rewrite H5.
    - by rewrite (list_lookup_total_correct _ _ _ H4).
    - rewrite H5. apply slice_length. lia.
    - unfold node_time_of. by rewrite (list_lookup_total_correct _ _ _ H7). }
  split_and!.
  - apply list_eq. intros i. unfold edgeset_table_rows.
    rewrite !list_lookup_fmap.
    destruct (keys !! i) as [e|] eqn:Hi; simpl.
    + destruct (Hkey i e Hi) as (-> & _).
      rewrite lookup_seq_lt; [done|].
      rewrite <- Hlength. by eapply lookup_lt_Some.
    + apply lookup_ge_None in Hi. rewrite lookup_seq_ge; [done|lia].
  - apply list_eq. intros i. rewrite list_lookup_fmap, lookup_take.
    destruct (keys !! i) as [e|] eqn:Hi; simpl.
    + destruct (Hkeys i e Hi) as (_ & _ & _ & H4 & _). simpl in H4.
      case_decide as Hlt; [done|].
      apply lookup_lt_Some in Hi. lia.
    + apply lookup_ge_None in Hi. case_decide; [lia|done].
  - apply Forall_forall. intros e He.
    apply list_elem_of_lookup in He as [i Hi].
    by destruct (Hkey i e Hi) as (_ & _ & ? & ? & ?).
Qed.

Lemma sum_list_take_insert (len : list nat) (j x : nat) :
  (j < length len)%nat ->
  sum_list (take (S j) (<[j := x]> len)) = (sum_list (take j len) + x)%nat.
Proof.
  intros Hj. rewrite sum_list_take_S by (by rewrite length_insert).
  rewrite take_insert_ge by lia.
  by rewrite list_lookup_total_insert_eq.
Qed.

Section SorterProofs.

Variable qsort : forall A : Type, (A -> A -> Z) -> list A -> list A.
Hypothesis qsort_ok : qsort_contract qsort.

Lemma sort_edgesets_store_spec (sorted : list edgeset_sort_t) :
  forall (t t' : edgeset_table_t) (j off : nat),
  sort_edgesets_store qsort sorted t j off = Ok t' ->
  (j + length sorted <= length (et_left t))%nat ->
  (j + length sorted <= length (et_right t))%nat ->
  (j + length sorted <= length (et_parent t))%nat ->
  (j + length sorted <= length (et_children_length t))%nat ->
  off = sum_list (take j (et_children_length t)) ->
  (off + sum_list (es_children_length <$> sorted)
   <= length (et_children t))%nat ->
  et_num_rows t' = et_num_rows t
  /\ (forall i, (i < j)%nat -> edgeset_row_at t' i = edgeset_row_at t i)
  /\ (forall i e, sorted !! i = Some e ->
        edgeset_row_at t' (j + i) = sorted_row qsort e).
Proof.
  induction sorted as [|e sorted IH]; intros t t' j off; simpl.
  - intros [= <-] _ _ _ _ _ _. split_and!; [done|done|]. intros i e Hi. done.
  - intros H Hl Hr Hp Hcl Hoff Hfit.
    apply bind_Ok in H as ([] & Hassert & H).
    apply assert_Ok, Nat.eqb_eq in Hassert. simpl in Hfit.
    apply IH in H;
      [|simpl; rewrite ?length_insert, ?length_memcpy,
          ?sum_list_take_insert by lia;
        try lia; rewrite <- Nat.add_assoc; exact Hfit ..].
    destruct H as (Hnum & Hbefore & Hrows). simpl in Hnum.
    assert (Hqlen : length (qsort node_id_t cmp_node_id (es_children e))
                    = es_children_length e).
    { by rewrite (qsort_length qsort _ _ qsort_ok). }
    split_and!; [done| |].
    + intros i Hi. rewrite Hbefore by lia.
      unfold edgeset_row_at. simpl.
      rewrite !list_lookup_total_insert_ne by lia.
      rewrite Hoff, payload_row_write_before by lia. done.
    + intros [|i] e' Hi; simpl in Hi.
      * injection Hi as <-. rewrite Nat.add_0_r, Hbefore by lia.
        unfold edgeset_row_at, sorted_row. simpl.
        rewrite !list_lookup_total_insert_eq by lia.
        rewrite Hoff, payload_row_write_eq by lia.
        rewrite take_ge by lia. done.
      * rewrite <- Nat.add_succ_comm. by apply Hrows.
Qed.

Lemma table_sorter_sort_edgesets_Ok (self self' : table_sorter_t) :
  edgeset_table_wf (ts_edgesets self) ->
  table_sorter_sort_edgesets qsort self = (self', Ok tt) ->
  ts_nodes self' = ts_nodes self
  /\ ts_sites self' = ts_sites self
  /\ ts_mutations self' = ts_mutations self
  /\ exists keys,
       key_row <$> keys = edgeset_table_rows (ts_edgesets self)
       /\ Forall (fun e =>
            length (es_children e) = es_children_length e
            /\ 0 <= es_parent e
            /\ es_time e = node_time_of (ts_nodes self) (es_parent e)) keys
       /\ edgeset_table_rows (ts_edgesets self')
          = sorted_row qsort <$> qsort _ cmp_edgeset keys.
Proof.
  intros Hwf. unfold table_sorter_sort_edgesets.
  destruct (sort_edgesets_load _ _ _ _ _ _) as [keys| | |] eqn:Hload;
    try (intros [= _ ?]; discriminate).
  destruct (sort_edgesets_store _ _ _ _ _) as [edgesets'| | |] eqn:Hstore;
    try (intros [= _ ?]; discriminate).
  intros [= <-]. simpl.
  destruct (sort_edgesets_load_rows _ _ _ Hwf Hload) as (Hrows & Hlens & Hkeys).
  split_and!; try done. exists keys. split_and!; try done.
  destruct qsort_ok as [Hperm _].
  assert (Hlength : length (qsort _ cmp_edgeset keys)
                    = et_num_rows (ts_edgesets self)).
  { rewrite Hperm. apply (f_equal length) in Hrows.
    rewrite length_fmap in Hrows. rewrite Hrows.
    unfold edgeset_table_rows. by rewrite length_fmap, length_seq. }
  destruct Hwf as [Hr Hl Hri Hp Hcl Hc Htotal Hmax].
  apply sort_edgesets_store_spec in Hstore; simpl; try lia.
  2:{ rewrite (Hperm _ cmp_edgeset keys), Hlens, <- Htotal. lia. }
  destruct Hstore as (Hnum & _ & Hsorted).
  apply list_eq. intros i. unfold edgeset_table_rows.
  rewrite !list_lookup_fmap, Hnum.
  destruct (qsort _ cmp_edgeset keys !! i) as [e|] eqn:Hi; simpl.
  - rewrite lookup_seq_lt by (rewrite <- Hlength; by eapply lookup_lt_Some).
    simpl. f_equal. by apply (Hsorted i e).
  - apply lookup_ge_None in Hi. rewrite lookup_seq_ge; [done|lia].
Qed.

Lemma table_sorter_run_edgesets (self self' : table_sorter_t) :
  table_sorter_run qsort self = (self', Ok tt) ->
  exists self1,
    table_sorter_sort_edgesets qsort self = (self1, Ok tt)
    /\ ts_edgesets self' = ts_edgesets self1
    /\ ts_nodes self' = ts_nodes self1.
Proof.
  unfold table_sorter_run.
  destruct (table_sorter_sort_edgesets qsort self) as [self1 r].
  destruct r as [[]| | |]; try (intros [= _ ?]; discriminate).
  destruct (ts_sites self1) as [sites|], (ts_mutations self1) as [mutations|];
    try (intros [= <-]; by exists self1);
    try (intros [= _ ?]; discriminate).
  destruct (table_sorter_sort_sites qsort sites) as [[sites' map]| | |];
    try (intros [= _ ?]; discriminate).
  destruct (table_sorter_sort_mutations _ _ _ _ _) as [mutations'| | |];
    try (intros [= _ ?]; discriminate).
  intros [= <-]. by exists self1.
Qed.

Lemma StronglySorted_mono {A} (R1 R2 : relation A) (l : list A) :
  (forall x y, R1 x y -> R2 x y) ->
  StronglySorted R1 l -> StronglySorted R2 l.
Proof.
  intros HR. induction 1 as [|x l Hsorted IH Hx]; constructor; [done|].
  eapply Forall_impl; [exact Hx|]. auto.
Qed.

(** What sort_tables leaves in the edgeset table. *)
Lemma sort_tables_edgesets (nodes : node_table_t) (edgesets : edgeset_table_t)
    (sites : option site_table_t) (mutations : option mutation_table_t)
    (out : option edgeset_table_t * option site_table_t
           * option mutation_table_t) :
  edgeset_table_wf edgesets ->
  sort_tables qsort (Some nodes) (Some edgesets) sites mutations
  = (out, Ok tt) ->
  exists edgesets',
    out.1.1 = Some edgesets'
    /\ edgesets_sorted (node_time_of nodes) (edgeset_table_rows edgesets')
    /\ Forall children_sorted (edgeset_table_rows edgesets')
    /\ same_edgesets (edgeset_table_rows edgesets')
         (edgeset_table_rows edgesets).
Proof.
  intros Hwf. unfold sort_tables, table_sorter_alloc.
  assert (Hrun : forall sorter,
    sorter = mk_table_sorter nodes edgesets sites mutations ->
    (let '(sorter', ret) := table_sorter_run qsort sorter in
     (Some (ts_edgesets sorter'), ts_sites sorter', ts_mutations sorter', ret))
    = (out, Ok tt) ->
    exists edgesets',
      out.1.1 = Some edgesets'
      /\ edgesets_sorted (node_time_of nodes) (edgeset_table_rows edgesets')
      /\ Forall children_sorted (edgeset_table_rows edgesets')
      /\ same_edgesets (edgeset_table_rows edgesets')
           (edgeset_table_rows edgesets)).
  { intros sorter Hsorter.
    destruct (table_sorter_run qsort sorter) as [sorter' ret] eqn:Hrun.
    intros [= <- ->]. simpl. exists (ts_edgesets sorter').
    split; [done|].
    apply table_sorter_run_edgesets in Hrun as (self1 & Hsort & -> & _).
    apply table_sorter_sort_edgesets_Ok in Hsort; [|by rewrite Hsorter].
    destruct Hsort as (_ & _ & _ & keys & Hrows & Hkeys & ->).
    rewrite Hsorter in Hrows, Hkeys. simpl in Hrows, Hkeys.
    destruct qsort_ok as [Hperm Hsorted].
    split_and!.
    - apply (StronglySorted_fmap_on
        (fun e => es_time e = node_time_of nodes (es_parent e)) _
        (fun a b => cmp_edgeset a b <= 0)).
      + intros x y Hx Hy Hxy. apply cmp_edgeset_le in Hxy.
        unfold edgeset_le, sorted_row. simpl. rewrite <- Hx, <- Hy. done.
      + rewrite Hperm. eapply Forall_impl; [exact Hkeys|].
        by intros e (_ & _ & ?).
      + apply Hsorted, cmp_edgeset_consistent.
    - apply Forall_fmap, Forall_forall. intros e _.
      unfold children_sorted, sorted_row. simpl.
      eapply StronglySorted_mono; [|apply Hsorted, cmp_node_id_consistent].
      intros x y. apply cmp3_le.
    - exists (key_row <$> qsort _ cmp_edgeset keys). split.
      + by rewrite Hperm, Hrows.
      + apply Forall2_fmap, Forall_Forall2_diag, Forall_forall.
        intros e _. unfold edgeset_equiv, sorted_row, key_row. simpl.
        split_and!; try done; apply Hperm. }
  destruct sites as [sites0|], mutations as [mutations0|];
    try (by apply Hrun); done.
Qed.

(** *** Sorting what is sorted *)

Lemma StronglySorted_elem_cases {A} (R : relation A) (l : list A) (x y : A) :
  StronglySorted R l -> x ∈ l -> y ∈ l -> x = y \/ R x y \/ R y x.
Proof.
  induction 1 as [|a l Hsorted IH Ha]; intros Hx Hy.
  - by apply elem_of_nil in Hx.
  - rewrite Forall_forall in Ha.
    apply elem_of_cons in Hx as [->|Hx], Hy as [->|Hy]; auto.
Qed.

Lemma StronglySorted_fmap_inv {A B} (P : A -> Prop) (f : A -> B)
    (R1 : relation A) (R2 : relation B) (l : list A) :
  (forall x y, P x -> P y -> R2 (f x) (f y) -> R1 x y) ->
  Forall P l -> StronglySorted R2 (f <$> l) -> StronglySorted R1 l.
Proof.
  intros Hf. induction l as [|x l IH]; intros HP Hsorted; [constructor|].
  apply Forall_cons in HP as [HPx HP]. simpl in Hsorted.
  apply StronglySorted_inv in Hsorted as [Hsorted Hx].
  constructor; [by apply IH|].
  rewrite Forall_fmap in Hx. rewrite Forall_forall in HP, Hx |- *.
  intros y Hy. apply Hf; auto. by apply Hx.
Qed.

(** An array without ties that is in order is left as it is. *)
Lemma qsort_sorted_id {A} (cmp : A -> A -> Z) (l : list A) :
  cmp_consistent cmp ->
  (forall a b, cmp a b < 0 -> 0 < cmp b a) ->
  StronglySorted (fun a b => cmp a b < 0) l ->
  qsort A cmp l = l.
Proof.
  intros Hcmp Hanti Hstrict. destruct qsort_ok as [Hperm Hsorted].
  apply (StronglySorted_unique_strong (fun a b => cmp a b <= 0)).
  - intros x1 x2 H1 H2 H12 H21. rewrite Hperm in H1.
    destruct (StronglySorted_elem_cases _ _ _ _ Hstrict H1 H2)
      as [?|[Hlt|Hlt]]; [done| |]; apply Hanti in Hlt; lia.
  - by apply Hsorted.
  - eapply StronglySorted_mono; [|exact Hstrict]. intros; simpl in *; lia.
  - apply Hperm.
Qed.

Lemma qsort_children_id (children : list node_id_t) :
  StronglySorted Z.le children -> qsort _ cmp_node_id children = children.
Proof.
  intros Hchildren. destruct qsort_ok as [Hperm Hsorted].
  apply (StronglySorted_unique_strong Z.le).
  - intros; lia.
  - eapply StronglySorted_mono; [|apply Hsorted, cmp_node_id_consistent].
    intros x y. apply cmp3_le.
  - done.
  - apply Hperm.
Qed.

Lemma memcpy_id {A} (dst src : list A) (off n : nat) :
  take n src = slice dst off n -> memcpy dst off src n = dst.
Proof.
  intros Heq. unfold memcpy. rewrite Heq. apply list_eq. intros j.
  destruct (decide (j < off)%nat).
  { by rewrite list_lookup_inserts_lt. }
  destruct (decide (off + length (slice dst off n) <= j)%nat).
  { by rewrite list_lookup_inserts_ge. }
  destruct (decide (j < length dst)%nat).
  - rewrite list_lookup_inserts by lia.
    assert (length (slice dst off n) <= n)%nat.
    { unfold slice. rewrite length_take. lia. }
    rewrite lookup_slice by lia. f_equal. lia.
  - rewrite !lookup_ge_None_2; [done|lia|rewrite length_inserts; lia].
Qed.

Lemma sort_edgesets_store_id (sorted : list edgeset_sort_t) :
  forall (t t' : edgeset_table_t) (j off : nat),
  sort_edgesets_store qsort sorted t j off = Ok t' ->
  (forall i e, sorted !! i = Some e ->
     et_left t !! (j + i)%nat = Some (es_left e)
     /\ et_right t !! (j + i)%nat = Some (es_right e)
     /\ et_parent t !! (j + i)%nat = Some (es_parent e)
     /\ et_children_length t !! (j + i)%nat = Some (es_children_length e)
     /\ StronglySorted Z.le (es_children e)
     /\ es_children e
        = slice (et_children t)
            (off + sum_list (take i (es_children_length <$> sorted)))
            (es_children_length e)) ->
  t' = t.
Proof.
  induction sorted as [|e sorted IH]; intros t t' j off; simpl.
  - by intros [= <-] _.
  - intros H Hrows. apply bind_Ok in H as ([] & Hassert & H).
    apply assert_Ok, Nat.eqb_eq in Hassert.
    destruct (Hrows 0%nat e eq_refl) as (Hl & Hr & Hp & Hcl & Hsorted & Hch).
    rewrite Nat.add_0_r in *. simpl in Hch.
    rewrite qsort_children_id in H by done.
    rewrite !list_insert_id in H by done.
    rewrite memcpy_id in H by (rewrite take_ge by lia; by rewrite Hch at 1).
    assert (Ht : mk_edgeset_table (et_max_rows_increment t)
      (et_max_total_children_length_increment t) (et_max_rows t)
      (et_num_rows t) (et_max_total_children_length t)
      (et_total_children_length t) (et_left t) (et_right t) (et_parent t)
      (et_children t) (et_children_length t) = t) by (by destruct t).
    rewrite Ht in H. apply IH in H; [done|].
    intros i e' Hi. specialize (Hrows (S i) e' Hi).
    rewrite <- Nat.add_succ_comm in Hrows. simpl in Hrows.
    by rewrite <- Nat.add_assoc.
Qed.

Lemma sort_edgesets_load_keys (nodes : node_table_t) (edgesets : edgeset_table_t)
    (keys : list edgeset_sort_t) :
  edgeset_table_wf edgesets ->
  sort_edgesets_load nodes edgesets
    (take (et_total_children_length edgesets) (et_children edgesets))
    (et_num_rows edgesets) 0 0 = Ok keys ->
  forall i e, keys !! i = Some e ->
    et_left edgesets !! i = Some (es_left e)
    /\ et_right edgesets !! i = Some (es_right e)
    /\ et_parent edgesets !! i = Some (es_parent e)
    /\ et_children_length edgesets !! i = Some (es_children_length e)
    /\ es_children e
       = slice (et_children edgesets)
           (sum_list (take i (es_children_length <$> keys)))
           (es_children_length e).
Proof.
  intros Hwf Hload i e Hi.
  destruct (sort_edgesets_load_rows _ _ _ Hwf Hload) as (_ & Hlens & _).
  pose proof Hload as Hspec.
  apply sort_edgesets_load_spec in Hspec as [Hlength Hkeys].
  destruct (Hkeys i e Hi) as (H1 & H2 & H3 & H4 & H5 & _). simpl in *.
  split_and!; try done.
  rewrite drop_0 in H5. rewrite H5, Hlens.
  assert (Hi_lt : (i < et_num_rows edgesets)%nat).
  { rewrite <- Hlength. by eapply lookup_lt_Some. }
  rewrite take_take, Nat.min_l by lia.
  apply slice_take. destruct Hwf as [Hr _ _ _ Hcl _ Htotal _].
  rewrite Htotal, <- (list_lookup_total_correct _ _ _ H4).
  apply sum_list_take_lt_end; lia.
Qed.

Lemma cmp_edgeset_lt (a b : edgeset_sort_t) :
  cmp_edgeset a b < 0 <->
  es_time a < es_time b
  \/ (es_time a = es_time b
      /\ (es_parent a < es_parent b
          \/ (es_parent a = es_parent b /\ es_left a < es_left b))).
Proof.
  unfold cmp_edgeset.
  destruct (cmp3_cases (es_time a) (es_time b)) as [[? ->]|[[? ->]|[? ->]]],
    (cmp3_cases (es_parent a) (es_parent b)) as [[? ->]|[[? ->]|[? ->]]],
    (cmp3_cases (es_left a) (es_left b)) as [[? ->]|[[? ->]|[? ->]]];
    simpl; lia.
Qed.

Lemma cmp_edgeset_anti (a b : edgeset_sort_t) :
  cmp_edgeset a b < 0 -> 0 < cmp_edgeset b a.
Proof.
  unfold cmp_edgeset.
  destruct (cmp3_cases (es_time a) (es_time b)) as [[? ->]|[[? ->]|[? ->]]],
    (cmp3_cases (es_time b) (es_time a)) as [[? ->]|[[? ->]|[? ->]]],
    (cmp3_cases (es_parent a) (es_parent b)) as [[? ->]|[[? ->]|[? ->]]],
    (cmp3_cases (es_parent b) (es_parent a)) as [[? ->]|[[? ->]|[? ->]]],
    (cmp3_cases (es_left a) (es_left b)) as [[? ->]|[[? ->]|[? ->]]],
    (cmp3_cases (es_left b) (es_left a)) as [[? ->]|[[? ->]|[? ->]]];
    simpl; lia.
Qed.

(** Strictly sorted edgesets with sorted children are left as they are. *)
Lemma table_sorter_sort_edgesets_id (self self' : table_sorter_t)
    (r : outcome unit) :
  edgeset_table_wf (ts_edgesets self) ->
  StronglySorted (edgeset_lt (node_time_of (ts_nodes self)))
    (edgeset_table_rows (ts_edgesets self)) ->
  Forall children_sorted (edgeset_table_rows (ts_edgesets self)) ->
  table_sorter_sort_edgesets qsort self = (self', r) ->
  self' = self.
Proof.
  intros Hwf Hstrict Hchildren. unfold table_sorter_sort_edgesets.
  destruct (sort_edgesets_load _ _ _ _ _ _) as [keys| | |] eqn:Hload;
    try (by intros [= <- _]).
  destruct (sort_edgesets_load_rows _ _ _ Hwf Hload) as (Hrows & _ & Hkeys).
  pose proof (sort_edgesets_load_keys _ _ _ Hwf Hload) as Hcols.
  assert (Hid : qsort _ cmp_edgeset keys = keys).
  { apply qsort_sorted_id;
      [apply cmp_edgeset_consistent|apply cmp_edgeset_anti|].
    rewrite <- Hrows in Hstrict.
    eapply (StronglySorted_fmap_inv
      (fun e => es_time e = node_time_of (ts_nodes self) (es_parent e)));
      [| |exact Hstrict].
    - intros x y Hx Hy Hxy. apply cmp_edgeset_lt.
      unfold edgeset_lt, key_row in Hxy. simpl in Hxy.
      rewrite <- Hx, <- Hy in Hxy. done.
    - eapply Forall_impl; [exact Hkeys|]. by intros e (_ & _ & ?). }
  rewrite Hid.
  destruct (sort_edgesets_store _ _ _ _ _) as [edgesets'| | |] eqn:Hstore;
    try (by intros [= <- _]).
  intros [= <- _]. apply sort_edgesets_store_id in Hstore.
  - rewrite Hstore. by destruct self.
  - intros i e Hi. destruct (Hcols i e Hi) as (H1 & H2 & H3 & H4 & H5).
    simpl. split_and!; try done.
    rewrite <- Hrows in Hchildren. rewrite Forall_fmap in Hchildren.
    rewrite Forall_forall in Hchildren.
    apply (Hchildren e). by eapply list_elem_of_lookup_2.
Qed.

(** ** table_sorter_sort_sites *)

Lemma slice_take_full {A} (mem : list A) (m off n : nat) :
  length (slice (take m mem) off n) = n ->
  slice (take m mem) off n = slice mem off n.
Proof.
  intros Hlen. destruct n as [|n]; [done|].
  apply slice_take. unfold slice in Hlen.
  rewrite length_take, length_drop, length_take in Hlen. lia.
Qed.

Lemma sort_sites_load_spec (sites : site_table_t) (mem : list byte) (n : nat) :
  forall (j off : nat) (keys : list site_t),
  sort_sites_load sites mem n j off = Ok keys ->
  length keys = n
  /\ forall i s, keys !! i = Some s ->
       site_id s = Z.of_nat (j + i)
       /\ st_position sites !! (j + i)%nat = Some (site_position s)
       /\ st_ancestral_state_length sites !! (j + i)%nat
          = Some (site_ancestral_state_length s)
       /\ site_ancestral_state s
          = slice mem
              (off + sum_list (take i (site_ancestral_state_length <$> keys)))
              (site_ancestral_state_length s).
Proof.
  induction n as [|n IH]; intros j off keys; simpl.
  - intros [= <-]. split; [done|]. intros i e Hi. done.
  - intros H. apply bind_Ok in H as (position & Hposition & H).
    apply bind_Ok in H as (len & Hlen & H).
    apply bind_Ok in H as (rest & Hrest & H). injection H as <-.
    apply read_Ok in Hposition, Hlen.
    destruct (IH _ _ _ Hrest) as [Hlength Hkeys].
    split; [simpl; by rewrite Hlength|].
    intros [|i] s Hi; simpl in Hi.
    + injection Hi as <-. simpl. rewrite !Nat.add_0_r. done.
    + destruct (Hkeys i s Hi) as (H1 & H2 & H3 & H4).
      rewrite <- !Nat.add_succ_comm. split_and!; try done.
      rewrite H4. simpl. f_equal. rewrite Nat.add_assoc. reflexivity.
Qed.

Lemma sort_sites_store_id (m : nat) (sorted : list site_t) :
  forall (t t' : site_table_t) (map map' : list site_id_t) (j off : nat),
  sort_sites_store sorted t map j off = Ok (t', map') ->
  (forall i s, sorted !! i = Some s ->
     site_id s = Z.of_nat (j + i)
     /\ st_position t !! (j + i)%nat = Some (site_position s)
     /\ st_ancestral_state_length t !! (j + i)%nat
        = Some (site_ancestral_state_length s)
     /\ site_ancestral_state s
        = slice (take m (st_ancestral_state t))
            (off + sum_list (take i (site_ancestral_state_length <$> sorted)))
            (site_ancestral_state_length s)) ->
  t' = t
  /\ length map' = length map
  /\ (forall k, (k < j)%nat -> map' !! k = map !! k)
  /\ (forall k, (j <= k < j + length sorted)%nat -> (k < length map)%nat ->
        map' !! k = Some (Z.of_nat k)).
Proof.
  induction sorted as [|s sorted IH]; intros t t' map map' j off; simpl.
  - intros [= <- <-] _. split_and!; try done. intros; lia.
  - intros H Hrows. apply bind_Ok in H as ([] & Hassert & H).
    apply assert_Ok, Nat.eqb_eq in Hassert.
    destruct (Hrows 0%nat s eq_refl) as (Hid & Hp & Hl & Hst).
    rewrite Nat.add_0_r in *. simpl in Hst.
    rewrite Hst in Hassert. apply slice_take_full in Hassert as Hfull.
    rewrite Hfull in Hst.
    rewrite !list_insert_id in H by done.
    rewrite memcpy_id in H.
    2:{ rewrite take_ge; [by rewrite Hst at 1|].
        rewrite Hst, <- Hfull, Hassert. done. }
    assert (Ht : mk_site_table (st_max_rows_increment t)
      (st_max_total_ancestral_state_length_increment t) (st_max_rows t)
      (st_num_rows t) (st_max_total_ancestral_state_length t)
      (st_total_ancestral_state_length t) (st_position t)
      (st_ancestral_state t) (st_ancestral_state_length t) = t)
      by (by destruct t).
    rewrite Ht, Hid, Nat2Z.id in H. apply IH in H.
    + destruct H as (-> & Hlen & Hbefore & Hin).
      rewrite length_insert in Hlen.
      split_and!; [done|done| |].
      * intros k Hk. rewrite Hbefore by lia.
        by rewrite list_lookup_insert_ne by lia.
      * intros k Hk Hklen. destruct (decide (k = j)) as [->|Hne].
        -- rewrite Hbefore by lia. by rewrite list_lookup_insert_eq.
        -- apply Hin; [lia|]. by rewrite length_insert.
    + intros i s' Hi. specialize (Hrows (S i) s' Hi).
      rewrite <- Nat.add_succ_comm in Hrows. simpl in Hrows.
      by rewrite <- Nat.add_assoc.
Qed.

Lemma cmp_site_anti (a b : site_t) : cmp_site a b < 0 -> 0 < cmp_site b a.
Proof.
  unfold cmp_site.
  destruct (cmp3_cases (site_position a) (site_position b))
    as [[? ->]|[[? ->]|[? ->]]],
    (cmp3_cases (site_position b) (site_position a))
    as [[? ->]|[[? ->]|[? ->]]]; lia.
Qed.

Lemma cmp3_lt (a b : Z) : cmp3 a b < 0 <-> a < b.
Proof. destruct (cmp3_cases a b) as [[? ->]|[[? ->]|[? ->]]]; lia. Qed.

(** Sites at strictly increasing positions are left as they are, and the
    site ids map to themselves. *)
Lemma table_sorter_sort_sites_id (sites sites' : site_table_t)
    (site_id_map : list site_id_t) :
  StronglySorted Z.lt (take (st_num_rows sites) (st_position sites)) ->
  table_sorter_sort_sites qsort sites = Ok (sites', site_id_map) ->
  sites' = sites
  /\ length site_id_map = st_num_rows sites
  /\ forall k, (k < st_num_rows sites)%nat ->
       site_id_map !! k = Some (Z.of_nat k).
Proof.
  intros Hstrict. unfold table_sorter_sort_sites. intros H.
  apply bind_Ok in H as (keys & Hload & H).
  apply sort_sites_load_spec in Hload as [Hlength Hkeys].
  assert (Hpos : site_position <$> keys
                 = take (st_num_rows sites) (st_position sites)).
  { apply list_eq. intros i. rewrite list_lookup_fmap, lookup_take.
    destruct (keys !! i) as [s|] eqn:Hi; simpl.
    - destruct (Hkeys i s Hi) as (_ & H2 & _). simpl in H2.
      case_decide; [done|]. apply lookup_lt_Some in Hi. lia.
    - apply lookup_ge_None in Hi. case_decide; [lia|done]. }
  assert (Hid : qsort _ cmp_site keys = keys).
  { apply qsort_sorted_id; [apply cmp_site_consistent|apply cmp_site_anti|].
    rewrite <- Hpos in Hstrict.
    eapply (StronglySorted_fmap_inv (fun _ => True)); [| |exact Hstrict].
    - intros x y _ _ Hxy. by apply cmp3_lt.
    - by apply Forall_forall. }
  rewrite Hid in H.
  apply (sort_sites_store_id (st_total_ancestral_state_length sites) keys) in H.
  - destruct H as (-> & Hlen & _ & Hin).
    rewrite length_replicate in Hlen.
    split_and!; [done|done|].
    intros k Hk. apply Hin; [lia|]. rewrite length_replicate. lia.
  - intros i s Hi. destruct (Hkeys i s Hi) as (H1 & H2 & H3 & H4). done.
Qed.

(** ** table_sorter_sort_mutations *)

Lemma sort_mutations_load_spec (nodes : node_table_t) (sites : site_table_t)
    (site_id_map : list site_id_t) (mutations : mutation_table_t)
    (mem : list byte) (n : nat) :
  forall (j off : nat) (keys : list mutation_t),
  sort_mutations_load nodes sites site_id_map mutations mem n j off = Ok keys ->
  length keys = n
  /\ forall i m, keys !! i = Some m ->
       (exists site,
          mt_site mutations !! (j + i)%nat = Some site
          /\ 0 <= site < cast_site_id (st_num_rows sites)
          /\ site_id_map !! Z.to_nat site = Some (mutation_site m))
       /\ mt_node mutations !! (j + i)%nat = Some (mutation_node m)
       /\ mt_derived_state_length mutations !! (j + i)%nat
          = Some (mutation_derived_state_length m)
       /\ mutation_derived_state m
          = slice mem
              (off + sum_list (take i (mutation_derived_state_length <$> keys)))
              (mutation_derived_state_length m).
Proof.
  induction n as [|n IH]; intros j off keys; simpl.
  - intros [= <-]. split; [done|]. intros i e Hi. done.
  - intros H. apply bind_Ok in H as (site & Hsite & H).
    destruct (Z.leb_spec (cast_site_id (st_num_rows sites)) site); [done|].
    apply bind_Ok in H as (node & Hnode & H).
    destruct (cast_node_id (nt_num_rows nodes) <=? node); [done|].
    apply bind_Ok in H as (new_site & Hnew & H).
    apply bind_Ok in H as (len & Hlen & H).
    apply bind_Ok in H as (rest & Hrest & H). injection H as <-.
    apply read_Ok in Hsite, Hnode, Hlen.
    apply readz_Ok in Hnew as [Hpos Hnew].
    destruct (IH _ _ _ Hrest) as [Hlength Hkeys].
    split; [simpl; by rewrite Hlength|].
    intros [|i] m Hi; simpl in Hi.
    + injection Hi as <-. simpl. rewrite !Nat.add_0_r.
      split_and!; try done. exists site. split_and!; try done; lia.
    + destruct (Hkeys i m Hi) as (H1 & H2 & H3 & H4).
      rewrite <- !Nat.add_succ_comm. split_and!; try done.
      rewrite H4. simpl. f_equal. rewrite Nat.add_assoc. reflexivity.
Qed.

Lemma sort_mutations_store_id (m : nat) (sorted : list mutation_t) :
  forall (t t' : mutation_table_t) (j off : nat),
  sort_mutations_store sorted t j off = Ok t' ->
  (forall i s, sorted !! i = Some s ->
     mt_site t !! (j + i)%nat = Some (mutation_site s)
     /\ mt_node t !! (j + i)%nat = Some (mutation_node s)
     /\ mt_derived_state_length t !! (j + i)%nat
        = Some (mutation_derived_state_length s)
     /\ mutation_derived_state s
        = slice (take m (mt_derived_state t))
            (off + sum_list (take i (mutation_derived_state_length <$> sorted)))
            (mutation_derived_state_length s)) ->
  t' = t.
Proof.
  induction sorted as [|s sorted IH]; intros t t' j off; simpl.
  - by intros [= <-] _.
  - intros H Hrows. apply bind_Ok in H as ([] & Hassert & H).
    apply assert_Ok, Nat.eqb_eq in Hassert.
    destruct (Hrows 0%nat s eq_refl) as (Hs & Hn & Hl & Hst).
    rewrite Nat.add_0_r in *. simpl in Hst.
    rewrite Hst in Hassert. apply slice_take_full in Hassert as Hfull.
    rewrite Hfull in Hst.
    rewrite !list_insert_id in H by done.
    rewrite memcpy_id in H.
    2:{ rewrite take_ge; [by rewrite Hst at 1|].
        rewrite Hst, <- Hfull, Hassert. done. }
    assert (Ht : mk_mutation_table (mt_max_rows_increment t)
      (mt_max_total_derived_state_length_increment t) (mt_max_rows t)
      (mt_num_rows t) (mt_max_total_derived_state_length t)
      (mt_total_derived_state_length t) (mt_site t) (mt_node t)
      (mt_derived_state t) (mt_derived_state_length t) = t)
      by (by destruct t).
    rewrite Ht in H. apply IH in H; [done|].
    intros i s' Hi. specialize (Hrows (S i) s' Hi).
    rewrite <- Nat.add_succ_comm in Hrows. simpl in Hrows.
    by rewrite <- Nat.add_assoc.
Qed.

Lemma cmp_mutation_anti (a b : mutation_t) :
  cmp_mutation a b < 0 -> 0 < cmp_mutation b a.
Proof.
  unfold cmp_mutation.
  destruct (cmp3_cases (mutation_site a) (mutation_site b))
    as [[? ->]|[[? ->]|[? ->]]],
    (cmp3_cases (mutation_site b) (mutation_site a))
    as [[? ->]|[[? ->]|[? ->]]]; lia.
Qed.

Lemma cast_site_id_le (n : nat) : cast_site_id n <= Z.of_nat n.
Proof. apply cast_node_id_le. Qed.

(** Mutations at strictly increasing sites are left as they are when the
    site ids map to themselves. *)
Lemma table_sorter_sort_mutations_id (nodes : node_table_t)
    (sites : site_table_t) (site_id_map : list site_id_t)
    (mutations mutations' : mutation_table_t) :
  (forall k, (k < st_num_rows sites)%nat ->
     site_id_map !! k = Some (Z.of_nat k)) ->
  StronglySorted Z.lt (take (mt_num_rows mutations) (mt_site mutations)) ->
  table_sorter_sort_mutations qsort nodes sites site_id_map mutations
  = Ok mutations' ->
  mutations' = mutations.
Proof.
  intros Hmap Hstrict. unfold table_sorter_sort_mutations. intros H.
  apply bind_Ok in H as (keys & Hload & H).
  apply sort_mutations_load_spec in Hload as [Hlength Hkeys].
  assert (Hsame : forall i m, keys !! i = Some m ->
    mt_site mutations !! i = Some (mutation_site m)).
  { intros i m Hi. destruct (Hkeys i m Hi) as ((site & H1 & Hr & Hnew) & _).
    simpl in H1. pose proof (cast_site_id_le (st_num_rows sites)).
    rewrite Hmap in Hnew by lia. injection Hnew as <-.
    rewrite Z2Nat.id by lia. done. }
  assert (Hsites : mutation_site <$> keys
                   = take (mt_num_rows mutations) (mt_site mutations)).
  { apply list_eq. intros i. rewrite list_lookup_fmap, lookup_take.
    destruct (keys !! i) as [m|] eqn:Hi; simpl.
    - rewrite (Hsame i m Hi).
      case_decide; [done|]. apply lookup_lt_Some in Hi. lia.
    - apply lookup_ge_None in Hi. case_decide; [lia|done]. }
  assert (Hid : qsort _ cmp_mutation keys = keys).
  { apply qsort_sorted_id;
      [apply cmp_mutation_consistent|apply cmp_mutation_anti|].
    rewrite <- Hsites in Hstrict.
    eapply (StronglySorted_fmap_inv (fun _ => True)); [| |exact Hstrict].
    - intros x y _ _ Hxy. by apply cmp3_lt.
    - by apply Forall_forall. }
  rewrite Hid in H.
  apply (sort_mutations_store_id (mt_total_derived_state_length mutations) keys)
    in H; [done|].
  intros i m Hi. destruct (Hkeys i m Hi) as (_ & H2 & H3 & H4).
  split_and!; try done. by apply Hsame.
Qed.

(** ** sort_tables on sorted tables *)

Lemma sort_tables_strict_id (nodes : node_table_t) (edgesets : edgeset_table_t)
    (sites : option site_table_t) (mutations : option mutation_table_t)
    (out : option edgeset_table_t * option site_table_t
           * option mutation_table_t) (r : outcome unit) :
  edgeset_table_wf edgesets ->
  tables_strictly_sorted nodes edgesets sites mutations ->
  sort_tables qsort (Some nodes) (Some edgesets) sites mutations = (out, r) ->
  out = (Some edgesets, sites, mutations).
Proof.
  intros Hwf (Hedgesets & Hchildren & Hsites & Hmutations).
  unfold sort_tables, table_sorter_alloc.
  assert (Hrun :
    (let '(sorter', ret) :=
       table_sorter_run qsort
         (mk_table_sorter nodes edgesets sites mutations) in
     (Some (ts_edgesets sorter'), ts_sites sorter', ts_mutations sorter', ret))
    = (out, r) ->
    out = (Some edgesets, sites, mutations)).
  { unfold table_sorter_run.
    destruct (table_sorter_sort_edgesets qsort _) as [self1 r1] eqn:Hsort.
    apply table_sorter_sort_edgesets_id in Hsort; [|done..]. subst self1.
    destruct r1 as [[]| | |]; try (by intros [= <- _]). simpl.
    destruct sites as [sites0|]; [|by intros [= <- _]].
    destruct mutations as [mutations0|]; [|by intros [= <- _]].
    destruct (table_sorter_sort_sites qsort sites0) as [[sites' map]| | |]
      eqn:Hs; try (by intros [= <- _]).
    apply table_sorter_sort_sites_id in Hs as (-> & _ & Hmap);
      [|by apply Hsites].
    destruct (table_sorter_sort_mutations _ _ _ _ _) as [mutations'| | |]
      eqn:Hm; try (by intros [= <- _]).
    apply table_sorter_sort_mutations_id in Hm as ->;
      [|done|by apply Hmutations].
    by intros [= <- _]. }
  destruct sites as [sites0|], mutations as [mutations0|];
    try (by apply Hrun). by intros [= <- _].
Qed.

End SorterProofs.

(** ** Edgeset table *)

Lemma edgeset_table_rows_length (t : edgeset_table_t) :
  length (edgeset_table_rows t) = et_num_rows t.
Proof. unfold edgeset_table_rows. by rewrite length_fmap, length_seq. Qed.

Lemma edgeset_table_rows_lookup (t : edgeset_table_t) (j : nat) :
  (j < et_num_rows t)%nat ->
  edgeset_table_rows t !! j = Some (edgeset_row_at t j).
Proof.
  intros Hj. unfold edgeset_table_rows.
  rewrite list_lookup_fmap, lookup_seq_lt by done. done.
Qed.

Lemma expand_column_prefix {A} (fresh : A) (n : nat) (column : list A) :
  (length column <= n)%nat -> column `prefix_of` expand_column fresh n column.
Proof.
  intros Hn. unfold expand_column. rewrite resize_ge by done.
  by apply prefix_app_r.
Qed.

Lemma prefix_lookup_total `{Inhabited A} (l1 l2 : list A) (i : nat) :
  l1 `prefix_of` l2 -> (i < length l1)%nat -> l2 !!! i = l1 !!! i.
Proof. intros [k ->] Hi. by rewrite lookup_total_app_l. Qed.

Lemma prefix_lookup_Some_keep {A} (l1 l2 : list A) (i : nat) (x : A) :
  l1 `prefix_of` l2 -> l1 !! i = Some x -> l2 !! i = Some x.
Proof. intros [k ->] Hi. by apply lookup_app_l_Some. Qed.

Lemma prefix_payload_row {A} (payload payload' : list A) (len len' : list nat)
    (i : nat) :
  payload `prefix_of` payload' -> len `prefix_of` len' ->
  (i < length len)%nat ->
  (sum_list (take i len) + len !!! i <= length payload)%nat ->
  payload_row payload' len' i = payload_row payload len i.
Proof.
  intros [k ->] [k' ->] Hi Hfit. unfold payload_row.
  rewrite take_app_le by lia. rewrite lookup_total_app_l by done.
  apply slice_ext. intros j Hj. rewrite lookup_app_l by lia. done.
Qed.

(** The cells of the table [t] are still there in [t']. *)
Record edgeset_table_prefix (t t' : edgeset_table_t) : Prop :=
  mk_edgeset_table_prefix {
  etp_left : et_left t `prefix_of` et_left t';
  etp_right : et_right t `prefix_of` et_right t';
  etp_parent : et_parent t `prefix_of` et_parent t';
  etp_children : et_children t `prefix_of` et_children t';
  etp_children_length : et_children_length t `prefix_of` et_children_length t';
  etp_num_rows : et_num_rows t' = et_num_rows t;
  etp_total : et_total_children_length t' = et_total_children_length t;
  etp_increment : et_max_rows_increment t' = et_max_rows_increment t;
  etp_children_increment :
    et_max_total_children_length_increment t'
    = et_max_total_children_length_increment t
}.

Lemma edgeset_table_prefix_refl (t : edgeset_table_t) :
  edgeset_table_prefix t t.
Proof. by constructor. Qed.

Lemma edgeset_table_prefix_trans (t1 t2 t3 : edgeset_table_t) :
  edgeset_table_prefix t1 t2 -> edgeset_table_prefix t2 t3 ->
  edgeset_table_prefix t1 t3.
Proof.
  intros [] []. constructor; try congruence; by etrans.
Qed.

Lemma edgeset_table_prefix_row (t t' : edgeset_table_t) (i : nat) :
  edgeset_table_wf t -> edgeset_table_prefix t t' ->
  (i < et_num_rows t)%nat ->
  edgeset_row_at t' i = edgeset_row_at t i.
Proof.
  intros [Hr Hl Hri Hp Hcl Hc Htotal Hmax]
    [Pl Pr Pp Pc Pcl Pn Pt Pi Pci] Hi. unfold edgeset_row_at.
  rewrite (prefix_lookup_total (et_left t) (et_left t'))
    by (done || (rewrite Hl; lia)).
  rewrite (prefix_lookup_total (et_right t) (et_right t'))
    by (done || (rewrite Hri; lia)).
  rewrite (prefix_lookup_total (et_parent t) (et_parent t'))
    by (done || (rewrite Hp; lia)).
  f_equal. apply prefix_payload_row; try done; try lia.
  pose proof (sum_list_take_lt_end (et_children_length t) i (et_num_rows t)).
  lia.
Qed.

Lemma edgeset_table_prefix_rows (t t' : edgeset_table_t) :
  edgeset_table_wf t -> edgeset_table_prefix t t' ->
  edgeset_table_rows t' = edgeset_table_rows t.
Proof.
  intros Hwf Hprefix. unfold edgeset_table_rows.
  rewrite (etp_num_rows _ _ Hprefix).
  apply list_fmap_ext. intros i j Hj. apply lookup_seq in Hj as [-> Hj].
  by apply edgeset_table_prefix_row.
Qed.

Lemma edgeset_table_prefix_wf (t t' : edgeset_table_t) :
  edgeset_table_wf t -> edgeset_table_prefix t t' ->
  length (et_left t') = et_max_rows t' ->
  length (et_right t') = et_max_rows t' ->
  length (et_parent t') = et_max_rows t' ->
  length (et_children_length t') = et_max_rows t' ->
  length (et_children t') = et_max_total_children_length t' ->
  edgeset_table_wf t'.
Proof.
  intros [Hr Hl Hri Hp Hcl Hc Htotal Hmax]
    [Pl Pr Pp Pc Pcl Pn Pt Pi Pci] Hl' Hr' Hp' Hcl' Hc'.
  apply prefix_length in Pl, Pc.
  constructor; try done; try lia.
  rewrite Pt, Pn, Htotal.
  destruct Pcl as [k ->]. by rewrite take_app_le by lia.
Qed.

Lemma edgeset_table_expand_main_columns_prefix (t : edgeset_table_t)
    (new_size : nat) :
  edgeset_table_wf t ->
  edgeset_table_prefix t (edgeset_table_expand_main_columns t new_size)
  /\ edgeset_table_wf (edgeset_table_expand_main_columns t new_size)
  /\ et_max_rows (edgeset_table_expand_main_columns t new_size)
     = (et_max_rows t `max` new_size)%nat.
Proof.
  intros Hwf. pose proof Hwf as [Hr Hl Hri Hp Hcl Hc Htotal Hmax].
  unfold edgeset_table_expand_main_columns.
  destruct (Nat.ltb_spec (et_max_rows t) new_size).
  - assert (Hprefix : edgeset_table_prefix t
      (mk_edgeset_table (et_max_rows_increment t)
         (et_max_total_children_length_increment t) new_size (et_num_rows t)
         (et_max_total_children_length t) (et_total_children_length t)
         (expand_column 0 new_size (et_left t))
         (expand_column 0 new_size (et_right t))
         (expand_column 0 new_size (et_parent t)) (et_children t)
         (expand_column 0%nat new_size (et_children_length t)))).
    { constructor; simpl; try done; apply expand_column_prefix; lia. }
    split_and!; [done| |simpl; lia].
    apply (edgeset_table_prefix_wf t); try done; simpl;
      unfold expand_column; by rewrite length_resize.
  - split_and!; [apply edgeset_table_prefix_refl|done|lia].
Qed.

Lemma edgeset_table_grow_children_prefix (children_length fuel : nat) :
  forall t t' : edgeset_table_t,
  edgeset_table_wf t ->
  edgeset_table_grow_children fuel t children_length = Ok t' ->
  edgeset_table_prefix t t' /\ edgeset_table_wf t'
  /\ et_max_rows t' = et_max_rows t
  /\ (et_total_children_length t + children_length
      < et_max_total_children_length t')%nat.
Proof.
  induction fuel as [|fuel IH]; intros t t' Hwf; simpl.
  - destruct (Nat.leb_spec (et_max_total_children_length t)
                (et_total_children_length t + children_length)); [done|].
    intros [= <-]. split_and!; [apply edgeset_table_prefix_refl|done|done|lia].
  - destruct (Nat.leb_spec (et_max_total_children_length t)
                (et_total_children_length t + children_length)).
    2:{ intros [= <-].
        split_and!; [apply edgeset_table_prefix_refl|done|done|lia]. }
    intros Hgrow. pose proof Hwf as [Hr Hl Hri Hp Hcl Hc Htotal Hmax].
    set (t1 := edgeset_table_expand_children t
                 (et_max_total_children_length t
                  + et_max_total_children_length_increment t)) in *.
    assert (H1 : edgeset_table_prefix t t1 /\ edgeset_table_wf t1
                 /\ et_max_rows t1 = et_max_rows t).
    { subst t1. unfold edgeset_table_expand_children.
      destruct (Nat.ltb_spec (et_max_total_children_length t)
                  (et_max_total_children_length t
                   + et_max_total_children_length_increment t)).
      - assert (Hprefix : edgeset_table_prefix t
          (mk_edgeset_table (et_max_rows_increment t)
             (et_max_total_children_length_increment t) (et_max_rows t)
             (et_num_rows t)
             (et_max_total_children_length t
              + et_max_total_children_length_increment t)
             (et_total_children_length t) (et_left t) (et_right t)
             (et_parent t)
             (expand_column 0
                (et_max_total_children_length t
                 + et_max_total_children_length_increment t)
                (et_children t))
             (et_children_length t))).
        { constructor; simpl; try done. apply expand_column_prefix. lia. }
        split_and!; [done| |done].
        apply (edgeset_table_prefix_wf t); try done; simpl.
        unfold expand_column. by rewrite length_resize.
      - split_and!; [apply edgeset_table_prefix_refl|done|done]. }
    destruct H1 as (Hp1 & Hwf1 & Hmax1).
    destruct (IH _ _ Hwf1 Hgrow) as (Hp2 & Hwf2 & Hmax2 & Hfit).
    split_and!; [by eapply edgeset_table_prefix_trans|done|congruence|].
    rewrite (etp_total _ _ Hp1) in Hfit. done.
Qed.

(** With an increment that is not zero the loop of
    [edgeset_table_add_row] comes to its end. *)
Lemma edgeset_table_grow_children_total (children_length fuel : nat) :
  forall t : edgeset_table_t,
  (0 < et_max_total_children_length_increment t)%nat ->
  (et_total_children_length t + children_length
   < et_max_total_children_length t + fuel)%nat ->
  exists t', edgeset_table_grow_children fuel t children_length = Ok t'.
Proof.
  induction fuel as [|fuel IH]; intros t Hinc Hfuel; simpl.
  - destruct (Nat.leb_spec (et_max_total_children_length t)
                (et_total_children_length t + children_length)); [lia|].
    by eexists.
  - destruct (Nat.leb_spec (et_max_total_children_length t)
                (et_total_children_length t + children_length));
      [|by eexists].
    apply IH; unfold edgeset_table_expand_children;
      destruct (Nat.ltb_spec (et_max_total_children_length t)
                  (et_max_total_children_length t
                   + et_max_total_children_length_increment t));
      simpl; lia.
Qed.

(** [edgeset_table_add_row] appends one row, and leaves the cells behind it
    as they are. *)
Lemma edgeset_table_add_row_Ok (t t' : edgeset_table_t) (left right : double)
    (parent : node_id_t) (children : list node_id_t) (len : nat) :
  edgeset_table_ok t ->
  edgeset_table_add_row t left right parent children len = Ok t' ->
  edgeset_table_ok t'
  /\ et_num_rows t' = S (et_num_rows t)
  /\ (forall i x, (S (et_num_rows t) <= i)%nat ->
        et_parent t !! i = Some x -> et_parent t' !! i = Some x)
  /\ ((len <= length children)%nat ->
      edgeset_table_rows t'
      = edgeset_table_rows t
        ++ [mk_edgeset left right parent (take len children)]).
Proof.
  intros (Hwf & Hinc & Hcinc). unfold edgeset_table_add_row.
  destruct (Nat.eqb_spec len 0); [done|].
  set (t1 := if Nat.eqb (et_num_rows t) (et_max_rows t)
             then edgeset_table_expand_main_columns t
                    (et_max_rows t + et_max_rows_increment t)
             else t).
  assert (H1 : edgeset_table_prefix t t1 /\ edgeset_table_wf t1
               /\ (et_num_rows t < et_max_rows t1)%nat).
  { subst t1. destruct (Nat.eqb_spec (et_num_rows t) (et_max_rows t)).
    - destruct (edgeset_table_expand_main_columns_prefix t
                  (et_max_rows t + et_max_rows_increment t) Hwf)
        as (? & ? & Hmax). split_and!; [done|done|]. rewrite Hmax. lia.
    - split_and!; [apply edgeset_table_prefix_refl|done|].
      destruct Hwf. lia. }
  destruct H1 as (Hp1 & Hwf1 & Hroom).
  intros H. apply bind_Ok in H as (t2 & Hgrow & H). injection H as <-.
  destruct (edgeset_table_grow_children_prefix _ _ _ _ Hwf1 Hgrow)
    as (Hp2 & Hwf2 & Hmax2 & Hfit).
  pose proof (edgeset_table_prefix_trans _ _ _ Hp1 Hp2) as Hp.
  pose proof Hwf2 as [Hr Hl Hri Hpa Hcl Hc Htotal Hmax].
  pose proof Hp as [Pl Pr Pp Pc Pcl Pn Pt Pi Pci].
  rewrite (etp_total _ _ Hp1) in Hfit.
  assert (Hn : (et_num_rows t2 < et_max_rows t2)%nat) by lia.
  split_and!.
  - split_and!; simpl; [|lia..].
    constructor; simpl; rewrite ?length_insert, ?length_memcpy; try lia.
    rewrite sum_list_take_S by (rewrite length_insert; lia).
    rewrite take_insert_ge by lia.
    rewrite list_lookup_total_insert_eq by lia. lia.
  - simpl. lia.
  - intros i x Hi Hx. simpl. rewrite list_lookup_insert_ne by lia.
    by eapply prefix_lookup_Some_keep.
  - intros Hlen. unfold edgeset_table_rows at 1. cbn [et_num_rows].
    rewrite seq_S, fmap_app. simpl. f_equal.
    + rewrite <- (edgeset_table_prefix_rows t t2 Hwf Hp).
      unfold edgeset_table_rows.
      apply list_fmap_ext. intros i j Hj. apply lookup_seq in Hj as [-> Hj].
      unfold edgeset_row_at. simpl.
      rewrite !list_lookup_total_insert_ne by lia. f_equal.
      rewrite Htotal. apply payload_row_write_before; lia.
    + unfold edgeset_row_at. simpl.
      rewrite !list_lookup_total_insert_eq by lia. do 2 f_equal.
      rewrite Htotal. apply payload_row_write_eq; lia.
Qed.

Lemma edgeset_table_add_row_not_OutOfFuel (t : edgeset_table_t)
    (left right : double) (parent : node_id_t) (children : list node_id_t)
    (len : nat) :
  (0 < et_max_total_children_length_increment t)%nat ->
  edgeset_table_add_row t left right parent children len <> OutOfFuel.
Proof.
  intros Hinc. unfold edgeset_table_add_row.
  destruct (Nat.eqb len 0); [done|].
  match goal with |- context [edgeset_table_grow_children ?f ?t1 len] =>
    destruct (edgeset_table_grow_children_total len f t1) as [t2 ->] end.
  - destruct (Nat.eqb _ _); [|done].
    unfold edgeset_table_expand_main_columns. by destruct (Nat.ltb _ _).
  - lia.
  - done.
Qed.

Lemma edgeset_table_add_row_Err (t : edgeset_table_t)
    (left right : double) (parent : node_id_t) (children : list node_id_t)
    (len : nat) (e : error) :
  edgeset_table_add_row t left right parent children len = Err e ->
  len = 0%nat /\ e = MSP_ERR_BAD_PARAM_VALUE.
Proof.
  unfold edgeset_table_add_row.
  destruct (Nat.eqb_spec len 0); [by intros [= <-]|].
  intros H. apply bind_Err in H as [H|(t2 & _ & H)]; [|done].
  exfalso. revert H. generalize (S (et_total_children_length
    (if Nat.eqb (et_num_rows t) (et_max_rows t)
     then edgeset_table_expand_main_columns t
            (et_max_rows t + et_max_rows_increment t)
     else t) + len)).
  generalize (if Nat.eqb (et_num_rows t) (et_max_rows t)
     then edgeset_table_expand_main_columns t
            (et_max_rows t + et_max_rows_increment t)
     else t).
  intros t1 fuel. revert t1. induction fuel as [|fuel IH]; intros t1; simpl.
  - by destruct (Nat.leb _ _).
  - destruct (Nat.leb _ _); [apply IH|done].
Qed.

Lemma edgeset_table_reset_ok (t : edgeset_table_t) :
  edgeset_table_ok t -> edgeset_table_ok (edgeset_table_reset t).
Proof.
  intros ([] & ? & ?). split_and!; [|done..].
  constructor; simpl; try done; lia.
Qed.

(** ** The positions of a merge *)

Lemma queue_points_cons (x : queue_item) (Q : list queue_item) :
  queue_points (x :: Q) = chain_points (item_chain x) ++ queue_points Q.
Proof. done. Qed.

Lemma queue_points_app (Q1 Q2 : list queue_item) :
  queue_points (Q1 ++ Q2) = queue_points Q1 ++ queue_points Q2.
Proof. unfold queue_points. by rewrite flat_map_app. Qed.

Lemma queue_points_Permutation (Q1 Q2 : list queue_item) :
  Q1 ≡ₚ Q2 -> queue_points Q1 ≡ₚ queue_points Q2.
Proof.
  induction 1 as [|x Q1 Q2 HQ IH|x y Q|Q1 Q2 Q3 H1 IH1 H2 IH2].
  - done.
  - rewrite !queue_points_cons. by rewrite IH.
  - rewrite !queue_points_cons, !app_assoc.
    apply Permutation_app_tail, Permutation_app_comm.
  - by etrans.
Qed.

Lemma elem_of_chain_points (p : double) (u : list simplify_segment_t) :
  p ∈ chain_points u <->
  exists s, s ∈ u /\ (p = seg_left s \/ p = seg_right s).
Proof.
  induction u as [|s u IH].
  - split; [by intros ?%elem_of_nil|by intros (s & ?%elem_of_nil & _)].
  - change (chain_points (s :: u))
      with (seg_left s :: seg_right s :: chain_points u).
    rewrite !elem_of_cons, IH. split.
    + intros [->|[->|(s' & Hs & Hp)]].
      * exists s. rewrite elem_of_cons. auto.
      * exists s. rewrite elem_of_cons. auto.
      * exists s'. rewrite elem_of_cons. auto.
    + intros (s' & Hs & Hp). apply elem_of_cons in Hs as [->|Hs].
      * destruct Hp; auto.
      * right. right. by exists s'.
Qed.

Lemma elem_of_queue_points (p : double) (Q : list queue_item) :
  p ∈ queue_points Q <->
  exists x s, x ∈ Q /\ s ∈ item_chain x /\ (p = seg_left s \/ p = seg_right s).
Proof.
  induction Q as [|x Q IH].
  - split; [by intros ?%elem_of_nil|by intros (x & s & ?%elem_of_nil & _)].
  - rewrite queue_points_cons, elem_of_app, IH, elem_of_chain_points. split.
    + intros [(s & Hs & Hp)|(x' & s & Hx & Hs & Hp)].
      * exists x, s. rewrite elem_of_cons. auto.
      * exists x', s. rewrite elem_of_cons. auto.
    + intros (x' & s & Hx & Hs & Hp). apply elem_of_cons in Hx as [->|Hx].
      * left. by exists s.
      * right. by exists x', s.
Qed.

Lemma elem_of_state_points (p : double) (self : simplifier_t) :
  p ∈ state_points self <->
  p = s_sequence_length self
  \/ p ∈ oc_start <$> s_overlap_counts self
  \/ p ∈ queue_points (s_merge_queue self).
Proof.
  unfold state_points. rewrite elem_of_cons, elem_of_app. done.
Qed.

(** Stepping to a larger position leaves fewer positions to visit. *)
Lemma filter_length_lt (P : list Z) (l l' : Z) :
  l ∈ P -> l < l' ->
  (length (filter (fun p => (l' <= p)%Z) P)
   < length (filter (fun p => (l <= p)%Z) P))%nat.
Proof.
  intros Hl Hlt.
  assert (Hle : forall P0 : list Z,
    (length (filter (fun p => (l' <= p)%Z) P0)
     <= length (filter (fun p => (l <= p)%Z) P0))%nat).
  { induction P0 as [|p P0 IH]; [done|].
    rewrite !filter_cons. repeat case_decide; simpl; lia. }
  induction P as [|p P IH]; [by apply elem_of_nil in Hl|].
  rewrite !filter_cons. apply elem_of_cons in Hl as [<-|Hl].
  - repeat case_decide; simpl; try lia. specialize (Hle P). lia.
  - specialize (IH Hl). repeat case_decide; simpl; lia.
Qed.

(** ** Frames *)

Lemma merge_ensure_overlap_count_emit (self self' : simplifier_t) (x : double) :
  merge_ensure_overlap_count self x = Ok self' ->
  emit_part self' = emit_part self /\ static_part self' = static_part self.
Proof.
  unfold merge_ensure_overlap_count.
  destruct (overlap_search _ _); [by intros [= <-]|].
  unfold simplifier_copy_overlap_count.
  destruct (overlap_floor _ _); [|done]. by intros [= <-].
Qed.

Lemma merge_ensure_overlap_count_starts (self self' : simplifier_t)
    (x y : double) :
  merge_ensure_overlap_count self x = Ok self' ->
  y ∈ oc_start <$> s_overlap_counts self' ->
  y ∈ oc_start <$> s_overlap_counts self \/ y = x.
Proof.
  unfold merge_ensure_overlap_count.
  destruct (overlap_search _ _); [intros [= <-]; auto|].
  unfold simplifier_copy_overlap_count.
  destruct (overlap_floor _ _); [|done]. intros [= <-]. simpl.
  rewrite avl_insert_node_Permutation. simpl.
  rewrite elem_of_cons. tauto.
Qed.

Lemma overlap_walk_in (h : Z) (r_max : double) (next : list overlap_count_t) :
  forall (nm : overlap_count_t) (tree : list overlap_count_t) (r' : double),
  overlap_walk h r_max (oc_start nm) nm next = Ok (tree, r') ->
  r' ∈ oc_start <$> (nm :: next).
Proof.
  induction next as [|nm' next IH]; intros nm tree r'; simpl.
  - destruct (_ && _); [done|]. intros [= <- <-]. apply elem_of_cons. by left.
  - destruct (_ && _).
    + intros H. apply bind_Ok in H as ([tree1 r1] & Hrec & H).
      injection H as <- <-. apply IH in Hrec.
      apply elem_of_cons. by right.
    + intros [= <- <-]. apply elem_of_cons. by left.
Qed.

Lemma merge_overlap_update_emit (self self' : simplifier_t) (h : nat)
    (l r_max r : double) (v : node_id_t) (alpha : option simplify_segment_t) :
  merge_overlap_update self h l r_max v = Ok (self', r, alpha) ->
  emit_part self' = emit_part self /\ static_part self' = static_part self
  /\ r ∈ oc_start <$> s_overlap_counts self.
Proof.
  unfold merge_overlap_update.
  destruct (overlap_search l (s_overlap_counts self))
    as [[[before nm] after]|] eqn:Hsearch; [|done].
  apply overlap_search_Some in Hsearch as [Heq Hnm].
  destruct (oc_count nm =? _).
  - destruct after as [|nm' after]; [done|]. intros [= <- <- <-].
    split_and!; [done|done|]. rewrite Heq, fmap_app. apply elem_of_app.
    right. simpl. apply elem_of_cons. right. apply elem_of_cons. by left.
  - intros H. apply bind_Ok in H as ([tree r1] & Hwalk & H).
    injection H as <- <- <-. split_and!; [done|done|].
    rewrite <- Hnm in Hwalk. apply overlap_walk_in in Hwalk.
    rewrite Heq, fmap_app. apply elem_of_app. by right.
Qed.

Lemma merge_requeue_emit (self : simplifier_t) (x : list simplify_segment_t) :
  emit_part (merge_requeue self x) = emit_part self
  /\ static_part (merge_requeue self x) = static_part self.
Proof. by destruct x. Qed.

Lemma merge_update_heads_emit (r : double) (H : list queue_item) :
  forall (self self' : simplifier_t) (children : list node_id_t),
  merge_update_heads self r H = (self', children) ->
  emit_part self' = emit_part self /\ static_part self' = static_part self.
Proof.
  induction H as [|[x next] H IH]; intros self self' children; simpl.
  - by intros [= <- <-].
  - match goal with |- context [merge_update_heads ?s r H] =>
      set (self1 := s) end.
    destruct (merge_update_heads self1 r H) as [self2 children2] eqn:Hrec.
    intros [= <- <-]. destruct (IH _ _ _ Hrec) as [-> ->].
    subst self1. destruct (_ =? _); [|by destruct (_ <? _)].
    destruct (merge_requeue_emit (simplifier_free_segment self) next)
      as [-> ->]. done.
Qed.

Lemma merge_integrate_emit (self self' : simplifier_t) (input_id : node_id_t)
    (z z' alpha : option simplify_segment_t) :
  merge_integrate self input_id z alpha = Ok (self', z') ->
  emit_part self' = emit_part self /\ static_part self' = static_part self
  /\ s_merge_queue self' = s_merge_queue self
  /\ s_overlap_counts self' = s_overlap_counts self.
Proof.
  unfold merge_integrate. destruct alpha; [|by intros [= <- <-]].
  intros H. apply bind_Ok in H as (chain & _ & H). by injection H as <- <-.
Qed.

Lemma simplifier_record_node_emit (self self' : simplifier_t)
    (input_id : node_id_t) :
  simplifier_record_node self input_id = Ok self' ->
  s_edgesets self' = s_edgesets self
  /\ s_last_edgeset self' = s_last_edgeset self
  /\ static_part self' = static_part self
  /\ s_merge_queue self' = s_merge_queue self
  /\ s_overlap_counts self' = s_overlap_counts self
  /\ s_ancestor_map self' = s_ancestor_map self.
Proof.
  intros H. by apply simplifier_record_node_fields in H as [nodes' ->].
Qed.

(** ** What a turn of the merge loop does *)

Lemma heads_requeued_points (r p : double) (H : list queue_item) :
  p ∈ queue_points (heads_requeued r H) -> p = r \/ p ∈ queue_points H.
Proof.
  induction H as [|[x next] H IH]; [by intros ?%elem_of_nil|].
  change (heads_requeued r ((x, next) :: H))
    with ((if seg_right x =? r then
             match next with
             | [] => []
             | y :: next' => [(y, next')]
             end
           else if r <? seg_right x then [(with_left x r, next)]
           else [(x, next)]) ++ heads_requeued r H).
  rewrite queue_points_app, elem_of_app, (queue_points_cons (x, next) H),
    elem_of_app.
  change (chain_points (item_chain (x, next)))
    with (seg_left x :: seg_right x :: chain_points next).
  intros [Hp|Hp]; [|destruct (IH Hp); auto].
  destruct (seg_right x =? r).
  - destruct next as [|y next']; [by apply elem_of_nil in Hp|].
    rewrite queue_points_cons, app_nil_r in Hp. right. left.
    do 2 (apply elem_of_cons; right). done.
  - destruct (r <? seg_right x).
    + rewrite queue_points_cons, app_nil_r in Hp.
      change (chain_points (item_chain (with_left x r, next)))
        with (r :: seg_right x :: chain_points next) in Hp.
      apply elem_of_cons in Hp as [->|Hp]; [by left|].
      right. left. apply elem_of_cons. by right.
    + right. left. by rewrite queue_points_cons, app_nil_r in Hp.
Qed.

Lemma foldl_min_in (init : double) (H : list queue_item) :
  foldl (fun r_max x => GSL_MIN r_max (seg_right (fst x))) init H = init
  \/ exists x, x ∈ H
       /\ foldl (fun r_max x => GSL_MIN r_max (seg_right (fst x))) init H
          = seg_right (fst x).
Proof.
  revert init. induction H as [|x H IH]; intros init; simpl; [by left|].
  destruct (IH (GSL_MIN init (seg_right (fst x)))) as [->|(y & Hy & ->)].
  - destruct (GSL_MIN_spec init (seg_right (fst x))) as (_ & _ & [->| ->]).
    + by left.
    + right. exists x. split; [apply elem_of_cons; by left|done].
  - right. exists y. split; [apply elem_of_cons; by right|done].
Qed.

Lemma merge_r_max_in (L : double) (H rest : list queue_item) :
  merge_r_max L H rest = L
  \/ merge_r_max L H rest ∈ queue_points H
  \/ merge_r_max L H rest ∈ queue_points rest.
Proof.
  unfold merge_r_max.
  assert (Hfold :
    foldl (fun r_max x => GSL_MIN r_max (seg_right (fst x))) L H = L
    \/ foldl (fun r_max x => GSL_MIN r_max (seg_right (fst x))) L H
       ∈ queue_points H).
  { destruct (foldl_min_in L H) as [->|(x & Hx & ->)]; [by left|].
    right. apply elem_of_queue_points. exists x, (fst x).
    split_and!; [done| |by right]. apply elem_of_cons. by left. }
  destruct rest as [|y rest]; [tauto|]. cbn [merge_next_l].
  destruct (GSL_MIN_spec
    (foldl (fun r_max x => GSL_MIN r_max (seg_right (fst x))) L H)
    (seg_left (fst y))) as (_ & _ & [Heq|Heq]); rewrite Heq; [tauto|].
  right. right. apply elem_of_queue_points. exists y, (fst y).
  split_and!; [apply elem_of_cons; by left|apply elem_of_cons; by left|].
  by left.
Qed.

Lemma merge_single_spec (self self' : simplifier_t) (input_id : node_id_t)
    (z z' : option simplify_segment_t) (x : simplify_segment_t)
    (next : list simplify_segment_t) :
  chain_ok (s_sequence_length self) (x :: next) ->
  Forall (fun y => seg_left x < seg_left (fst y)) (s_merge_queue self) ->
  merge_single self input_id z x next (s_merge_queue self) = Ok (self', z') ->
  emit_part self' = emit_part self
  /\ static_part self' = static_part self
  /\ Forall (fun q => seg_left x < seg_left (fst q)) (s_merge_queue self')
  /\ (forall p, p ∈ state_points self' ->
        p ∈ state_points self \/ p ∈ chain_points (x :: next)).
Proof.
  intros Hx Hrest. unfold merge_single.
  pose proof (chain_ok_head_before _ _ _ Hx) as Hbefore.
  destruct Hx as ((H0 & Hlt & HL) & Hlink & Hnext).
  destruct (bool_decide (s_merge_queue self <> []) &&
            (merge_next_l (s_merge_queue self) <? seg_right x)) eqn:Hcond.
  - apply andb_true_iff in Hcond as [Hne Hcut].
    apply bool_decide_eq_true in Hne. apply Z.ltb_lt in Hcut.
    intros Hint. apply merge_integrate_emit in Hint as (He & Hs & HQ & Ho).
    simpl in He, Hs, HQ, Ho.
    assert (Hfirst : seg_left x < merge_next_l (s_merge_queue self)
                     /\ merge_next_l (s_merge_queue self)
                        ∈ queue_points (s_merge_queue self)).
    { destruct (s_merge_queue self) as [|y rest]; [done|].
      apply Forall_cons in Hrest as [? _]. split; [done|].
      cbn [merge_next_l].
      apply elem_of_queue_points. exists y, (fst y).
      split_and!; [apply elem_of_cons; by left|apply elem_of_cons; by left|].
      by left. }
    destruct Hfirst as [Hfirst Hin].
    split_and!; [done|done| |].
    + rewrite HQ, queue_insert_Permutation. constructor; [simpl; lia|done].
    + intros p. rewrite !elem_of_state_points.
      replace (s_sequence_length self') with (s_sequence_length self)
        by (by injection Hs).
      rewrite Ho, HQ.
      rewrite (queue_points_Permutation _ _ (queue_insert_Permutation _ _)).
      rewrite queue_points_cons, elem_of_app.
      intros [->|[Hp|[Hp|Hp]]]; auto.
      change (chain_points (item_chain (with_left x _, next)))
        with (merge_next_l (s_merge_queue self) :: seg_right x
              :: chain_points next) in Hp.
      apply elem_of_cons in Hp as [->|Hp]; [auto|].
      right. change (chain_points (x :: next))
        with (seg_left x :: seg_right x :: chain_points next).
      apply elem_of_cons. by right.
  - intros Hint. apply merge_integrate_emit in Hint as (He & Hs & HQ & Ho).
    destruct (merge_requeue_emit self next) as [He' Hs'].
    destruct (merge_requeue_queue self next) as (_ & _ & Ho' & HQ').
    rewrite He' in He. rewrite Hs' in Hs. rewrite Ho' in Ho. rewrite HQ' in HQ.
    split_and!; [done|done| |].
    + rewrite HQ. destruct next as [|y next']; [done|].
      rewrite queue_insert_Permutation. constructor; [|done].
      apply Forall_cons in Hbefore as [? _]. simpl. lia.
    + intros p. rewrite !elem_of_state_points.
      replace (s_sequence_length self') with (s_sequence_length self)
        by (by injection Hs).
      rewrite Ho, HQ. destruct next as [|y next']; [tauto|].
      rewrite (queue_points_Permutation _ _ (queue_insert_Permutation _ _)).
      rewrite queue_points_cons, elem_of_app.
      intros [->|[Hp|[Hp|Hp]]]; auto.
      right. change (chain_points (x :: y :: next'))
        with (seg_left x :: seg_right x :: chain_points (y :: next')).
      do 2 (apply elem_of_cons; right). done.
Qed.

Section MergeSpec.

Variable qsort : forall A : Type, (A -> A -> Z) -> list A -> list A.

Lemma simplifier_record_edgeset_static (self self' : simplifier_t)
    (left right : double) (parent : node_id_t) (children : list node_id_t)
    (children_length : nat) :
  simplifier_record_edgeset qsort self left right parent children
    children_length = Ok self' ->
  static_part self' = static_part self /\ s_nodes self' = s_nodes self.
Proof.
  unfold simplifier_record_edgeset.
  destruct (Nat.eqb _ 0); [by intros [= <-]|].
  match goal with |- context [if ?c then _ else _] => destruct c end.
  - by intros [= <-].
  - intros H. apply bind_Ok in H as (edgesets & _ & H). by injection H as <-.
Qed.

Lemma merge_coalesce_spec (self self' : simplifier_t) (input_id : node_id_t)
    (coalescence : bool) (z z' : option simplify_segment_t) (l r_max : double)
    (H : list queue_item) :
  simplifier_inv self ->
  Forall (fun x => chain_ok (s_sequence_length self) (item_chain x)) H ->
  Forall (fun x => seg_left (fst x) = l) H ->
  Forall (fun x => r_max <= seg_right (fst x)) H ->
  Forall (fun y => r_max <= seg_left (fst y)) (s_merge_queue self) ->
  0 <= l < r_max -> r_max <= s_sequence_length self ->
  l ∈ queue_points H ->
  r_max = s_sequence_length self \/ r_max ∈ queue_points H
    \/ r_max ∈ queue_points (s_merge_queue self) ->
  merge_coalesce qsort self input_id coalescence z l r_max H = Ok (self', z') ->
  static_part self' = static_part self
  /\ (forall p, p ∈ state_points self' ->
        p ∈ state_points self \/ p ∈ queue_points H)
  /\ exists selfa s5 s6 r children,
       (if coalescence then selfa = self
        else simplifier_record_node self input_id = Ok selfa)
       /\ emit_part s5 = emit_part selfa
       /\ simplifier_record_edgeset qsort s5 l r
            (wrap_int32 (cast_node_id (nt_num_rows (s_nodes selfa)) - 1))
            children (length H) = Ok s6
       /\ emit_part self' = emit_part s6
       /\ length children = length H
       /\ l < r
       /\ Forall (fun q => r <= seg_left (fst q)) (s_merge_queue self').
Proof.
  intros Hinv HHok HHl HHr Hrest Hl HL Hlin Hrin. unfold merge_coalesce.
  intros Hrun. apply bind_Ok in Hrun as (self1 & Hnode & Hrun).
  apply bind_Ok in Hrun as (self2 & Hens1 & Hrun).
  apply bind_Ok in Hrun as (self3 & Hens2 & Hrun).
  apply bind_Ok in Hrun as ([[self4 r] alpha] & Hupd & Hrun).
  destruct (merge_update_heads self4 r H) as [self5 children] eqn:Hheads.
  apply bind_Ok in Hrun as (self6 & Hrec & Hrun).
  assert (Hinv1 : simplifier_inv self1
    /\ s_sequence_length self1 = s_sequence_length self
    /\ s_merge_queue self1 = s_merge_queue self
    /\ s_overlap_counts self1 = s_overlap_counts self
    /\ static_part self1 = static_part self).
  { destruct coalescence.
    - by injection Hnode as <-.
    - apply simplifier_record_node_fields in Hnode as [nodes' ->].
      split_and!; try done. by apply (simplifier_inv_ext self). }
  destruct Hinv1 as (Hinv1 & HL1 & Hq1 & Hov1 & Hst1).
  destruct Hinv1 as [Hm1 Hqok1 Hs1 Ho1].
  destruct (merge_ensure_overlap_count_spec _ _ _ Ho1 Hens1)
    as (HL2 & Hmap2 & Hq2 & Ho2 & _ & _).
  destruct (merge_ensure_overlap_count_spec _ _ _ Ho2 Hens2)
    as (HL3 & Hmap3 & Hq3 & Ho3 & _ & Hin3).
  destruct (merge_ensure_overlap_count_emit _ _ _ Hens1) as [He2 Hst2].
  destruct (merge_ensure_overlap_count_emit _ _ _ Hens2) as [He3 Hst3].
  assert (Hlt : l < r_max) by lia.
  destruct (merge_overlap_update_spec _ _ _ _ _ _ _ _ Ho3 Hlt Hin3 Hupd)
    as (HL4 & Hmap4 & Hq4 & Hstarts4 & Hr & Halpha).
  destruct (merge_overlap_update_emit _ _ _ _ _ _ _ _ Hupd)
    as (He4 & Hst4 & Hrkey).
  destruct (merge_update_heads_spec _ _ _ _ _ Hheads)
    as (HL5 & Hmap5 & Ho5 & Hchildren & Hperm5 & Hs5).
  destruct (merge_update_heads_emit _ _ _ _ _ Hheads) as [He5 Hst5].
  destruct (simplifier_record_edgeset_fields _ _ _ _ _ _ _ _ Hrec)
    as (HL6 & Hmap6 & Hq6 & Ho6).
  destruct (simplifier_record_edgeset_static _ _ _ _ _ _ _ Hrec)
    as [Hst6 Hn6].
  destruct (merge_integrate_emit _ _ _ _ _ _ Hrun) as (He7 & Hst7 & Hq7 & Ho7).
  assert (Hq4all : s_merge_queue self4 = s_merge_queue self) by congruence.
  assert (Hheads_ok :
    Forall (fun x => chain_ok (s_sequence_length self) (item_chain x)
                     /\ r <= seg_left (fst x)) (heads_requeued r H)).
  { apply (heads_requeued_chain_ok _ l); try done; [lia|].
    eapply Forall_impl; [exact HHr|]. intros; simpl in *; lia. }
  split_and!.
  - congruence.
  - intros p. rewrite !elem_of_state_points.
    replace (s_sequence_length self') with (s_sequence_length self)
      by (assert (static_part self' = static_part self) as Heq by congruence;
          by injection Heq).
    rewrite Ho7, Ho6, Ho5, Hq7, Hq6.
    rewrite (queue_points_Permutation _ _ Hperm5), queue_points_app,
      elem_of_app, Hq4all.
    assert (Hkeys : forall y, y ∈ oc_start <$> s_overlap_counts self3 ->
      y ∈ oc_start <$> s_overlap_counts self \/ y = l \/ y = r_max).
    { intros y Hy.
      apply (merge_ensure_overlap_count_starts _ _ _ _ Hens2) in Hy
        as [Hy| ->]; [|auto].
      apply (merge_ensure_overlap_count_starts _ _ _ _ Hens1) in Hy
        as [Hy| ->]; [|auto].
      rewrite <- Hov1. auto. }
    assert (Hpoint : forall y, y = l \/ y = r_max ->
      (y = s_sequence_length self
       \/ y ∈ oc_start <$> s_overlap_counts self
       \/ y ∈ queue_points (s_merge_queue self))
      \/ y ∈ queue_points H).
    { intros y [->| ->]; [by right|]. tauto. }
    assert (Hstarts4' : oc_start <$> s_overlap_counts self4
                        = oc_start <$> s_overlap_counts self3)
      by exact Hstarts4.
    intros [->|[Hp|[Hp|Hp]]]; [tauto| | |tauto].
    + rewrite Hstarts4' in Hp. apply Hkeys in Hp as [Hp|Hp]; [tauto|].
      by apply Hpoint.
    + apply heads_requeued_points in Hp as [->|Hp]; [|tauto].
      apply Hkeys in Hrkey as [Hp|Hp]; [tauto|]. by apply Hpoint.
  - exists self1, self5, self6, r, children.
    split_and!; try done.
    + destruct coalescence; [by injection Hnode|done].
    + congruence.
    + by rewrite Hchildren, length_fmap.
    + lia.
    + rewrite Hq7, Hq6, Hperm5, Hq4all. apply Forall_app. split.
      * eapply Forall_impl; [exact Hheads_ok|]. by intros ? [_ ?].
      * eapply Forall_impl; [exact Hrest|]. intros; simpl in *; lia.
Qed.

End MergeSpec.

Section MergeStep.

Variable qsort : forall A : Type, (A -> A -> Z) -> list A -> list A.

(** One turn: the queue moves on to larger left ends; no new position
    appears; and either nothing is written, or one output node is recorded
    (if none was for this parent) and one edgeset [[l, r)] is. *)
Lemma merge_step_spec (self self' : simplifier_t) (input_id : node_id_t)
    (coalescence coalescence' : bool) (z z' : option simplify_segment_t)
    (first : queue_item) (Q0 : list queue_item) :
  simplifier_inv self -> z_inv self input_id z ->
  s_merge_queue self = first :: Q0 ->
  merge_step qsort self input_id coalescence z = Ok (self', coalescence', z') ->
  static_part self' = static_part self
  /\ Forall (fun q => seg_left (fst first) < seg_left (fst q))
       (s_merge_queue self')
  /\ (forall p, p ∈ state_points self' -> p ∈ state_points self)
  /\ ((emit_part self' = emit_part self /\ coalescence' = coalescence)
      \/ (coalescence' = true
          /\ exists self1 selfa s5 s6 r children,
               emit_part self1 = emit_part self
               /\ static_part self1 = static_part self
               /\ (if coalescence then selfa = self1
                   else simplifier_record_node self1 input_id = Ok selfa)
               /\ emit_part s5 = emit_part selfa
               /\ simplifier_record_edgeset qsort s5 (seg_left (fst first)) r
                    (wrap_int32 (cast_node_id (nt_num_rows (s_nodes selfa)) - 1))
                    children (length children) = Ok s6
               /\ emit_part self' = emit_part s6
               /\ (2 <= length children)%nat
               /\ seg_left (fst first) < r
               /\ Forall (fun q => r <= seg_left (fst q))
                    (s_merge_queue self'))).
Proof.
  intros Hinv Hz HQ. unfold merge_step. rewrite HQ.
  destruct (merge_gather (seg_left (fst first)) (first :: Q0)) as [H rest]
    eqn:Hgather.
  pose proof Hinv as [Hmap Hqok Hsorted Hoverlap].
  rewrite HQ in Hqok, Hsorted.
  destruct (merge_gather_sorted _ _ _ _ Hsorted Hgather)
    as (Heq & [H' HH'] & HHl & Hrest & Hrest_sorted).
  rewrite Heq in Hqok. apply Forall_app in Hqok as [HHok Hrest_ok].
  set (self1 := set_merge_queue
     (set_avl_node_heap self (s_avl_node_heap self - length H)%nat) rest).
  assert (Hinv1 : simplifier_inv self1) by (by constructor).
  assert (Hfirst : seg_ok (s_sequence_length self) (fst first)).
  { rewrite HH' in HHok. apply Forall_cons in HHok as [Hf _].
    by destruct Hf as [? _]. }
  assert (Hpoints1 : forall p,
    p ∈ state_points self1 \/ p ∈ queue_points H -> p ∈ state_points self).
  { intros p. rewrite !elem_of_state_points, HQ, Heq, queue_points_app,
      elem_of_app. simpl. tauto. }
  destruct H as [|[x next] [|y H'']].
  - done.
  - intros Hrun. apply bind_Ok in Hrun as ([self2 z2] & Hsingle & Hrun).
    injection Hrun as <- <- <-. injection HH' as <- _.
    apply (merge_single_spec self1) in Hsingle as (He & Hs & Hlefts & Hp).
    + split_and!; [done|done| |by left].
      intros p Hin. apply Hpoints1. apply Hp in Hin as [?|Hin]; [by left|].
      right. by rewrite queue_points_cons, app_nil_r.
    + by apply Forall_cons in HHok as [? _].
    + done.
  - intros Hrun. apply bind_Ok in Hrun as ([self2 z2] & Hco & Hrun).
    injection Hrun as <- <- <-.
    destruct (merge_r_max_le (s_sequence_length self)
                ((x, next) :: y :: H'') rest) as (HrL & HrH & Hrrest).
    destruct Hfirst as (H0 & Hlt & HL).
    apply (merge_coalesce_spec qsort self1) in Hco; try done.
    + destruct Hco as (Hs & Hp & selfa & s5 & s6 & r & children & Hnode & He5
        & Hrec & He' & Hlen & Hlr & Hlefts).
      split_and!; [done| | |].
      * eapply Forall_impl; [exact Hlefts|]. intros; simpl in *; lia.
      * intros p Hin. apply Hpoints1. by apply Hp.
      * right. split; [done|].
        exists self1, selfa, s5, s6, r, children. rewrite Hlen.
        split_and!; try done. simpl. lia.
    + simpl. destruct rest as [|w rest']; [constructor|].
      apply Forall_cons in Hrrest as [Hy _]. constructor; [done|].
      apply StronglySorted_inv in Hrest_sorted as [_ Hall].
      eapply Forall_impl; [exact Hall|]. intros w' Hw.
      apply queue_le_left in Hw. cbn beta.
      eapply Z.le_trans; [exact Hy|exact Hw].
    + split; [done|]. apply merge_r_max_gt; [lia| |done].
      apply Forall_forall. intros q Hq.
      rewrite Forall_forall in HHok, HHl.
      specialize (HHok _ Hq). specialize (HHl _ Hq).
      destruct HHok as ((_ & ? & _) & _). lia.
    + apply elem_of_queue_points. exists first, (fst first).
      split_and!; [rewrite HH'; apply elem_of_cons; by left
                  |apply elem_of_cons; by left|by left].
    + apply merge_r_max_in.
Qed.

End MergeStep.

(** ** The loops come to their end *)

Lemma bind_OutOfFuel {A B} (m : outcome A) (f : A -> outcome B) :
  m <> OutOfFuel -> (forall a, m = Ok a -> f a <> OutOfFuel) ->
  mbind f m <> OutOfFuel.
Proof. intros Hm Hf. destruct m; simpl; auto. Qed.

Lemma read_not_OutOfFuel {A} (l : list A) (i : nat) : read l i <> OutOfFuel.
Proof. unfold read. by destruct (l !! i). Qed.

Lemma readz_not_OutOfFuel {A} (l : list A) (i : Z) : readz l i <> OutOfFuel.
Proof. unfold readz. destruct (i <? 0); [done|apply read_not_OutOfFuel]. Qed.

Lemma assert_not_OutOfFuel (b : bool) : assert b <> OutOfFuel.
Proof. by destruct b. Qed.

Ltac no_fuel :=
  repeat first
    [ apply read_not_OutOfFuel | apply readz_not_OutOfFuel
    | apply assert_not_OutOfFuel
    | apply bind_OutOfFuel; [|intros ? ?]
    | done ].

Lemma simplifier_check_state_not_OutOfFuel (self : simplifier_t) :
  simplifier_check_state self <> OutOfFuel.
Proof. unfold simplifier_check_state. no_fuel. Qed.

Lemma node_table_add_row_internal_not_OutOfFuel (t : node_table_t) (flags : Z)
    (time : double) (population : population_id_t) (len : nat)
    (name : list byte) :
  node_table_add_row_internal t flags time population len name <> OutOfFuel.
Proof. unfold node_table_add_row_internal. no_fuel. Qed.

Lemma simplifier_record_node_not_OutOfFuel (self : simplifier_t)
    (input_id : node_id_t) :
  simplifier_record_node self input_id <> OutOfFuel.
Proof.
  unfold simplifier_record_node. no_fuel;
    try apply node_table_add_row_internal_not_OutOfFuel.
Qed.

Lemma simplifier_remove_ancestry_not_OutOfFuel (self : simplifier_t)
    (left right : double) (input_id : node_id_t) :
  simplifier_remove_ancestry self left right input_id <> OutOfFuel.
Proof.
  unfold simplifier_remove_ancestry. no_fuel;
    try by destruct (remove_ancestry_chain _ _ _) as [[? ?] ?].
Qed.

Lemma merge_ensure_overlap_count_not_OutOfFuel (self : simplifier_t)
    (x : double) :
  merge_ensure_overlap_count self x <> OutOfFuel.
Proof.
  unfold merge_ensure_overlap_count, simplifier_copy_overlap_count.
  destruct (overlap_search _ _); [done|]. by destruct (overlap_floor _ _).
Qed.

Lemma overlap_walk_not_OutOfFuel (h : Z) (r_max : double)
    (next : list overlap_count_t) :
  forall (r : double) (nm : overlap_count_t),
  overlap_walk h r_max r nm next <> OutOfFuel.
Proof.
  induction next as [|nm' next IH]; intros r nm; simpl.
  - by destruct (_ && _).
  - destruct (_ && _); [|done]. apply bind_OutOfFuel; [apply IH|].
    by intros [? ?] _.
Qed.

Lemma merge_overlap_update_not_OutOfFuel (self : simplifier_t) (h : nat)
    (l r_max : double) (v : node_id_t) :
  merge_overlap_update self h l r_max v <> OutOfFuel.
Proof.
  unfold merge_overlap_update.
  destruct (overlap_search _ _) as [[[before nm] after]|]; [|done].
  destruct (_ =? _); [by destruct after|].
  apply bind_OutOfFuel; [apply overlap_walk_not_OutOfFuel|].
  by intros [? ?] _.
Qed.

Lemma merge_integrate_not_OutOfFuel (self : simplifier_t)
    (input_id : node_id_t) (z alpha : option simplify_segment_t) :
  merge_integrate self input_id z alpha <> OutOfFuel.
Proof. unfold merge_integrate. destruct alpha; no_fuel. Qed.

Lemma merge_single_not_OutOfFuel (self : simplifier_t) (input_id : node_id_t)
    (z : option simplify_segment_t) (x : simplify_segment_t)
    (next : list simplify_segment_t) (rest : list queue_item) :
  merge_single self input_id z x next rest <> OutOfFuel.
Proof.
  unfold merge_single. destruct (_ && _); apply merge_integrate_not_OutOfFuel.
Qed.

(** ** simplifier_record_edgeset and the table *)

Lemma edgesets_advance_refl (t : edgeset_table_t) :
  edgeset_table_ok t -> edgesets_advance t t.
Proof. intros Hok. split_and!; [done|done|auto]. Qed.

Lemma edgesets_advance_trans (t1 t2 t3 : edgeset_table_t) :
  edgesets_advance t1 t2 -> edgesets_advance t2 t3 -> edgesets_advance t1 t3.
Proof.
  intros (Hok2 & Hn2 & Hk2) (Hok3 & Hn3 & Hk3).
  split_and!; [done|lia|]. intros i x Hi Hx. apply Hk3; [done|].
  apply Hk2; [lia|done].
Qed.

Section Loop.

Variable qsort : forall A : Type, (A -> A -> Z) -> list A -> list A.

Lemma simplifier_record_edgeset_advance (self self' : simplifier_t)
    (left right : double) (parent : node_id_t) (children : list node_id_t)
    (children_length : nat) :
  edgeset_table_ok (s_edgesets self) ->
  simplifier_record_edgeset qsort self left right parent children
    children_length = Ok self' ->
  edgesets_advance (s_edgesets self) (s_edgesets self').
Proof.
  intros Hok. unfold simplifier_record_edgeset.
  destruct (Nat.eqb _ 0); [intros [= <-]; by apply edgesets_advance_refl|].
  match goal with |- context [if ?c then _ else _] => destruct c end.
  - intros [= <-]. by apply edgesets_advance_refl.
  - intros H. apply bind_Ok in H as (edgesets & Hadd & H). injection H as <-.
    simpl. apply edgeset_table_add_row_Ok in Hadd as (Hok' & Hn & Hkeep & _);
      [|done].
    split_and!; [done|lia|]. intros i x Hi Hx. apply Hkeep; [lia|done].
Qed.

Lemma simplifier_record_edgeset_not_OutOfFuel (self : simplifier_t)
    (left right : double) (parent : node_id_t) (children : list node_id_t)
    (children_length : nat) :
  edgeset_table_ok (s_edgesets self) ->
  simplifier_record_edgeset qsort self left right parent children
    children_length <> OutOfFuel.
Proof.
  intros (_ & _ & Hinc). unfold simplifier_record_edgeset.
  destruct (Nat.eqb _ 0); [done|].
  match goal with |- context [if ?c then _ else _] => destruct c end; [done|].
  apply bind_OutOfFuel; [by apply edgeset_table_add_row_not_OutOfFuel|done].
Qed.

Lemma merge_coalesce_not_OutOfFuel (self : simplifier_t) (input_id : node_id_t)
    (coalescence : bool) (z : option simplify_segment_t) (l r_max : double)
    (H : list queue_item) :
  edgeset_table_ok (s_edgesets self) ->
  merge_coalesce qsort self input_id coalescence z l r_max H <> OutOfFuel.
Proof.
  intros Hok. unfold merge_coalesce.
  apply bind_OutOfFuel.
  { destruct coalescence; [done|apply simplifier_record_node_not_OutOfFuel]. }
  intros self1 Hnode.
  assert (H1 : s_edgesets self1 = s_edgesets self).
  { destruct coalescence; [by injection Hnode as <-|].
    by apply simplifier_record_node_emit in Hnode as (? & _). }
  apply bind_OutOfFuel; [apply merge_ensure_overlap_count_not_OutOfFuel|].
  intros self2 Hens1.
  apply merge_ensure_overlap_count_emit in Hens1 as [[= H2 _ _] _].
  apply bind_OutOfFuel; [apply merge_ensure_overlap_count_not_OutOfFuel|].
  intros self3 Hens2.
  apply merge_ensure_overlap_count_emit in Hens2 as [[= H3 _ _] _].
  apply bind_OutOfFuel; [apply merge_overlap_update_not_OutOfFuel|].
  intros [[self4 r] alpha] Hupd.
  apply merge_overlap_update_emit in Hupd as ([= H4 _ _] & _).
  destruct (merge_update_heads self4 r H) as [self5 children] eqn:Hheads.
  apply merge_update_heads_emit in Hheads as [[= H5 _ _] _].
  apply bind_OutOfFuel; [|intros; apply merge_integrate_not_OutOfFuel].
  apply simplifier_record_edgeset_not_OutOfFuel. congruence.
Qed.

Lemma merge_step_not_OutOfFuel (self : simplifier_t) (input_id : node_id_t)
    (coalescence : bool) (z : option simplify_segment_t) :
  edgeset_table_ok (s_edgesets self) ->
  merge_step qsort self input_id coalescence z <> OutOfFuel.
Proof.
  intros Hok. unfold merge_step.
  destruct (s_merge_queue self) as [|first Q0]; [done|].
  destruct (merge_gather _ _) as [H rest].
  destruct H as [|[x next] [|y H'']].
  - apply bind_OutOfFuel; [by apply merge_coalesce_not_OutOfFuel|].
    by intros [? ?] _.
  - apply bind_OutOfFuel; [apply merge_single_not_OutOfFuel|].
    by intros [? ?] _.
  - apply bind_OutOfFuel; [by apply merge_coalesce_not_OutOfFuel|].
    by intros [? ?] _.
Qed.

(** What a turn of the merge loop keeps, it keeps to the end of the
    loop. *)
Lemma merge_loop_ind (I : simplifier_t -> bool -> Prop)
    (input_id : node_id_t) :
  (forall self c z self' c' z' first Q0,
     simplifier_inv self -> z_inv self input_id z -> I self c ->
     s_merge_queue self = first :: Q0 ->
     merge_step qsort self input_id c z = Ok (self', c', z') ->
     I self' c') ->
  forall (fuel : nat) (self self' : simplifier_t) (c : bool)
    (z : option simplify_segment_t),
  simplifier_inv self -> z_inv self input_id z -> I self c ->
  merge_loop qsort fuel self input_id c z = Ok self' ->
  exists c', I self' c'.
Proof.
  intros Hstep. induction fuel as [|fuel IH]; intros self self' c z Hinv Hz HI;
    simpl.
  - destruct (s_merge_queue self); [|done]. intros [= <-]. by exists c.
  - destruct (s_merge_queue self) as [|first Q0] eqn:HQ.
    { intros [= <-]. by exists c. }
    intros Hrun. apply bind_Ok in Hrun as ([[self1 c1] z1] & Hs & Hrun).
    pose proof (merge_step_inv qsort _ _ _ _ _ _ _ Hinv Hz Hs) as [Hinv1 Hz1].
    eapply IH; [exact Hinv1|exact Hz1| |exact Hrun].
    exact (Hstep _ _ _ _ _ _ _ _ Hinv Hz HI HQ Hs).
Qed.

Lemma merge_step_advance (self self' : simplifier_t) (input_id : node_id_t)
    (c c' : bool) (z z' : option simplify_segment_t) (first : queue_item)
    (Q0 : list queue_item) :
  simplifier_inv self -> z_inv self input_id z ->
  edgeset_table_ok (s_edgesets self) ->
  s_merge_queue self = first :: Q0 ->
  merge_step qsort self input_id c z = Ok (self', c', z') ->
  edgesets_advance (s_edgesets self) (s_edgesets self').
Proof.
  intros Hinv Hz Hok HQ Hstep.
  destruct (merge_step_spec qsort _ _ _ _ _ _ _ _ _ Hinv Hz HQ Hstep)
    as (_ & _ & _ & [[He _]|(_ & Hemit)]).
  - injection He as -> _ _. by apply edgesets_advance_refl.
  - destruct Hemit as (self1 & selfa & s5 & s6 & r & children & [= H1 _ _] & _
      & Hnode & [= H5 _ _] & Hrec & [= H6 _ _] & _).
    assert (Ha : s_edgesets selfa = s_edgesets self1).
    { destruct c; [by subst|].
      by apply simplifier_record_node_emit in Hnode as (? & _). }
    apply simplifier_record_edgeset_advance in Hrec; [|congruence].
    congruence.
Qed.

Lemma merge_loop_not_OutOfFuel (P0 : list double) (input_id : node_id_t)
    (fuel : nat) :
  forall (self : simplifier_t) (c : bool) (z : option simplify_segment_t),
  simplifier_inv self -> z_inv self input_id z ->
  edgeset_table_ok (s_edgesets self) ->
  (forall p, p ∈ state_points self -> p ∈ P0) ->
  (forall first Q0, s_merge_queue self = first :: Q0 ->
     (length (filter (fun p => (seg_left (fst first) <= p)%Z) P0) <= fuel)%nat) ->
  merge_loop qsort fuel self input_id c z <> OutOfFuel.
Proof.
  induction fuel as [|fuel IH]; intros self c z Hinv Hz Hok Hpoints Hfuel;
    simpl.
  - destruct (s_merge_queue self) as [|first Q0] eqn:HQ; [done|].
    exfalso. specialize (Hfuel _ _ eq_refl).
    assert (Hin : seg_left (fst first) ∈ P0).
    { apply Hpoints, elem_of_state_points. right. right. rewrite HQ.
      apply elem_of_queue_points. exists first, (fst first).
      split_and!; [apply elem_of_cons; by left|apply elem_of_cons; by left|].
      by left. }
    assert (Hin' : seg_left (fst first)
                   ∈ filter (fun p => (seg_left (fst first) <= p)%Z) P0).
    { apply list_elem_of_filter. split; [lia|done]. }
    destruct (filter _ P0); [by apply elem_of_nil in Hin'|simpl in Hfuel; lia].
  - destruct (s_merge_queue self) as [|first Q0] eqn:HQ; [done|].
    apply bind_OutOfFuel; [by apply merge_step_not_OutOfFuel|].
    intros [[self1 c1] z1] Hstep.
    pose proof (merge_step_inv qsort _ _ _ _ _ _ _ Hinv Hz Hstep)
      as [Hinv1 Hz1].
    destruct (merge_step_spec qsort _ _ _ _ _ _ _ _ _ Hinv Hz HQ Hstep)
      as (_ & Hlefts & Hp & _).
    pose proof (merge_step_advance _ _ _ _ _ _ _ _ _ Hinv Hz Hok HQ Hstep)
      as (Hok1 & _).
    apply IH; try done.
    + intros p Hin. by apply Hpoints, Hp.
    + intros first1 Q1 HQ1. rewrite HQ1 in Hlefts.
      apply Forall_cons in Hlefts as [Hlt _].
      specialize (Hfuel _ _ eq_refl).
      assert (Hin : seg_left (fst first) ∈ P0).
      { apply Hpoints, elem_of_state_points. right. right. rewrite HQ.
        apply elem_of_queue_points. exists first, (fst first).
        split_and!; [apply elem_of_cons; by left|apply elem_of_cons; by left|].
        by left. }
      pose proof (filter_length_lt P0 _ _ Hin Hlt) as Hless.
      apply Nat.lt_succ_r.
      eapply Nat.lt_le_trans; [exact Hless|exact Hfuel].
Qed.

Lemma length_chain_points (u : list simplify_segment_t) :
  length (chain_points u) = (2 * length u)%nat.
Proof.
  induction u as [|s u IH]; [done|].
  change (chain_points (s :: u))
    with (seg_left s :: seg_right s :: chain_points u). simpl. lia.
Qed.

Lemma length_queue_points (Q : list queue_item) :
  length (queue_points Q)
  = (2 * sum_list (map (fun x => length (item_chain x)) Q))%nat.
Proof.
  induction Q as [|x Q IH]; [done|].
  rewrite queue_points_cons, length_app, length_chain_points, IH.
  simpl. lia.
Qed.

(** [merge_fuel] is enough. *)
Lemma simplifier_merge_ancestors_not_OutOfFuel (self : simplifier_t)
    (input_id : node_id_t) :
  simplifier_inv self -> edgeset_table_ok (s_edgesets self) ->
  simplifier_merge_ancestors qsort self input_id <> OutOfFuel.
Proof.
  intros Hinv Hok. unfold simplifier_merge_ancestors.
  apply (merge_loop_not_OutOfFuel (state_points self)); try done.
  intros first Q0 HQ.
  etrans; [apply length_filter|].
  unfold state_points, merge_fuel.
  rewrite length_cons, length_app, length_fmap, length_queue_points. lia.
Qed.

Lemma simplifier_merge_ancestors_advance (self self' : simplifier_t)
    (input_id : node_id_t) :
  simplifier_inv self -> edgeset_table_ok (s_edgesets self) ->
  simplifier_merge_ancestors qsort self input_id = Ok self' ->
  edgesets_advance (s_edgesets self) (s_edgesets self').
Proof.
  intros Hinv Hok Hrun. unfold simplifier_merge_ancestors in Hrun.
  apply (merge_loop_ind
    (fun s _ => edgesets_advance (s_edgesets self) (s_edgesets s)))
    in Hrun as [_ ?];
    [done| |done|done|by apply edgesets_advance_refl].
  intros s c z s' c' z' first Q0 Hinv1 Hz1 Hadv HQ Hstep.
  eapply edgesets_advance_trans; [exact Hadv|].
  eapply merge_step_advance; try done. by destruct Hadv.
Qed.

End Loop.

(** ** Where an error code can come from *)

Lemma bind_not_Err {A B} (m : outcome A) (f : A -> outcome B) (e : error) :
  m <> Err e -> (forall a, m = Ok a -> f a <> Err e) -> mbind f m <> Err e.
Proof.
  intros Hm Hf. destruct m as [a|e'| |]; simpl.
  - by apply Hf.
  - intros [= ->]. by apply Hm.
  - done.
  - done.
Qed.

Ltac no_err :=
  repeat first
    [ apply read_not_Err | apply readz_not_Err | apply assert_not_Err
    | apply bind_not_Err; [|intros ? ?]
    | done ].

Lemma simplifier_check_state_not_Err (self : simplifier_t) (e : error) :
  simplifier_check_state self <> Err e.
Proof. unfold simplifier_check_state. no_err. Qed.

Lemma simplifier_remove_ancestry_not_Err (self : simplifier_t)
    (left right : double) (input_id : node_id_t) (e : error) :
  simplifier_remove_ancestry self left right input_id <> Err e.
Proof.
  unfold simplifier_remove_ancestry. no_err;
    try by destruct (remove_ancestry_chain _ _ _) as [[? ?] ?].
Qed.

Lemma merge_ensure_overlap_count_not_Err (self : simplifier_t)
    (x : double) (e : error) :
  merge_ensure_overlap_count self x <> Err e.
Proof.
  unfold merge_ensure_overlap_count, simplifier_copy_overlap_count.
  destruct (overlap_search _ _); [done|]. by destruct (overlap_floor _ _).
Qed.

Lemma overlap_walk_not_Err (h : Z) (r_max : double)
    (next : list overlap_count_t) (e : error) :
  forall (r : double) (nm : overlap_count_t),
  overlap_walk h r_max r nm next <> Err e.
Proof.
  induction next as [|nm' next IH]; intros r nm; simpl.
  - by destruct (_ && _).
  - destruct (_ && _); [|done]. apply bind_not_Err; [apply IH|].
    by intros [? ?] _.
Qed.

Lemma merge_overlap_update_not_Err (self : simplifier_t) (h : nat)
    (l r_max : double) (v : node_id_t) (e : error) :
  merge_overlap_update self h l r_max v <> Err e.
Proof.
  unfold merge_overlap_update.
  destruct (overlap_search _ _) as [[[before nm] after]|]; [|done].
  destruct (_ =? _); [by destruct after|].
  apply bind_not_Err; [apply overlap_walk_not_Err|].
  by intros [? ?] _.
Qed.

Lemma merge_integrate_not_Err (self : simplifier_t)
    (input_id : node_id_t) (z alpha : option simplify_segment_t) (e : error) :
  merge_integrate self input_id z alpha <> Err e.
Proof. unfold merge_integrate. destruct alpha; no_err. Qed.

Lemma merge_single_not_Err (self : simplifier_t) (input_id : node_id_t)
    (z : option simplify_segment_t) (x : simplify_segment_t)
    (next : list simplify_segment_t) (rest : list queue_item) (e : error) :
  merge_single self input_id z x next rest <> Err e.
Proof.
  unfold merge_single. destruct (_ && _); apply merge_integrate_not_Err.
Qed.

Section Run.

Variable qsort : forall A : Type, (A -> A -> Z) -> list A -> list A.

(** The buffered edgeset is flushed only when it holds one. *)
Lemma simplifier_record_edgeset_not_Err (self : simplifier_t)
    (left right : double) (parent : node_id_t) (children : list node_id_t)
    (children_length : nat) (e : error) :
  simplifier_record_edgeset qsort self left right parent children
    children_length <> Err e.
Proof.
  unfold simplifier_record_edgeset.
  destruct (Nat.eqb_spec (le_children_length (s_last_edgeset self)) 0);
    [done|].
  match goal with |- context [if ?c then _ else _] => destruct c end; [done|].
  apply bind_not_Err; [|done].
  intros Hadd. apply edgeset_table_add_row_Err in Hadd as [? _]. done.
Qed.

Lemma merge_coalesce_not_Err (self : simplifier_t) (input_id : node_id_t)
    (coalescence : bool) (z : option simplify_segment_t) (l r_max : double)
    (H : list queue_item) (e : error) :
  merge_coalesce qsort self input_id coalescence z l r_max H <> Err e.
Proof.
  unfold merge_coalesce.
  apply bind_not_Err.
  { destruct coalescence; [done|apply simplifier_record_node_not_Err]. }
  intros self1 _.
  apply bind_not_Err; [apply merge_ensure_overlap_count_not_Err|].
  intros self2 _.
  apply bind_not_Err; [apply merge_ensure_overlap_count_not_Err|].
  intros self3 _.
  apply bind_not_Err; [apply merge_overlap_update_not_Err|].
  intros [[self4 r] alpha] _.
  destruct (merge_update_heads self4 r H) as [self5 children].
  apply bind_not_Err; [|intros; apply merge_integrate_not_Err].
  apply simplifier_record_edgeset_not_Err.
Qed.

Lemma merge_step_not_Err (self : simplifier_t) (input_id : node_id_t)
    (coalescence : bool) (z : option simplify_segment_t) (e : error) :
  merge_step qsort self input_id coalescence z <> Err e.
Proof.
  unfold merge_step.
  destruct (s_merge_queue self) as [|first Q0]; [done|].
  destruct (merge_gather _ _) as [H rest].
  destruct H as [|[x next] [|y H'']].
  - apply bind_not_Err; [by apply merge_coalesce_not_Err|].
    by intros [? ?] _.
  - apply bind_not_Err; [apply merge_single_not_Err|].
    by intros [? ?] _.
  - apply bind_not_Err; [by apply merge_coalesce_not_Err|].
    by intros [? ?] _.
Qed.

Lemma merge_loop_not_Err (input_id : node_id_t) (e : error) (fuel : nat) :
  forall (self : simplifier_t) (c : bool) (z : option simplify_segment_t),
  merge_loop qsort fuel self input_id c z <> Err e.
Proof.
  induction fuel as [|fuel IH]; intros self c z; simpl.
  - by destruct (s_merge_queue self).
  - destruct (s_merge_queue self); [done|].
    apply bind_not_Err; [apply merge_step_not_Err|].
    intros [[self1 c1] z1] _. apply IH.
Qed.

(** [simplifier_merge_ancestors] never returns an error code. *)
Lemma simplifier_merge_ancestors_not_Err (self : simplifier_t)
    (input_id : node_id_t) (e : error) :
  simplifier_merge_ancestors qsort self input_id <> Err e.
Proof. apply merge_loop_not_Err. Qed.

(** ** The sweep *)

Lemma run_inv_merge (input : edgeset_table_t) (self self' : simplifier_t)
    (input_id : node_id_t) :
  run_inv input self ->
  simplifier_merge_ancestors qsort self input_id = Ok self' ->
  run_inv input self'.
Proof.
  intros [Hinv Hadv] Hrun. constructor.
  - by eapply simplifier_merge_ancestors_inv.
  - eapply edgesets_advance_trans; [exact Hadv|].
    eapply simplifier_merge_ancestors_advance; try done. by destruct Hadv.
Qed.

Lemma simplifier_remove_ancestry_emit (self self' : simplifier_t)
    (left right : double) (input_id : node_id_t) :
  simplifier_remove_ancestry self left right input_id = Ok self' ->
  emit_part self' = emit_part self.
Proof.
  unfold simplifier_remove_ancestry. intros H.
  apply bind_Ok in H as (head & _ & H).
  destruct (remove_ancestry_chain left right head)
    as [[head' queued] allocated].
  injection H as <-. by destruct queued.
Qed.

(** The loop over the children of a row: it returns 0 or stops on an
    assertion, and keeps what the sweep relies on. *)
Lemma run_children_post (input : edgeset_table_t) (n : nat) :
  forall (self : simplifier_t) (left right : double)
    (children_offset k : nat),
  run_inv input self ->
  match run_children self left right children_offset n k with
  | Ok self' => run_inv input self' /\ emit_part self' = emit_part self
  | Err _ => False
  | Crash => True
  | OutOfFuel => False
  end.
Proof.
  induction n as [|n IH]; intros self left right off k Hinv; simpl; [done|].
  destruct (read _ _) as [child| | |] eqn:Hchild; simpl; try done;
    [|by apply read_not_Err in Hchild
     |by apply read_not_OutOfFuel in Hchild].
  destruct (readz _ _) as [chain| | |] eqn:Hchain; simpl; try done;
    [|by apply readz_not_Err in Hchain
     |by apply readz_not_OutOfFuel in Hchain].
  assert (Hstep :
    match (match chain with
           | [] => Ok self
           | _ :: _ =>
             _ ← simplifier_check_state self;
             self0 ← simplifier_remove_ancestry self left right child;
             _ ← simplifier_check_state self0;
             Ok self0
           end : outcome simplifier_t) with
    | Ok self' => run_inv input self' /\ emit_part self' = emit_part self
    | Err _ => False
    | Crash => True
    | OutOfFuel => False
    end).
  { destruct chain as [|s chain]; [done|].
    destruct (simplifier_check_state self) as [[]| | |] eqn:Hc1; simpl;
      try done;
      [|by apply simplifier_check_state_not_Err in Hc1
       |by apply simplifier_check_state_not_OutOfFuel in Hc1].
    destruct (simplifier_remove_ancestry self left right child)
      as [self1| | |] eqn:Hrem; simpl; try done;
      [|by apply simplifier_remove_ancestry_not_Err in Hrem
       |by apply simplifier_remove_ancestry_not_OutOfFuel in Hrem].
    destruct (simplifier_check_state self1) as [[]| | |] eqn:Hc2; simpl;
      try done;
      [|by apply simplifier_check_state_not_Err in Hc2
       |by apply simplifier_check_state_not_OutOfFuel in Hc2].
    pose proof (simplifier_remove_ancestry_emit _ _ _ _ _ Hrem) as He.
    split; [|done]. destruct Hinv as [Hi Hadv]. constructor.
    - by eapply simplifier_remove_ancestry_inv.
    - injection He as -> _ _. done. }
  match type of Hstep with match ?m with _ => _ end =>
    destruct m as [self1| | |] end; simpl; try done.
  destruct Hstep as [Hinv1 He1].
  specialize (IH self1 left right off (S k) Hinv1).
  destruct (run_children self1 left right off n (S k)); try done.
  destruct IH as [? He]. split; [done|congruence].
Qed.

Lemma simplifier_merge_ancestors_static (self self' : simplifier_t)
    (input_id : node_id_t) :
  simplifier_inv self ->
  simplifier_merge_ancestors qsort self input_id = Ok self' ->
  static_part self' = static_part self.
Proof.
  intros Hinv Hrun. unfold simplifier_merge_ancestors in Hrun.
  apply (merge_loop_ind qsort
    (fun s _ => static_part s = static_part self))
    in Hrun as [_ ?]; [done| |done|done|done].
  intros s c z s' c' z' first Q0 Hinv1 Hz1 Hst HQ Hstep.
  destruct (merge_step_spec qsort _ _ _ _ _ _ _ _ _ Hinv1 Hz1 HQ Hstep)
    as (Hs & _). congruence.
Qed.

Lemma snapshot_time (nodes : node_table_t) (u : node_id_t) (t : double) :
  readz (nt_time (node_table_snapshot nodes)) u = Ok t ->
  t = node_time_of nodes u.
Proof.
  intros H. apply readz_Ok in H as [_ H]. simpl in H.
  apply lookup_take_Some in H as [H _]. unfold node_time_of.
  by rewrite (list_lookup_total_correct _ _ _ H).
Qed.

(** The loop over the rows: it returns 0 when the parent times do not go
    down, RecordsNotTimeSorted when they do, or it stops on an assertion;
    it always comes to its end. *)
Lemma run_rows_post (nodes : node_table_t) (input : edgeset_table_t)
    (n : nat) :
  forall (self : simplifier_t) (j : nat) (current_parent : node_id_t)
    (children_offset : nat),
  run_inv input self ->
  s_input_nodes self = node_table_snapshot nodes ->
  (j + n <= length (et_parent input))%nat ->
  match run_rows qsort self n j current_parent children_offset with
  | Ok (self', _) =>
    run_inv input self'
    /\ s_input_nodes self' = node_table_snapshot nodes
    /\ parents_sorted (node_time_of nodes) current_parent
         (take n (drop j (et_parent input)))
  | Err e =>
    e = MSP_ERR_RECORDS_NOT_TIME_SORTED
    /\ ~ parents_sorted (node_time_of nodes) current_parent
          (take n (drop j (et_parent input)))
  | Crash => True
  | OutOfFuel => False
  end.
Proof.
  induction n as [|n IH]; intros self j cp off Hinv Hnodes Hlen; simpl.
  { done. }
  destruct (assert _) as [[]| | |] eqn:Hassert; simpl; try done;
    [|by apply assert_not_Err in Hassert
     |by apply assert_not_OutOfFuel in Hassert].
  apply assert_Ok, Nat.leb_le in Hassert.
  destruct (read (et_parent _) j) as [parent| | |] eqn:Hparent; simpl;
    try done;
    [|by apply read_not_Err in Hparent
     |by apply read_not_OutOfFuel in Hparent].
  destruct (read (et_left _) j) as [left| | |] eqn:Hleft; simpl; try done;
    [|by apply read_not_Err in Hleft|by apply read_not_OutOfFuel in Hleft].
  destruct (read (et_right _) j) as [right| | |] eqn:Hright; simpl; try done;
    [|by apply read_not_Err in Hright|by apply read_not_OutOfFuel in Hright].
  destruct (read (et_children_length _) j) as [len| | |] eqn:Hclen; simpl;
    try done;
    [|by apply read_not_Err in Hclen|by apply read_not_OutOfFuel in Hclen].
  (* the row is the row of the input *)
  destruct (lookup_lt_is_Some_2 (et_parent input) j ltac:(lia)) as [x Hx].
  assert (parent = x) as ->.
  { destruct Hinv as [_ (_ & _ & Hkeep)].
    apply read_Ok in Hparent. rewrite (Hkeep j x Hassert Hx) in Hparent.
    by injection Hparent. }
  rewrite (drop_S _ _ _ Hx). rewrite firstn_cons.
  cbn [parents_sorted].
  (* the change of parent *)
  match goal with
  | |- context [mbind ?k (if negb (x =? cp) then ?a else ?b)] =>
    set (G := if negb (x =? cp) then a else b)
  end.
  assert (Hgroup :
    match G with
    | Ok (self', cp') =>
      run_inv input self'
      /\ s_input_nodes self' = node_table_snapshot nodes
      /\ node_time_of nodes cp <= node_time_of nodes x
      /\ cp' = x
    | Err e =>
      e = MSP_ERR_RECORDS_NOT_TIME_SORTED
      /\ node_time_of nodes x < node_time_of nodes cp
    | Crash => True
    | OutOfFuel => False
    end).
  { subst G. destruct (Z.eqb_spec x cp) as [->|Hne]; simpl.
    { split_and!; try done; lia. }
    destruct (simplifier_check_state self) as [[]| | |] eqn:Hc1; simpl;
      try done;
      [|by apply simplifier_check_state_not_Err in Hc1
       |by apply simplifier_check_state_not_OutOfFuel in Hc1].
    destruct (simplifier_merge_ancestors qsort self cp) as [self1| | |]
      eqn:Hmerge; simpl; try done;
      [|by apply simplifier_merge_ancestors_not_Err in Hmerge|].
    2:{ destruct Hinv as [Hi (Hok & _)].
        by apply simplifier_merge_ancestors_not_OutOfFuel in Hmerge. }
    pose proof (run_inv_merge _ _ _ _ Hinv Hmerge) as Hinv1.
    assert (Hnodes1 : s_input_nodes self1 = node_table_snapshot nodes).
    { destruct Hinv as [Hi _].
      pose proof (simplifier_merge_ancestors_static _ _ _ Hi Hmerge) as Hs.
      injection Hs as _ _ _ _ _ _ Hin _. congruence. }
    destruct (assert _) as [[]| | |] eqn:Hempty; simpl; try done;
      [|by apply assert_not_Err in Hempty
       |by apply assert_not_OutOfFuel in Hempty].
    rewrite Hnodes1.
    destruct (readz _ cp) as [t_current| | |] eqn:Htc; simpl; try done;
      [|by apply readz_not_Err in Htc|by apply readz_not_OutOfFuel in Htc].
    destruct (readz _ x) as [t_parent| | |] eqn:Htp; simpl; try done;
      [|by apply readz_not_Err in Htp|by apply readz_not_OutOfFuel in Htp].
    apply snapshot_time in Htc as ->. apply snapshot_time in Htp as ->.
    destruct (Z.ltb_spec (node_time_of nodes x) (node_time_of nodes cp));
      [done|]. split_and!; try done. }
  destruct G as [[self1 cp1]|e| |]; simpl; try done.
  2:{ destruct Hgroup as [-> Hlt]. split; [done|]. intros [? _]. lia. }
  destruct Hgroup as (Hinv1 & Hnodes1 & Htime & ->).
  pose proof (run_children_post input len self1 left right off 0 Hinv1)
    as Hchildren.
  destruct (run_children self1 left right off len 0) as [self2| | |]
    eqn:Hrun; simpl; try done.
  destruct Hchildren as [Hinv2 _].
  assert (Hnodes2 : s_input_nodes self2 = node_table_snapshot nodes).
  { apply run_children_step in Hrun as (Hs & _).
    injection Hs as _ _ _ _ _ _ Hin _. congruence. }
  specialize (IH self2 (S j) x (off + len)%nat Hinv2 Hnodes2 ltac:(lia)).
  destruct (run_rows qsort self2 n (S j) x (off + len)) as [[self3 cp3]|e| |];
    try done.
  - destruct IH as (? & ? & ?). done.
  - destruct IH as [-> Hns]. split; [done|]. intros [_ ?]. done.
Qed.

(** *** The check, row by row *)

Lemma parents_sorted_lookup (time : node_id_t -> double) (ps : list node_id_t) :
  forall cp,
  parents_sorted time cp ps <->
  time cp <= time (default cp (ps !! 0%nat))
  /\ forall i p q, ps !! i = Some p -> ps !! S i = Some q -> time p <= time q.
Proof.
  induction ps as [|p ps IH]; intros cp; simpl.
  - split; [|done]. intros _. split; [lia|]. intros i p q Hp. done.
  - rewrite IH. split.
    + intros (Hcp & Hp & Hrest). split; [done|].
      intros [|i] a b Ha Hb; simpl in *.
      * injection Ha as <-. by rewrite Hb in Hp.
      * by eapply Hrest.
    + intros (Hcp & Hall). split_and!; [done| |].
      * destruct ps as [|q ps]; simpl; [lia|]. by apply (Hall 0%nat).
      * intros i a b Ha Hb. by apply (Hall (S i)).
Qed.

Lemma parents_sorted_table (nodes : node_table_t) (edgesets : edgeset_table_t) :
  (et_num_rows edgesets <= length (et_parent edgesets))%nat ->
  parents_sorted (node_time_of nodes) (et_parent edgesets !!! 0%nat)
    (take (et_num_rows edgesets) (drop 0 (et_parent edgesets)))
  <-> edgesets_time_sorted nodes edgesets.
Proof.
  intros Hlen. rewrite drop_0, parents_sorted_lookup. split.
  - intros [_ Hall] j Hj.
    destruct (lookup_lt_is_Some_2 (et_parent edgesets) j ltac:(lia)) as [p Hp].
    destruct (lookup_lt_is_Some_2 (et_parent edgesets) (S j) ltac:(lia))
      as [q Hq].
    rewrite (list_lookup_total_correct _ _ _ Hp).
    rewrite (list_lookup_total_correct _ _ _ Hq).
    apply (Hall j); rewrite lookup_take_lt by lia; done.
  - intros Hsorted. split.
    + destruct (take _ _ !! 0%nat) as [p|] eqn:Hp; simpl; [|lia].
      apply lookup_take_Some in Hp as [Hp _].
      rewrite (list_lookup_total_correct _ _ _ Hp). lia.
    + intros i p q Hp Hq.
      apply lookup_take_Some in Hp as [Hp _].
      apply lookup_take_Some in Hq as [Hq Hi].
      specialize (Hsorted i Hi).
      rewrite (list_lookup_total_correct _ _ _ Hp) in Hsorted.
      by rewrite (list_lookup_total_correct _ _ _ Hq) in Hsorted.
Qed.

(** ** simplifier_run and the order of the parent times *)

Lemma simplifier_run_sweep_post (nodes : node_table_t) (self : simplifier_t) :
  simplifier_inv self -> edgeset_table_ok (s_edgesets self) ->
  s_input_nodes self = node_table_snapshot nodes ->
  match simplifier_run_sweep qsort self with
  | Ok self' =>
    edgeset_table_ok (s_edgesets self')
    /\ edgesets_time_sorted nodes (s_edgesets self)
  | Err e =>
    e = MSP_ERR_RECORDS_NOT_TIME_SORTED
    /\ ~ edgesets_time_sorted nodes (s_edgesets self)
  | Crash => True
  | OutOfFuel => False
  end.
Proof.
  intros Hinv Hok Hnodes. unfold simplifier_run_sweep.
  set (input := edgeset_table_reset (s_edgesets self)).
  set (self0 := set_edgesets self input).
  assert (Hrun0 : run_inv input self0).
  { constructor.
    - by apply (simplifier_inv_ext self).
    - apply edgesets_advance_refl. by apply edgeset_table_reset_ok. }
  destruct Hok as (Hwf & Hinc).
  assert (Hlen : (et_num_rows (s_edgesets self)
                  <= length (et_parent (s_edgesets self)))%nat).
  { destruct Hwf. lia. }
  destruct (Nat.ltb_spec 0 (et_num_rows (s_edgesets self))) as [Hpos|Hzero].
  - destruct (lookup_lt_is_Some_2 (et_parent (s_edgesets self)) 0
                ltac:(lia)) as [cp Hcp].
    change (et_parent (s_edgesets self0)) with (et_parent (s_edgesets self)).
    unfold read at 1. rewrite Hcp. cbn [mbind outcome_mbind outcome_bind].
    pose proof (run_rows_post nodes input (et_num_rows (s_edgesets self))
      self0 0%nat cp 0%nat Hrun0 Hnodes ltac:(simpl; lia)) as Hrows.
    change (et_parent input) with (et_parent (s_edgesets self)) in Hrows.
    pose proof (parents_sorted_table nodes (s_edgesets self) Hlen) as Htable.
    rewrite (list_lookup_total_correct _ _ _ Hcp) in Htable.
    destruct (run_rows qsort self0 _ 0 cp 0) as [[self1 cp1]|e| |];
      cbn [mbind outcome_mbind outcome_bind]; [|by rewrite <- Htable|done|done].
    destruct Hrows as (Hrun1 & Hnodes1 & Hsorted). cbn [mbind outcome_mbind outcome_bind].
    pose proof (simplifier_merge_ancestors_not_Err self1 cp1) as HnoErr.
    pose proof (simplifier_merge_ancestors_not_OutOfFuel qsort self1 cp1
      (ri_inv _ _ Hrun1)) as HnoFuel.
    destruct (simplifier_merge_ancestors qsort self1 cp1) as [self2|e| |]
      eqn:Hmerge;
      [|by destruct (HnoErr e)|done|].
    + cbn [mbind outcome_mbind outcome_bind].
      destruct (bool_decide _); [|done]. cbn [assert mbind outcome_mbind outcome_bind].
      pose proof (simplifier_check_state_not_Err self2) as HnoErr2.
      pose proof (simplifier_check_state_not_OutOfFuel self2) as HnoFuel2.
      destruct (simplifier_check_state self2) as [[]|e| |];
        [|by destruct (HnoErr2 e)|done|done].
      cbn [mbind outcome_mbind outcome_bind]. split; [|by apply Htable].
      by destruct (run_inv_merge input self1 self2 cp1 Hrun1 Hmerge)
        as [_ (? & _)].
    + apply HnoFuel; [|done]. by destruct Hrun1 as [_ (? & _)].
  - split; [by destruct Hrun0 as [_ (? & _)]|]. intros j Hj. lia.
Qed.

Lemma simplifier_run_post (nodes : node_table_t) (self : simplifier_t) :
  simplifier_inv self -> edgeset_table_ok (s_edgesets self) ->
  s_input_nodes self = node_table_snapshot nodes ->
  match simplifier_run qsort self with
  | Ok self' => edgesets_time_sorted nodes (s_edgesets self)
  | Err e =>
    (e = MSP_ERR_RECORDS_NOT_TIME_SORTED
     /\ ~ edgesets_time_sorted nodes (s_edgesets self))
    \/ (e = MSP_ERR_BAD_PARAM_VALUE
        /\ edgesets_time_sorted nodes (s_edgesets self))
  | Crash => True
  | OutOfFuel => False
  end.
Proof.
  intros Hinv Hok Hnodes. unfold simplifier_run.
  pose proof (simplifier_run_sweep_post nodes self Hinv Hok Hnodes) as Hsweep.
  destruct (simplifier_run_sweep qsort self) as [self1|e| |];
    [|by left|done|done].
  destruct Hsweep as ((_ & _ & Hinc) & Hsorted). cbn [mbind outcome_mbind outcome_bind].
  set (last := s_last_edgeset self1).
  pose proof (edgeset_table_add_row_not_OutOfFuel (s_edgesets self1)
    (le_left last) (le_right last) (le_parent last) (le_children last)
    (le_children_length last) Hinc) as HnoFuel.
  pose proof (edgeset_table_add_row_Err (s_edgesets self1)
    (le_left last) (le_right last) (le_parent last) (le_children last)
    (le_children_length last)) as HErr.
  destruct (edgeset_table_add_row _ _ _ _ _ _) as [t|e| |]; [done| |done|done].
  right. by destruct (HErr e eq_refl) as [_ ->].
Qed.

End Run.

(** * The rows that the run records *)

(** ** Rows in order *)

Lemma merge_sort_sorted_id (l : list Z) :
  StronglySorted Z.le l -> merge_sort Z.le l = l.
Proof.
  intros Hl. apply (StronglySorted_unique_strong Z.le).
  - intros; lia.
  - apply (@StronglySorted_merge_sort Z Z.le _ _ _).
  - done.
  - apply merge_sort_Permutation.
Qed.

Lemma squashable_sorted (a b : edgeset_t) :
  children_sorted a -> children_sorted b ->
  squashable a b ->
  edgeset_parent a = edgeset_parent b
  /\ edgeset_children a = edgeset_children b
  /\ edgeset_right a = edgeset_left b.
Proof.
  intros Ha Hb (Hp & Hc & Hr). unfold sorted_children in Hc.
  rewrite !merge_sort_sorted_id in Hc by done. done.
Qed.

Lemma no_adjacent_squashable_nil : no_adjacent_squashable [].
Proof. intros i a b Ha. done. Qed.

Lemma no_adjacent_squashable_snoc (rows : list edgeset_t) (b : edgeset_t) :
  no_adjacent_squashable rows ->
  (forall a, last rows = Some a -> ~ squashable a b) ->
  no_adjacent_squashable (rows ++ [b]).
Proof.
  intros Hrows Hlast i x y Hx Hy.
  destruct (decide (S i < length rows)%nat) as [Hi|Hi].
  - rewrite lookup_app_l in Hx, Hy by lia. by eapply Hrows.
  - assert (Hlen : (i < length rows)%nat).
    { apply lookup_lt_Some in Hx. rewrite length_app in Hx. simpl in Hx.
      apply lookup_lt_Some in Hy. rewrite length_app in Hy. simpl in Hy. lia. }
    rewrite lookup_app_l in Hx by lia.
    rewrite lookup_app_r in Hy by lia.
    replace (S i - length rows)%nat with 0%nat in Hy by lia.
    injection Hy as <-. apply Hlast. rewrite last_lookup.
    by replace (pred (length rows)) with i by lia.
Qed.

(** The right end of the last row does not matter to the row before it. *)
Lemma no_adjacent_squashable_right (rows : list edgeset_t) (a : edgeset_t)
    (right : double) :
  no_adjacent_squashable (rows ++ [a]) ->
  no_adjacent_squashable
    (rows ++ [mk_edgeset (edgeset_left a) right (edgeset_parent a)
                (edgeset_children a)]).
Proof.
  intros Hrows i x y Hx Hy.
  assert (Hlen : (S i <= length rows)%nat).
  { apply lookup_lt_Some in Hy. rewrite length_app in Hy. simpl in Hy. lia. }
  rewrite lookup_app_l in Hx by lia.
  destruct (decide (S i < length rows)%nat) as [Hi|Hi].
  - rewrite lookup_app_l in Hy by lia.
    apply (Hrows i x y); rewrite lookup_app_l by lia; done.
  - rewrite lookup_app_r in Hy by lia.
    replace (S i - length rows)%nat with 0%nat in Hy by lia.
    injection Hy as <-. intros (Hp & Hc & Hr).
    apply (Hrows i x a).
    + by rewrite lookup_app_l by lia.
    + rewrite lookup_app_r by lia.
      by replace (S i - length rows)%nat with 0%nat by lia.
    + done.
Qed.

Lemma rows_ok_nil (lo hi : Z) : rows_ok lo hi [].
Proof.
  constructor; [constructor|constructor|constructor|].
  apply no_adjacent_squashable_nil.
Qed.

Lemma rows_ok_mono (lo hi hi' : Z) (rows : list edgeset_t) :
  hi <= hi' -> rows_ok lo hi rows -> rows_ok lo hi' rows.
Proof.
  intros Hhi [Hsorted Hparents Hchildren Hsquash]. constructor; try done.
  eapply Forall_impl; [exact Hparents|]. simpl. intros a Ha. lia.
Qed.

Lemma rows_ok_snoc (lo hi : Z) (rows : list edgeset_t) (b : edgeset_t) :
  rows_ok lo hi rows ->
  Forall (key_before (edgeset_parent b) (edgeset_left b)) rows ->
  lo <= edgeset_parent b < hi ->
  children_sorted b ->
  (forall a, last rows = Some a -> ~ squashable a b) ->
  rows_ok lo hi (rows ++ [b]).
Proof.
  intros [Hsorted Hparents Hchildren Hsquash] Hbefore Hb Hcb Hlast.
  constructor.
  - apply StronglySorted_app_2; [|done|repeat constructor].
    intros x y Hx Hy. apply list_elem_of_singleton in Hy as ->.
    rewrite Forall_forall in Hbefore. by apply Hbefore.
  - apply Forall_app. split; [done|]. by apply Forall_singleton.
  - apply Forall_app. split; [done|]. by apply Forall_singleton.
  - by apply no_adjacent_squashable_snoc.
Qed.

Lemma rows_ok_right (lo hi : Z) (rows : list edgeset_t) (a : edgeset_t)
    (right : double) :
  rows_ok lo hi (rows ++ [a]) ->
  rows_ok lo hi
    (rows ++ [mk_edgeset (edgeset_left a) right (edgeset_parent a)
                (edgeset_children a)]).
Proof.
  intros [Hsorted Hparents Hchildren Hsquash].
  apply StronglySorted_app in Hsorted as (Hcross & Hrows & _).
  apply Forall_app in Hparents as [Hparents Ha].
  apply Forall_app in Hchildren as [Hchildren Hca].
  rewrite Forall_singleton in Ha, Hca.
  constructor.
  - apply StronglySorted_app_2; [|done|repeat constructor].
    intros x y Hx Hy. apply list_elem_of_singleton in Hy as ->.
    apply (Hcross x a); [done|]. by apply list_elem_of_singleton.
  - apply Forall_app. split; [done|]. by apply Forall_singleton.
  - apply Forall_app. split; [done|]. by apply Forall_singleton.
  - by apply no_adjacent_squashable_right.
Qed.

(** ** The frame of the invariant *)

Lemma emitted_ext (self self' : simplifier_t) :
  emit_part self' = emit_part self -> emitted self' = emitted self.
Proof. unfold emit_part, emitted. by intros [= -> -> _]. Qed.

Lemma emit_inv_ext (num_samples : nat) (T : double)
    (self self' : simplifier_t) :
  emit_part self' = emit_part self ->
  emit_inv num_samples T self -> emit_inv num_samples T self'.
Proof.
  intros He [? ? ? ? ? ? ? ?].
  pose proof (emitted_ext _ _ He) as Hrows.
  unfold emit_part in He. injection He as He Hl Hn.
  constructor; rewrite ?He, ?Hl, ?Hn, ?Hrows; done.
Qed.

Lemma emit_inv_later (num_samples : nat) (T T' : double) (self : simplifier_t) :
  T <= T' -> emit_inv num_samples T self -> emit_inv num_samples T' self.
Proof.
  intros HT [? ? ? ? ? ? ? [Hs Hb]]. constructor; try done.
  constructor; [done|]. intros u Hu Hlt. specialize (Hb u Hu Hlt). lia.
Qed.

(** ** simplifier_record_edgeset *)

Lemma buffer_rows_full (left right : double) (parent : node_id_t)
    (children : list node_id_t) (n : nat) :
  n = length children -> n <> 0%nat ->
  buffer_rows (mk_last_edgeset left right parent children n)
  = [mk_edgeset left right parent children].
Proof.
  intros -> Hn. unfold buffer_rows. simpl.
  destruct (Nat.eqb_spec (length children) 0); [done|].
  by rewrite firstn_all.
Qed.

Lemma buffer_rows_last (last : last_edgeset_t) :
  le_children_length last = length (le_children last) ->
  le_children_length last <> 0%nat ->
  buffer_rows last
  = [mk_edgeset (le_left last) (le_right last) (le_parent last)
       (le_children last)].
Proof. destruct last. simpl. intros. by apply buffer_rows_full. Qed.

Lemma edgeset_table_rows_empty (t : edgeset_table_t) :
  et_num_rows t = 0%nat -> edgeset_table_rows t = [].
Proof. unfold edgeset_table_rows. by intros ->. Qed.

Section Emit.

Variable qsort : forall A : Type, (A -> A -> Z) -> list A -> list A.
Hypothesis qsort_ok : qsort_contract qsort.

Lemma qsort_children_sorted (children : list node_id_t) :
  StronglySorted Z.le (qsort _ cmp_node_id children).
Proof.
  destruct qsort_ok as [_ Hsorted].
  eapply StronglySorted_mono; [|apply Hsorted, cmp_node_id_consistent].
  intros x y. apply cmp3_le.
Qed.

(** A record either starts the buffer, or is squashed into the row of the
    buffer, or sends that row to the table and takes its place. *)
Lemma simplifier_record_edgeset_emit (num_samples : nat) (T : double)
    (self self' : simplifier_t) (left right : double) (parent : node_id_t)
    (children : list node_id_t) :
  emit_inv num_samples T self ->
  (0 < length children)%nat ->
  Z.of_nat num_samples <= parent < Z.of_nat (nt_num_rows (s_nodes self)) ->
  Forall (key_before parent left) (emitted self) ->
  simplifier_record_edgeset qsort self left right parent children
    (length children) = Ok self' ->
  emit_inv num_samples T self'
  /\ Forall (fun a => edgeset_parent a < parent
                      \/ (edgeset_parent a = parent /\ edgeset_left a <= left))
       (emitted self').
Proof.
  intros [Hok Hnodes Hids Hsamples Hbuffer Hfirst Hrows Htimes] Hlen Hparent
    Hbefore.
  unfold simplifier_record_edgeset.
  set (cs := qsort _ cmp_node_id children).
  assert (Hcs : length cs = length children) by by apply qsort_length.
  assert (Hsorted : StronglySorted Z.le cs) by apply qsort_children_sorted.
  set (new := mk_edgeset left right parent cs).
  assert (Hweak : Forall (fun a => edgeset_parent a < parent
                     \/ (edgeset_parent a = parent /\ edgeset_left a <= left))
                    (emitted self)).
  { eapply Forall_impl; [exact Hbefore|]. intros a [?|[? ?]]; [by left|].
    right. split; [done|lia]. }
  assert (Hsnoc : (forall a, last (emitted self) = Some a ->
                     ~ squashable a new) ->
    rows_ok (Z.of_nat num_samples) (Z.of_nat (nt_num_rows (s_nodes self)))
      (emitted self ++ [new])
    /\ Forall (fun a => edgeset_parent a < parent
                 \/ (edgeset_parent a = parent /\ edgeset_left a <= left))
         (emitted self ++ [new])).
  { intros Hlast. split.
    - by apply rows_ok_snoc.
    - apply Forall_app. split; [done|]. apply Forall_singleton. simpl.
      right. split; [done|lia]. }
  destruct (Nat.eqb_spec (le_children_length (s_last_edgeset self)) 0)
    as [Hempty|Hfull].
  - (* the first record *)
    intros [= <-].
    assert (Hnone : emitted self = []).
    { unfold emitted, buffer_rows. rewrite Hempty. simpl.
      rewrite edgeset_table_rows_empty by auto. done. }
    assert (Hnew : emitted (set_last_edgeset self
              (mk_last_edgeset left right parent cs (length children)))
            = emitted self ++ [new]).
    { rewrite Hnone. unfold emitted. simpl.
      rewrite edgeset_table_rows_empty by auto.
      rewrite buffer_rows_full by lia. done. }
    rewrite Hnew. destruct Hsnoc as [Hrows' Hkeys'].
    { intros a. by rewrite Hnone. }
    split; [|done]. constructor; simpl; rewrite ?Hnew; try done. lia.
  - specialize (Hbuffer Hfull).
    pose proof (buffer_rows_last _ Hbuffer Hfull) as Hbuf.
    set (buf := mk_edgeset (le_left (s_last_edgeset self))
                  (le_right (s_last_edgeset self))
                  (le_parent (s_last_edgeset self))
                  (le_children (s_last_edgeset self))) in *.
    assert (Hemitted : emitted self
                       = edgeset_table_rows (s_edgesets self) ++ [buf]).
    { unfold emitted. by rewrite Hbuf. }
    match goal with |- context [if ?c then Ok ?a else ?b] =>
      destruct c eqn:Htest end.
    + (* squashed *)
      intros [= <-].
      assert (Hnew : emitted (set_last_edgeset self
                (mk_last_edgeset (le_left (s_last_edgeset self)) right
                   (le_parent (s_last_edgeset self))
                   (le_children (s_last_edgeset self))
                   (le_children_length (s_last_edgeset self))))
              = edgeset_table_rows (s_edgesets self)
                ++ [mk_edgeset (edgeset_left buf) right (edgeset_parent buf)
                      (edgeset_children buf)]).
      { unfold emitted. simpl. by rewrite buffer_rows_full. }
      rewrite Hnew. split.
      * constructor; simpl; rewrite ?Hnew; try done.
        rewrite Hemitted in Hrows. by apply rows_ok_right.
      * rewrite Hemitted in Hweak. apply Forall_app in Hweak as [Hw1 Hw2].
        apply Forall_app. split; [done|].
        rewrite Forall_singleton in Hw2 |- *. done.
    + (* a new row *)
      intros H. apply bind_Ok in H as (edgesets & Hadd & H).
      injection H as <-.
      apply edgeset_table_add_row_Ok in Hadd
        as (Hok' & Hnum & _ & Hrows'); [|done].
      specialize (Hrows' ltac:(lia)).
      rewrite Hbuffer, firstn_all in Hrows'. fold buf in Hrows'.
      assert (Hnew : emitted (set_last_edgeset (set_edgesets self edgesets)
                (mk_last_edgeset left right parent cs (length children)))
              = emitted self ++ [new]).
      { unfold emitted at 1. simpl. rewrite Hrows', Hemitted.
        rewrite buffer_rows_full by lia. done. }
      rewrite Hnew. destruct Hsnoc as [Hrows2 Hkeys2].
      { intros a. rewrite Hemitted, last_snoc. intros [= <-] Hsq.
        apply squashable_sorted in Hsq; [|
          |done].
        2:{ destruct Hrows as [_ _ Hchildren _]. rewrite Hemitted in Hchildren.
            apply Forall_app in Hchildren as [_ Hc].
            by rewrite Forall_singleton in Hc. }
        simpl in Hsq. destruct Hsq as (Hp & Hc & Hr).
        rewrite Hbuffer, Hc, Hcs, Nat.eqb_refl in Htest.
        rewrite Hr, Hp, !Z.eqb_refl in Htest. simpl in Htest.
        by rewrite bool_decide_eq_true_2 in Htest. }
      split; [|done]. constructor; simpl; rewrite ?Hnew; try done; lia.
Qed.

End Emit.

(** ** simplifier_record_node *)

Lemma node_table_rows_time (t t' : node_table_t) (extra : list node_t)
    (u : nat) :
  node_table_rows t' = node_table_rows t ++ extra ->
  (u < nt_num_rows t)%nat ->
  nt_time t' !!! u = nt_time t !!! u.
Proof.
  intros Hrows Hu.
  assert (Hu' : (u < nt_num_rows t')%nat).
  { rewrite <- (node_table_rows_length t'), Hrows, length_app,
      node_table_rows_length. lia. }
  pose proof (node_table_rows_lookup t' u Hu') as H'.
  rewrite Hrows, lookup_app_l in H'
    by (rewrite node_table_rows_length; lia).
  rewrite node_table_rows_lookup in H' by done.
  by injection H'.
Qed.

Lemma node_table_rows_time_new (t t' : node_table_t) (row : node_t) :
  node_table_rows t' = node_table_rows t ++ [row] ->
  nt_num_rows t' = S (nt_num_rows t) ->
  nt_time t' !!! nt_num_rows t = node_time row.
Proof.
  intros Hrows Hnum.
  pose proof (node_table_rows_lookup t' (nt_num_rows t) ltac:(lia)) as H'.
  rewrite Hrows, lookup_app_r in H'
    by (rewrite node_table_rows_length; lia).
  rewrite node_table_rows_length, Nat.sub_diag in H'.
  injection H' as ->. done.
Qed.

(** The node of a parent is recorded after the nodes of the parents before
    it, which are not younger. *)
Lemma simplifier_record_node_emit_inv (num_samples : nat) (T : double)
    (self self' : simplifier_t) (input_id : node_id_t) :
  emit_inv num_samples T self -> snapshot_ok self ->
  T = nt_time (s_input_nodes self) !!! Z.to_nat input_id ->
  simplifier_record_node self input_id = Ok self' ->
  emit_inv num_samples T self'
  /\ nt_num_rows (s_nodes self') = S (nt_num_rows (s_nodes self))
  /\ emitted self' = emitted self.
Proof.
  intros [Hok Hnodes Hids Hsamples Hbuffer Hfirst Hrows [Hsorted Hbound]]
    Hsnap HT Hrec.
  apply simplifier_record_node_Ok in Hrec; [|done|done].
  destruct Hrec as (_ & nodes' & -> & Hwf' & Hrows' & Hnum & _ & Hmax & _).
  assert (Hold : forall u, (u < nt_num_rows (s_nodes self))%nat ->
            nt_time nodes' !!! u = nt_time (s_nodes self) !!! u).
  { intros u Hu. by eapply node_table_rows_time. }
  assert (Hnew : nt_time nodes' !!! nt_num_rows (s_nodes self) = T).
  { rewrite (node_table_rows_time_new _ _ _ Hrows' Hnum). by rewrite HT. }
  split_and!; [|done|done].
  constructor; simpl; try done.
  - by rewrite Hmax.
  - lia.
  - eapply rows_ok_mono; [|exact Hrows]. fold (emitted self). lia.
  - constructor; unfold double in *.
    + intros u v Hu Huv Hv.
      destruct (decide (v = nt_num_rows (s_nodes self))) as [->|Hne].
      * rewrite Hnew.
        destruct (decide (u = nt_num_rows (s_nodes self))) as [->|Hne'];
          [rewrite ?Hnew; lia|].
        rewrite Hold by lia. apply Hbound; lia.
      * rewrite !Hold by lia. apply Hsorted; lia.
    + intros u Hu Hlt.
      destruct (decide (u = nt_num_rows (s_nodes self))) as [->|Hne];
        [rewrite Hnew; lia|].
      rewrite Hold by lia. apply Hbound; lia.
Qed.

(** ** simplifier_merge_ancestors *)

Lemma emit_part_nodes (self self' : simplifier_t) :
  emit_part self' = emit_part self -> s_nodes self' = s_nodes self.
Proof. unfold emit_part. by intros [= _ _ ->]. Qed.

Lemma static_part_input_nodes (self self' : simplifier_t) :
  static_part self' = static_part self ->
  s_input_nodes self' = s_input_nodes self.
Proof. unfold static_part. by intros [= _ _ _ _ _ _ -> _]. Qed.

Lemma key_before_later (parent : node_id_t) (left left' : double)
    (a : edgeset_t) :
  left <= left' -> key_before parent left a -> key_before parent left' a.
Proof. intros Hle [?|[? ?]]; [by left|]. right. split; [done|lia]. Qed.

Section EmitMerge.

Variable qsort : forall A : Type, (A -> A -> Z) -> list A -> list A.
Hypothesis qsort_ok : qsort_contract qsort.

Lemma merge_step_emit (num_samples : nat) (T : double) (n0 : nat)
    (self self' : simplifier_t) (input_id : node_id_t) (c c' : bool)
    (z z' : option simplify_segment_t) (first : queue_item)
    (Q0 : list queue_item) :
  T = nt_time (s_input_nodes self) !!! Z.to_nat input_id ->
  simplifier_inv self -> z_inv self input_id z ->
  merge_emit_inv num_samples T n0 self c ->
  s_merge_queue self = first :: Q0 ->
  merge_step qsort self input_id c z = Ok (self', c', z') ->
  merge_emit_inv num_samples T n0 self' c'.
Proof.
  intros HT Hinv Hz (Hemit & Hsnap & Hns & Hc) HQ Hstep.
  destruct (merge_step_spec qsort _ _ _ _ _ _ _ _ _ Hinv Hz HQ Hstep)
    as (Hstatic & Hqueue & _ & Hcases).
  destruct Hcases as [[He ->]|(-> & self1 & selfa & s5 & s6 & r & children
    & He1 & Hs1 & Hnode & He5 & Hrec & He' & Hlen & Hlr & _)].
  - (* nothing is recorded *)
    split_and!; [by eapply emit_inv_ext|by eapply snapshot_ok_static|done|].
    rewrite (emit_part_nodes _ _ He). destruct c; [|done].
    destruct Hc as [Hn Hrows]. split; [done|].
    rewrite HQ in Hrows. apply Forall_cons in Hrows as [Hfirst _].
    rewrite (emitted_ext _ _ He).
    eapply Forall_impl; [exact Hqueue|]. intros q Hq. simpl in Hq.
    eapply Forall_impl; [exact Hfirst|]. intros a.
    apply key_before_later. lia.
  - (* a row is recorded *)
    assert (Hemit1 : emit_inv num_samples T self1) by by eapply emit_inv_ext.
    assert (Hsnap1 : snapshot_ok self1) by by eapply snapshot_ok_static.
    assert (Ha : emit_inv num_samples T selfa
                 /\ nt_num_rows (s_nodes selfa) = S n0
                 /\ Forall (key_before (Z.of_nat n0) (seg_left (fst first)))
                      (emitted selfa)).
    { destruct c.
      - subst selfa. destruct Hc as [Hn Hrows].
        rewrite HQ in Hrows. apply Forall_cons in Hrows as [Hfirst _].
        rewrite (emit_part_nodes _ _ He1), (emitted_ext _ _ He1). done.
      - eapply simplifier_record_node_emit_inv in Hnode as (Hea & Hna & Hra);
          [|exact Hemit1|exact Hsnap1
           |by rewrite (static_part_input_nodes _ _ Hs1)].
        rewrite (emit_part_nodes _ _ He1), Hc in Hna.
        split_and!; [done|done|].
        rewrite Hra, (emitted_ext _ _ He1).
        destruct Hemit as [_ _ _ _ _ _ [_ Hparents _ _] _].
        eapply Forall_impl; [exact Hparents|]. intros a Hpa. simpl in Hpa.
        left. lia. }
    destruct Ha as (Hea & Hna & Hra).
    assert (Hv : wrap_int32 (cast_node_id (nt_num_rows (s_nodes selfa)) - 1)
                 = Z.of_nat n0).
    { destruct Hea as [_ [Hle _ _ _ _ _ _ _] Hids _ _ _ _ _].
      rewrite cast_node_id_small by lia.
      rewrite wrap_int32_small by lia. lia. }
    rewrite Hv in Hrec.
    assert (He5' : emit_inv num_samples T s5) by by eapply emit_inv_ext.
    assert (Hrange : Z.of_nat num_samples <= Z.of_nat n0
                     < Z.of_nat (nt_num_rows (s_nodes s5))).
    { rewrite (emit_part_nodes _ _ He5), Hna. lia. }
    assert (Hbefore : Forall (key_before (Z.of_nat n0) (seg_left (fst first)))
                        (emitted s5)).
    { by rewrite (emitted_ext _ _ He5). }
    pose proof (simplifier_record_edgeset_static qsort _ _ _ _ _ _ _ Hrec)
      as [_ Hnodes6].
    assert (Hpos : (0 < length children)%nat) by lia.
    pose proof (simplifier_record_edgeset_emit qsort qsort_ok num_samples T
      s5 s6 _ _ _ _ He5' Hpos Hrange Hbefore Hrec) as [He6 Hkeys].
    split_and!; [by eapply emit_inv_ext|by eapply snapshot_ok_static|done| |].
    + by rewrite (emit_part_nodes _ _ He'), Hnodes6,
        (emit_part_nodes _ _ He5).
    + rewrite (emitted_ext _ _ He').
      eapply Forall_impl; [exact Hqueue|]. intros q Hq. simpl in Hq.
      eapply Forall_impl; [exact Hkeys|]. intros a [?|[? ?]]; [by left|].
      right. split; [done|lia].
Qed.

(** A merge records at most one node, and its rows after the rows of the
    parents before. *)
Lemma simplifier_merge_ancestors_emit (num_samples : nat) (T : double)
    (self self' : simplifier_t) (input_id : node_id_t) :
  T = nt_time (s_input_nodes self) !!! Z.to_nat input_id ->
  simplifier_inv self -> snapshot_ok self ->
  emit_inv num_samples T self ->
  simplifier_merge_ancestors qsort self input_id = Ok self' ->
  emit_inv num_samples T self'.
Proof.
  intros HT Hinv Hsnap Hemit Hrun. unfold simplifier_merge_ancestors in Hrun.
  apply (merge_loop_ind qsort
    (fun s c => static_part s = static_part self
                /\ merge_emit_inv num_samples T (nt_num_rows (s_nodes self))
                     s c))
    in Hrun as [c' [_ [He _]]]; [done| |done|done|].
  - intros s c z s' c' z' first Q0 Hinv1 Hz1 [Hst HI] HQ Hstep. split.
    + destruct (merge_step_spec qsort _ _ _ _ _ _ _ _ _ Hinv1 Hz1 HQ Hstep)
        as (Hs & _). congruence.
    + assert (HT1 : T = nt_time (s_input_nodes s) !!! Z.to_nat input_id)
        by by rewrite (static_part_input_nodes _ _ Hst).
      exact (merge_step_emit num_samples T _ s s' input_id c c' z z' first Q0
               HT1 Hinv1 Hz1 HI HQ Hstep).
  - split; [done|]. split_and!; try done. by destruct Hemit.
Qed.

(** ** simplifier_run *)

Lemma run_rows_emit (input : edgeset_table_t) (num_samples n : nat) :
  forall (self self' : simplifier_t) (j : nat) (cp cp' : node_id_t)
    (children_offset : nat),
  run_inv input self -> snapshot_ok self ->
  emit_inv num_samples (nt_time (s_input_nodes self) !!! Z.to_nat cp) self ->
  run_rows qsort self n j cp children_offset = Ok (self', cp') ->
  run_inv input self' /\ static_part self' = static_part self
  /\ emit_inv num_samples (nt_time (s_input_nodes self) !!! Z.to_nat cp') self'.
Proof.
  induction n as [|n IH]; intros self self' j cp cp' off Hrun Hsnap Hemit H;
    simpl in H.
  - by injection H as <- <-.
  - apply bind_Ok in H as (_ & _ & H).
    apply bind_Ok in H as (parent & _ & H).
    apply bind_Ok in H as (left & _ & H).
    apply bind_Ok in H as (right & _ & H).
    apply bind_Ok in H as (len & _ & H).
    apply bind_Ok in H as ([self1 cp1] & H1 & H).
    apply bind_Ok in H as (self2 & H2 & H).
    assert (Hs1 : run_inv input self1 /\ static_part self1 = static_part self
              /\ emit_inv num_samples
                   (nt_time (s_input_nodes self) !!! Z.to_nat cp1) self1).
    { destruct (negb _).
      - apply bind_Ok in H1 as (_ & _ & H1).
        apply bind_Ok in H1 as (self3 & H3 & H1).
        apply bind_Ok in H1 as (_ & _ & H1).
        apply bind_Ok in H1 as (t1 & Ht1 & H1).
        apply bind_Ok in H1 as (t2 & Ht2 & H1).
        destruct (Z.ltb_spec t2 t1) as [|Hle]; [done|]. injection H1 as <- <-.
        pose proof (simplifier_merge_ancestors_static qsort _ _ _
          (ri_inv _ _ Hrun) H3) as Hst.
        rewrite (static_part_input_nodes _ _ Hst) in Ht1, Ht2.
        apply readz_Ok in Ht1 as [_ Ht1], Ht2 as [_ Ht2].
        split_and!; [by eapply run_inv_merge|done|].
        eapply emit_inv_later;
          [|eapply simplifier_merge_ancestors_emit;
            [reflexivity|exact (ri_inv _ _ Hrun)|done|exact Hemit|exact H3]].
        rewrite (list_lookup_total_correct _ _ _ Ht1).
        by rewrite (list_lookup_total_correct _ _ _ Ht2).
      - by injection H1 as <- <-. }
    destruct Hs1 as (Hrun1 & Hst1 & Hemit1).
    pose proof (run_children_post input len self1 left right off 0%nat
      Hrun1) as Hchildren.
    rewrite H2 in Hchildren. destruct Hchildren as [Hrun2 He2].
    pose proof (run_children_step _ _ _ _ _ _ _ H2) as (Hst2 & _).
    assert (Hin2 : s_input_nodes self2 = s_input_nodes self).
    { rewrite (static_part_input_nodes _ _ Hst2).
      by apply static_part_input_nodes. }
    apply IH in H; [|done| |].
    + rewrite Hin2 in H. destruct H as (? & Hst & ?).
      split_and!; [done| |done]. congruence.
    + eapply snapshot_ok_static; [|exact Hsnap]. congruence.
    + rewrite Hin2. by eapply emit_inv_ext.
Qed.

Lemma simplifier_run_sweep_emit (num_samples : nat)
    (self self' : simplifier_t) :
  simplifier_inv self -> snapshot_ok self ->
  edgeset_table_ok (s_edgesets self) ->
  node_table_wf (s_nodes self) ->
  Z.of_nat (nt_max_rows (s_nodes self)) < 2 ^ 31 ->
  nt_num_rows (s_nodes self) = num_samples ->
  le_children_length (s_last_edgeset self) = 0%nat ->
  simplifier_run_sweep qsort self = Ok self' ->
  exists T, emit_inv num_samples T self'.
Proof.
  intros Hinv Hsnap Hok Hnodes Hids Hnum Hlast. unfold simplifier_run_sweep.
  set (input := edgeset_table_reset (s_edgesets self)).
  set (self0 := set_edgesets self input).
  assert (Hrun0 : run_inv input self0).
  { constructor.
    - by apply (simplifier_inv_ext self).
    - apply edgesets_advance_refl. by apply edgeset_table_reset_ok. }
  assert (Hsnap0 : snapshot_ok self0) by by destruct Hsnap.
  assert (Hemit0 : forall T, emit_inv num_samples T self0).
  { intros T. constructor; simpl; try done.
    - by apply edgeset_table_reset_ok.
    - lia.
    - unfold emitted, buffer_rows. simpl. rewrite Hlast. simpl.
      apply rows_ok_nil.
    - constructor; intros; lia. }
  destruct (Nat.ltb 0 (et_num_rows (s_edgesets self))).
  - intros H. apply bind_Ok in H as (cp & _ & H).
    apply bind_Ok in H as ([self1 cp1] & Hrows & H).
    apply bind_Ok in H as (self2 & Hmerge & H).
    apply bind_Ok in H as (_ & _ & H).
    apply bind_Ok in H as (_ & _ & H). injection H as <-.
    apply (run_rows_emit input num_samples) in Hrows
      as (Hrun1 & Hst1 & Hemit1); [|done|done|apply Hemit0].
    eexists. eapply simplifier_merge_ancestors_emit;
      [reflexivity|exact (ri_inv _ _ Hrun1)
      |by eapply snapshot_ok_static| |exact Hmerge].
    by rewrite (static_part_input_nodes _ _ Hst1).
  - intros [= <-]. exists 0. apply Hemit0.
Qed.

(** What [simplifier_run] leaves in the output tables. *)
Lemma simplifier_run_emit (num_samples : nat) (self self' : simplifier_t) :
  simplifier_inv self -> snapshot_ok self ->
  edgeset_table_ok (s_edgesets self) ->
  node_table_wf (s_nodes self) ->
  Z.of_nat (nt_max_rows (s_nodes self)) < 2 ^ 31 ->
  nt_num_rows (s_nodes self) = num_samples ->
  le_children_length (s_last_edgeset self) = 0%nat ->
  simplifier_run qsort self = Ok self' ->
  rows_ok (Z.of_nat num_samples) (Z.of_nat (nt_num_rows (s_nodes self')))
    (edgeset_table_rows (s_edgesets self'))
  /\ exists T, nodes_time_sorted num_samples T (s_nodes self').
Proof.
  intros Hinv Hsnap Hok Hnodes Hids Hnum Hlast H. unfold simplifier_run in H.
  apply bind_Ok in H as (self1 & Hsweep & H).
  apply bind_Ok in H as (edgesets & Hadd & H). injection H as <-.
  destruct (simplifier_run_sweep_emit num_samples _ _ Hinv Hsnap Hok Hnodes
              Hids Hnum Hlast Hsweep)
    as [T [Hok1 Hnodes1 Hids1 Hsamples1 Hbuffer1 Hfirst1 Hrows1 Htimes1]].
  assert (Hfull : le_children_length (s_last_edgeset self1) <> 0%nat).
  { intros Hzero. rewrite Hzero in Hadd. done. }
  apply edgeset_table_add_row_Ok in Hadd as (_ & _ & _ & Hrows); [|done].
  rewrite (Hbuffer1 Hfull) in Hrows at 1. specialize (Hrows ltac:(lia)).
  simpl. split; [|by exists T].
  rewrite Hrows. unfold emitted, buffer_rows in Hrows1.
  destruct (Nat.eqb_spec (le_children_length (s_last_edgeset self1)) 0);
    [done|]. done.
Qed.

End EmitMerge.

(** The order of the parents and of their times gives the order (time,
    parent, left). *)
Lemma rows_ok_edgesets_sorted (num_samples : nat) (T : double)
    (nodes : node_table_t) (rows : list edgeset_t) :
  rows_ok (Z.of_nat num_samples) (Z.of_nat (nt_num_rows nodes)) rows ->
  nodes_time_sorted num_samples T nodes ->
  edgesets_sorted (node_time_of nodes) rows.
Proof.
  intros [Hsorted Hparents _ _] [Htimes _]. unfold edgesets_sorted.
  rewrite <- (list_fmap_id rows).
  eapply (StronglySorted_fmap_on _ id); [|exact Hparents|exact Hsorted].
  intros a b Ha Hb Hab. simpl in *. unfold edgeset_le, node_time_of.
  destruct Hab as [Hlt|[Heq Hleft]].
  - pose proof (Htimes (Z.to_nat (edgeset_parent a))
      (Z.to_nat (edgeset_parent b)) ltac:(lia) ltac:(lia) ltac:(lia)) as Hle.
    unfold double in *.
    destruct (Z.eq_dec (nt_time nodes !!! Z.to_nat (edgeset_parent a))
                (nt_time nodes !!! Z.to_nat (edgeset_parent b)));
      unfold double in *; [right; split; [done|by left]|left; lia].
  - right. rewrite Heq. split; [done|]. right. split; [done|lia].
Qed.

(** ** The checks of simplifier_alloc *)

Lemma example_nodes_wf (rows : list (Z * double)) :
  node_table_wf (example_nodes rows).
Proof.
  constructor; simpl; rewrite ?length_fmap, ?length_replicate; try done.
  - rewrite take_ge by (rewrite length_replicate; lia).
    by rewrite sum_list_replicate, Nat.mul_0_r.
  - lia.
Qed.




(** ** The node table and the site and mutation tables after the run *)

Lemma qsort_merge_run_cherry :
  exists self self',
    simplifier_alloc nodes_cherry edgesets_cherry sites_one mutations_one
      [0; 1] 10 0 = Ok self
    /\ simplifier_run qsort_merge self = Ok self'.
Proof.
  eexists _, _. split; [vm_compute; reflexivity|]. vm_compute. reflexivity.
Qed.

Lemma alloc_state_facts (nodes : node_table_t) (edgesets : edgeset_table_t)
    (sites : site_table_t) (mutations : mutation_table_t)
    (samples : list node_id_t) (L : double) (flags : Z) (self : simplifier_t) :
  node_table_wf nodes ->
  simplifier_alloc nodes edgesets sites mutations samples L flags = Ok self ->
  snapshot_ok self
  /\ node_table_wf (s_nodes self)
  /\ node_table_rows (s_nodes self)
     = (fun s => node_row_at nodes (Z.to_nat s)) <$> samples
  /\ s_sites self = site_table_reset sites
  /\ s_mutations self = mutation_table_reset mutations
  /\ (forall s, s ∈ samples -> sample_in_range nodes s).
Proof.
  intros Hwf H. apply simplifier_alloc_Ok_inv in H; [|done].
  destruct H as (self0 & -> & Hinv & Hsi & Hmu & _ & _ & _ & _ & Hr & _).
  pose proof (snapshot_ok_alloc _ _ _ _ _ Hwf Hinv) as Hsnap.
  destruct Hinv as [Hinput Hoffsets HL Hedgesets Hmaplen Hmapsample Hmapother
    Hnwf Hnrows Hntotal Hnmaxrows Hnmaxname Hheap Hqueue Hlast].
  split_and!; simpl; try done; try congruence.
  destruct Hsnap. by constructor.
Qed.

Section RunFrame.

Variable qsort : forall A : Type, (A -> A -> Z) -> list A -> list A.

(** C3: after a successful run the output node table has at least
    [num_samples] rows, and row [j] is a copy (flags, time, population,
    name) of the input row [samples[j]]. *)
Theorem simplifier_run_samples_first (nodes : node_table_t)
    (edgesets : edgeset_table_t) (sites : site_table_t)
    (mutations : mutation_table_t) (samples : list node_id_t) (L : double)
    (flags : Z) (self self' : simplifier_t) :
  node_table_wf nodes ->
  simplifier_alloc nodes edgesets sites mutations samples L flags = Ok self ->
  simplifier_run qsort self = Ok self' ->
  (length samples <= nt_num_rows (s_nodes self'))%nat
  /\ forall j s, samples !! j = Some s ->
       0 <= s
       /\ exists row, node_table_rows nodes !! Z.to_nat s = Some row
            /\ node_table_rows (s_nodes self') !! j = Some row.
Proof.
  intros Hwf Halloc Hrun.
  destruct (alloc_state_facts _ _ _ _ _ _ _ _ Hwf Halloc)
    as (Hsnap & Hnwf & Hrows & _ & _ & Hrange).
  apply simplifier_run_step in Hrun; [|done].
  destruct Hrun as (_ & _ & Hext). specialize (Hext Hnwf).
  destruct Hext as [_ [extra Hrows'] _ _].
  rewrite Hrows in Hrows'. split.
  - rewrite <- node_table_rows_length, Hrows', length_app, length_fmap.
    unfold node_id_t. lia.
  - intros j s Hj.
    assert (Hs : sample_in_range nodes s).
    { apply Hrange. by eapply list_elem_of_lookup_2. }
    unfold sample_in_range in Hs. split; [lia|].
    exists (node_row_at nodes (Z.to_nat s)). split.
    + apply node_table_rows_lookup. lia.
    + rewrite Hrows'. apply lookup_app_l_Some.
      rewrite list_lookup_fmap. unfold node_id_t in *. by rewrite Hj.
Qed.


End RunFrame.

Lemma simplifier_run_samples_first_witness :
  node_table_wf nodes_cherry
  /\ exists self self',
       simplifier_alloc nodes_cherry edgesets_cherry sites_one mutations_one
         [0; 1] 10 0 = Ok self
       /\ simplifier_run qsort_merge self = Ok self'
       /\ (length [0; 1] <= nt_num_rows (s_nodes self'))%nat.
Proof.
  assert (Hwf : node_table_wf nodes_cherry).
  { constructor; vm_compute; (reflexivity || lia). }
  split; [exact Hwf|].
  eexists _, _. split; [vm_compute; reflexivity|].
  split; [vm_compute; reflexivity|].
  eapply (simplifier_run_samples_first qsort_merge nodes_cherry edgesets_cherry
            sites_one mutations_one [0; 1] 10 0 _ _ Hwf).
  - vm_compute; reflexivity.
  - vm_compute; reflexivity.
Defined.


(** ** The flush of the last edgeset *)

Lemma edgeset_table_add_row_empty (self : edgeset_table_t) (left right : double)
    (parent : node_id_t) (children : list node_id_t) :
  edgeset_table_add_row self left right parent children 0
  = Err MSP_ERR_BAD_PARAM_VALUE.
Proof. done. Qed.

(** When the sweep ends with the squash buffer still empty, the flush
    fails. *)
Lemma simplifier_run_flush_empty
    (qsort : forall A : Type, (A -> A -> Z) -> list A -> list A)
    (self self1 : simplifier_t) :
  simplifier_run_sweep qsort self = Ok self1 ->
  le_children_length (s_last_edgeset self1) = 0%nat ->
  simplifier_run qsort self = Err MSP_ERR_BAD_PARAM_VALUE.
Proof.
  intros Hsweep Hempty. unfold simplifier_run. rewrite Hsweep. simpl.
  rewrite Hempty. done.
Qed.

(** C7: there is an input that [simplifier_alloc] accepts (two valid,
    flagged, distinct samples, non-empty tables) on which [simplifier_run]
    returns BadParam: the sweep ends without a coalescence, the squash
    buffer still has its initial children_length 0, and the final
    [edgeset_table_add_row] rejects it. *)
Theorem simplifier_run_bad_param_without_coalescence :
  exists nodes edgesets sites mutations samples L flags self self1,
    (2 <= length samples)%nat
    /\ (0 < nt_num_rows nodes)%nat /\ (0 < et_num_rows edgesets)%nat
    /\ good_samples nodes samples
    /\ simplifier_alloc nodes edgesets sites mutations samples L flags = Ok self
    /\ simplifier_run_sweep qsort_merge self = Ok self1
    /\ le_children_length (s_last_edgeset self1) = 0%nat
    /\ simplifier_run qsort_merge self = Err MSP_ERR_BAD_PARAM_VALUE.
Proof.
  exists nodes_cherry, edgesets_unary, example_no_sites, example_no_mutations,
    [0; 1], 10, 0.
  eexists _, _. split_and!.
  - simpl. lia.
  - vm_compute. lia.
  - vm_compute. lia.
  - split.
    + apply NoDup_cons. split; [|apply NoDup_singleton].
      intros Hin. apply list_elem_of_singleton in Hin. discriminate.
    + intros s Hs. unfold sample_in_range, sample_flagged.
      apply elem_of_cons in Hs as [->|Hs];
        [vm_compute; split; [split|]; congruence|].
      apply list_elem_of_singleton in Hs as ->.
      vm_compute; split; [split|]; congruence.
  - vm_compute. reflexivity.
  - vm_compute. reflexivity.
  - vm_compute. reflexivity.
  - vm_compute. reflexivity.
Qed.

(** ** The chains stay ordered *)

(** C10: the chains of the ancestor map and of the merge queue are ordered
    (every segment has left < right, and a segment ends before its
    successor begins) in the state that [simplifier_alloc] returns for a
    positive sequence length, and every [simplifier_remove_ancestry] and
    every [simplifier_merge_ancestors] that returns 0 keeps them so.  The
    property is carried by [simplifier_inv], which adds that the segments
    lie inside the sequence and that the queue and the overlap counts are
    in their order. *)
Theorem simplifier_chains_ordered_preserved
    (qsort : forall A : Type, (A -> A -> Z) -> list A -> list A) :
  (forall nodes edgesets sites mutations samples L flags self,
     node_table_wf nodes -> 0 < L ->
     simplifier_alloc nodes edgesets sites mutations samples L flags = Ok self ->
     simplifier_inv self)
  /\ (forall self, simplifier_inv self -> chains_ordered self)
  /\ (forall self left right input_id self',
        simplifier_inv self ->
        simplifier_remove_ancestry self left right input_id = Ok self' ->
        simplifier_inv self')
  /\ (forall self input_id self',
        simplifier_inv self ->
        simplifier_merge_ancestors qsort self input_id = Ok self' ->
        simplifier_inv self').
Proof.
  split_and!.
  - intros. by eapply simplifier_alloc_inv.
  - apply simplifier_inv_chains_ordered.
  - intros. by eapply simplifier_remove_ancestry_inv.
  - intros. by eapply simplifier_merge_ancestors_inv.
Qed.

Lemma simplifier_chains_ordered_preserved_witness :
  exists self self1 self2 self3,
    simplifier_alloc nodes_cherry edgesets_cherry example_no_sites
      example_no_mutations [0; 1] 10 0 = Ok self
    /\ simplifier_remove_ancestry self 0 10 0 = Ok self1
    /\ simplifier_remove_ancestry self1 0 10 1 = Ok self2
    /\ simplifier_merge_ancestors qsort_merge self2 2 = Ok self3
    /\ s_merge_queue self2 = [(mk_segment 0 10 0, []); (mk_segment 0 10 1, [])]
    /\ chains_ordered self2
    /\ chains_ordered self3.
Proof.
  destruct (simplifier_chains_ordered_preserved qsort_merge)
    as (Halloc & Hordered & Hremove & Hmerge).
  let o := eval vm_compute in
    (simplifier_alloc nodes_cherry edgesets_cherry example_no_sites
       example_no_mutations [0; 1] 10 0) in
  match o with Ok ?s => pose (self := s) end.
  let o := eval vm_compute in (simplifier_remove_ancestry self 0 10 0) in
  match o with Ok ?s => pose (self1 := s) end.
  let o := eval vm_compute in (simplifier_remove_ancestry self1 0 10 1) in
  match o with Ok ?s => pose (self2 := s) end.
  let o := eval vm_compute in (simplifier_merge_ancestors qsort_merge self2 2) in
  match o with Ok ?s => pose (self3 := s) end.
  assert (Hinv : simplifier_inv self).
  { apply (Halloc nodes_cherry edgesets_cherry example_no_sites
             example_no_mutations [0; 1] 10 0);
      [apply example_nodes_wf|lia|vm_compute; reflexivity]. }
  assert (Hinv1 : simplifier_inv self1).
  { apply (Hremove self 0 10 0); [exact Hinv|vm_compute; reflexivity]. }
  assert (Hinv2 : simplifier_inv self2).
  { apply (Hremove self1 0 10 1); [exact Hinv1|vm_compute; reflexivity]. }
  assert (Hinv3 : simplifier_inv self3).
  { apply (Hmerge self2 2); [exact Hinv2|vm_compute; reflexivity]. }
  exists self, self1, self2, self3.
  split; [vm_compute; reflexivity|].
  split; [vm_compute; reflexivity|].
  split; [vm_compute; reflexivity|].
  split; [vm_compute; reflexivity|].
  split; [vm_compute; reflexivity|].
  split; apply Hordered; assumption.
Defined.

(** ** sort_tables *)

Lemma example_edgesets_wf
    (rows : list (double * double * node_id_t * list node_id_t)) :
  edgeset_table_wf (example_edgesets rows).
Proof.
  constructor; simpl; rewrite ?length_fmap, ?length_app; simpl; try lia.
  rewrite take_ge by (by rewrite !length_fmap).
  apply length_concat.
Qed.

(** Sortedness of the example tables, by evaluation. *)
Ltac eval_rows :=
  repeat match goal with
  | |- context [edgeset_table_rows ?t] =>
    let r := eval vm_compute in (edgeset_table_rows t) in
    change (edgeset_table_rows t) with r
  | |- context [take ?n ?l] =>
    let r := eval vm_compute in (take n l) in
    change (take n l) with r
  end.

Ltac eval_times :=
  repeat match goal with
  | |- context [node_time_of ?n ?p] =>
    let v := eval vm_compute in (node_time_of n p) in
    change (node_time_of n p) with v
  end.

Ltac sorted_example :=
  unfold edgesets_sorted; eval_rows;
  repeat first [apply SSorted_nil | apply SSorted_cons
               | apply Forall_nil_2 | apply Forall_cons_2];
  unfold children_sorted, edgeset_le, edgeset_lt; simpl; eval_times;
  repeat first [apply SSorted_nil | apply SSorted_cons
               | apply Forall_nil_2 | apply Forall_cons_2];
  try lia.



(** ** Sorter idempotence *)




(** * The time order of the input rows *)

Lemma simplifier_alloc_run_state (nodes : node_table_t)
    (edgesets : edgeset_table_t) (sites : site_table_t)
    (mutations : mutation_table_t) (samples : list node_id_t) (L : double)
    (flags : Z) (self : simplifier_t) :
  node_table_wf nodes -> 0 < L ->
  simplifier_alloc nodes edgesets sites mutations samples L flags = Ok self ->
  simplifier_inv self /\ s_edgesets self = edgesets
  /\ s_input_nodes self = node_table_snapshot nodes.
Proof.
  intros Hwf HL Halloc. split; [by eapply simplifier_alloc_inv|].
  apply simplifier_alloc_Ok_inv in Halloc; [|done].
  destruct Halloc as (self0 & -> & Hinv & _).
  destruct Hinv. done.
Qed.



(** * The output edgesets *)

Lemma simplifier_alloc_emit_state (nodes : node_table_t)
    (edgesets : edgeset_table_t) (sites : site_table_t)
    (mutations : mutation_table_t) (samples : list node_id_t) (L : double)
    (flags : Z) (self : simplifier_t) :
  node_table_wf nodes ->
  simplifier_alloc nodes edgesets sites mutations samples L flags = Ok self ->
  snapshot_ok self /\ s_edgesets self = edgesets
  /\ node_table_wf (s_nodes self)
  /\ nt_max_rows (s_nodes self) = nt_max_rows nodes
  /\ nt_num_rows (s_nodes self) = length samples
  /\ le_children_length (s_last_edgeset self) = 0%nat.
Proof.
  intros Hwf Halloc.
  destruct (alloc_state_facts _ _ _ _ _ _ _ _ Hwf Halloc)
    as (Hsnap & Hnwf & Hrows & _).
  apply simplifier_alloc_Ok_inv in Halloc; [|done].
  destruct Halloc as (self0 & -> & Hinv & _).
  destruct Hinv as [Hinput Hoffsets HL Hedgesets Hmaplen Hmapsample Hmapother
    Hnwf0 Hnrows Hntotal Hnmaxrows Hnmaxname Hheap Hqueue Hlast].
  split_and!; try done.
  apply (f_equal length) in Hrows.
  by rewrite node_table_rows_length, length_fmap in Hrows.
Qed.



(** * The genealogy of the samples *)

Lemma row_covers_true (x : double) (u : node_id_t) (e : edgeset_t) :
  row_covers x u e = true ->
  edgeset_left e <= x < edgeset_right e /\ u ∈ edgeset_children e.
Proof.
  unfold row_covers. intros H.
  apply andb_true_iff in H as [H Hu]. apply andb_true_iff in H as [Hl Hr].
  apply bool_decide_eq_true in Hu. apply Z.leb_le in Hl. apply Z.ltb_lt in Hr.
  done.
Qed.

(** The cases of a row of an explicit list. *)
Ltac case_index i H :=
  destruct i as [|i];
  [simpl in H; injection H as <-
  |simpl in H; first [discriminate H | case_index i H]].

Lemma genealogy_valid_fragments :
  genealogy_valid nodes_fragments edgesets_fragments 10.
Proof.
  split_and!.
  - eval_rows. unfold row_valid.
    repeat first [apply Forall_nil_2 | apply Forall_cons_2]; simpl;
      eval_times; split_and!; try lia;
      repeat first [apply Forall_nil_2 | apply Forall_cons_2];
      eval_times; vm_compute; split_and!; congruence.
  - sorted_example.
  - unfold one_parent. eval_rows. intros i j a b u x Ha Hb Hca Hcb.
    apply row_covers_true in Hca as [Hxa Hua], Hcb as [Hxb Hub].
    case_index i Ha; case_index j Hb; try done; simpl in *; try lia;
      exfalso; set_unfold; lia.
Qed.

(** C1: there are input tables, a genealogy in the order that the
    simplifier reads, on which [simplifier_alloc] and [simplifier_run] return
    0 and the output has lost a common ancestor: at position 1 the samples 0
    and 6 have the root 9 as their most recent common ancestor in the input,
    and none in the output.  The merge for node 8 writes four rows to the
    front of the edgeset table, which is also the input; their eight
    children reach into the children of the last input row, not read yet,
    and the run takes sample 5 for the child 8 of the root. *)
Theorem simplifier_run_loses_mrca :
  exists self self',
    genealogy_valid nodes_fragments edgesets_fragments 10
    /\ simplifier_alloc nodes_fragments edgesets_fragments example_no_sites
         example_no_mutations samples_fragments 10 0 = Ok self
    /\ simplifier_run qsort_merge self = Ok self'
    /\ mrca_at (edgeset_table_rows edgesets_fragments)
         (nt_num_rows nodes_fragments) 1 0 6 = Some 9
    /\ mrca_at (edgeset_table_rows (s_edgesets self'))
         (nt_num_rows (s_nodes self')) 1 0 6 = None
    /\ ~ mrca_preserved nodes_fragments edgesets_fragments samples_fragments
           10 self'.
Proof.
  let o := eval vm_compute in
    (simplifier_alloc nodes_fragments edgesets_fragments example_no_sites
       example_no_mutations samples_fragments 10 0) in
  match o with Ok ?s => pose (self := s) end.
  let o := eval vm_compute in (simplifier_run qsort_merge self) in
  match o with Ok ?s => pose (self' := s) end.
  assert (Hin : mrca_at (edgeset_table_rows edgesets_fragments)
                  (nt_num_rows nodes_fragments) 1 0 6 = Some 9)
    by (vm_compute; reflexivity).
  assert (Hout : mrca_at (edgeset_table_rows (s_edgesets self'))
                   (nt_num_rows (s_nodes self')) 1 0 6 = None)
    by (vm_compute; reflexivity).
  exists self, self'. split_and!.
  - apply genealogy_valid_fragments.
  - vm_compute; reflexivity.
  - vm_compute; reflexivity.
  - exact Hin.
  - exact Hout.
  - intros (out_id & Hsamples & Hsame).
    assert (H0 : 0 ∈ samples_fragments) by (unfold samples_fragments; set_solver).
    assert (H6 : 6 ∈ samples_fragments) by (unfold samples_fragments; set_solver).
    specialize (Hsame 0 6 1 H0 H6 ltac:(lia)).
    rewrite (Hsamples 0%nat 0 eq_refl), (Hsamples 6%nat 6 eq_refl) in Hsame.
    change (Z.of_nat 0) with 0 in Hsame. change (Z.of_nat 6) with 6 in Hsame.
    rewrite Hout, Hin in Hsame. discriminate Hsame.
Qed.

